(** * postgres_playground: the pool wrapper, the scoped transaction and the
      batch / lock / notify examples, embedded and verified.

    The Go sources talk to PostgreSQL through pgx.  A Go function is
    embedded as a finite interaction tree [Prog]: every call that leaves
    the repository (pgxpool, pgx.Tx, pgx.Batch, channels, the logger) is a
    [Cmd] node whose answer is supplied by a handler, and the Go control
    flow around the calls (early returns, [defer], [recover], [panic],
    [log.Fatal]) is written out with the combinators of module [Go].
    Running a program against a handler yields its outcome, the final
    state of the handler and the trace of calls with their answers. *)

From Stdlib Require Import String Ascii List ZArith Lia Bool Arith PeanoNat Permutation.
From Stdlib Require Import DecimalString HexadecimalString.
Import ListNotations.
Local Open Scope string_scope.
Local Open Scope list_scope.

(* ===================================================================== *)
(** ** Go runtime notions used by the sources *)
(* ===================================================================== *)

Module Go.

(** Go's [error] values as the sources build them: a leaf error (the
    [errors.New] / driver kind, identified by its text) or the
    [*fmt.wrapError] that [fmt.Errorf] returns for a format with one
    [%w] verb: the rendered message and the wrapped operand. *)
Inductive error : Type :=
| errorString (s : string)
| wrapError (msg : string) (err : error).

(** [err.Error()] *)
Definition Error (e : error) : string :=
  match e with
  | errorString s => s
  | wrapError msg _ => msg
  end.

(** [errors.Unwrap(err)] *)
Definition Unwrap (e : error) : option error :=
  match e with
  | errorString _ => None
  | wrapError _ err => Some err
  end.

Definition error_eq_dec (a b : error) : {a = b} + {a <> b}.
Proof. decide equality; apply string_dec. Defined.

Definition error_eqb (a b : error) : bool :=
  if error_eq_dec a b then true else false.

(** [errors.Is(err, target)]: walks the [Unwrap] chain of [err] and
    compares each link with [target]. *)
Fixpoint errors_Is (err target : error) : bool :=
  if error_eqb err target then true
  else match err with
       | errorString _ => false
       | wrapError _ inner => errors_Is inner target
       end.

(** [fmt.Errorf(prefix + "%w", err)] *)
Definition Errorf_w (prefix : string) (err : error) : error :=
  wrapError (prefix ++ Error err) err.

(** [fmt.Errorf(p1 + "%v" + p2 + "%w", v, err)]: the [%v] operand only
    contributes its text, the [%w] operand is the one [Unwrap] returns. *)
Definition Errorf_v_w (p1 : string) (v : error) (p2 : string) (err : error) : error :=
  wrapError (p1 ++ Error v ++ p2 ++ Error err) err.

(** [%d] *)
Definition fmt_d (z : Z) : string :=
  DecimalString.NilZero.string_of_int (Z.to_int z).

Definition upper_ascii (c : ascii) : ascii :=
  let n := nat_of_ascii c in
  if ((97 <=? n) && (n <=? 122))%bool%nat then ascii_of_nat (n - 32) else c.

Fixpoint upper (s : string) : string :=
  match s with
  | EmptyString => EmptyString
  | String c s' => String (upper_ascii c) (upper s')
  end.

(** [%02x] and [%02X] of a non-negative operand *)
Definition fmt_02x (z : Z) : string :=
  let digits := HexadecimalString.NilZero.string_of_uint (N.to_hex_uint (Z.to_N z)) in
  if (String.length digits <? 2)%nat then "0" ++ digits else digits.
Definition fmt_02X (z : Z) : string := upper (fmt_02x z).

(** [strings.Join] *)
Definition strings_Join (l : list string) (sep : string) : string :=
  String.concat sep l.

(** The double quote, and a quoted word, for the JSON texts. *)
Definition dq : string := String (ascii_of_nat 34) EmptyString.
Definition quoted (s : string) : string := dq ++ s ++ dq.

(** Addition in an int64: the sum wraps around. *)
Definition int64_add (a b : Z) : Z :=
  ((a + b + 2 ^ 63) mod 2 ^ 64 - 2 ^ 63)%Z.

(** Values of type [interface{}] that the sources pass as statement
    arguments, print, or raise with [panic].  There is no nil value here:
    a [panic(nil)] reaches [recover] as a non-nil [*runtime.PanicNilError]
    (Go 1.21 and later), which [AErr] covers. *)
Inductive any : Type :=
| AStr (s : string)
| AInt (z : Z)
| ABool (b : bool)
| AErr (e : error)
| AStrs (l : list string)
| ARatio (num den : Z).   (* float64(num) / float64(den), left unevaluated *)

(** time.Duration: nanoseconds in an int64. *)
Definition Duration := Z.
Definition Second : Duration := 1000000000%Z.
Definition Minute : Duration := (60 * Second)%Z.
Definition Hour : Duration := (60 * Minute)%Z.

End Go.
Import Go.

(** A Go result pair [(T, error)] in which exactly one side is set. *)
Definition result (T : Type) : Type := (T + error)%type.

(* ===================================================================== *)
(** ** The calls that leave the repository *)
(* ===================================================================== *)

(** Handles of driver objects; the driver allocates them. *)
Definition PoolH := nat.      (* *pgxpool.Pool *)
Definition TxH := nat.        (* pgx.Tx *)
Definition ConnH := nat.      (* *pgxpool.Conn *)
Definition BatchResultsH := nat.  (* pgx.BatchResults *)
Definition RowsH := nat.      (* pgx.Rows *)
Definition ChanH := nat.      (* a Go channel *)

(** *pgxpool.Config, the fields that [NewPool] touches. *)
Record PoolConfig : Type := mkPoolConfig {
  ConnString : string;
  pc_MaxConns : Z;
  pc_MinConns : Z;
  pc_MaxConnLifetime : Duration;
  pc_MaxConnIdleTime : Duration;
  BeforeAcquire : option (ConnH -> bool);
  AfterRelease : option (ConnH -> bool)
}.

(** One queued statement of a pgx.Batch. *)
Record QueuedQuery : Type := mkQueued {
  q_sql : string;
  q_args : list any
}.

(** *pgconn.Notification *)
Record Notification : Type := mkNotification {
  Channel : string;
  Payload : string
}.

(** What the seeder draws for one asset row before it builds the serial
    number: [lastSeen] (the clock, set back by up to 72 hours when
    [rand.Float32() > 0.8]), the site ([siteIDs[rand.Intn(len(siteIDs))]])
    and [randomMAC()]. *)
Record AssetPlace : Type := mkAssetPlace {
  ap_lastSeen : Z;
  ap_site : string;
  ap_mac : string
}.

(** What it draws after that: [time.Now().Unix()] and [rand.Intn(99999)]
    for the serial number, [rand.Intn(9999)] for the model, the firmware
    version, the status, [genAssetConfig()] and [genAssetTelemetry()]. *)
Record AssetRest : Type := mkAssetRest {
  ar_unix : Z;
  ar_serial : Z;
  ar_model : Z;
  ar_firmware : string;
  ar_status : string;
  ar_config : string;
  ar_telemetry : string
}.

Inductive Cmd : Type -> Type :=
(* pgxpool *)
| ParseConfig (dsn : string) : Cmd (result PoolConfig)
| NewWithConfig (pc : PoolConfig) : Cmd (result PoolH)
| Ping (p : PoolH) : Cmd (option error)
| PoolClose (p : PoolH) : Cmd unit
| PoolBegin (p : PoolH) : Cmd (result TxH)
| PoolExec (p : PoolH) (sql : string) (args : list any) : Cmd (result Z)
| PoolQuery (p : PoolH) (sql : string) (args : list any) : Cmd (result RowsH)
| PoolQueryRowInt (p : PoolH) (sql : string) : Cmd (result Z)
| PoolQueryRowString (p : PoolH) (sql : string) : Cmd (result string)
| PoolSendBatch (p : PoolH) (b : list QueuedQuery) : Cmd BatchResultsH
| PoolCopyFrom (p : PoolH) (table : string) (columns : list string)
               (rows : list (list any)) : Cmd (result Z)
| PoolAcquire (p : PoolH) : Cmd (result ConnH)
(* pgx.Tx *)
| TxCommit (t : TxH) : Cmd (option error)
| TxRollback (t : TxH) : Cmd (option error)
| TxExec (t : TxH) (sql : string) (args : list any) : Cmd (result Z)
| TxSendBatch (t : TxH) (b : list QueuedQuery) : Cmd BatchResultsH
| TxPrepare (t : TxH) (name sql : string) : Cmd (option error)
(* pgx.BatchResults, pgx.Rows *)
| BrExec (br : BatchResultsH) : Cmd (result Z)
| BrClose (br : BatchResultsH) : Cmd (option error)
| RowsNext (r : RowsH) : Cmd bool
| RowsScanString (r : RowsH) : Cmd (result string)
| RowsClose (r : RowsH) : Cmd unit
(* *pgxpool.Conn *)
| ConnRelease (c : ConnH) : Cmd unit
| ConnExec (c : ConnH) (sql : string) (args : list any) : Cmd (result Z)
| ConnQueryRowBool (c : ConnH) (sql : string) (args : list any) : Cmd (result bool)
| WaitForNotification (c : ConnH) : Cmd (result Notification)
(* channels of notifications and of strings *)
| ChanSendN (ch : ChanH) (n : Notification) : Cmd unit
| ChanRecvN (ch : ChanH) : Cmd (option Notification)
| ChanSendS (ch : ChanH) (s : string) : Cmd unit
| ChanRecvS (ch : ChanH) : Cmd (option string)
| ChanClose (ch : ChanH) : Cmd unit
(* sync.WaitGroup *)
| WgDone : Cmd unit
| WgWait : Cmd unit
(* fmt.Printf, fmt.Println, log.Printf, log.Print: the format with its
   operands *)
| Printf (format : string) (args : list any) : Cmd unit
| Println (line : string) : Cmd unit
| LogPrintf (format : string) (args : list any) : Cmd unit
| LogPrint (args : list any) : Cmd unit
(* the clock: time.Now as nanoseconds since the epoch, Time.Format, time.Sleep *)
| Now : Cmd Z
| TimeFormat (layout : string) (t : Z) : Cmd string
| Sleep (d : Duration) : Cmd unit
(* the seeder's draws from math/rand and the clock: the argument list of
   the INSERT of site [i], one call per row; [rand.Intn(n)]; and, for an
   asset placed at one of [siteIDs], the draws that come before and after
   the slicing of the manufacturer's name *)
| RandomSiteArgs (i : nat) : Cmd (list any)
| RandIntn (n : Z) : Cmd Z
| RandomAssetPlace (siteIDs : list string) : Cmd AssetPlace
| RandomAssetRest : Cmd AssetRest.

(** A call together with the answer it got. *)
Inductive Event : Type :=
| Ev {R : Type} (c : Cmd R) (r : R).

(* ===================================================================== *)
(** ** Programs, and running them *)
(* ===================================================================== *)

Inductive Prog (A : Type) : Type :=
| Ret (a : A)                                 (* return a *)
| Panic (v : any)                             (* panic(v) *)
| Exit (code : Z)                             (* os.Exit(code) *)
| Spin                                        (* a loop that ran out of fuel *)
| Call {R : Type} (c : Cmd R) (k : R -> Prog A).
Arguments Ret {A} a.
Arguments Panic {A} v.
Arguments Exit {A} code.
Arguments Spin {A}.
Arguments Call {A R} c k.

Fixpoint bind {A B : Type} (p : Prog A) (f : A -> Prog B) : Prog B :=
  match p with
  | Ret a => f a
  | Panic v => Panic v
  | Exit c => Exit c
  | Spin => Spin
  | Call c k => Call c (fun r => bind (k r) f)
  end.

Declare Scope prog_scope.
Delimit Scope prog_scope with prog.
Notation "x <- c ;; k" := (bind c (fun x => k))
  (at level 61, c at next level, right associativity) : prog_scope.
Notation "c ;; k" := (bind c (fun _ => k))
  (at level 61, right associativity) : prog_scope.
Local Open Scope prog_scope.

Definition call {R : Type} (c : Cmd R) : Prog R := Call c (fun r => Ret r).

(** A deferred function that calls [recover()]: when the body panics with
    [v] the handler runs with [v]; on a normal return [recover()] is nil
    and the deferred function does nothing.  [os.Exit] runs no deferred
    function. *)
Fixpoint defer_recover {A : Type} (p : Prog A) (h : any -> Prog A) : Prog A :=
  match p with
  | Ret a => Ret a
  | Panic v => h v
  | Exit c => Exit c
  | Spin => Spin
  | Call c k => Call c (fun r => defer_recover (k r) h)
  end.

(** [defer d] without [recover]: [d] runs when the body returns and when it
    panics (the panic continues afterwards), not on [os.Exit]. *)
Definition defer {A : Type} (d : Prog unit) (p : Prog A) : Prog A :=
  a <- defer_recover p (fun v => d ;; Panic v) ;; d ;; Ret a.

(** [log.Fatal]: print, then [os.Exit(1)]. *)
Definition log_Fatal {A : Type} (args : list any) : Prog A :=
  Call (LogPrint args) (fun _ => Exit 1%Z).

(** [for i := from; i < from + n; i++ { a = body(i, a) }] *)
Fixpoint for_range {A : Type} (n from : nat) (body : nat -> A -> Prog A) (a : A)
  : Prog A :=
  match n with
  | O => Ret a
  | S n' => a' <- body from a ;; for_range n' (S from) body a'
  end.

(** The same loop with a body that may [return b] from the enclosing
    function ([inr b]) instead of going on ([inl a]). *)
Fixpoint for_range_ret {A B : Type} (n from : nat)
    (body : nat -> A -> Prog (A + B)) (a : A) : Prog (A + B) :=
  match n with
  | O => Ret (inl a)
  | S n' =>
      r <- body from a ;;
      match r with
      | inl a' => for_range_ret n' (S from) body a'
      | inr b => Ret (inr b)
      end
  end.

(** [for _, x := range l { a = body(x, a) }] *)
Fixpoint for_each {X A : Type} (l : list X) (body : X -> A -> Prog A) (a : A)
  : Prog A :=
  match l with
  | [] => Ret a
  | x :: l' => a' <- body x a ;; for_each l' body a'
  end.

(** [for cond() { a = body(a) }], possibly returning from the enclosing
    function.  Nothing in the source bounds such a loop; it is given fuel,
    and [Spin] marks a loop that used it all. *)
Fixpoint while_ret {A B : Type} (fuel : nat) (cond : Prog bool)
    (body : A -> Prog (A + B)) (a : A) : Prog (A + B) :=
  match fuel with
  | O => Spin
  | S fuel' =>
      c <- cond ;;
      if c then
        r <- body a ;;
        match r with
        | inl a' => while_ret fuel' cond body a'
        | inr b => Ret (inr b)
        end
      else Ret (inl a)
  end.

Inductive Outcome (A : Type) : Type :=
| Returned (a : A)
| Panicked (v : any)
| Exited (code : Z)
| Diverged.
Arguments Returned {A} a.
Arguments Panicked {A} v.
Arguments Exited {A} code.
Arguments Diverged {A}.

(** What answers the calls: a state and, for each call, an answer and the
    next state. *)
Definition Handler (S : Type) : Type := forall R : Type, Cmd R -> S -> R * S.

Record Run (S A : Type) : Type := mkRun {
  outcome : Outcome A;
  final : S;
  trace : list Event
}.
Arguments mkRun {S A} outcome final trace.
Arguments outcome {S A} r.
Arguments final {S A} r.
Arguments trace {S A} r.

Fixpoint run {S A : Type} (h : Handler S) (p : Prog A) (s : S) : Run S A :=
  match p with
  | Ret a => mkRun (Returned a) s []
  | Panic v => mkRun (Panicked v) s []
  | Exit c => mkRun (Exited c) s []
  | Spin => mkRun Diverged s []
  | Call c k =>
      let '(r, s') := h _ c s in
      let rest := run h (k r) s' in
      mkRun (outcome rest) (final rest) (Ev c r :: trace rest)
  end.

(* ===================================================================== *)
(** ** pkg/database/connection.go *)
(* ===================================================================== *)

Module database.

(** Config holds database configuration *)
Record Config : Type := mkConfig {
  Host : string;
  Port : Z;
  Database : string;
  User : string;
  Password : string;
  MaxConns : Z;
  MinConns : Z;
  MaxConnLifetime : Duration;
  MaxConnIdleTime : Duration
}.

Definition DefaultConfig : Config :=
  {| Host := "localhost";
     Port := 5432;
     Database := "playground";
     User := "grug";
     Password := "grug_like_simple";
     MaxConns := 25;
     MinConns := 5;
     MaxConnLifetime := Hour;
     MaxConnIdleTime := (30 * Minute)%Z |}.

(** Pool wraps pgxpool for cleaner access *)
Record Pool : Type := mkPool {
  Pool_ : PoolH;
  config : Config
}.

Definition dsn_of (cfg : Config) : string :=
  "postgres://" ++ User cfg ++ ":" ++ Password cfg ++ "@" ++ Host cfg ++ ":"
    ++ fmt_d (Port cfg) ++ "/" ++ Database cfg ++ "?sslmode=disable".

(** NewPool creates a connection pool.  The Go result, a pointer to a Pool
    and an error, is kept as a pair of options, so that "a pool and an error" is a value
    the type allows. *)
Definition NewPool (cfg : Config) : Prog (option Pool * option error) :=
  let dsn := dsn_of cfg in
  Call (ParseConfig dsn) (fun r =>
  match r with
  | inr err => Ret (None, Some (Errorf_w "parse config: " err))
  | inl poolConfig =>
      let poolConfig :=
        {| ConnString := ConnString poolConfig;
           pc_MaxConns := MaxConns cfg;
           pc_MinConns := MinConns cfg;
           pc_MaxConnLifetime := MaxConnLifetime cfg;
           pc_MaxConnIdleTime := MaxConnIdleTime cfg;
           BeforeAcquire := Some (fun _ => true);
           AfterRelease := Some (fun _ => true) |} in
      Call (NewWithConfig poolConfig) (fun r =>
      match r with
      | inr err => Ret (None, Some (Errorf_w "create pool: " err))
      | inl pool =>
          Call (Ping pool) (fun r =>
          match r with
          | Some err =>
              Call (PoolClose pool) (fun _ =>
              Ret (None, Some (Errorf_w "ping database: " err)))
          | None => Ret (Some {| Pool_ := pool; config := cfg |}, None)
          end)
      end)
  end).

(** WithTx runs a function within a transaction *)
Definition WithTx (pool : Pool) (fn : TxH -> Prog (option error)) : Prog (option error) :=
  Call (PoolBegin (Pool_ pool)) (fun r =>
  match r with
  | inr err => Ret (Some (Errorf_w "begin tx: " err))
  | inl tx =>
      defer_recover
        (r <- fn tx ;;
         match r with
         | Some err =>
             Call (TxRollback tx) (fun rb =>
             match rb with
             | Some rbErr =>
                 Ret (Some (Errorf_v_w "rollback failed: " rbErr
                                       ", original error: " err))
             | None => Ret (Some err)
             end)
         | None =>
             Call (TxCommit tx) (fun rc =>
             match rc with
             | Some err => Ret (Some (Errorf_w "commit failed: " err))
             | None => Ret None
             end)
         end)
        (fun p => Call (TxRollback tx) (fun _ => Panic p))
  end).

End database.

(* ===================================================================== *)
(** ** Ghost readings of a trace *)
(* ===================================================================== *)

(** The pools that a trace leaves open: created by a successful
    [NewWithConfig] and not closed since. *)
Fixpoint live_pools (tr : list Event) (live : list PoolH) : list PoolH :=
  match tr with
  | [] => live
  | Ev c r :: tr' =>
      live_pools tr'
        (match c in Cmd R return R -> list PoolH with
         | NewWithConfig _ => fun r => match r with inl p => p :: live | inr _ => live end
         | PoolClose p => fun _ => remove Nat.eq_dec p live
         | _ => fun _ => live
         end r)
  end.


(* ===================================================================== *)
(** ** examples/03_batch_operations.go *)
(* ===================================================================== *)

Module batch_operations.

Import database.
Local Open Scope string_scope.

Definition nl : string := String (ascii_of_nat 10) EmptyString.
Definition RFC3339 : string := "2006-01-02T15:04:05Z07:00".

(** [t.Unix()] of an instant in nanoseconds *)
Definition Unix (t : Z) : Z := (t / 1000000000)%Z.

Definition sql_multi_insert_head : string := "
		INSERT INTO sites (name, address, city, country)
		VALUES ".

Definition sql_multi_insert_tail : string := "
		ON CONFLICT (name) DO NOTHING
		RETURNING id
	".

Definition sql_batch_asset_insert : string := "
			INSERT INTO assets (
				site_id, mac_address, serial_number, asset_type,
				manufacturer, model, status
			) VALUES (
				(SELECT id FROM sites ORDER BY RANDOM() LIMIT 1),
				$1, $2, $3, $4, $5, $6
			)".

Definition sql_prepared_update : string := "
		UPDATE assets
		SET last_seen = NOW(),
		    telemetry = telemetry || $2
		WHERE serial_number = $1
	".

Definition sql_create_temp : string := "
			CREATE TEMP TABLE batch_updates (
				site_name TEXT,
				new_metadata JSONB
			) ON COMMIT DROP
		".

Definition sql_update_join : string := "
			UPDATE sites s
			SET metadata = s.metadata || bu.new_metadata
			FROM batch_updates bu
			WHERE s.name = bu.site_name
		".

(** [time.Since(start)] *)
Definition Since (start : Z) : Prog Z := t <- call Now ;; Ret (t - start)%Z.

(** The value tuples and the arguments of the multi-row INSERT. *)
Definition multi_values : list string :=
  map (fun i : nat =>
         let i := Z.of_nat i in
         "($" ++ fmt_d (i * 4 + 1) ++ ", $" ++ fmt_d (i * 4 + 2) ++ ", $"
           ++ fmt_d (i * 4 + 3) ++ ", $" ++ fmt_d (i * 4 + 4) ++ ")")
      (seq 0 100).

Definition multi_args : list any :=
  flat_map (fun i : nat =>
              let i := Z.of_nat i in
              [AStr ("Test Site " ++ fmt_d i); AStr (fmt_d i ++ " Test St");
               AStr "Test City"; AStr "US"])
           (seq 0 100).

(** The body of the loop that fills the pgx.Batch of method 2. *)
Definition queue_asset (i : nat) (batch : list QueuedQuery) : Prog (list QueuedQuery) :=
  let i := Z.of_nat i in
  now <- call Now ;;
  Ret (app batch
    [mkQueued sql_batch_asset_insert
       [AStr ("00:00:00:00:" ++ fmt_02x (i / 256) ++ ":" ++ fmt_02x (i mod 256));
        AStr ("BATCH" ++ fmt_d (Unix now + i));
        AStr "sensor"; AStr "BatchCorp"; AStr "Model-X"; AStr "active"]]).

(** The loop that reads the results of the batch: [br.Exec()] once per
    queued statement, counting the ones without error. *)
Definition read_result (br : BatchResultsH) (_ : nat) (insertedCount : Z) : Prog Z :=
  r <- call (BrExec br) ;;
  Ret (match r with inl _ => (insertedCount + 1)%Z | inr _ => insertedCount end).

Definition read_batch (br : BatchResultsH) (len : nat) : Prog Z :=
  for_range len 0 (read_result br) 0%Z.

Definition prepared_update (tx : TxH) (i : nat) (updateCount : Z) : Prog Z :=
  let i := Z.of_nat i in
  now <- call Now ;;
  stamp <- call (TimeFormat RFC3339 now) ;;
  let telemetry :=
    "{" ++ quoted "batch_update" ++ ": " ++ fmt_d i ++ ", " ++ quoted "timestamp"
        ++ ": " ++ quoted stamp ++ "}" in
  now <- call Now ;;
  r <- call (TxExec tx "batch_update" [AStr ("BATCH" ++ fmt_d (Unix now - i)); AStr telemetry]) ;;
  Ret (match r with inl _ => (updateCount + 1)%Z | inr _ => updateCount end).

Definition batchInserts (fuel : nat) (pool : Pool) : Prog unit :=
  call (Println "=== Batch Inserts ===") ;;
  (* Method 1: Single INSERT with multiple VALUES *)
  start <- call Now ;;
  let query := sql_multi_insert_head ++ strings_Join multi_values ","
                 ++ sql_multi_insert_tail in
  r <- call (PoolQuery (Pool_ pool) query multi_args) ;;
  match r with
  | inr err => call (LogPrintf "Batch insert error: %v" [AErr err])
  | inl rows =>
      r <- while_ret (B := Empty_set) fuel (call (RowsNext rows))
             (fun count => Ret (inl (count + 1)%Z)) 0%Z ;;
      let count := match r with inl c => c | inr _ => 0%Z end in
      call (RowsClose rows) ;;
      d <- Since start ;;
      call (Printf ("✓ Inserted %d sites in %v (multi-value)" ++ nl) [AInt count; AInt d]) ;;
      (* Method 2: pgx.Batch *)
      start <- call Now ;;
      batch <- for_range 100 0 queue_asset [] ;;
      br <- call (PoolSendBatch (Pool_ pool) batch) ;;
      defer (call (BrClose br) ;; Ret tt)
        (insertedCount <- read_batch br (List.length batch) ;;
         d <- Since start ;;
         call (Printf ("✓ Inserted %d assets in %v (pgx.Batch)" ++ nl)
                      [AInt insertedCount; AInt d]) ;;
         (* Method 3: Prepared statement reuse *)
         start <- call Now ;;
         r <- call (PoolBegin (Pool_ pool)) ;;
         match r with
         | inr err => call (LogPrintf "Begin tx error: %v" [AErr err])
         | inl tx =>
             defer (call (TxRollback tx) ;; Ret tt)
               (e <- call (TxPrepare tx "batch_update" sql_prepared_update) ;;
                match e with
                | Some err => call (LogPrintf "Prepare error: %v" [AErr err])
                | None =>
                    updateCount <- for_range 50 0 (prepared_update tx) 0%Z ;;
                    call (TxCommit tx) ;;
                    d <- Since start ;;
                    call (Printf ("✓ Updated %d assets in %v (prepared statement)" ++ nl)
                                 [AInt updateCount; AInt d])
                end)
         end)
  end.

(** Method 3 of batchUpdates (the temporary table for complex updates);
    methods 1 and 2 issue one UPDATE each on the pool and are not
    embedded. *)
Definition staging_row (i : nat) : QueuedQuery :=
  let i := Z.of_nat i in
  mkQueued "INSERT INTO batch_updates VALUES ($1, $2)"
    [AStr ("Test Site " ++ fmt_d i);
     AStr ("{" ++ quoted "batch_process" ++ ": true, " ++ quoted "update_num"
               ++ ": " ++ fmt_d i ++ "}")].

Definition batchUpdates_fn (start : Z) (tx : TxH) : Prog (option error) :=
  (* Create temp table *)
  r <- call (TxExec tx sql_create_temp []) ;;
  match r with
  | inr err => Ret (Some err)
  | inl _ =>
      (* Populate temp table *)
      let batch := map staging_row (seq 0 30) in
      br <- call (TxSendBatch tx batch) ;;
      call (BrClose br) ;;
      (* Perform update join *)
      r <- call (TxExec tx sql_update_join []) ;;
      match r with
      | inl rowsAffected =>
          d <- Since start ;;
          call (Printf ("✓ Temp-table updated %d sites in %v" ++ nl)
                       [AInt rowsAffected; AInt d]) ;;
          Ret None
      | inr err => Ret (Some err)
      end
  end.

Definition batchUpdates_method3 (pool : Pool) : Prog unit :=
  start <- call Now ;;
  err <- WithTx pool (batchUpdates_fn start) ;;
  match err with
  | Some err => call (LogPrintf "Temp table update error: %v" [AErr err])
  | None => Ret tt
  end.

Definition copy_columns : list string :=
  ["site_id"; "mac_address"; "serial_number"; "asset_type";
   "manufacturer"; "model"; "status"; "config"; "telemetry"].

(** [rows := make([]assetRow, 10000)] *)
Definition copy_rows : nat := Z.to_nat 10000.

(** The body of the loop that generates the rows of copyFromDemo. *)
Definition gen_asset_row (siteID : string) (i : nat) (rows : list (list any))
  : Prog (list (list any)) :=
  let i := Z.of_nat i in
  now <- call Now ;;
  Ret (app rows
    [[AStr siteID;
      AStr ("AA:BB:CC:" ++ fmt_02X (i / 65536) ++ ":" ++ fmt_02X ((i / 256) mod 256)
              ++ ":" ++ fmt_02X (i mod 256));
      AStr ("COPY" ++ fmt_d (Unix now) ++ fmt_d i);
      AStr "sensor"; AStr "CopyTest"; AStr "CT-1000"; AStr "active";
      AStr ("{" ++ quoted "copy_test" ++ ": true}");
      AStr ("{" ++ quoted "batch" ++ ": " ++ fmt_d (i / 1000) ++ "}")]]).

Definition copyFromDemo (pool : Pool) : Prog unit :=
  call (Println (nl ++ "=== COPY FROM (Fastest Bulk Insert) ===")) ;;
  start <- call Now ;;
  (* Get a site ID *)
  r <- call (PoolQueryRowString (Pool_ pool) "SELECT id FROM sites LIMIT 1") ;;
  let siteID := match r with inl id => id | inr _ => EmptyString end in
  (* Generate rows *)
  rows <- for_range copy_rows 0 (gen_asset_row siteID) [] ;;
  (* Use CopyFrom *)
  r <- call (PoolCopyFrom (Pool_ pool) "assets" copy_columns rows) ;;
  match r with
  | inr err => call (LogPrintf "CopyFrom error: %v" [AErr err])
  | inl copyCount =>
      d1 <- Since start ;;
      d2 <- Since start ;;
      call (Printf ("✓ Inserted %d assets in %v (%.0f rows/sec)" ++ nl)
                   [AInt copyCount; AInt d1; ARatio (copyCount * 1000000000) d2])
  end ;;
  call (Println (nl ++ "✓ Streaming COPY example:")) ;;
  (* Clean up test data *)
  call (PoolExec (Pool_ pool) "DELETE FROM assets WHERE manufacturer = 'CopyTest'" []) ;;
  Ret tt.

End batch_operations.

(* ===================================================================== *)
(** ** cmd/seed/main.go *)
(* ===================================================================== *)

Module seed.

Import database.
Local Open Scope string_scope.

Definition sql_insert_site : string := "
			INSERT INTO sites (name, address, city, country, coordinates, metadata)
			VALUES ($1, $2, $3, $4, point($5, $6), $7)
		".

Definition sql_insert_asset : string := "
			INSERT INTO assets (
				site_id, mac_address, serial_number, asset_type,
				manufacturer, model, firmware_version, status,
				config, telemetry, last_seen
			) VALUES ($1, $2, $3, $4, $5, $6, $7, $8, $9, $10, $11)
		".

(** [SendBatch] followed by [br.Close()], as both seeders do it. *)
Definition flush (pool : Pool) (batch : list QueuedQuery) : Prog (option error) :=
  br <- call (PoolSendBatch (Pool_ pool) batch) ;;
  call (BrClose br).

(** The loop of a seeder: queue the INSERT of row [i], and execute the
    batch once it holds 100 statements. *)
Definition seed_row (pool : Pool) (sql what : string) (draw : nat -> Cmd (list any))
           (i : nat) (batch : list QueuedQuery)
  : Prog (list QueuedQuery + option error) :=
  args <- call (draw i) ;;
  let batch := app batch [mkQueued sql args] in
  (* Execute in batches *)
  if (100 <=? List.length batch)%nat then
    e <- flush pool batch ;;
    match e with
    | Some err => Ret (inr (Some (Errorf_w ("batch insert " ++ what ++ ": ") err)))
    | None => Ret (inl [])
    end
  else Ret (inl batch).

Definition seed_loop (pool : Pool) (sql what : string) (draw : nat -> Cmd (list any))
           (count : Z) : Prog (option error) :=
  call (LogPrintf ("Seeding %d " ++ what ++ "...") [AInt count]) ;;
  r <- for_range_ret (Z.to_nat count) 0 (seed_row pool sql what draw) [] ;;
  match r with
  | inr e => Ret e
  | inl batch =>
      (* Final batch *)
      e <- match batch with
           | [] => Ret None
           | _ => flush pool batch
           end ;;
      match e with
      | Some err => Ret (Some (Errorf_w ("final batch insert " ++ what ++ ": ") err))
      | None =>
          call (LogPrintf ("✓ Seeded %d " ++ what) [AInt count]) ;;
          Ret None
      end
  end.

Definition seedSites (pool : Pool) (count : Z) : Prog (option error) :=
  seed_loop pool sql_insert_site "sites" RandomSiteArgs count.

Definition assetTypes : list string :=
  ["router"; "switch"; "server"; "sensor"; "camera"; "ups"; "hvac"; "generator"].
Definition manufacturers : list string :=
  ["Cisco"; "Dell"; "HP"; "Ubiquiti"; "APC"; "Panduit"; "Honeywell"].

(** The value of a run-time panic. *)
Definition runtime_error (text : string) : any :=
  AErr (errorString ("runtime error: " ++ text)).

(** [l[i]]: an index out of range panics. *)
Definition index_of (l : list string) (i : Z) : Prog string :=
  match (if (0 <=? i)%Z then nth_error l (Z.to_nat i) else None) with
  | Some s => Ret s
  | None =>
      Panic (runtime_error ("index out of range [" ++ fmt_d i ++ "] with length "
                              ++ fmt_d (Z.of_nat (List.length l))))
  end.

(** [s[:n]]: a string shorter than [n] bytes panics. *)
Definition slice_to (n : nat) (s : string) : Prog string :=
  if (n <=? String.length s)%nat then Ret (substring 0 n s)
  else
    Panic (runtime_error ("slice bounds out of range [:" ++ fmt_d (Z.of_nat n)
                            ++ "] with length " ++ fmt_d (Z.of_nat (String.length s)))).

(** The argument list of the INSERT of one asset.  The serial number is
    [fmt.Sprintf("%s%d%s", manufacturer[:3], time.Now().Unix(),
    rand.Intn(99999))]: the slice panics on a manufacturer of fewer than
    three bytes, and [%s] prints its int operand as [%!s(int=N)]. *)
Definition asset_args (siteIDs : list string) : Prog (list any) :=
  t <- call (RandIntn (Z.of_nat (List.length assetTypes))) ;;
  assetType <- index_of assetTypes t ;;
  m <- call (RandIntn (Z.of_nat (List.length manufacturers))) ;;
  manufacturer <- index_of manufacturers m ;;
  place <- call (RandomAssetPlace siteIDs) ;;
  prefix <- slice_to 3 manufacturer ;;
  rest <- call RandomAssetRest ;;
  Ret [AStr (ap_site place);
       AStr (ap_mac place);
       AStr (prefix ++ fmt_d (ar_unix rest) ++ "%!s(int=" ++ fmt_d (ar_serial rest) ++ ")");
       AStr assetType;
       AStr manufacturer;
       AStr (assetType ++ "-" ++ fmt_d (ar_model rest));
       AStr (ar_firmware rest);
       AStr (ar_status rest);
       AStr (ar_config rest);
       AStr (ar_telemetry rest);
       AInt (ap_lastSeen place)].

(** The loop of seedAssets: queue the INSERT of one asset, and execute
    the batch once it holds 100 statements. *)
Definition asset_row (pool : Pool) (siteIDs : list string) (_ : nat)
           (batch : list QueuedQuery) : Prog (list QueuedQuery + option error) :=
  args <- asset_args siteIDs ;;
  let batch := app batch [mkQueued sql_insert_asset args] in
  (* Execute in batches *)
  if (100 <=? List.length batch)%nat then
    e <- flush pool batch ;;
    match e with
    | Some err => Ret (inr (Some (Errorf_w "batch insert assets: " err)))
    | None => Ret (inl [])
    end
  else Ret (inl batch).

Definition seedAssets (fuel : nat) (pool : Pool) (count : Z) : Prog (option error) :=
  call (LogPrintf "Seeding %d assets..." [AInt count]) ;;
  (* Get site IDs *)
  r <- call (PoolQuery (Pool_ pool) "SELECT id FROM sites" []) ;;
  match r with
  | inr err => Ret (Some (Errorf_w "query sites: " err))
  | inl rows =>
      defer (call (RowsClose rows))
        (r <- while_ret fuel (call (RowsNext rows))
                (fun siteIDs =>
                   r <- call (RowsScanString rows) ;;
                   match r with
                   | inr err => Ret (inr err)
                   | inl id => Ret (inl (app siteIDs [id]))
                   end) [] ;;
         match r with
         | inr err => Ret (Some err)
         | inl [] => Ret (Some (errorString "no sites found"))
         | inl siteIDs =>
             r <- for_range_ret (Z.to_nat count) 0 (asset_row pool siteIDs) [] ;;
             match r with
             | inr e => Ret e
             | inl batch =>
                 e <- match batch with
                      | [] => Ret None
                      | _ => flush pool batch
                      end ;;
                 match e with
                 | Some err => Ret (Some (Errorf_w "final batch insert assets: " err))
                 | None =>
                     call (LogPrintf "✓ Seeded %d assets" [AInt count]) ;;
                     Ret None
                 end
             end
         end)
  end.

(** [pool.QueryRow(ctx, sql).Scan(&n)] with the error dropped: [n] keeps
    its zero value when the query fails. *)
Definition count_or_zero (pool : Pool) (sql : string) : Prog Z :=
  r <- call (PoolQueryRowInt (Pool_ pool) sql) ;;
  Ret (match r with inl n => n | inr _ => 0%Z end).

Definition main (fuel : nat) : Prog unit :=
  (* Connect to database *)
  r <- NewPool DefaultConfig ;;
  match r with
  | (_, Some err) => log_Fatal [AStr "Failed to create pool:"; AErr err]
  | (None, None) => Panic (AErr (errorString "invalid memory address or nil pointer dereference"))
  | (Some pool, None) =>
      defer (call (PoolClose (Pool_ pool)))
        ((* Check if already seeded *)
         r <- call (PoolQueryRowInt (Pool_ pool) "SELECT COUNT(*) FROM sites") ;;
         match r with
         | inr err => log_Fatal [AStr "Failed to check existing data:"; AErr err]
         | inl count =>
             if (0 <? count)%Z then
               call (LogPrintf
                       "Database already contains %d sites. Clear data first if you want to reseed."
                       [AInt count])
             else
               (* Seed data *)
               e <- seedSites pool 1000 ;;
               match e with
               | Some err => log_Fatal [AStr "Failed to seed sites:"; AErr err]
               | None =>
                   e <- seedAssets fuel pool 100000 ;;
                   match e with
                   | Some err => log_Fatal [AStr "Failed to seed assets:"; AErr err]
                   | None =>
                       (* Print statistics *)
                       siteCount <- count_or_zero pool "SELECT COUNT(*) FROM sites" ;;
                       assetCount <- count_or_zero pool "SELECT COUNT(*) FROM assets" ;;
                       call (LogPrintf (batch_operations.nl ++ "✅ Seeding complete!") []) ;;
                       call (LogPrintf "   Sites:  %d" [AInt siteCount]) ;;
                       call (LogPrintf "   Assets: %d" [AInt assetCount]) ;;
                       call (LogPrintf "   Avg assets per site: %.1f"
                                       [ARatio assetCount siteCount])
                   end
               end
         end)
  end.

End seed.

(* ===================================================================== *)
(** ** Goroutines *)
(* ===================================================================== *)

(** Goroutines share a world.  A call is answered from the world, or it is
    not enabled there ([None]) and the goroutine that makes it waits: a
    send on a full channel, a receive on an empty one, an acquisition on
    an exhausted pool. *)
Definition Shared (W : Type) : Type := forall R : Type, Cmd R -> W -> option (R * W).

(** One step of one goroutine. *)
Definition thread_step {W A : Type} (sh : Shared W) (p : Prog A) (w : W)
  : option (Prog A * W) :=
  match p with
  | Call c k =>
      match sh _ c w with
      | Some (r, w') => Some (k r, w')
      | None => None
      end
  | _ => None
  end.

Fixpoint replace_nth {A : Type} (i : nat) (x : A) (l : list A) : list A :=
  match l, i with
  | [], _ => []
  | _ :: l', O => x :: l'
  | y :: l', S i' => y :: replace_nth i' x l'
  end.

(** The scheduler picks any goroutine that can take a step. *)
Inductive sys_step {W : Type} (sh : Shared W)
  : list (Prog unit) * W -> list (Prog unit) * W -> Prop :=
| sys_step_at (ts : list (Prog unit)) (w : W) (i : nat) (p p' : Prog unit) (w' : W) :
    nth_error ts i = Some p ->
    thread_step sh p w = Some (p', w') ->
    sys_step sh (ts, w) (replace_nth i p' ts, w').

Inductive reachable {W : Type} (sh : Shared W) (init : list (Prog unit) * W)
  : list (Prog unit) * W -> Prop :=
| reach_init : reachable sh init init
| reach_step (s s' : list (Prog unit) * W) :
    reachable sh init s -> sys_step sh s s' -> reachable sh init s'.

(** A state in which no goroutine can take a step. *)
Definition quiescent {W : Type} (sh : Shared W) (s : list (Prog unit) * W) : Prop :=
  forall s', ~ sys_step sh s s'.

(* ===================================================================== *)
(** ** One goroutine on its own *)
(* ===================================================================== *)

(** How a goroutine that runs on its own ends: with an outcome, or never,
    at a call that is not answered. *)
Inductive Ending (A : Type) : Type :=
| Ended (o : Outcome A)
| Waits {R : Type} (c : Cmd R).
Arguments Ended {A} o.
Arguments Waits {A R} c.

Record Alone (W A : Type) : Type := mkAlone {
  ending : Ending A;
  world : W;
  calls : list Event
}.
Arguments mkAlone {W A} ending world calls.
Arguments ending {W A} a.
Arguments world {W A} a.
Arguments calls {W A} a.

(** One goroutine alone against a world whose calls may wait.  Nothing
    else changes the world, so a call that it does not answer never
    returns: the goroutine waits there for ever, and what it has deferred
    does not run. *)
Fixpoint run_alone {W A : Type} (sh : Shared W) (p : Prog A) (w : W) : Alone W A :=
  match p with
  | Ret a => mkAlone (Ended (Returned a)) w []
  | Panic v => mkAlone (Ended (Panicked v)) w []
  | Exit c => mkAlone (Ended (Exited c)) w []
  | Spin => mkAlone (Ended Diverged) w []
  | Call c k =>
      match sh _ c w with
      | Some (r, w') =>
          let rest := run_alone sh (k r) w' in
          mkAlone (ending rest) (world rest) (Ev c r :: calls rest)
      | None => mkAlone (Waits c) w []
      end
  end.

(** An answer for each call, for the driver below. *)
Definition no_error : error := errorString "".
Definition idle_answer {R : Type} (c : Cmd R) : R :=
  match c in Cmd R return R with
  | ParseConfig _ => inr no_error
  | NewWithConfig _ => inr no_error
  | Ping _ => None
  | PoolClose _ => tt
  | PoolBegin _ => inr no_error
  | PoolExec _ _ _ => inr no_error
  | PoolQuery _ _ _ => inr no_error
  | PoolQueryRowInt _ _ => inr no_error
  | PoolQueryRowString _ _ => inr no_error
  | PoolSendBatch _ _ => 0
  | PoolCopyFrom _ _ _ _ => inr no_error
  | PoolAcquire _ => inr no_error
  | TxCommit _ => None
  | TxRollback _ => None
  | TxExec _ _ _ => inr no_error
  | TxSendBatch _ _ => 0
  | TxPrepare _ _ _ => None
  | BrExec _ => inr no_error
  | BrClose _ => None
  | RowsNext _ => false
  | RowsScanString _ => inr no_error
  | RowsClose _ => tt
  | ConnRelease _ => tt
  | ConnExec _ _ _ => inr no_error
  | ConnQueryRowBool _ _ _ => inr no_error
  | WaitForNotification _ => inr no_error
  | ChanSendN _ _ => tt
  | ChanRecvN _ => None
  | ChanSendS _ _ => tt
  | ChanRecvS _ => None
  | ChanClose _ => tt
  | WgDone => tt
  | WgWait => tt
  | Printf _ _ => tt
  | Println _ => tt
  | LogPrintf _ _ => tt
  | LogPrint _ => tt
  | Now => 0%Z
  | TimeFormat _ _ => EmptyString
  | Sleep _ => tt
  | RandomSiteArgs _ => []
  | RandIntn _ => 0%Z
  | RandomAssetPlace _ => mkAssetPlace 0 EmptyString EmptyString
  | RandomAssetRest => mkAssetRest 0 0 0 EmptyString EmptyString EmptyString EmptyString
  end.

(** The driver that answers as [sh] does and, where [sh] does not answer,
    with the answer above: the run against it goes on where the goroutine
    alone waits. *)
Definition total_of {W : Type} (sh : Shared W) : Handler W :=
  fun R c w =>
    match sh R c w with
    | Some a => a
    | None => (idle_answer c, w)
    end.

(* ===================================================================== *)
(** ** examples/04_advanced_patterns.go *)
(* ===================================================================== *)

Module advanced_patterns.

Local Open Scope string_scope.

(** listenNotifyDemo: [notifyChan := make(chan *pgconn.Notification, 5)],
    and the three rounds of the goroutine that listens. *)
Definition queue_capacity : nat := 5.
Definition listen_rounds : nat := 3.

Definition received_format : string := "  📢 Received: %s" ++ batch_operations.nl.

(** The goroutine that receives: [for n := range notifyChan { Printf }]. *)
Fixpoint print_notifications (fuel : nat) (notifyChan : ChanH) : Prog unit :=
  match fuel with
  | O => Spin
  | S fuel' =>
      r <- call (ChanRecvN notifyChan) ;;
      match r with
      | Some n =>
          call (Printf received_format [AStr (Payload n)]) ;;
          print_notifications fuel' notifyChan
      | None => Ret tt
      end
  end.

(** One round of the goroutine that listens: wait for a notification,
    return on an error, send the notification to the channel. *)
Definition forward_round (conn : ConnH) (notifyChan : ChanH) (_ : nat) (_ : unit)
  : Prog (unit + unit) :=
  r <- call (WaitForNotification conn) ;;
  match r with
  | inr _ => Ret (inr tt)
  | inl notification =>
      call (ChanSendN notifyChan notification) ;;
      Ret (inl tt)
  end.

(** The goroutine that listens: [rounds] rounds, then [close(notifyChan)]. *)
Definition forward_from (rounds from : nat) (conn : ConnH) (notifyChan : ChanH)
  : Prog unit :=
  r <- for_range_ret rounds from (forward_round conn notifyChan) tt ;;
  match r with
  | inr _ => Ret tt
  | inl _ => call (ChanClose notifyChan)
  end.

Definition forward_notifications (rounds : nat) (conn : ConnH) (notifyChan : ChanH)
  : Prog unit :=
  forward_from rounds 0 conn notifyChan.

(** advisoryLocksDemo: the resource that the workers contend for, and the
    channel [results := make(chan string, 5)]. *)
Definition lockID : Z := 12345.
Definition results_capacity : nat := 5.
Definition Millisecond : Duration := 1000000%Z.

Definition try_lock_sql : string := "SELECT pg_try_advisory_lock($1)".
Definition unlock_sql : string := "SELECT pg_advisory_unlock($1)".

Definition worker_says (workerID : Z) (what : string) : string :=
  "Worker " ++ fmt_d workerID ++ ": " ++ what.

(** What a worker does once it has the lock. *)
Definition locked_work (results : ChanH) (workerID : Z) (conn : ConnH) : Prog unit :=
  (* Do "work" with the locked resource *)
  call (ChanSendS results (worker_says workerID "got lock, processing...")) ;;
  call (Sleep (200 * Millisecond)%Z) ;;
  (* Release lock *)
  call (ConnExec conn unlock_sql [AInt lockID]) ;;
  call (ChanSendS results (worker_says workerID "released lock")).

(** What a worker does with its connection. *)
Definition with_conn (results : ChanH) (workerID : Z) (conn : ConnH) : Prog unit :=
  (* Try to get advisory lock (using a hash of resource ID) *)
  r <- call (ConnQueryRowBool conn try_lock_sql [AInt lockID]) ;;
  match r with
  | inl true => locked_work results workerID conn
  | _ => call (ChanSendS results (worker_says workerID "couldn't acquire lock"))
  end.

(** The goroutine of one worker. *)
Definition worker (pool : database.Pool) (results : ChanH) (workerID : Z) : Prog unit :=
  defer (call WgDone)
    (r <- call (PoolAcquire (database.Pool_ pool)) ;;
     match r with
     | inr _ =>
         call (ChanSendS results (worker_says workerID "failed to acquire connection"))
     | inl conn =>
         defer (call (ConnRelease conn)) (with_conn results workerID conn)
     end).

(** The goroutine that closes the channel once every worker is done. *)
Definition closer (results : ChanH) : Prog unit :=
  call WgWait ;; call (ChanClose results).

(** The main goroutine, from the point where the workers run: it prints
    what comes out of the channel until the channel is closed. *)
Fixpoint print_results (fuel : nat) (results : ChanH) : Prog unit :=
  match fuel with
  | O => Spin
  | S fuel' =>
      r <- call (ChanRecvS results) ;;
      match r with
      | Some result =>
          call (Printf ("  - %s" ++ batch_operations.nl) [AStr result]) ;;
          print_results fuel' results
      | None => Ret tt
      end
  end.

Definition lock_monitor_query : string :=
  "  SELECT pid, locktype, mode, granted
  FROM pg_locks
  WHERE locktype = 'advisory'".

Definition advisoryLocksDemo_main (fuel : nat) (results : ChanH) : Prog unit :=
  call (Println "✓ Advisory lock results:") ;;
  print_results fuel results ;;
  (* Show lock status query *)
  call (Println (batch_operations.nl ++ "✓ Query to monitor advisory locks:")) ;;
  call (Println lock_monitor_query).

(** The goroutines of advisoryLocksDemo once all are started: the workers
    [0 .. n-1], the closer, and the main goroutine. *)
Definition advisoryLocksDemo_threads (fuel n : nat) (pool : database.Pool)
           (results : ChanH) : list (Prog unit) :=
  (map (fun i => worker pool results (Z.of_nat i)) (seq 0 n)
   ++ [closer results; advisoryLocksDemo_main fuel results])%list.

Definition workers : nat := 5.

End advanced_patterns.

(** The world of the two goroutines of listenNotifyDemo: the buffered
    channel between them, what the listening connection will receive from
    the datastore (in the order the datastore emits it; an error ends the
    subscription), and what has been printed. *)
Module Notify.

Record World : Type := mkWorld {
  capacity : nat;
  buffer : list Notification;
  closed : bool;
  feed : list (result Notification);
  printed : list string
}.

Definition shared : Shared World :=
  fun R c =>
    match c in Cmd R return World -> option (R * World) with
    | WaitForNotification _ => fun w =>
        match feed w with
        | [] => None                      (* nothing emitted yet: wait *)
        | r :: rest =>
            Some (r, mkWorld (capacity w) (buffer w) (closed w) rest (printed w))
        end
    | ChanSendN _ n => fun w =>
        if closed w then None
        else if Nat.ltb (List.length (buffer w)) (capacity w)
        then Some (tt, mkWorld (capacity w) (buffer w ++ [n]) (closed w) (feed w) (printed w))
        else None                         (* full: the sender waits *)
    | ChanRecvN _ => fun w =>
        match buffer w with
        | n :: rest =>
            Some (Some n, mkWorld (capacity w) rest (closed w) (feed w) (printed w))
        | [] => if closed w then Some (None, w) else None
        end
    | ChanClose _ => fun w =>
        Some (tt, mkWorld (capacity w) (buffer w) true (feed w) (printed w))
    | Printf _ args => fun w =>
        Some (tt, mkWorld (capacity w) (buffer w) (closed w) (feed w)
                          (printed w ++ match args with
                                        | [AStr payload] => [payload]
                                        | _ => []
                                        end))
    | _ => fun _ => None
    end.

(** The notifications that the datastore emits before the subscription
    ends, if it ends. *)
Fixpoint emitted (f : list (result Notification)) : list Notification :=
  match f with
  | inl n :: f' => n :: emitted f'
  | _ => []
  end.

(** The two goroutines at their start, on connection [conn] and channel
    [ch], with an empty channel of the given capacity. *)
Definition start (fuel rounds cap : nat) (conn : ConnH) (ch : ChanH)
           (f : list (result Notification)) : list (Prog unit) * World :=
  ([advanced_patterns.forward_notifications rounds conn ch;
    advanced_patterns.print_notifications fuel ch],
   mkWorld cap [] false f []).

End Notify.

(** Modelled from the spec: the advisory locks of the datastore and the
    connection pool, which are not code of the repository.  A lock token
    is an integer key; a claim on it is recorded against a connection; a
    try-claim is granted when no other connection holds the key (spec
    sections 3, 4.5 and 9), and a connection that holds it may claim it
    again, as sessions may in PostgreSQL; a release gives one claim back.
    The pool leases each connection to one caller at a time and creates no
    connection beyond its ceiling (section 4.1). *)
Module Locks.

Record World : Type := mkWorld {
  max_conns : nat;
  idle : list ConnH;
  leased : list ConnH;
  next_conn : nat;
  grants : list (ConnH * Z);           (* the claims held: connection, key *)
  faults : list bool;                  (* one entry per call to the datastore *)
  wg : nat;                            (* the counter of the WaitGroup *)
  results_capacity : nat;
  results : list string;               (* the channel of the workers *)
  results_closed : bool;
  printed : list string
}.

Definition with_pool (i l : list ConnH) (n : nat) (w : World) : World :=
  mkWorld (max_conns w) i l n (grants w) (faults w) (wg w) (results_capacity w)
          (results w) (results_closed w) (printed w).
Definition with_grants (g : list (ConnH * Z)) (w : World) : World :=
  mkWorld (max_conns w) (idle w) (leased w) (next_conn w) g (faults w) (wg w)
          (results_capacity w) (results w) (results_closed w) (printed w).
Definition with_faults (f : list bool) (w : World) : World :=
  mkWorld (max_conns w) (idle w) (leased w) (next_conn w) (grants w) f (wg w)
          (results_capacity w) (results w) (results_closed w) (printed w).
Definition with_wg (n : nat) (w : World) : World :=
  mkWorld (max_conns w) (idle w) (leased w) (next_conn w) (grants w) (faults w) n
          (results_capacity w) (results w) (results_closed w) (printed w).
Definition with_results (r : list string) (c : bool) (w : World) : World :=
  mkWorld (max_conns w) (idle w) (leased w) (next_conn w) (grants w) (faults w) (wg w)
          (results_capacity w) r c (printed w).
Definition with_printed (p : list string) (w : World) : World :=
  mkWorld (max_conns w) (idle w) (leased w) (next_conn w) (grants w) (faults w) (wg w)
          (results_capacity w) (results w) (results_closed w) p.

Definition lost : error := errorString "connection lost".

(** The next entry of the fault plan: does this call fail? *)
Definition fault (w : World) : bool * World :=
  match faults w with
  | [] => (false, w)
  | f :: fs => (f, with_faults fs w)
  end.

(** Does a connection other than [c] hold [key]? *)
Definition held_by_other (c : ConnH) (key : Z) (g : list (ConnH * Z)) : bool :=
  existsb (fun e => (negb (Nat.eqb (fst e) c) && Z.eqb (snd e) key)%bool) g.

(** try-claim *)
Definition try_claim (c : ConnH) (key : Z) (g : list (ConnH * Z))
  : bool * list (ConnH * Z) :=
  if held_by_other c key g then (false, g) else (true, (c, key) :: g).

(** release: one claim of [c] on [key], if it has one *)
Fixpoint release (c : ConnH) (key : Z) (g : list (ConnH * Z)) : list (ConnH * Z) :=
  match g with
  | [] => []
  | e :: g' =>
      if (Nat.eqb (fst e) c && Z.eqb (snd e) key)%bool then g'
      else e :: release c key g'
  end.

Definition key_of (args : list any) : Z :=
  match args with
  | [AInt key] => key
  | _ => 0%Z
  end.

Definition shared : Shared World :=
  fun R c =>
    match c in Cmd R return World -> option (R * World) with
    | PoolAcquire _ => fun w =>
        let '(f, w) := fault w in
        if f then Some (inr lost, w)
        else match idle w with
             | c :: rest => Some (inl c, with_pool rest (c :: leased w) (next_conn w) w)
             | [] =>
                 if Nat.ltb (List.length (leased w)) (max_conns w)
                 then Some (inl (next_conn w),
                            with_pool [] (next_conn w :: leased w) (S (next_conn w)) w)
                 else None                 (* at the ceiling: the caller waits *)
             end
    | ConnRelease c => fun w =>
        Some (tt, with_pool (idle w ++ [c]) (remove Nat.eq_dec c (leased w)) (next_conn w) w)
    | ConnQueryRowBool c _ args => fun w =>
        let '(f, w) := fault w in
        if f then Some (inr lost, w)
        else let '(granted, g) := try_claim c (key_of args) (grants w) in
             Some (inl granted, with_grants g w)
    | ConnExec c _ args => fun w =>
        let '(f, w) := fault w in
        if f then Some (inr lost, w)
        else Some (inl 1%Z, with_grants (release c (key_of args) (grants w)) w)
    | ChanSendS _ s => fun w =>
        if results_closed w then None
        else if Nat.ltb (List.length (results w)) (results_capacity w)
        then Some (tt, with_results (results w ++ [s]) (results_closed w) w)
        else None
    | ChanRecvS _ => fun w =>
        match results w with
        | s :: rest => Some (Some s, with_results rest (results_closed w) w)
        | [] => if results_closed w then Some (None, w) else None
        end
    | ChanClose _ => fun w => Some (tt, with_results (results w) true w)
    | WgDone => fun w => Some (tt, with_wg (Nat.pred (wg w)) w)
    | WgWait => fun w => if Nat.eqb (wg w) 0 then Some (tt, w) else None
    | Sleep _ => fun w => Some (tt, w)
    | Printf _ args => fun w =>
        Some (tt, with_printed (printed w ++ match args with
                                             | [AStr s] => [s]
                                             | _ => []
                                             end) w)
    | Println line => fun w => Some (tt, with_printed (printed w ++ [line]) w)
    | _ => fun _ => None
    end.

(** The demo at its start: [n] workers, a pool with ceiling [max], no
    connection open, no lock held. *)
Definition start (fuel n max : nat) (plan : list bool) (pool : database.Pool)
           (ch : ChanH) : list (Prog unit) * World :=
  (advanced_patterns.advisoryLocksDemo_threads fuel n pool ch,
   mkWorld max [] [] 1 [] plan n advanced_patterns.results_capacity [] false []).

End Locks.

(* ===================================================================== *)
(** ** Reading the SQL text of a statement *)
(* ===================================================================== *)

Module SQL.

Definition is_ws (c : ascii) : bool :=
  (Ascii.eqb c " " || Ascii.eqb c "009" || Ascii.eqb c "010" || Ascii.eqb c "013")%bool.

Definition is_ident_char (c : ascii) : bool :=
  let n := nat_of_ascii c in
  ((48 <=? n) && (n <=? 57) || (65 <=? n) && (n <=? 90)
   || (97 <=? n) && (n <=? 122) || (n =? 95))%bool%nat.

Fixpoint skip_ws (s : string) : string :=
  match s with
  | String c s' => if is_ws c then skip_ws s' else s
  | EmptyString => EmptyString
  end.

Fixpoint take_ident (s : string) : string :=
  match s with
  | String c s' => if is_ident_char c then String c (take_ident s') else EmptyString
  | EmptyString => EmptyString
  end.

(** [strip p s]: what follows [p] when [s] starts with [p]. *)
Fixpoint strip (p s : string) : option string :=
  match p, s with
  | EmptyString, _ => Some s
  | String a p', String b s' => if Ascii.eqb a b then strip p' s' else None
  | String _ _, EmptyString => None
  end.

Definition contains (p s : string) : bool :=
  match index 0 p s with Some _ => true | None => false end.

(** The number of names in a leading parenthesised column list, 0 when
    there is none. *)
Fixpoint count_commas_to_close (s : string) : option nat :=
  match s with
  | EmptyString => None
  | String c s' =>
      if Ascii.eqb c ")" then Some 0
      else match count_commas_to_close s' with
           | Some n => Some (if Ascii.eqb c "," then S n else n)
           | None => None
           end
  end.

Definition column_count (s : string) : nat :=
  match strip "(" (skip_ws s) with
  | Some rest => match count_commas_to_close rest with Some n => S n | None => 0 end
  | None => 0
  end.

Inductive Statement : Type :=
| CreateTempTable (name : string) (on_commit_drop : bool)
| DropTable (name : string)
| InsertInto (table : string) (columns : nat)
| SelectCount (table : string)
| SelectIds (table : string)
| OtherSQL.

Definition drop_name (rest : string) : string :=
  match strip "IF EXISTS " rest with
  | Some r => take_ident (skip_ws r)
  | None => take_ident (skip_ws rest)
  end.

Definition parse (sql : string) : Statement :=
  let s := skip_ws sql in
  match strip "CREATE TEMP TABLE " s with
  | Some rest => CreateTempTable (take_ident (skip_ws rest)) (contains "ON COMMIT DROP" rest)
  | None =>
  match strip "DROP TABLE " s with
  | Some rest => DropTable (drop_name rest)
  | None =>
  match strip "INSERT INTO " s with
  | Some rest =>
      let name := take_ident (skip_ws rest) in
      InsertInto name
        (column_count (substring (String.length name)
                                 (String.length rest) (skip_ws rest)))
  | None =>
  match strip "SELECT COUNT(*) FROM " s with
  | Some rest => SelectCount (take_ident (skip_ws rest))
  | None =>
  match strip "SELECT id FROM " s with
  | Some rest => SelectIds (take_ident (skip_ws rest))
  | None => OtherSQL
  end end end end end.

Definition is_drop (sql : string) : bool :=
  match parse sql with DropTable _ => true | _ => false end.

End SQL.

(* ===================================================================== *)
(** ** A reference datastore *)
(* ===================================================================== *)

(** Modelled from the spec: the relational engine and the pgx driver are
    external collaborators (spec sections 1 and 6) whose code is not in the
    repository.  [Store] keeps what the properties below speak about: the
    rows of [sites] and [assets], the catalogue of temporary tables with
    the transaction that owns each, the rows a transaction has written and
    not yet committed, and the results a batch has produced
    and the caller has not read yet.  Constraints are not modelled; every
    call that can fail consults the fault plan instead, so that a property
    proved for every [Store] holds for every pattern of failures. *)
Module Datastore.

Record TempTable : Type := mkTemp {
  tt_name : string;
  tt_owner : option TxH;       (* None: kept by the session *)
  tt_on_commit_drop : bool
}.

Record Store : Type := mkStore {
  next_id : nat;                                  (* supply of handles *)
  faults : list (option error);                   (* one entry per fallible call *)
  sites : list (list any);
  assets : list (list any);
  temp_tables : list TempTable;
  uncommitted : list (TxH * (string * list any)); (* table, row *)
  pending : list (nat * list (result Z))          (* handle, unread results *)
}.

Definition empty : Store := mkStore 1 [] [] [] [] [] [].

Definition with_faults (fs : list (option error)) (st : Store) : Store :=
  mkStore (next_id st) fs (sites st) (assets st) (temp_tables st)
          (uncommitted st) (pending st).
Definition with_temp (tt : list TempTable) (st : Store) : Store :=
  mkStore (next_id st) (faults st) (sites st) (assets st) tt
          (uncommitted st) (pending st).
Definition with_uncommitted (u : list (TxH * (string * list any))) (st : Store) : Store :=
  mkStore (next_id st) (faults st) (sites st) (assets st) (temp_tables st)
          u (pending st).
Definition with_pending (p : list (nat * list (result Z))) (st : Store) : Store :=
  mkStore (next_id st) (faults st) (sites st) (assets st) (temp_tables st)
          (uncommitted st) p.

(** The next entry of the fault plan; an exhausted plan means no fault. *)
Definition fault (st : Store) : option error * Store :=
  match faults st with
  | [] => (None, st)
  | f :: fs => (f, with_faults fs st)
  end.

Definition fresh (st : Store) : nat * Store :=
  (next_id st,
   mkStore (S (next_id st)) (faults st) (sites st) (assets st) (temp_tables st)
           (uncommitted st) (pending st)).

(** The rows that the arguments of an INSERT make: one row per full group
    of [columns] arguments, and a single row when they do not divide. *)
Fixpoint chunk (fuel columns : nat) (args : list any) : list (list any) :=
  match fuel with
  | O => []
  | S fuel' =>
      match args with
      | [] => []
      | _ => firstn columns args :: chunk fuel' columns (skipn columns args)
      end
  end.

Definition rows_of (columns : nat) (args : list any) : list (list any) :=
  if ((0 <? columns) && (Nat.modulo (List.length args) columns =? 0)
      && (0 <? List.length args))%bool%nat
  then chunk (List.length args) columns args
  else [args].

Definition insert_committed (table : string) (rows : list (list any)) (st : Store) : Store :=
  if String.eqb table "sites" then
    mkStore (next_id st) (faults st) (sites st ++ rows) (assets st)
            (temp_tables st) (uncommitted st) (pending st)
  else if String.eqb table "assets" then
    mkStore (next_id st) (faults st) (sites st) (assets st ++ rows)
            (temp_tables st) (uncommitted st) (pending st)
  else st.

Definition count_rows (table : string) (st : Store) : Z :=
  if String.eqb table "sites" then Z.of_nat (List.length (sites st))
  else if String.eqb table "assets" then Z.of_nat (List.length (assets st))
  else 0%Z.

Definition owned_by (tx : TxH) (t : TempTable) : bool :=
  match tt_owner t with Some o => Nat.eqb o tx | None => false end.

(** One statement, inside transaction [owner] or on its own. *)
Definition exec (owner : option TxH) (sql : string) (args : list any)
           (st : Store) : result Z * Store :=
  let '(f, st) := fault st in
  match f with
  | Some e => (inr e, st)
  | None =>
      match SQL.parse sql with
      | SQL.CreateTempTable name ocd =>
          match owner, ocd with
          | None, true => (inl 0%Z, st)   (* dropped when the statement commits *)
          | _, _ => (inl 0%Z, with_temp (mkTemp name owner ocd :: temp_tables st) st)
          end
      | SQL.DropTable name =>
          (inl 0%Z,
           with_temp (filter (fun t => negb (String.eqb (tt_name t) name))
                             (temp_tables st)) st)
      | SQL.InsertInto table columns =>
          let rows := rows_of columns args in
          (inl (Z.of_nat (List.length rows)),
           match owner with
           | Some tx =>
               with_uncommitted
                 (uncommitted st ++ map (fun r => (tx, (table, r))) rows) st
           | None => insert_committed table rows st
           end)
    | SQL.SelectCount table | SQL.SelectIds table => (inl (count_rows table st), st)
      | SQL.OtherSQL => (inl 0%Z, st)
      end
  end.

(** The statements of a batch run one after the other; a statement that
    fails does not stop the ones queued behind it (spec section 4.3). *)
Fixpoint exec_all (owner : option TxH) (b : list QueuedQuery) (st : Store)
  : list (result Z) * Store :=
  match b with
  | [] => ([], st)
  | q :: b' =>
      let '(r, st) := exec owner (q_sql q) (q_args q) st in
      let '(rs, st) := exec_all owner b' st in
      (r :: rs, st)
  end.

Definition send_batch (owner : option TxH) (b : list QueuedQuery) (st : Store)
  : nat * Store :=
  let '(rs, st) := exec_all owner b st in
  let '(h, st) := fresh st in
  (h, with_pending ((h, rs) :: pending st) st).

Fixpoint take_pending (h : nat) (p : list (nat * list (result Z)))
  : option (list (result Z)) :=
  match p with
  | [] => None
  | (h', rs) :: p' => if Nat.eqb h h' then Some rs else take_pending h p'
  end.

Definition drop_pending (h : nat) (st : Store) : Store :=
  with_pending (filter (fun e => negb (Nat.eqb (fst e) h)) (pending st)) st.

(** What is left to read of [h]; a handle with nothing left is forgotten. *)
Definition put_pending (h : nat) (rs : list (result Z)) (st : Store) : Store :=
  match rs with
  | [] => drop_pending h st
  | _ => with_pending ((h, rs) :: pending (drop_pending h st)) st
  end.

(** The next unread result of [h]. *)
Definition next_result (h : nat) (st : Store) : result Z * Store :=
  match take_pending h (pending st) with
  | Some (r :: rs) => (r, put_pending h rs st)
  | _ => (inr (errorString "no result"), st)
  end.

Fixpoint first_error (rs : list (result Z)) : option error :=
  match rs with
  | [] => None
  | inr e :: _ => Some e
  | inl _ :: rs' => first_error rs'
  end.

(** The end of a transaction.  A commit makes its rows visible, drops its
    ON COMMIT DROP tables and leaves its other temporary tables to the
    session; a rollback discards the rows and every table it created. *)
Definition end_tx (commit : bool) (tx : TxH) (st : Store) : Store :=
  let mine := filter (fun e => Nat.eqb (fst e) tx) (uncommitted st) in
  let others := filter (fun e => negb (Nat.eqb (fst e) tx)) (uncommitted st) in
  let st := with_uncommitted others st in
  if commit then
    let st := fold_left (fun st e => insert_committed (fst (snd e)) [snd (snd e)] st)
                        mine st in
    with_temp
      (map (fun t => if owned_by tx t then mkTemp (tt_name t) None false else t)
           (filter (fun t => negb (owned_by tx t && tt_on_commit_drop t))
                   (temp_tables st))) st
  else
    with_temp (filter (fun t => negb (owned_by tx t)) (temp_tables st)) st.

Definition default_pool_config (dsn : string) : PoolConfig :=
  mkPoolConfig dsn 4 0 Hour (30 * Minute)%Z None None.

(** The answer of the store to each call. *)
Definition pg : Handler Store :=
  fun R c =>
    match c in Cmd R return Store -> R * Store with
    | ParseConfig dsn => fun st =>
        let '(f, st) := fault st in
        match f with
        | Some e => (inr e, st)
        | None => (inl (default_pool_config dsn), st)
        end
    | NewWithConfig _ | PoolBegin _ | PoolAcquire _ => fun st =>
        let '(f, st) := fault st in
        match f with
        | Some e => (inr e, st)
        | None => let '(h, st) := fresh st in (inl h, st)
        end
    | Ping _ | TxPrepare _ _ _ =>
        fun st => fault st
  | PoolClose _ | ConnRelease _ => fun st => (tt, st)
  | RowsClose r => fun st => (tt, drop_pending r st)
    | PoolExec _ sql args | ConnExec _ sql args => fun st => exec None sql args st
    | TxExec t sql args => fun st => exec (Some t) sql args st
    | PoolQueryRowInt _ sql => fun st => exec None sql [] st
    | PoolQueryRowString _ _ => fun st =>
        let '(f, st) := fault st in
        match f with
        | Some e => (inr e, st)
        | None => (inl EmptyString, st)
        end
    | PoolQuery _ sql args => fun st =>
        let '(r, st) := exec None sql args st in
        match r with
        | inr e => (inr e, st)
      | inl n =>
          (* the cursor starts before the first of the [n] rows *)
          let '(h, st) := fresh st in
          (inl h,
           put_pending h (map (fun i => inl (Z.of_nat i)) (seq 0 (S (Z.to_nat n)))) st)
      end
  | RowsNext r => fun st =>
      match take_pending r (pending st) with
      | Some (_ :: (_ :: _) as rs) => (true, put_pending r rs st)
      | Some _ => (false, put_pending r [] st)
      | None => (false, st)
      end
    | PoolSendBatch _ b => fun st => send_batch None b st
    | TxSendBatch t b => fun st => send_batch (Some t) b st
    | BrExec br => fun st => next_result br st
    | BrClose br => fun st =>
        match take_pending br (pending st) with
        | Some rs => (first_error rs, drop_pending br st)
        | None => (None, st)
        end
    | PoolCopyFrom _ table _ rows => fun st =>
        let '(f, st) := fault st in
        match f with
        | Some e => (inr e, st)
        | None => (inl (Z.of_nat (List.length rows)), insert_committed table rows st)
        end
    | TxCommit t => fun st =>
        let '(f, st) := fault st in
        match f with
        | Some e => (Some e, end_tx false t st)
        | None => (None, end_tx true t st)
        end
    | TxRollback t => fun st =>
        let '(f, st) := fault st in (f, end_tx false t st)
    | ConnQueryRowBool _ _ _ => fun st =>
        let '(f, st) := fault st in
        match f with
        | Some e => (inr e, st)
        | None => (inl true, st)
        end
    | WaitForNotification _ => fun st =>
        (inr (errorString "no notification"), st)
  | ChanRecvN _ => fun st => (None, st)
  | ChanRecvS _ => fun st => (None, st)
  | WgDone | WgWait => fun st => (tt, st)
    | RowsScanString r => fun st =>
        match take_pending r (pending st) with
        | Some (inl id :: _) => (inl (fmt_d id), st)
        | _ => (inr (errorString "no row"), st)
        end
    | Now => fun st => (Z.of_nat (next_id st), st)
    | TimeFormat _ t => fun st => (fmt_d t, st)
    | RandomSiteArgs i => fun st =>
        (map AStr [("Site " ++ fmt_d (Z.of_nat i))%string; "1 Main Street"; "Paris"; "FR";
                   "0"; "0"; "{}"], st)
    | RandIntn _ => fun st => (0%Z, st)
    | RandomAssetPlace siteIDs => fun st =>
        (mkAssetPlace (Z.of_nat (next_id st)) (hd EmptyString siteIDs) "00:00:00:00:00:00",
         st)
    | RandomAssetRest => fun st =>
        (mkAssetRest (Z.of_nat (next_id st)) 0 0 "1.0.0" "active" "{}" "{}", st)
    | ChanSendN _ _ | ChanSendS _ _ | ChanClose _ | Printf _ _ | Println _
    | LogPrintf _ _ | LogPrint _ | Sleep _ => fun st => (tt, st)
    end.

End Datastore.


(** The pool that a trace creates first, if any. *)
Fixpoint pool_created (tr : list Event) : option PoolH :=
  match tr with
  | [] => None
  | Ev c r :: tr' =>
      match c in Cmd R return R -> option PoolH with
      | NewWithConfig _ => fun r =>
          match r with inl p => Some p | inr _ => pool_created tr' end
      | _ => fun _ => pool_created tr'
      end r
  end.


(** The first failure that a fault plan holds for the first [calls]
    calls that consult it, with the number of that call. *)
Fixpoint first_failure (calls : nat) (plan : list (option error)) : option (nat * error) :=
  match calls, plan with
  | S calls', None :: plan' =>
      option_map (fun ke => (S (fst ke), snd ke)) (first_failure calls' plan')
  | S _, Some e :: _ => Some (0, e)
  | _, _ => None
  end.

(** The last call of a trace. *)
Definition last_call (tr : list Event) : option Event := hd_error (rev tr).

(** The calls that carry statements to execute: every call that reaches
    the engine with SQL or rows, the one-row queries apart. *)
Definition is_statement (e : Event) : bool :=
  match e with
  | Ev c _ =>
      match c with
      | PoolExec _ _ _ | PoolQuery _ _ _ | PoolSendBatch _ _
      | PoolCopyFrom _ _ _ _ | TxExec _ _ _ | TxSendBatch _ _ | TxPrepare _ _ _
      | ConnExec _ _ _ => true
      | _ => false
      end
  end.

(** Every temporary table of the catalogue is owned by the session or by a
    transaction whose handle has been handed out. *)
Definition handles_allocated (st : Datastore.Store) : bool :=
  forallb (fun t => match Datastore.tt_owner t with
                    | Some o => Nat.ltb o (Datastore.next_id st)
                    | None => true
                    end)
          (Datastore.temp_tables st).

(** The calls that carry a DROP TABLE, alone or inside a batch. *)
Definition issues_drop (e : Event) : bool :=
  match e with
  | Ev c _ =>
      match c with
      | PoolExec _ sql _ | TxExec _ sql _ | ConnExec _ sql _
      | PoolQuery _ sql _ | TxPrepare _ _ sql => SQL.is_drop sql
      | PoolSendBatch _ b | TxSendBatch _ b => existsb (fun q => SQL.is_drop (q_sql q)) b
      | _ => false
      end
  end.

(** A statement that neither creates nor drops a table. *)
Definition benign (sql : string) : bool :=
  match SQL.parse sql with
  | SQL.CreateTempTable _ _ | SQL.DropTable _ => false
  | _ => true
  end.

(** The calls that leave the catalogue of temporary tables alone. *)
Definition catalog_neutral {R : Type} (c : Cmd R) : bool :=
  match c with
  | TxCommit _ | TxRollback _ => false
  | PoolExec _ sql _ | TxExec _ sql _ | ConnExec _ sql _ | PoolQuery _ sql _
  | PoolQueryRowInt _ sql => benign sql
  | PoolSendBatch _ b | TxSendBatch _ b => forallb (fun q => benign (q_sql q)) b
  | _ => true
  end.

(* ===================================================================== *)
(** ** Shapes of traces *)
(* ===================================================================== *)

(** The number of statements that succeeded. *)
Definition count_ok (answers : list (result Z)) : Z :=
  fold_left (fun n a => match a with
                        | inl _ => (n + 1)%Z
                        | inr _ => n
                        end) answers 0%Z.

(* ===================================================================== *)
(** ** Write jobs *)
(* ===================================================================== *)

(** The three write strategies of the spec (section 4.3). *)
Inductive Strategy : Type := Inline | Streaming | Pipelined.

(** The bulk write that a call carries, with its number of rows: a
    statement INSERT with its value tuples is an inline job, a pgx.Batch a
    pipelined one, a CopyFrom a streaming one. *)
Definition job_of (e : Event) : list (Strategy * nat) :=
  match e with
  | Ev c _ =>
      match c with
      | PoolQuery _ sql args | PoolExec _ sql args | TxExec _ sql args
      | ConnExec _ sql args =>
          match SQL.parse sql with
          | SQL.InsertInto _ columns =>
              [(Inline, List.length (Datastore.rows_of columns args))]
          | _ => []
          end
      | PoolSendBatch _ b | TxSendBatch _ b => [(Pipelined, List.length b)]
      | PoolCopyFrom _ _ _ rows => [(Streaming, List.length rows)]
      | _ => []
      end
  end.

Definition write_jobs (tr : list Event) : list (Strategy * nat) :=
  flat_map job_of tr.

(** The selection by size of spec section 4.3, as a test on one job:
    under 1,000 rows the job is inline, from 10,000 rows on it is
    streaming. *)
Definition follows_thresholds (job : Strategy * nat) : bool :=
  let '(s, n) := job in
  ((if Nat.ltb n (Z.to_nat 1000) then match s with Inline => true | _ => false end else true)
   && (if Nat.leb (Z.to_nat 10000) n then match s with Streaming => true | _ => false end else true))%bool.

(** The guidance that the program prints, read the other way round: an
    inline job has under 1,000 rows and a streaming job has 10,000 or more. *)
Definition within_guidance (job : Strategy * nat) : bool :=
  match job with
  | (Inline, n) => Nat.ltb n (Z.to_nat 1000)
  | (Streaming, n) => Nat.leb (Z.to_nat 10000) n
  | (Pipelined, _) => true
  end.

(* ===================================================================== *)
(** ** Program points of the goroutines of listenNotifyDemo *)
(* ===================================================================== *)

Module NotifyPoints.

Import advanced_patterns.

(** The listening goroutine holds [n], received from the datastore, and is
    about to send it; [k] rounds follow. *)
Definition send_then (k i : nat) (conn : ConnH) (ch : ChanH) (n : Notification)
  : Prog unit :=
  x <- (r <- (call (ChanSendN ch n) ;; Ret (inl tt)) ;;
        match r with
        | inl a => for_range_ret k (S i) (forward_round conn ch) a
        | inr b => Ret (inr b)
        end) ;;
  match x with
  | inr _ => Ret tt
  | inl _ => call (ChanClose ch)
  end.

(** The receiving goroutine holds [n], taken from the channel, and is
    about to print it. *)
Definition print_then (fuel : nat) (ch : ChanH) (n : Notification) : Prog unit :=
  call (Printf received_format [AStr (Payload n)]) ;; print_notifications fuel ch.

Inductive Listener : Type :=
| LWait (k i : nat)                    (* k rounds to go, i done *)
| LSend (k i : nat) (n : Notification) (* round i: sending n, k more to go *)
| LDone (closed_channel : bool).       (* returned: after close, or on an error *)

Inductive Receiver : Type :=
| RRecv (fuel : nat)
| RPrint (fuel : nat) (n : Notification)
| RDone.

Definition listener_prog (conn : ConnH) (ch : ChanH) (l : Listener) : Prog unit :=
  match l with
  | LWait k i => forward_from k i conn ch
  | LSend k i n => send_then k i conn ch n
  | LDone _ => Ret tt
  end.

Definition receiver_prog (ch : ChanH) (r : Receiver) : Prog unit :=
  match r with
  | RRecv fuel => print_notifications fuel ch
  | RPrint fuel n => print_then fuel ch n
  | RDone => Ret tt
  end.

(** What each goroutine holds in hand. *)
Definition in_hand_l (l : Listener) : list Notification :=
  match l with LSend _ _ n => [n] | _ => [] end.
Definition in_hand_r (r : Receiver) : list Notification :=
  match r with RPrint _ n => [n] | _ => [] end.

(** The rounds that the listener still has to start. *)
Definition rounds_left (l : Listener) : nat :=
  match l with LWait k _ | LSend k _ _ => k | LDone _ => 0 end.

(** A bound on the steps that each goroutine can still take. *)
Definition listener_steps (l : Listener) : nat :=
  match l with
  | LWait k _ => 2 * k + 1
  | LSend k _ _ => 2 * k + 2
  | LDone _ => 0
  end.
Definition receiver_steps (r : Receiver) : nat :=
  match r with
  | RRecv fuel => 2 * fuel
  | RPrint fuel _ => 2 * fuel + 1
  | RDone => 0
  end.

End NotifyPoints.

(** The invariant of the two goroutines.  Every notification taken from
    the datastore ([good], in the order of emission) is printed, or in the
    hand of the receiver, or in the channel, or in the hand of the
    listener, in that order; the channel holds no more than its capacity
    and is closed exactly when the listener has closed it; the receiver
    returns only after that, from an empty channel. *)
Record notify_inv (cap : nat) (feed0 : list (result Notification))
       (l : NotifyPoints.Listener) (r : NotifyPoints.Receiver) (w : Notify.World)
  : Prop := mkNotifyInv {
  inv_capacity : Notify.capacity w = cap;
  inv_bounded : List.length (Notify.buffer w) <= cap;
  inv_accounted :
    exists good,
      (Notify.printed w
       ++ map Payload (NotifyPoints.in_hand_r r ++ Notify.buffer w
                         ++ NotifyPoints.in_hand_l l))%list
      = map Payload good
      /\ (feed0 = (map inl good ++ Notify.feed w)%list
          \/ exists e, l = NotifyPoints.LDone false
                       /\ feed0 = (map inl good ++ inr e :: Notify.feed w)%list);
  inv_closed :
    Notify.closed w = match l with NotifyPoints.LDone true => true | _ => false end;
  inv_returned :
    r = NotifyPoints.RDone -> l = NotifyPoints.LDone true /\ Notify.buffer w = []
}.

(** Running a schedule: the goroutine to step, turn by turn. *)
Fixpoint run_schedule {W : Type} (sh : Shared W) (schedule : list nat)
         (s : list (Prog unit) * W) : option (list (Prog unit) * W) :=
  match schedule with
  | [] => Some s
  | i :: schedule' =>
      match nth_error (fst s) i with
      | Some p =>
          match thread_step sh p (snd s) with
          | Some (p', w') => run_schedule sh schedule' (replace_nth i p' (fst s), w')
          | None => None
          end
      | None => None
      end
  end.

(** What holds besides when the datastore emits at least [notes] before
    the subscription can end, one notification per round, and the receiver
    has fuel for them: the listener never stops on an error, what is left
    to emit covers the rounds left, and the receiver has fuel for all that
    is still to come. *)
Record notify_live (tail : list (result Notification))
       (l : NotifyPoints.Listener) (r : NotifyPoints.Receiver) (w : Notify.World)
  : Prop := mkNotifyLive {
  live_feed :
    exists remaining,
      Notify.feed w = (map inl remaining ++ tail)%list
      /\ List.length remaining = NotifyPoints.rounds_left l;
  live_no_error : l <> NotifyPoints.LDone false;
  live_fuel :
    match r with
    | NotifyPoints.RRecv f | NotifyPoints.RPrint f _ =>
        NotifyPoints.rounds_left l + List.length (NotifyPoints.in_hand_l l)
        + List.length (Notify.buffer w) < f
    | NotifyPoints.RDone => True
    end
}.

(** The states that [n] steps can lead to. *)
Inductive run_of_length {W : Type} (sh : Shared W) (init : list (Prog unit) * W)
  : nat -> list (Prog unit) * W -> Prop :=
| run_nil : run_of_length sh init 0 init
| run_snoc (n : nat) (s s' : list (Prog unit) * W) :
    run_of_length sh init n s -> sys_step sh s s' -> run_of_length sh init (S n) s'.

(* ===================================================================== *)
(** ** Program points of the goroutines of advisoryLocksDemo *)
(* ===================================================================== *)

Module LockPoints.

Import advanced_patterns.

Inductive Worker : Type :=
| WStart                    (* about to acquire a connection *)
| WAcquireFailed            (* about to report the failed acquisition *)
| WTry (c : ConnH)          (* about to try the lock *)
| WRefused (c : ConnH)      (* about to report that it has no lock *)
| WGot (c : ConnH)          (* the lock is its own: about to report it *)
| WSleep (c : ConnH)        (* the lock is its own: about to work *)
| WUnlock (c : ConnH)       (* the lock is its own: about to release it *)
| WReleased (c : ConnH)     (* about to report the release *)
| WRelease (c : ConnH)      (* deferred: about to release the connection *)
| WWgDone                   (* deferred: about to call wg.Done() *)
| WReturned.

(** The two deferred calls around the work of a worker on [c]. *)
Definition on_conn (c : ConnH) (p : Prog unit) : Prog unit :=
  defer (call WgDone) (defer (call (ConnRelease c)) p).

Definition worker_prog (pool : database.Pool) (results : ChanH) (workerID : Z)
           (p : Worker) : Prog unit :=
  match p with
  | WStart => worker pool results workerID
  | WAcquireFailed =>
      defer (call WgDone)
        (call (ChanSendS results (worker_says workerID "failed to acquire connection")))
  | WTry c => on_conn c (with_conn results workerID c)
  | WRefused c =>
      on_conn c (call (ChanSendS results (worker_says workerID "couldn't acquire lock")))
  | WGot c => on_conn c (locked_work results workerID c)
  | WSleep c =>
      on_conn c (call (Sleep (200 * Millisecond)%Z) ;;
                 call (ConnExec c unlock_sql [AInt lockID]) ;;
                 call (ChanSendS results (worker_says workerID "released lock")))
  | WUnlock c =>
      on_conn c (call (ConnExec c unlock_sql [AInt lockID]) ;;
                 call (ChanSendS results (worker_says workerID "released lock")))
  | WReleased c =>
      on_conn c (call (ChanSendS results (worker_says workerID "released lock")))
  | WRelease c => on_conn c (Ret tt)
  | WWgDone => defer (call WgDone) (Ret tt)
  | WReturned => Ret tt
  end.

(** The connection that a worker has leased. *)
Definition conn_of (p : Worker) : option ConnH :=
  match p with
  | WTry c | WRefused c | WGot c | WSleep c | WUnlock c | WReleased c | WRelease c => Some c
  | WStart | WAcquireFailed | WWgDone | WReturned => None
  end.

(** A worker is in its critical section from the grant of the lock to its
    call of the release. *)
Definition in_critical (p : Worker) : option ConnH :=
  match p with
  | WGot c | WSleep c | WUnlock c => Some c
  | _ => None
  end.

(** The goroutines of the workers [from], [from+1], ... *)
Fixpoint worker_threads (pool : database.Pool) (results : ChanH) (from : nat)
         (ws : list Worker) : list (Prog unit) :=
  match ws with
  | [] => []
  | p :: ws' =>
      worker_prog pool results (Z.of_nat from) p
      :: worker_threads pool results (S from) ws'
  end.

(** The calls of the goroutines that touch neither the pool nor the locks. *)
Definition quiet_cmd {R : Type} (c : Cmd R) : bool :=
  match c with
  | ChanRecvS _ | ChanClose _ | WgWait | Printf _ _ | Println _ => true
  | _ => false
  end.

Fixpoint harmless {A : Type} (p : Prog A) : Prop :=
  match p with
  | Call c k => quiet_cmd c = true /\ forall r, harmless (k r)
  | _ => True
  end.

(** The part of the world that the invariant reads. *)
Definition frame (w w' : Locks.World) : Prop :=
  Locks.idle w' = Locks.idle w /\ Locks.leased w' = Locks.leased w
  /\ Locks.next_conn w' = Locks.next_conn w
  /\ Locks.max_conns w' = Locks.max_conns w /\ Locks.grants w' = Locks.grants w.

(** At most one holder per key: the claims on a key are all claims of one
    connection. *)
Definition single_holder (g : list (ConnH * Z)) : Prop :=
  forall c1 c2 key, In (c1, key) g -> In (c2, key) g -> c1 = c2.

(** Workers [i] and [j] are both in their critical sections. *)
Definition both_critical (ws : list Worker) (i j : nat) : Prop :=
  exists pi pj ci cj,
    nth_error ws i = Some pi /\ nth_error ws j = Some pj
    /\ in_critical pi = Some ci /\ in_critical pj = Some cj.

(** The invariant of the demo: workers hold distinct connections, all of
    them leased; the pool keeps each connection once, leased or idle, and
    stays under its ceiling; each key is held by one connection at most;
    and a worker in its critical section holds the lock on its connection. *)
Record lock_inv (ws : list Worker) (w : Locks.World) : Prop := mkLockInv {
  li_distinct :
    forall i j pi pj c,
      nth_error ws i = Some pi -> nth_error ws j = Some pj ->
      conn_of pi = Some c -> conn_of pj = Some c -> i = j;
  li_leased :
    forall i p c, nth_error ws i = Some p -> conn_of p = Some c -> In c (Locks.leased w);
  li_pool : NoDup (Locks.leased w ++ Locks.idle w);
  li_fresh : Forall (fun c => c < Locks.next_conn w) (Locks.leased w ++ Locks.idle w);
  li_ceiling : List.length (Locks.leased w ++ Locks.idle w) <= Locks.max_conns w;
  li_single :
    forall c1 c2 k,
      In (c1, k) (Locks.grants w) -> In (c2, k) (Locks.grants w) -> c1 = c2;
  li_critical :
    forall i p c,
      nth_error ws i = Some p -> in_critical p = Some c ->
      In (c, lockID) (Locks.grants w)
}.

End LockPoints.

(* ===================================================================== *)
(** ** Sample inputs *)
(* ===================================================================== *)

Module Sample.

Definition pool : database.Pool := database.mkPool 7 database.DefaultConfig.

(** The callback of batchUpdates, started at instant 0. *)
Definition fn : TxH -> Prog (option error) := batch_operations.batchUpdates_fn 0.

(** The store after [pool.Begin] on the empty store; the transaction is 1. *)
Definition begun : Datastore.Store := snd (Datastore.pg _ (PoolBegin 7) Datastore.empty).

Definition e1 : error := errorString "relation already exists".
Definition e2 : error := errorString "conn closed".

(** A store whose fault plan lets [Begin] through, fails the first
    statement of the transaction with [e1] and the rollback with [e2]. *)
Definition faulty : Datastore.Store :=
  Datastore.with_faults [None; Some e1; Some e2] Datastore.empty.
Definition faulty_begun : Datastore.Store :=
  snd (Datastore.pg _ (PoolBegin 7) faulty).

(** A store that holds one site already. *)
Definition seeded : Datastore.Store :=
  Datastore.mkStore 1 [] [[AStr "Paris Site 1"]] [] [] [] [].

(** Three notifications, as the three updates of listenNotifyDemo make
    the trigger emit them. *)
Definition feed : list (result Notification) :=
  [inl (mkNotification "asset_updates" "active");
   inl (mkNotification "asset_updates" "maintenance");
   inl (mkNotification "asset_updates" "offline")].

(** The same three notifications, as the datastore emits them. *)
Definition notes : list Notification :=
  [mkNotification "asset_updates" "active";
   mkNotification "asset_updates" "maintenance";
   mkNotification "asset_updates" "offline"].

(** The two goroutines of listenNotifyDemo over a channel of capacity 1,
    and the state after three steps of the listener: it has sent the
    first notification, which fills the channel, and holds the second. *)
Definition narrow : list (Prog unit) * Notify.World :=
  Notify.start 8 advanced_patterns.listen_rounds 1 1 2 (map inl notes ++ []).

Definition narrow_full : list (Prog unit) * Notify.World :=
  match run_schedule Notify.shared [0; 0; 0] narrow with
  | Some s => s
  | None => narrow
  end.

(** The two goroutines of listenNotifyDemo on connection 1 and channel 2. *)
Definition listening : list (Prog unit) * Notify.World :=
  Notify.start 8 advanced_patterns.listen_rounds advanced_patterns.queue_capacity 1 2 feed.

(** The listener has taken two notifications and sent them, the receiver
    has taken one and printed it. *)
Definition listening_later : list (Prog unit) * Notify.World :=
  match run_schedule Notify.shared [0; 0; 0; 1; 0; 1] listening with
  | Some s => s
  | None => listening
  end.

(** advisoryLocksDemo with its five workers, on channel 9, over a pool
    with the default ceiling and a datastore that never fails. *)
Definition contending : list (Prog unit) * Locks.World :=
  Locks.start 8 advanced_patterns.workers 25 [] pool 9.

(** Workers 0 and 1 have a connection each and have both tried the lock;
    worker 0 has reported that it got it. *)
Definition contending_later : list (Prog unit) * Locks.World :=
  match run_schedule Locks.shared [0; 1; 0; 1; 0] contending with
  | Some s => s
  | None => contending
  end.

End Sample.
(* ===================================================================== *)
(** ** pkg/database/connection.go: the health check *)
(* ===================================================================== *)

Module connection.

Import database.

(** HealthCheck verifies database connectivity.  The five-second deadline
    that the source puts on the context reaches the driver with the
    query; a query that runs out of time is one of the errors that the
    driver may answer. *)
Definition HealthCheck (p : Pool) : Prog (option error) :=
  r <- call (PoolQueryRowInt (Pool_ p) "SELECT 1") ;;
  match r with
  | inr err => Ret (Some (Errorf_w "health check failed: " err))
  | inl result =>
      if negb (Z.eqb result 1)
      then Ret (Some (errorString ("unexpected result: " ++ fmt_d result)))
      else Ret None
  end.

End connection.

(* ===================================================================== *)
(** ** Reading the batches of a trace *)
(* ===================================================================== *)

(** The batches that a trace sends on the pool, in order. *)
Fixpoint batches_sent (tr : list Event) : list (list QueuedQuery) :=
  match tr with
  | [] => []
  | Ev c _ :: tr' =>
      match c with
      | PoolSendBatch _ b => b :: batches_sent tr'
      | _ => batches_sent tr'
      end
  end.

(** The rows of sites that a seeder draws, in order: the answers to
    [RandomSiteArgs]. *)
Fixpoint rows_drawn (tr : list Event) : list (list any) :=
  match tr with
  | [] => []
  | Ev c r :: tr' =>
      match c in Cmd R return R -> list (list any) with
      | RandomSiteArgs _ => fun args => args :: rows_drawn tr'
      | _ => fun _ => rows_drawn tr'
      end r
  end.

(** The last call of a trace is a [br.Close()] that failed with [cause]. *)
Definition ends_in_failed_close (tr : list Event) (cause : error) : Prop :=
  exists pre br, tr = pre ++ [Ev (BrClose br) (Some cause)].

(** The site ids that a trace scans from its rows, in order. *)
Fixpoint ids_scanned (tr : list Event) : list string :=
  match tr with
  | [] => []
  | Ev c r :: tr' =>
      match c in Cmd R return R -> list string with
      | RowsScanString _ => fun r =>
          match r with
          | inl id => id :: ids_scanned tr'
          | inr _ => ids_scanned tr'
          end
      | _ => fun _ => ids_scanned tr'
      end r
  end.

(** The site ids that each draw of the site of an asset is offered:
    the slice that [siteIDs[rand.Intn(len(siteIDs))]] indexes. *)
Fixpoint ids_offered (tr : list Event) : list (list string) :=
  match tr with
  | [] => []
  | Ev c _ :: tr' =>
      match c with
      | RandomAssetPlace siteIDs => siteIDs :: ids_offered tr'
      | _ => ids_offered tr'
      end
  end.

(** The rows that a trace closes. *)
Fixpoint rows_closed (tr : list Event) : list RowsH :=
  match tr with
  | [] => []
  | Ev c _ :: tr' =>
      match c with
      | RowsClose r => r :: rows_closed tr'
      | _ => rows_closed tr'
      end
  end.

(** The rows that a trace opens: the answers of the queries that
    succeeded. *)
Fixpoint rows_opened (tr : list Event) : list RowsH :=
  match tr with
  | [] => []
  | Ev c r :: tr' =>
      match c in Cmd R return R -> list RowsH with
      | PoolQuery _ _ _ => fun r =>
          match r with
          | inl rows => rows :: rows_opened tr'
          | inr _ => rows_opened tr'
          end
      | _ => fun _ => rows_opened tr'
      end r
  end.

(* ===================================================================== *)
(** ** Programs that only make calls of a given kind *)
(* ===================================================================== *)

(** Every call that the program can make, whatever the answers, is one
    that [Q] allows. *)
Fixpoint calls_only {A : Type} (Q : forall R : Type, Cmd R -> Prop) (p : Prog A) : Prop :=
  match p with
  | Call c k => Q _ c /\ forall r, calls_only Q (k r)
  | _ => True
  end.

(** The call of an event is one that [Q] allows. *)
Definition allowed (Q : forall R : Type, Cmd R -> Prop) (e : Event) : Prop :=
  match e with
  | Ev c _ => Q _ c
  end.

(** The calls of a seeder of assets once it holds the site ids [ids]: it
    offers these ids to every draw, and touches no rows. *)
Definition asset_seeding_call (ids : list string) (R : Type) (c : Cmd R) : Prop :=
  match c with
  | RandomAssetPlace offer => offer = ids
  | RowsNext _ | RowsScanString _ | RowsClose _ => False
  | _ => True
  end.

(** The places that a trace draws for its assets, in order: the answers
    to [RandomAssetPlace]. *)
Fixpoint places_drawn (tr : list Event) : list AssetPlace :=
  match tr with
  | [] => []
  | Ev c r :: tr' =>
      match c in Cmd R return R -> list AssetPlace with
      | RandomAssetPlace _ => fun place => place :: places_drawn tr'
      | _ => fun _ => places_drawn tr'
      end r
  end.

(** The place that the INSERT of an asset carries: its site, its MAC
    address and its time of last sight, the first, the second and the
    last of its eleven arguments. *)
Definition place_of (q : QueuedQuery) : option AssetPlace :=
  match q_args q with
  | [AStr site; AStr mac; _; _; _; _; _; _; _; _; AInt lastSeen] =>
      Some (mkAssetPlace lastSeen site mac)
  | _ => None
  end.

(** The statement that the seeder queues for an asset. *)
Definition asset_statement (q : QueuedQuery) : Prop := q_sql q = seed.sql_insert_asset.

(** The run-time panics of Go. *)
Definition is_runtime_error (v : any) : Prop :=
  exists text, v = seed.runtime_error text.

(** How the seeding of [count] assets ends once the site ids are known,
    given the calls [tr] it made and the places [unsent] that it drew and
    did not send: with nil, all sent; with the error of a batch that
    failed, wrapped, all drawn rows sent; or with a run-time panic of Go. *)
Definition seeding_result (count : Z) (out : Outcome (option error)) (tr : list Event)
           (unsent : list (option AssetPlace)) : Prop :=
  match out with
  | Returned None =>
      unsent = [] /\ List.length (places_drawn tr) = Z.to_nat count
  | Returned (Some e) =>
      unsent = []
      /\ exists cause,
          ends_in_failed_close tr cause
          /\ (e = Errorf_w "batch insert assets: " cause
              \/ e = Errorf_w "final batch insert assets: " cause)
  | Panicked v => is_runtime_error v
  | _ => False
  end.

(** A driver that draws the last entry of every list: "generator" of
    [assetTypes], "Honeywell" of [manufacturers]. *)
Definition draws_last : Handler Datastore.Store :=
  fun R c =>
    match c in Cmd R return Datastore.Store -> R * Datastore.Store with
    | RandIntn n => fun st => ((n - 1)%Z, st)
    | c' => Datastore.pg _ c'
    end.

(** A driver that draws the third entry of every list: "server" of
    [assetTypes], "HP" of [manufacturers]. *)
Definition draws_third : Handler Datastore.Store :=
  fun R c =>
    match c in Cmd R return Datastore.Store -> R * Datastore.Store with
    | RandIntn _ => fun st => (2%Z, st)
    | c' => Datastore.pg _ c'
    end.

(* ===================================================================== *)
(** ** More sample inputs *)
(* ===================================================================== *)

Module Cases.

(** The three notifications of [Sample.feed]. *)
Definition notes : list Notification :=
  [mkNotification "asset_updates" "active";
   mkNotification "asset_updates" "maintenance";
   mkNotification "asset_updates" "offline"].

(** The listener runs to its end, then the receiver. *)
Definition listener_first : list nat := [0; 0; 0; 0; 0; 0; 0; 1; 1; 1; 1; 1; 1; 1].

(** The two goroutines of listenNotifyDemo after that schedule. *)
Definition listening_done : list (Prog unit) * Notify.World :=
  match run_schedule Notify.shared listener_first Sample.listening with
  | Some s => s
  | None => Sample.listening
  end.

End Cases.

(** The rows that a trace hands to CopyFrom, in order. *)
Fixpoint rows_copied (tr : list Event) : list (list any) :=
  match tr with
  | [] => []
  | Ev c _ :: tr' =>
      match c with
      | PoolCopyFrom _ _ _ rows => rows ++ rows_copied tr'
      | _ => rows_copied tr'
      end
  end.

(** The columns that a trace names to CopyFrom, call by call. *)
Fixpoint columns_copied (tr : list Event) : list (list string) :=
  match tr with
  | [] => []
  | Ev c _ :: tr' =>
      match c with
      | PoolCopyFrom _ _ columns _ => columns :: columns_copied tr'
      | _ => columns_copied tr'
      end
  end.

(** The value of a row in a column, by position. *)
Definition column (k : nat) (row : list any) : any := nth k row (AStr EmptyString).

(* ===================================================================== *)
(** ** Programs that end in good order *)
(* ===================================================================== *)

Definition is_log_print {R : Type} (c : Cmd R) : Prop :=
  match c with
  | LogPrint _ => True
  | _ => False
  end.

(** A program that panics only with a value that [P] allows, and that
    exits only with status 1 and only right after a [log.Print]: the way
    of [log.Fatal]. *)
Fixpoint tidy (P : any -> Prop) {A : Type} (p : Prog A) : Prop :=
  match p with
  | Ret _ | Spin => True
  | Panic v => P v
  | Exit _ => False
  | Call c k =>
      forall r,
        match k r with
        | Exit code => code = 1%Z /\ is_log_print c
        | _ => tidy P (k r)
        end
  end.

(** The last call of a trace is a [log.Print]. *)
Definition ends_in_log_print (tr : list Event) : Prop :=
  exists pre args, tr = pre ++ [Ev (LogPrint args) tt].

(** The calls that neither create nor close a pool. *)
Definition keeps_pools (R : Type) (c : Cmd R) : Prop :=
  match c with
  | NewWithConfig _ | PoolClose _ => False
  | _ => True
  end.

(* ===================================================================== *)
(** ** examples/04_advanced_patterns.go: the main goroutine of
       listenNotifyDemo *)
(* ===================================================================== *)

Module listen_notify.

Import database.
Local Open Scope string_scope.

Definition sql_create_function : string := "
		CREATE OR REPLACE FUNCTION notify_asset_change()
		RETURNS trigger AS $$
		BEGIN
			PERFORM pg_notify(
				'asset_updates',
				json_build_object(
					'action', TG_OP,
					'asset_id', NEW.id,
					'serial', NEW.serial_number,
					'status', NEW.status,
					'timestamp', NOW()
				)::text
			);
			RETURN NEW;
		END;
		$$ LANGUAGE plpgsql
	".

Definition sql_attach_trigger : string := "
		DROP TRIGGER IF EXISTS asset_update_notify ON assets;
		CREATE TRIGGER asset_update_notify
		AFTER INSERT OR UPDATE ON assets
		FOR EACH ROW EXECUTE FUNCTION notify_asset_change()
	".

Definition sql_update_status : string := "
			UPDATE assets
			SET status = $1, last_seen = NOW()
			WHERE asset_type = 'sensor'
			LIMIT 1
		".

Definition sql_drop_trigger : string := "DROP TRIGGER IF EXISTS asset_update_notify ON assets".
Definition sql_drop_function : string := "DROP FUNCTION IF EXISTS notify_asset_change()".

Definition statuses : list string := ["active"; "maintenance"; "offline"].

(** One round of the loop that triggers the updates; the result of the
    update is not looked at. *)
Definition trigger_update (pool : Pool) (i : nat) (_ : unit) : Prog unit :=
  call (PoolExec (Pool_ pool) sql_update_status
          [AStr (nth (i mod 3) statuses EmptyString)]) ;;
  call (Sleep (200 * advanced_patterns.Millisecond)%Z).

(** What the main goroutine does once it listens.  The two [go]
    statements that come first start the goroutines
    [advanced_patterns.print_notifications] and
    [advanced_patterns.forward_notifications]; they are no call of this
    goroutine. *)
Definition after_listen (pool : Pool) : Prog unit :=
  (* Trigger some updates *)
  call (Sleep (100 * advanced_patterns.Millisecond)%Z) ;;
  for_range 3 0 (trigger_update pool) tt ;;
  call (Sleep (500 * advanced_patterns.Millisecond)%Z) ;;
  (* Clean up *)
  call (PoolExec (Pool_ pool) sql_drop_trigger []) ;;
  call (PoolExec (Pool_ pool) sql_drop_function []) ;;
  Ret tt.

(** The main goroutine of listenNotifyDemo. *)
Definition listenNotifyDemo (pool : Pool) : Prog unit :=
  call (Println (batch_operations.nl ++ "=== LISTEN/NOTIFY for Real-time Events ===")) ;;
  (* Create notification trigger *)
  r <- call (PoolExec (Pool_ pool) sql_create_function []) ;;
  match r with
  | inr err => call (LogPrintf "Create function error: %v" [AErr err])
  | inl _ =>
      (* Attach trigger *)
      call (PoolExec (Pool_ pool) sql_attach_trigger []) ;;
      (* Start listener *)
      r <- call (PoolAcquire (Pool_ pool)) ;;
      match r with
      | inr err => call (LogPrintf "Acquire error: %v" [AErr err])
      | inl conn =>
          defer (call (ConnRelease conn))
            (r <- call (ConnExec conn "LISTEN asset_updates" []) ;;
             match r with
             | inr err => call (LogPrintf "Listen error: %v" [AErr err])
             | inl _ =>
                 call (Println "✓ Listening for asset updates...") ;;
                 after_listen pool
             end)
      end
  end.

End listen_notify.

(** The statements that a trace sends on the pool, by their text. *)
Fixpoint pool_statements (tr : list Event) : list string :=
  match tr with
  | [] => []
  | Ev c _ :: tr' =>
      match c with
      | PoolExec _ sql _ => sql :: pool_statements tr'
      | _ => pool_statements tr'
      end
  end.

(** The connections that a trace releases. *)
Fixpoint conns_released (tr : list Event) : list ConnH :=
  match tr with
  | [] => []
  | Ev c _ :: tr' =>
      match c with
      | ConnRelease conn => conn :: conns_released tr'
      | _ => conns_released tr'
      end
  end.

(** The connections that a trace acquires. *)
Fixpoint conns_acquired (tr : list Event) : list ConnH :=
  match tr with
  | [] => []
  | Ev c r :: tr' =>
      match c in Cmd R return R -> list ConnH with
      | PoolAcquire _ => fun r =>
          match r with
          | inl conn => conn :: conns_acquired tr'
          | inr _ => conns_acquired tr'
          end
      | _ => fun _ => conns_acquired tr'
      end r
  end.

(** The calls of a whole run of the main goroutine of listenNotifyDemo,
    one list per path of the text: the creation of the function failed;
    the acquisition failed; LISTEN failed; or the demo listened, sent its
    three updates and dropped the trigger and the function.  A connection
    that was acquired is released by the last call. *)
Definition listen_story (pool : database.Pool) (tr : list Event) : Prop :=
  let p := database.Pool_ pool in
  let banner := Ev (Println (batch_operations.nl
                               ++ "=== LISTEN/NOTIFY for Real-time Events ===")) tt in
  (exists err,
      tr = [banner;
            Ev (PoolExec p listen_notify.sql_create_function []) (inr err);
            Ev (LogPrintf "Create function error: %v" [AErr err]) tt])
  \/ (exists n attached,
         let setup := [banner;
                       Ev (PoolExec p listen_notify.sql_create_function []) (inl n);
                       Ev (PoolExec p listen_notify.sql_attach_trigger []) attached] in
         (exists err,
             tr = setup ++ [Ev (PoolAcquire p) (inr err);
                            Ev (LogPrintf "Acquire error: %v" [AErr err]) tt])
         \/ (exists conn,
                (exists err,
                    tr = setup
                         ++ [Ev (PoolAcquire p) (inl conn);
                             Ev (ConnExec conn "LISTEN asset_updates" []) (inr err);
                             Ev (LogPrintf "Listen error: %v" [AErr err]) tt;
                             Ev (ConnRelease conn) tt])
                \/ (exists m u1 u2 u3 d1 d2,
                       let update status answer :=
                         Ev (PoolExec p listen_notify.sql_update_status [AStr status])
                            answer in
                       let pause ms :=
                         Ev (Sleep (ms * advanced_patterns.Millisecond)%Z) tt in
                       tr = setup
                            ++ [Ev (PoolAcquire p) (inl conn);
                                Ev (ConnExec conn "LISTEN asset_updates" []) (inl m);
                                Ev (Println "✓ Listening for asset updates...") tt;
                                pause 100%Z;
                                update "active" u1; pause 200%Z;
                                update "maintenance" u2; pause 200%Z;
                                update "offline" u3; pause 200%Z;
                                pause 500%Z;
                                Ev (PoolExec p listen_notify.sql_drop_trigger []) d1;
                                Ev (PoolExec p listen_notify.sql_drop_function []) d2;
                                Ev (ConnRelease conn) tt]))).

(* ===================================================================== *)
(** ** advisoryLocksDemo: the WaitGroup and the closing of the channel *)
(* ===================================================================== *)

Module LockClose.

Import advanced_patterns LockPoints.

(** The program points of the goroutine that closes the channel. *)
Inductive Closer : Type :=
| CWait      (* about to wait for the workers *)
| CClose     (* the wait is over: about to close the channel *)
| CDone.

Definition closer_prog (results : ChanH) (c : Closer) : Prog unit :=
  match c with
  | CWait => closer results
  | CClose => call (ChanClose results)
  | CDone => Ret tt
  end.

(** A worker counts in the WaitGroup until it has called [wg.Done()]. *)
Definition active (p : Worker) : nat :=
  match p with
  | WReturned => 0
  | _ => 1
  end.

Definition count_active (ws : list Worker) : nat := list_sum (map active ws).

(** The calls of the main goroutine: it receives and it prints. *)
Definition receives_and_prints (R : Type) (c : Cmd R) : Prop :=
  match c with
  | ChanRecvS _ | Printf _ _ | Println _ => True
  | _ => False
  end.

(** The invariant of the WaitGroup: the counter is the number of workers
    that have not called [wg.Done()]; the closer gets past its wait only at
    zero; and the channel is closed by the closer, at its last step. *)
Record close_inv (ws : list Worker) (c : Closer) (w : Locks.World) : Prop := mkCloseInv {
  ci_counter : Locks.wg w = count_active ws;
  ci_waited : c <> CWait -> Locks.wg w = 0;
  ci_closed : Locks.results_closed w = match c with CDone => true | _ => false end
}.

End LockClose.

Module LockCases.

(** advisoryLocksDemo with one worker, run until the worker has returned
    and the closer has closed the channel. *)
Definition one_worker : list (Prog unit) * Locks.World :=
  Locks.start 8 1 25 [] Sample.pool 9.

Definition one_worker_schedule : list nat := [0; 0; 0; 0; 0; 0; 0; 0; 1; 1].

Definition one_worker_done : list (Prog unit) * Locks.World :=
  match run_schedule Locks.shared one_worker_schedule one_worker with
  | Some s => s
  | None => one_worker
  end.

End LockCases.

(* ===================================================================== *)
(** ** Reading what a trace opens and closes *)
(* ===================================================================== *)

(** The handles of the driver that a call opens or closes: the rows of a
    query, the results of a batch, a transaction. *)
Inductive Life : Type :=
| RowsOpened (r : RowsH)
| RowsClosed (r : RowsH)
| BatchSent (br : BatchResultsH)
| BatchClosed (br : BatchResultsH)
| TxBegun (t : TxH)
| TxCommitted (t : TxH)
| TxRolledBack (t : TxH).

Definition life (e : Event) : list Life :=
  match e with
  | Ev c r =>
      match c in Cmd R return R -> list Life with
      | PoolQuery _ _ _ => fun r =>
          match r with inl rows => [RowsOpened rows] | inr _ => [] end
      | RowsClose rows => fun _ => [RowsClosed rows]
      | PoolSendBatch _ _ => fun br => [BatchSent br]
      | TxSendBatch _ _ => fun br => [BatchSent br]
      | BrClose br => fun _ => [BatchClosed br]
      | PoolBegin _ => fun r =>
          match r with inl t => [TxBegun t] | inr _ => [] end
      | TxCommit t => fun _ => [TxCommitted t]
      | TxRollback t => fun _ => [TxRolledBack t]
      | _ => fun _ => []
      end r
  end.

Definition lives (tr : list Event) : list Life := flat_map life tr.




(** The two calls of the main goroutine of advisoryLocksDemo for one
    result: it receives it, it prints it. *)
Definition receive_and_print (results : ChanH) (m : string) : list Event :=
  [Ev (ChanRecvS results) (Some m);
   Ev (Printf ("  - %s" ++ batch_operations.nl) [AStr m]) tt].
(* ===================================================================== *)
(** ** advisoryLocksDemo: the goroutines run to their end *)
(* ===================================================================== *)

Module LockLive.

Import advanced_patterns LockPoints LockClose.

(** The program points of the main goroutine. *)
Inductive Printer : Type :=
| MHead (fuel : nat)                      (* about to print the heading *)
| MRecv (fuel : nat)                      (* about to receive a result *)
| MPrint (fuel : nat) (result : string)   (* about to print the result received *)
| MTail                                   (* the channel is closed: two lines to print *)
| MLast                                   (* one line to print *)
| MDone.

(** What the main goroutine does after its loop. *)
Definition closing_lines : Prog unit :=
  call (Println (batch_operations.nl ++ "✓ Query to monitor advisory locks:")) ;;
  call (Println lock_monitor_query).

Definition printer_prog (results : ChanH) (m : Printer) : Prog unit :=
  match m with
  | MHead fuel => advisoryLocksDemo_main fuel results
  | MRecv fuel => print_results fuel results ;; closing_lines
  | MPrint fuel result =>
      (call (Printf ("  - %s" ++ batch_operations.nl) [AStr result]) ;;
       print_results fuel results) ;;
      closing_lines
  | MTail => closing_lines
  | MLast => call (Println lock_monitor_query)
  | MDone => Ret tt
  end.

(** The results that a worker may still send. *)
Definition sends_left (p : Worker) : nat :=
  match p with
  | WStart | WTry _ | WGot _ => 2
  | WAcquireFailed | WRefused _ | WSleep _ | WUnlock _ | WReleased _ => 1
  | WRelease _ | WWgDone | WReturned => 0
  end.

Definition to_send (ws : list Worker) : nat := list_sum (map sends_left ws).

(** A worker that is about to send a result. *)
Definition sending (p : Worker) : bool :=
  match p with
  | WAcquireFailed | WRefused _ | WGot _ | WReleased _ => true
  | _ => false
  end.

(** The steps that a goroutine has left, at most. *)
Definition worker_steps (p : Worker) : nat :=
  match p with
  | WStart => 8
  | WTry _ => 7
  | WGot _ => 6
  | WSleep _ => 5
  | WUnlock _ => 4
  | WReleased _ | WRefused _ => 3
  | WRelease _ | WAcquireFailed => 2
  | WWgDone => 1
  | WReturned => 0
  end.

Definition closer_steps (c : Closer) : nat :=
  match c with
  | CWait => 2
  | CClose => 1
  | CDone => 0
  end.

Definition printer_steps (m : Printer) : nat :=
  match m with
  | MHead fuel => 2 * fuel + 2
  | MRecv fuel => 2 * fuel + 1
  | MPrint fuel _ => 2 * fuel + 2
  | MTail => 2
  | MLast => 1
  | MDone => 0
  end.

Definition steps_left (ws : list Worker) (c : Closer) (m : Printer) : nat :=
  list_sum (map worker_steps ws) + closer_steps c + printer_steps m.

(** The invariant that keeps the demo moving: the WaitGroup counts the
    workers that have not called [wg.Done()]; the channel is closed by the
    closer at its last step; every connection on lease is in the hands of
    a worker; the main goroutine has fuel for all the results that are in
    the channel or still to be sent, and is past its loop only with the
    channel closed and drained. *)
Record live_inv (ws : list Worker) (c : Closer) (m : Printer) (w : Locks.World)
  : Prop := mkLiveInv {
  lv_counter : Locks.wg w = count_active ws;
  lv_waited : c <> CWait -> Locks.wg w = 0;
  lv_closed : Locks.results_closed w = match c with CDone => true | _ => false end;
  lv_leases :
    forall conn, In conn (Locks.leased w) ->
                 exists i p, nth_error ws i = Some p /\ conn_of p = Some conn;
  lv_fuel :
    match m with
    | MHead fuel | MRecv fuel | MPrint fuel _ =>
        to_send ws + List.length (Locks.results w) < fuel
    | MTail | MLast | MDone =>
        Locks.results_closed w = true /\ Locks.results w = []
    end;
  lv_room : 1 <= Locks.results_capacity w;
  lv_ceiling : 1 <= Locks.max_conns w
}.

End LockLive.

Module LockRuns.

(** advisoryLocksDemo with one worker, run to the end: the worker, then
    the closer, then the main goroutine. *)
Definition to_the_end : list nat :=
  [0; 0; 0; 0; 0; 0; 0; 0; 1; 1; 2; 2; 2; 2; 2; 2; 2; 2].

Definition all_done : list (Prog unit) * Locks.World :=
  match run_schedule Locks.shared to_the_end LockCases.one_worker with
  | Some s => s
  | None => LockCases.one_worker
  end.

End LockRuns.

(* ===================================================================== *)
(** ** ConnectionPool: every call that needs a connection *)
(* ===================================================================== *)


(** Modelled from the spec: the pool of spec section 4.1 as all the calls
    of the repository see it (the pool is pgxpool's, not code of the
    repository).  A connection is held by [pool.Acquire] until [Release],
    by the rows of [pool.Query] until they are closed, by the results of
    [pool.SendBatch] until they are closed, by the transaction of
    [pool.Begin] until it ends, and by [pool.Exec] for the time of the
    call.  Each of them leases its connection as [pool.Acquire] does in
    [Locks]: a request that finds every connection in use and the pool at
    its ceiling waits.  The demos pass [context.Background()] to every
    call, so a wait has no deadline, and the repository defines no
    PoolExhausted error: the wait ends when a connection comes back, and
    not otherwise.  The world is the one of [Locks]; the handle of rows,
    of batch results and of a transaction is the connection that it
    holds. *)
Module PoolCalls.

Import Locks.

(** Lease a connection for a call, as [pool.Acquire] does. *)
Definition lease (p : PoolH) (w : World) : option (result ConnH * World) :=
  Locks.shared _ (PoolAcquire p) w.

(** Give a connection back, once: closing what is closed already gives
    nothing back. *)
Definition give_back (conn : ConnH) (w : World) : World :=
  if in_dec Nat.eq_dec conn (leased w)
  then with_pool (idle w ++ [conn]) (remove Nat.eq_dec conn (leased w)) (next_conn w) w
  else w.

Definition shared : Shared World :=
  fun R c =>
    match c in Cmd R return World -> option (R * World) with
    | PoolAcquire p => fun w => lease p w
    | ConnRelease conn => fun w => Some (tt, give_back conn w)
    | PoolExec p _ _ => fun w =>
        match lease p w with
        | Some (inl conn, w') => Some (inl 0%Z, give_back conn w')
        | Some (inr e, w') => Some (inr e, w')
        | None => None
        end
    | PoolQuery p _ _ => fun w => lease p w
    | RowsNext _ => fun w => Some (false, w)
    | RowsClose rows => fun w => Some (tt, give_back rows w)
    | PoolSendBatch p _ => fun w =>
        match lease p w with
        | Some (inl conn, w') => Some (conn, w')
        | Some (inr _, w') => Some (0, w')
        | None => None
        end
    | BrExec _ => fun w => Some (inl 1%Z, w)
    | BrClose br => fun w => Some (None, give_back br w)
    | PoolBegin p => fun w => lease p w
    | TxPrepare _ _ _ => fun w => Some (None, w)
    | TxExec _ _ _ => fun w => Some (inl 1%Z, w)
    | TxCommit tx => fun w => Some (None, give_back tx w)
    | TxRollback tx => fun w => Some (None, give_back tx w)
    | ConnExec _ _ _ => fun w => Some (inl 0%Z, w)
    | Now => fun w => Some (0%Z, w)
    | TimeFormat _ _ => fun w => Some (EmptyString, w)
    | Sleep _ => fun w => Some (tt, w)
    | Println _ => fun w => Some (tt, w)
    | Printf _ _ => fun w => Some (tt, w)
    | LogPrintf _ _ => fun w => Some (tt, w)
    | _ => fun _ => None
    end.

(** A pool with the ceiling [max], no connection yet, and a datastore
    that does not fail. *)
Definition start (max : nat) : World :=
  mkWorld max [] [] 1 [] [] 0 0 [] false [].

End PoolCalls.


Module CeilingCases.



End CeilingCases.

(* ===================================================================== *)
(** ** BatchWriter: reading the results of a pgx.Batch *)
(* ===================================================================== *)




(** The answers that a trace gets from [br.Exec()], in order. *)
Fixpoint reads (tr : list Event) : list (result Z) :=
  match tr with
  | [] => []
  | Ev c r :: tr' =>
      match c in Cmd R return R -> list (result Z) with
      | BrExec _ => fun a => a :: reads tr'
      | _ => fun _ => reads tr'
      end r
  end.

(** The statements of a batch that failed, by their place in the batch,
    each with its error. *)
Fixpoint failures (from : nat) (answers : list (result Z)) : list (nat * error) :=
  match answers with
  | [] => []
  | inl _ :: rest => failures (S from) rest
  | inr e :: rest => (from, e) :: failures (S from) rest
  end.

(** What a trace reports: what it prints and what it logs. *)
Definition is_report (e : Event) : bool :=
  match e with
  | Ev c _ =>
      match c with
      | Printf _ _ | Println _ | LogPrintf _ _ | LogPrint _ => true
      | _ => false
      end
  end.

Definition reports (tr : list Event) : list Event := filter is_report tr.


(* ===================================================================== *)
(** * Properties *)
(* ===================================================================== *)

Section RunLaws.

Context {S : Type} (h : Handler S).

Lemma run_bind {A B : Type} (p : Prog A) (f : A -> Prog B) (s : S) :
  run h (bind p f) s =
  let r1 := run h p s in
  match outcome r1 with
  | Returned a =>
      let r2 := run h (f a) (final r1) in
      mkRun (outcome r2) (final r2) (trace r1 ++ trace r2)
  | Panicked v => mkRun (Panicked v) (final r1) (trace r1)
  | Exited c => mkRun (Exited c) (final r1) (trace r1)
  | Diverged => mkRun Diverged (final r1) (trace r1)
  end.
Proof.
  revert s. induction p as [a | v | c | | R c k IH]; intros s; simpl.
  - destruct (run h (f a) s); reflexivity.
  - reflexivity.
  - reflexivity.
  - reflexivity.
  - destruct (h R c s) as [r s']. rewrite IH. simpl.
    destruct (outcome (run h (k r) s')); reflexivity.
Qed.

Lemma run_defer_recover {A : Type} (p : Prog A) (g : any -> Prog A) (s : S) :
  run h (defer_recover p g) s =
  let r1 := run h p s in
  match outcome r1 with
  | Returned a => mkRun (Returned a) (final r1) (trace r1)
  | Panicked v =>
      let r2 := run h (g v) (final r1) in
      mkRun (outcome r2) (final r2) (trace r1 ++ trace r2)
  | Exited c => mkRun (Exited c) (final r1) (trace r1)
  | Diverged => mkRun Diverged (final r1) (trace r1)
  end.
Proof.
  revert s. induction p as [a | v | c | | R c k IH]; intros s; simpl.
  - reflexivity.
  - destruct (run h (g v) s); reflexivity.
  - reflexivity.
  - reflexivity.
  - destruct (h R c s) as [r s']. rewrite IH. simpl.
    destruct (outcome (run h (k r) s')); reflexivity.
Qed.

(** One call, then the rest: the run of the rest is left folded. *)
Lemma run_call_then {R A : Type} (c : Cmd R) (f : R -> Prog A) (s : S) :
  run h (bind (call c) f) s
  = mkRun (outcome (run h (f (fst (h _ c s))) (snd (h _ c s))))
          (final (run h (f (fst (h _ c s))) (snd (h _ c s))))
          (Ev c (fst (h _ c s)) :: trace (run h (f (fst (h _ c s))) (snd (h _ c s)))).
Proof. cbn [run bind call]. destruct (h R c s) as [r s']. reflexivity. Qed.

End RunLaws.

Section AloneLaws.

Context {W : Type} (sh : Shared W).

(** A goroutine alone makes the calls of the run against [total_of sh],
    up to the first call that is not answered. *)
Lemma run_alone_calls {A : Type} (p : Prog A) :
  forall w : W,
    exists rest,
      trace (run (total_of sh) p w) = calls (run_alone sh p w) ++ rest
      /\ match ending (run_alone sh p w) with
         | Ended o =>
             rest = [] /\ outcome (run (total_of sh) p w) = o
             /\ final (run (total_of sh) p w) = world (run_alone sh p w)
         | Waits c => exists r rest', rest = Ev c r :: rest'
         end.
Proof.
  induction p as [a | v | c | | R c k IH]; intros w;
    try (exists []; repeat split; reflexivity).
  cbn [run run_alone].
  replace (total_of sh R c w)
    with (match sh R c w with Some a => a | None => (idle_answer c, w) end)
    by reflexivity.
  destruct (sh R c w) as [[r w']|].
  - destruct (IH r w') as (rest & Htr & Hend).
    exists rest. cbn [outcome final trace ending world calls].
    split; [rewrite Htr; reflexivity | exact Hend].
  - cbn [ending calls app trace]. eexists. split; [reflexivity|].
    eexists _, _. reflexivity.
Qed.

(** A goroutine alone that comes to its end has made the calls of the
    run against [total_of sh], and ends as that run does. *)
Lemma run_alone_ended {A : Type} (p : Prog A) (w : W) (o : Outcome A) :
  ending (run_alone sh p w) = Ended o ->
  calls (run_alone sh p w) = trace (run (total_of sh) p w)
  /\ outcome (run (total_of sh) p w) = o.
Proof.
  intros He. destruct (run_alone_calls p w) as (rest & Htr & Hend).
  rewrite He in Hend. destruct Hend as (-> & Ho & _).
  rewrite Htr, app_nil_r. split; [reflexivity | exact Ho].
Qed.

(** A goroutine alone that waits has made the calls of the run against
    [total_of sh] up to the call it waits in. *)
Lemma run_alone_waits {A R : Type} (p : Prog A) (w : W) (c : Cmd R) :
  ending (run_alone sh p w) = Waits c ->
  exists r later,
    trace (run (total_of sh) p w) = calls (run_alone sh p w) ++ Ev c r :: later.
Proof.
  intros He. destruct (run_alone_calls p w) as (rest & Htr & Hend).
  rewrite He in Hend. destruct Hend as (r & later & ->).
  exists r, later. exact Htr.
Qed.

End AloneLaws.

(* ===================================================================== *)
(** ** ScopedTransaction: [database.WithTx] *)
(* ===================================================================== *)

Section WithTxProps.

Import database.
Context {S : Type} (h : Handler S).
Variables (pool : Pool) (fn : TxH -> Prog (option error)).

(** What [WithTx] does once [Begin] has handed out [tx]: the run of
    [fn tx], followed by the one call that ends the transaction. *)
Lemma WithTx_after_begin (s s1 : S) (tx : TxH) :
  h _ (PoolBegin (Pool_ pool)) s = (inl tx, s1) ->
  run h (WithTx pool fn) s =
  let body := run h (fn tx) s1 in
  let begin := Ev (PoolBegin (Pool_ pool)) (inl tx) in
  match outcome body with
  | Returned None =>
      let '(rc, s2) := h _ (TxCommit tx) (final body) in
      mkRun (Returned (option_map (Errorf_w "commit failed: ") rc)) s2
            (begin :: trace body ++ [Ev (TxCommit tx) rc])
  | Returned (Some e) =>
      let '(rb, s2) := h _ (TxRollback tx) (final body) in
      mkRun (Returned (Some match rb with
                            | Some rbErr =>
                                Errorf_v_w "rollback failed: " rbErr
                                           ", original error: " e
                            | None => e
                            end)) s2
            (begin :: trace body ++ [Ev (TxRollback tx) rb])
  | Panicked v =>
      let '(rb, s2) := h _ (TxRollback tx) (final body) in
      mkRun (Panicked v) s2 (begin :: trace body ++ [Ev (TxRollback tx) rb])
  | Exited c => mkRun (Exited c) (final body) (begin :: trace body)
  | Diverged => mkRun Diverged (final body) (begin :: trace body)
  end.
Proof.
  intros Hb. unfold WithTx. simpl. rewrite Hb.
  rewrite run_defer_recover, run_bind. simpl.
  destruct (outcome (run h (fn tx) s1)) as [[e|] | v | c |]; simpl.
  - destruct (h _ (TxRollback tx) (final (run h (fn tx) s1))) as [[rbErr|] s2];
      reflexivity.
  - destruct (h _ (TxCommit tx) (final (run h (fn tx) s1))) as [[e|] s2];
      reflexivity.
  - destruct (h _ (TxRollback tx) (final (run h (fn tx) s1))) as [rb s2].
    reflexivity.
  - reflexivity.
  - reflexivity.
Qed.

End WithTxProps.

(** C1.  For every [fn]: [WithTx] begins a transaction and runs [fn] on
    the handle it got; the call that follows the run of [fn] is [Commit]
    when [fn] returned nil, [Rollback] when [fn] returned an error, and
    [Rollback] followed by a panic with the same value when [fn] panicked. *)
Theorem WithTx_commit_or_rollback :
  forall (S : Type) (h : Handler S) (pool : database.Pool)
         (fn : TxH -> Prog (option error)) (s s1 : S) (tx : TxH),
    h _ (PoolBegin (database.Pool_ pool)) s = (inl tx, s1) ->
    let body := run h (fn tx) s1 in
    let whole := run h (database.WithTx pool fn) s in
    exists ending,
      trace whole
      = Ev (PoolBegin (database.Pool_ pool)) (inl tx) :: trace body ++ ending
      /\ match outcome body with
         | Returned None =>
             exists rc, ending = [Ev (TxCommit tx) rc]
               /\ outcome whole = Returned (option_map (Errorf_w "commit failed: ") rc)
         | Returned (Some e) =>
             exists rb r, ending = [Ev (TxRollback tx) rb]
               /\ outcome whole = Returned (Some r)
         | Panicked v =>
             exists rb, ending = [Ev (TxRollback tx) rb]
               /\ outcome whole = Panicked v
         | Exited c => ending = [] /\ outcome whole = Exited c
         | Diverged => ending = [] /\ outcome whole = Diverged
         end.
Proof.
  intros S h pool fn s s1 tx Hb body whole.
  subst whole. rewrite (WithTx_after_begin h pool fn s s1 tx Hb).
  fold body. cbv zeta.
  destruct (outcome body) as [[e|] | v | c |].
  - destruct (h _ (TxRollback tx) (final body)) as [rb s2]. simpl.
    eexists; split; [reflexivity|]. eauto.
  - destruct (h _ (TxCommit tx) (final body)) as [rc s2]. simpl.
    eexists; split; [reflexivity|]. eauto.
  - destruct (h _ (TxRollback tx) (final body)) as [rb s2]. simpl.
    eexists; split; [reflexivity|]. eauto.
  - exists []. simpl. rewrite app_nil_r. auto.
  - exists []. simpl. rewrite app_nil_r. auto.
Qed.

Lemma WithTx_commit_or_rollback_witness :
  Datastore.pg _ (PoolBegin (database.Pool_ Sample.pool)) Datastore.empty
  = (inl 1, Sample.begun)
  /\ exists ending,
      trace (run Datastore.pg (database.WithTx Sample.pool Sample.fn) Datastore.empty)
      = Ev (PoolBegin (database.Pool_ Sample.pool)) (inl 1)
          :: trace (run Datastore.pg (Sample.fn 1) Sample.begun) ++ ending
      /\ match outcome (run Datastore.pg (Sample.fn 1) Sample.begun) with
         | Returned None =>
             exists rc, ending = [Ev (TxCommit 1) rc]
               /\ outcome (run Datastore.pg (database.WithTx Sample.pool Sample.fn)
                               Datastore.empty)
                  = Returned (option_map (Errorf_w "commit failed: ") rc)
         | Returned (Some e) =>
             exists rb r, ending = [Ev (TxRollback 1) rb]
               /\ outcome (run Datastore.pg (database.WithTx Sample.pool Sample.fn)
                               Datastore.empty)
                  = Returned (Some r)
         | Panicked v =>
             exists rb, ending = [Ev (TxRollback 1) rb]
               /\ outcome (run Datastore.pg (database.WithTx Sample.pool Sample.fn)
                               Datastore.empty)
                  = Panicked v
         | Exited c =>
             ending = []
             /\ outcome (run Datastore.pg (database.WithTx Sample.pool Sample.fn)
                             Datastore.empty)
                = Exited c
         | Diverged =>
             ending = []
             /\ outcome (run Datastore.pg (database.WithTx Sample.pool Sample.fn)
                             Datastore.empty)
                = Diverged
         end.
Proof.
  split.
  - reflexivity.
  - apply (WithTx_commit_or_rollback Datastore.Store Datastore.pg Sample.pool Sample.fn
             Datastore.empty Sample.begun 1).
    reflexivity.
Defined.

Lemma errors_Is_refl (e : error) : errors_Is e e = true.
Proof.
  destruct e; simpl; unfold error_eqb;
    match goal with |- context [error_eq_dec ?a ?b] => destruct (error_eq_dec a b) end;
    congruence.
Qed.

Lemma errors_Is_wrap (msg : string) (e : error) : errors_Is (wrapError msg e) e = true.
Proof.
  simpl. destruct (error_eqb (wrapError msg e) e); [reflexivity | apply errors_Is_refl].
Qed.

(** C2.  When [fn] returns the error [e], the error that [WithTx] returns
    has [e] as its cause: it is [e] itself when the rollback succeeded, and
    when the rollback failed with [rbErr] it is an error whose [Unwrap] is
    [e] and whose text carries the text of both. *)
Theorem WithTx_preserves_cause :
  forall (S : Type) (h : Handler S) (pool : database.Pool)
         (fn : TxH -> Prog (option error)) (s s1 : S) (tx : TxH) (e : error),
    h _ (PoolBegin (database.Pool_ pool)) s = (inl tx, s1) ->
    outcome (run h (fn tx) s1) = Returned (Some e) ->
    exists r,
      outcome (run h (database.WithTx pool fn) s) = Returned (Some r)
      /\ errors_Is r e = true
      /\ match fst (h _ (TxRollback tx) (final (run h (fn tx) s1))) with
         | None => r = e
         | Some rbErr =>
             Unwrap r = Some e
             /\ Error r = ("rollback failed: " ++ Error rbErr
                             ++ ", original error: " ++ Error e)%string
         end.
Proof.
  intros S h pool fn s s1 tx e Hb Hfn.
  rewrite (WithTx_after_begin h pool fn s s1 tx Hb). cbv zeta. rewrite Hfn.
  destruct (h _ (TxRollback tx) (final (run h (fn tx) s1))) as [[rbErr|] s2]; simpl.
  - eexists; split; [reflexivity|]. split; [apply errors_Is_wrap|].
    split; reflexivity.
  - eexists; split; [reflexivity|]. split; [apply errors_Is_refl | reflexivity].
Qed.

Lemma WithTx_preserves_cause_witness :
  Datastore.pg _ (PoolBegin (database.Pool_ Sample.pool)) Sample.faulty
  = (inl 1, Sample.faulty_begun)
  /\ outcome (run Datastore.pg (Sample.fn 1) Sample.faulty_begun)
     = Returned (Some Sample.e1)
  /\ exists r,
      outcome (run Datastore.pg (database.WithTx Sample.pool Sample.fn) Sample.faulty)
      = Returned (Some r)
      /\ errors_Is r Sample.e1 = true
      /\ match fst (Datastore.pg _ (TxRollback 1)
                      (final (run Datastore.pg (Sample.fn 1) Sample.faulty_begun))) with
         | None => r = Sample.e1
         | Some rbErr =>
             Unwrap r = Some Sample.e1
             /\ Error r = ("rollback failed: " ++ Error rbErr
                             ++ ", original error: " ++ Error Sample.e1)%string
         end.
Proof.
  split; [reflexivity | split; [reflexivity |]].
  apply (WithTx_preserves_cause Datastore.Store Datastore.pg Sample.pool Sample.fn
           Sample.faulty Sample.faulty_begun 1 Sample.e1); reflexivity.
Defined.

(** The same run, evaluated: the rollback failed, and the error that comes
    back still unwraps to the error of the callback. *)
Example WithTx_rollback_failed_run :
  outcome (run Datastore.pg (database.WithTx Sample.pool Sample.fn) Sample.faulty)
  = Returned (Some (wrapError
      "rollback failed: conn closed, original error: relation already exists"
      Sample.e1)).
Proof. reflexivity. Qed.

(* ===================================================================== *)
(** ** ConnectionPool: [database.NewPool] *)
(* ===================================================================== *)

(** C10.  [NewPool] returns either a pool and no error, or an error and no
    pool.  It returns a pool only after a ping that succeeded, and then
    that pool is the one pool left open.  When it returns an error no pool
    is left open: if one had been created, the ping failed and the last
    call of [NewPool] closed it. *)
Theorem NewPool_pool_xor_error :
  forall (S : Type) (h : Handler S) (cfg : database.Config) (s : S),
    let r := run h (database.NewPool cfg) s in
    (exists p,
        outcome r = Returned (Some p, None)
        /\ database.config p = cfg
        /\ In (Ev (Ping (database.Pool_ p)) None) (trace r)
        /\ live_pools (trace r) [] = [database.Pool_ p])
    \/ (exists e,
        outcome r = Returned (None, Some e)
        /\ live_pools (trace r) [] = []
        /\ match pool_created (trace r) with
           | None => True
           | Some ph =>
               exists pre perr,
                 trace r = pre ++ [Ev (Ping ph) (Some perr); Ev (PoolClose ph) tt]
                 /\ e = Errorf_w "ping database: " perr
           end).
Proof.
  intros S h cfg s r. subst r. unfold database.NewPool. simpl.
  destruct (h _ (ParseConfig (database.dsn_of cfg)) s) as [[pc | err] s1]; simpl.
  2:{ right. eexists. repeat split. }
  match goal with |- context [h _ (NewWithConfig ?c) s1] =>
    destruct (h _ (NewWithConfig c) s1) as [[ph | err] s2] end; simpl.
  2:{ right. eexists. repeat split. }
  destruct (h _ (Ping ph) s2) as [[perr|] s3]; simpl.
  - right. destruct (h _ (PoolClose ph) s3) as [[] s4]. simpl.
    eexists. split; [reflexivity|]. split.
    + destruct (Nat.eq_dec ph ph); [reflexivity | congruence].
    + eexists [_; _], perr. split; reflexivity.
  - left. eexists. repeat split. simpl. auto.
Qed.

(* ===================================================================== *)
(** ** The seeder: [seed.main] *)
(* ===================================================================== *)

(** C9.  Started on a store whose [sites] table has a row, the seeder
    leaves [sites] and [assets] as they were and sends no statement at
    all.  When none of its first four calls fails (the three calls that
    open the pool and the count query), it reads the count, logs it,
    closes the pool and returns; these are its last three calls.  It ends
    otherwise only on the first of these calls that fails: with status 1,
    its last call being the [log.Fatal] line that names this failure. *)
Theorem seeder_skips_seeded_database :
  forall (fuel : nat) (st : Datastore.Store),
    Datastore.sites st <> [] ->
    let r := run Datastore.pg (seed.main fuel) st in
    let n := Z.of_nat (List.length (Datastore.sites st)) in
    Datastore.sites (final r) = Datastore.sites st
    /\ Datastore.assets (final r) = Datastore.assets st
    /\ filter is_statement (trace r) = []
    /\ match first_failure 4 (Datastore.faults st) with
       | None =>
           outcome r = Returned tt
           /\ exists p,
               skipn 3 (trace r)
               = [Ev (PoolQueryRowInt p "SELECT COUNT(*) FROM sites") (inl n);
                  Ev (LogPrintf
                        "Database already contains %d sites. Clear data first if you want to reseed."
                        [AInt n]) tt;
                  Ev (PoolClose p) tt]
       | Some (k, e) =>
           outcome r = Exited 1
           /\ last_call (trace r)
              = Some (Ev (LogPrint
                            match k with
                            | 0 => [AStr "Failed to create pool:";
                                    AErr (Errorf_w "parse config: " e)]
                            | 1 => [AStr "Failed to create pool:";
                                    AErr (Errorf_w "create pool: " e)]
                            | 2 => [AStr "Failed to create pool:";
                                    AErr (Errorf_w "ping database: " e)]
                            | _ => [AStr "Failed to check existing data:"; AErr e]
                            end) tt)
       end.
Proof.
  intros fuel [n fs si a tt un pe] Hne. simpl in Hne.
  destruct si as [|row si]; [congruence|]. clear Hne.
  destruct fs as [|[e1|] [|[e2|] [|[e3|] [|[e4|] fs]]]];
    vm_compute;
    repeat match goal with |- _ /\ _ => split end;
    try reflexivity; eexists; reflexivity.
Qed.

Lemma seeder_skips_seeded_database_witness :
  Datastore.sites Sample.seeded <> []
  /\ outcome (run Datastore.pg (seed.main 8) Sample.seeded) = Returned tt
  /\ filter is_statement (trace (run Datastore.pg (seed.main 8) Sample.seeded)) = []
  /\ exists p,
      skipn 3 (trace (run Datastore.pg (seed.main 8) Sample.seeded))
      = [Ev (PoolQueryRowInt p "SELECT COUNT(*) FROM sites") (inl 1%Z);
         Ev (LogPrintf
               "Database already contains %d sites. Clear data first if you want to reseed."
               [AInt 1]) tt;
         Ev (PoolClose p) tt].
Proof.
  assert (Hne : Datastore.sites Sample.seeded <> []) by discriminate.
  split; [exact Hne|].
  destruct (seeder_skips_seeded_database 8 Sample.seeded Hne) as (_ & _ & Hnone & Hend).
  destruct Hend as (Hout & p & Hp).
  split; [exact Hout|]. split; [exact Hnone|].
  exists p. exact Hp.
Defined.

(** On an empty [sites] table the seeder does go on: with enough fuel for
    the loop over the site ids and no failure, [seedSites] alone leaves
    the thousand sites behind. *)
Example seedSites_fills_empty_store :
  let r := run Datastore.pg (seed.seedSites Sample.pool 1000) Datastore.empty in
  outcome r = Returned None
  /\ List.length (Datastore.sites (final r)) = 1000
  /\ List.length (filter is_statement (trace r)) = 10.
Proof. vm_compute. repeat split. Qed.

(* ===================================================================== *)
(** ** MergeCoordinator: the staging table of [batchUpdates] *)
(* ===================================================================== *)

Section StoreLaws.

Import Datastore.

Lemma fault_cases (st : Store) : exists f fs', fault st = (f, with_faults fs' st).
Proof.
  unfold fault. destruct st as [n fs si a tt un pe]; simpl.
  destruct fs as [|f fs]; simpl; eauto.
  exists None, []. reflexivity.
Qed.


Lemma insert_committed_catalog table rows st :
  temp_tables (insert_committed table rows st) = temp_tables st
  /\ next_id (insert_committed table rows st) = next_id st.
Proof.
  unfold insert_committed.
  destruct (table =? "sites"); [split; reflexivity|].
  destruct (table =? "assets"); split; reflexivity.
Qed.

Lemma exec_keeps_catalog owner sql args st :
  benign sql = true ->
  temp_tables (snd (exec owner sql args st)) = temp_tables st
  /\ next_id (snd (exec owner sql args st)) = next_id st.
Proof.
  unfold benign. intros Hp. unfold exec.
  destruct (fault_cases st) as (f & fs' & ->).
  destruct f as [e|]; [split; reflexivity|].
  destruct (SQL.parse sql); try discriminate; try (split; reflexivity).
  destruct owner; simpl; [split; reflexivity|].
  destruct (insert_committed_catalog table (rows_of columns args) (with_faults fs' st))
    as [-> ->].
  split; reflexivity.
Qed.

Lemma exec_all_keeps_catalog owner b : forall st,
  forallb (fun q => benign (q_sql q)) b = true ->
  temp_tables (snd (exec_all owner b st)) = temp_tables st
  /\ next_id (snd (exec_all owner b st)) = next_id st.
Proof.
  induction b as [|q b IH]; intros st Hb; simpl.
  - split; reflexivity.
  - simpl in Hb. apply andb_prop in Hb as [Hq Hb].
    destruct (exec owner (q_sql q) (q_args q) st) as [r st1] eqn:E.
    pose proof (exec_keeps_catalog owner (q_sql q) (q_args q) st Hq) as [H1 H2].
    rewrite E in H1, H2. simpl in H1, H2.
    destruct (exec_all owner b st1) as [rs st2] eqn:E2.
    pose proof (IH st1 Hb) as [H3 H4]. rewrite E2 in H3, H4. simpl in *.
    split; congruence.
Qed.

Lemma send_batch_keeps_catalog owner b st :
  forallb (fun q => benign (q_sql q)) b = true ->
  temp_tables (snd (send_batch owner b st)) = temp_tables st.
Proof.
  intros Hb. unfold send_batch.
  pose proof (exec_all_keeps_catalog owner b st Hb) as [H1 H2].
  destruct (exec_all owner b st) as [rs st1]. simpl in *.
  exact H1.
Qed.


Lemma pg_keeps_catalog {R : Type} (c : Cmd R) (st : Store) :
  catalog_neutral c = true ->
  temp_tables (snd (pg R c st)) = temp_tables st.
Proof.
  destruct c; simpl; intros Hn; try discriminate; try reflexivity;
    try (destruct (fault_cases st) as (f & fs' & ->); destruct f; reflexivity);
    try (apply exec_keeps_catalog; assumption);
    try (apply send_batch_keeps_catalog; assumption).
  all: unfold next_result, put_pending;
    repeat match goal with
    | |- context [exec ?o ?sql ?args ?st] =>
        let H := fresh in
        pose proof (exec_keeps_catalog o sql args st Hn) as [H _];
        destruct (exec o sql args st) as [[?|?] ?]; simpl in *
    | |- context [match take_pending ?h ?p with _ => _ end] =>
        destruct (take_pending h p) as [[|[?|?] [|? ?]]|]; simpl
    end; try reflexivity; try assumption.
  destruct (fault_cases st) as (f & fs' & ->). destruct f; simpl; [reflexivity|].
  destruct (insert_committed_catalog table rows (with_faults fs' st)) as [-> _].
  reflexivity.
Qed.

End StoreLaws.

Section Staging.

Import Datastore.
Local Arguments pg : simpl never.

Ltac neutral_step r s' :=
  match goal with
  | |- context [pg ?R ?c ?st] =>
      let H := fresh "Hcat" in
      assert (H : temp_tables (snd (pg R c st)) = temp_tables st)
        by (apply pg_keeps_catalog; vm_compute; reflexivity);
      destruct (pg R c st) as [r s']; simpl in H; simpl
  end.

Lemma exec_create_temp tx st :
  let r := pg _ (TxExec tx batch_operations.sql_create_temp []) st in
  match fst r with
  | inr _ => temp_tables (snd r) = temp_tables st
  | inl _ => temp_tables (snd r) = mkTemp "batch_updates" (Some tx) true :: temp_tables st
  end.
Proof.
  unfold pg, exec. destruct (fault_cases st) as (f & fs' & ->).
  destruct f as [e|]; simpl; reflexivity.
Qed.

(** The callback of batchUpdates returns (it neither panics nor exits),
    sends no DROP, and leaves the catalogue as it found it or with the one
    staging table, owned by its transaction and marked ON COMMIT DROP. *)
Lemma batchUpdates_fn_catalog start tx st :
  let r := run pg (batch_operations.batchUpdates_fn start tx) st in
  (exists e, outcome r = Returned e)
  /\ (temp_tables (final r) = temp_tables st
      \/ temp_tables (final r) = mkTemp "batch_updates" (Some tx) true :: temp_tables st)
  /\ existsb issues_drop (trace r) = false.
Proof.
  unfold batch_operations.batchUpdates_fn, batch_operations.Since. simpl.
  pose proof (exec_create_temp tx st) as Hc. cbv zeta in Hc.
  destruct (pg _ (TxExec tx batch_operations.sql_create_temp []) st) as [[n|e] st1];
    simpl in *.
  2:{ split; [eauto|]. split; [auto|]. reflexivity. }
  neutral_step br st2. neutral_step cerr st3. neutral_step r st4.
  destruct r as [rows|e]; simpl.
  - split; [eauto|]. split; [right; congruence | reflexivity].
  - split; [eauto|]. split; [right; congruence | reflexivity].
Qed.

End Staging.

Section StagingTx.

Import Datastore.

Lemma not_owned_fresh (tts : list TempTable) (n : nat) :
  forallb (fun t => match tt_owner t with Some o => Nat.ltb o n | None => true end) tts = true ->
  forallb (fun t => negb (owned_by n t)) tts = true.
Proof.
  rewrite !forallb_forall. intros H t Ht. specialize (H t Ht).
  unfold owned_by. destruct (tt_owner t) as [o|]; [|reflexivity].
  apply Nat.ltb_lt in H. destruct (Nat.eqb_spec o n); [lia | reflexivity].
Qed.

Lemma filter_all {A : Type} (f : A -> bool) (l : list A) :
  forallb f l = true -> filter f l = l.
Proof.
  induction l as [|x l IH]; simpl; [reflexivity|].
  intros H. apply andb_prop in H as [Hx Hl]. rewrite Hx, IH; auto.
Qed.

(** The end of a transaction, by commit or by rollback, removes the
    staging table that the transaction created, and nothing else when no
    other table belongs to it. *)
Lemma end_tx_drops_staging (commit : bool) (tx : TxH) (st : Store) (tts : list TempTable) :
  forallb (fun t => negb (owned_by tx t)) tts = true ->
  temp_tables st = tts \/ temp_tables st = mkTemp "batch_updates" (Some tx) true :: tts ->
  temp_tables (end_tx commit tx st) = tts.
Proof.
  intros Hfresh Hst. unfold end_tx.
  set (mine := filter (fun e => Nat.eqb (fst e) tx) (uncommitted st)).
  set (st0 := with_uncommitted _ st).
  assert (H0 : temp_tables st0 = temp_tables st) by reflexivity.
  assert (Hfilter : forall keep : TempTable -> bool,
             (forall t, owned_by tx t = false -> keep t = true) ->
             keep (mkTemp "batch_updates" (Some tx) true) = false ->
             filter keep (temp_tables st) = tts).
  { intros keep Hkeep Hnew.
    assert (Hall : filter keep tts = tts).
    { apply filter_all. rewrite forallb_forall in *. intros t Ht.
      apply Hkeep. specialize (Hfresh t Ht). now apply negb_true_iff in Hfresh. }
    destruct Hst as [-> | ->]; simpl; [|rewrite Hnew]; exact Hall. }
  assert (Hown : owned_by tx (mkTemp "batch_updates" (Some tx) true) = true).
  { unfold owned_by. simpl. apply Nat.eqb_refl. }
  destruct commit.
  - assert (Hfold : forall l s,
               temp_tables (fold_left
                 (fun (st : Store) (e : TxH * (string * list any)) =>
                    insert_committed (fst (snd e)) [snd (snd e)] st) l s)
               = temp_tables s).
    { induction l as [|e l IH]; intros s; simpl; [reflexivity|].
      rewrite IH. apply insert_committed_catalog. }
    cbv zeta. change (temp_tables (with_temp ?x ?s)) with x.
    rewrite Hfold, H0.
    rewrite (Hfilter (fun t => negb (owned_by tx t && tt_on_commit_drop t))).
    + rewrite <- (map_id tts) at 2. apply map_ext_in. intros t Ht.
      rewrite forallb_forall in Hfresh. specialize (Hfresh t Ht).
      apply negb_true_iff in Hfresh. now rewrite Hfresh.
    + intros t Ht. now rewrite Ht.
    + now rewrite Hown.
  - change (temp_tables (with_temp ?x ?s)) with x.
    rewrite H0. apply (Hfilter (fun t => negb (owned_by tx t))).
    + intros t Ht. now rewrite Ht.
    + now rewrite Hown.
Qed.

End StagingTx.

Section StagingMain.

Import Datastore.

Lemma end_of_tx_catalog (tx : TxH) (s : Store) (tts : list TempTable) (commit : bool) :
  forallb (fun t => negb (owned_by tx t)) tts = true ->
  temp_tables s = tts \/ temp_tables s = mkTemp "batch_updates" (Some tx) true :: tts ->
  temp_tables (snd (pg _ (if commit then TxCommit tx else TxRollback tx) s)) = tts.
Proof.
  intros Hfresh Hs.
  destruct commit; unfold pg; destruct (fault_cases s) as (f & fs' & ->);
    destruct f; cbn [snd]; apply end_tx_drops_staging;
    solve [exact Hfresh | exact Hs].
Qed.

Lemma begin_cases (p : PoolH) (st st1 : Store) (r : result TxH) :
  pg _ (PoolBegin p) st = (r, st1) ->
  temp_tables st1 = temp_tables st
  /\ match r with inl tx => tx = next_id st | inr _ => True end.
Proof.
  unfold pg. destruct (fault_cases st) as (f & fs' & ->).
  destruct f; intros [= <- <-]; split; reflexivity.
Qed.

Lemma WithTx_batchUpdates_catalog (start : Z) (pool : database.Pool) (st : Store) :
  handles_allocated st = true ->
  let r := run pg (database.WithTx pool (batch_operations.batchUpdates_fn start)) st in
  (exists e, outcome r = Returned e)
  /\ temp_tables (final r) = temp_tables st
  /\ existsb issues_drop (trace r) = false.
Proof.
  intros Hwf.
  destruct (pg _ (PoolBegin (database.Pool_ pool)) st) as [[tx | err] st1] eqn:Hb.
  - destruct (begin_cases _ _ _ _ Hb) as [Hst1 ->].
    rewrite (WithTx_after_begin pg pool _ st st1 _ Hb). cbv zeta.
    destruct (batchUpdates_fn_catalog start (next_id st) st1) as ([e He] & Hcat & Hdrop).
    rewrite He. rewrite Hst1 in Hcat.
    apply not_owned_fresh in Hwf.
    destruct e as [e|].
    + pose proof (end_of_tx_catalog _ _ _ false Hwf Hcat) as Hend. cbv iota in Hend.
      destruct (pg _ (TxRollback (next_id st)) _) as [rb s2]. simpl in Hend.
      cbn [outcome final trace]. split; [eauto|]. split; [exact Hend|].
      cbn [existsb]. rewrite existsb_app, Hdrop. reflexivity.
    + pose proof (end_of_tx_catalog _ _ _ true Hwf Hcat) as Hend. cbv iota in Hend.
      destruct (pg _ (TxCommit (next_id st)) _) as [rc s2]. simpl in Hend.
      cbn [outcome final trace]. split; [eauto|]. split; [exact Hend|].
      cbn [existsb]. rewrite existsb_app, Hdrop. reflexivity.
  - destruct (begin_cases _ _ _ _ Hb) as [Hst1 _].
    unfold database.WithTx. cbn [run]. rewrite Hb. cbn [run outcome final trace].
    split; [eauto|]. split; [exact Hst1 | reflexivity].
Qed.

(** C8.  The temporary-table update of [batchUpdates], run on any store
    with any pattern of failures, returns with the catalogue of temporary
    tables as it found it: the staging table it may have created is gone
    once its transaction has ended, by commit or by rollback, and the
    program has sent no DROP to get there. *)
Theorem staging_table_never_outlives_tx :
  forall (st : Store) (pool : database.Pool),
    handles_allocated st = true ->
    let r := run pg (batch_operations.batchUpdates_method3 pool) st in
    outcome r = Returned tt
    /\ temp_tables (final r) = temp_tables st
    /\ existsb issues_drop (trace r) = false.
Proof.
  intros st pool Hwf r. subst r.
  unfold batch_operations.batchUpdates_method3.
  rewrite run_bind.
  change (run pg (call Now) st) with (mkRun (Returned (Z.of_nat (next_id st))) st [Ev Now (Z.of_nat (next_id st))]).
  cbv zeta. cbn [outcome final trace]. rewrite run_bind. cbv zeta.
  destruct (WithTx_batchUpdates_catalog (Z.of_nat (next_id st)) pool st Hwf)
    as ([e He] & Hcat & Hdrop).
  rewrite He. destruct e as [e|]; cbn [run call outcome final trace].
  - change (pg unit (LogPrintf ?f ?a) ?s) with (tt, s). cbn [outcome final trace].
    split; [reflexivity|]. split; [exact Hcat|].
    cbn [app existsb issues_drop]. rewrite existsb_app, Hdrop. reflexivity.
  - split; [reflexivity|]. split; [exact Hcat|].
    cbn [app existsb issues_drop]. rewrite existsb_app, Hdrop. reflexivity.
Qed.

End StagingMain.

Lemma staging_table_never_outlives_tx_witness :
  handles_allocated Datastore.empty = true
  /\ outcome (run Datastore.pg (batch_operations.batchUpdates_method3 Sample.pool)
                  Datastore.empty) = Returned tt
  /\ Datastore.temp_tables
       (final (run Datastore.pg (batch_operations.batchUpdates_method3 Sample.pool)
                   Datastore.empty))
     = Datastore.temp_tables Datastore.empty
  /\ existsb issues_drop
       (trace (run Datastore.pg (batch_operations.batchUpdates_method3 Sample.pool)
                   Datastore.empty)) = false.
Proof.
  split.
  - reflexivity.
  - apply (staging_table_never_outlives_tx Datastore.empty Sample.pool). reflexivity.
Defined.

(** Inside the transaction the staging table does exist: after the
    callback alone, before [WithTx] ends the transaction, the catalogue
    holds it. *)
Example staging_table_exists_inside_tx :
  Datastore.temp_tables (final (run Datastore.pg (Sample.fn 1) Sample.begun))
  = [Datastore.mkTemp "batch_updates" (Some 1) true].
Proof. reflexivity. Qed.

(* ===================================================================== *)
(** ** BatchWriter: the loops of a batch *)
(* ===================================================================== *)

Section BatchLoops.

Import batch_operations.
Context {S : Type} (h : Handler S).

(** The loop that reads a pgx.Batch: one [br.Exec()] per queued statement,
    whatever the answers. *)
Lemma run_read_batch (br : BatchResultsH) (n : nat) :
  forall (s : S),
  exists answers s',
    List.length answers = n
    /\ run h (read_batch br n) s
       = mkRun (Returned (count_ok answers)) s' (map (fun a => Ev (BrExec br) a) answers).
Proof.
  unfold read_batch, count_ok. generalize 0%Z as count. generalize 0%nat as from.
  induction n as [|n IH]; intros from count s.
  - exists [], s. split; reflexivity.
  - cbn [for_range]. rewrite run_bind. unfold read_result at 1. cbn [run bind call].
    destruct (h _ (BrExec br) s) as [a s1]. cbn [outcome final trace].
    destruct (IH (Datatypes.S from) (match a with inl _ => (count + 1)%Z | inr _ => count end) s1)
      as (answers & s' & Hlen & Hrun).
    exists (a :: answers), s'. split; [simpl; congruence|].
    rewrite Hrun. reflexivity.
Qed.

End BatchLoops.

Section Deferred.

Import batch_operations.
Context {S : Type} (h : Handler S).

Lemma run_defer {A : Type} (d : Prog unit) (p : Prog A) (s : S) :
  run h (defer d p) s =
  let r1 := run h p s in
  match outcome r1 with
  | Returned a =>
      let r2 := run h d (final r1) in
      mkRun match outcome r2 with
            | Returned _ => Returned a
            | Panicked v => Panicked v
            | Exited c => Exited c
            | Diverged => Diverged
            end (final r2) (trace r1 ++ trace r2)
  | Panicked v =>
      let r2 := run h d (final r1) in
      mkRun match outcome r2 with
            | Returned _ => Panicked v
            | Panicked v' => Panicked v'
            | Exited c => Exited c
            | Diverged => Diverged
            end (final r2) (trace r1 ++ trace r2)
  | Exited c => mkRun (Exited c) (final r1) (trace r1)
  | Diverged => mkRun Diverged (final r1) (trace r1)
  end.
Proof.
  unfold defer. rewrite run_bind, run_defer_recover. cbv zeta.
  destruct (outcome (run h p s)) as [a | v | c |]; cbn [outcome final trace].
  - rewrite run_bind. cbv zeta.
    destruct (outcome (run h d (final (run h p s)))); cbn; rewrite ?app_nil_r; reflexivity.
  - rewrite run_bind. cbv zeta.
    destruct (outcome (run h d (final (run h p s)))); cbn; rewrite ?app_nil_r; reflexivity.
  - reflexivity.
  - reflexivity.
Qed.

End Deferred.

(* ===================================================================== *)
(** ** BatchWriter: which strategy writes which job *)
(* ===================================================================== *)

Section Jobs.

Import batch_operations.
Context {S : Type} (h : Handler S).

Lemma write_jobs_app (a b : list Event) :
  write_jobs (a ++ b) = write_jobs a ++ write_jobs b.
Proof. apply flat_map_app. Qed.

Lemma write_jobs_cons (e : Event) (tr : list Event) :
  write_jobs (e :: tr) = job_of e ++ write_jobs tr.
Proof. reflexivity. Qed.

Lemma jobs_bind {A B : Type} (p : Prog A) (f : A -> Prog B) (s : S) :
  write_jobs (trace (run h (bind p f) s)) =
  write_jobs (trace (run h p s))
  ++ match outcome (run h p s) with
     | Returned a => write_jobs (trace (run h (f a) (final (run h p s))))
     | _ => []
     end.
Proof.
  rewrite run_bind. cbv zeta.
  destruct (outcome (run h p s)); cbn [trace]; rewrite ?write_jobs_app, ?app_nil_r;
    reflexivity.
Qed.

Lemma jobs_defer {A : Type} (d : Prog unit) (p : Prog A) (s : S) :
  (forall s', write_jobs (trace (run h d s')) = []) ->
  write_jobs (trace (run h (defer d p) s)) = write_jobs (trace (run h p s)).
Proof.
  intros Hd. rewrite run_defer. cbv zeta.
  destruct (outcome (run h p s)); cbn [trace];
    rewrite ?write_jobs_app, ?Hd, ?app_nil_r; reflexivity.
Qed.

(** Counting the rows of a result set sends nothing. *)
Lemma jobs_count_rows (rows : RowsH) (fuel : nat) :
  forall (count : Z) (s : S),
    write_jobs (trace (run h (while_ret (B := Empty_set) fuel (call (RowsNext rows))
                                 (fun count => Ret (inl (count + 1)%Z)) count) s)) = [].
Proof.
  induction fuel as [|fuel IH]; intros count s; [reflexivity|].
  cbn [while_ret run bind call].
  destruct (h _ (RowsNext rows) s) as [[|] s1]; cbn [trace run bind].
  - apply IH.
  - reflexivity.
Qed.

(** Filling the pgx.Batch of method 2 sends nothing, and queues one
    statement per round. *)
Lemma run_queue_assets (n : nat) :
  forall (from : nat) (acc : list QueuedQuery) (s : S),
  exists batch s' tr,
    run h (for_range n from queue_asset acc) s = mkRun (Returned (acc ++ batch)) s' tr
    /\ List.length batch = n
    /\ write_jobs tr = [].
Proof.
  induction n as [|n IH]; intros from acc s.
  - exists [], s, []. rewrite app_nil_r. repeat split.
  - cbn [for_range]. rewrite run_bind. unfold queue_asset at 1. cbn [run bind call].
    destruct (h _ Now s) as [now s1]. cbn [outcome final trace].
    match goal with |- context [for_range n _ _ (acc ++ [?q])] =>
      destruct (IH (Datatypes.S from) (acc ++ [q]) s1) as (batch & s' & tr & Hrun & Hlen & Hj);
      exists (q :: batch), s', (Ev Now now :: tr)
    end.
    rewrite Hrun. cbn [outcome final trace app]. rewrite <- app_assoc.
    split; [reflexivity|]. split; [simpl; congruence | exact Hj].
Qed.

Lemma jobs_read_batch (br : BatchResultsH) (n : nat) (s : S) :
  (exists count, outcome (run h (read_batch br n) s) = Returned count)
  /\ write_jobs (trace (run h (read_batch br n) s)) = [].
Proof.
  destruct (run_read_batch h br n s) as (answers & s' & _ & ->). cbn [outcome trace].
  split; [eauto|].
  induction answers as [|a answers IH]; [reflexivity | exact IH].
Qed.

(** The prepared statement of method 3 is an UPDATE: no write job. *)
Lemma run_prepared_update (tx : TxH) (i : nat) (count : Z) (s : S) :
  exists c s' tr,
    run h (prepared_update tx i count) s = mkRun (Returned c) s' tr
    /\ write_jobs tr = [].
Proof.
  unfold prepared_update. cbn [run bind call].
  destruct (h _ Now s) as [now1 s1]. cbn [outcome final trace].
  destruct (h _ (TimeFormat RFC3339 now1) s1) as [stamp s2]. cbn [outcome final trace].
  destruct (h _ Now s2) as [now2 s3]. cbn [outcome final trace].
  destruct (h _ (TxExec tx "batch_update" _) s3) as [r s4]. cbn [outcome final trace].
  do 3 eexists. split; reflexivity.
Qed.

Lemma jobs_prepared_updates (tx : TxH) (n : nat) :
  forall (from : nat) (count : Z) (s : S),
    (exists c, outcome (run h (for_range n from (prepared_update tx) count) s) = Returned c)
    /\ write_jobs (trace (run h (for_range n from (prepared_update tx) count) s)) = [].
Proof.
  induction n as [|n IH]; intros from count s.
  - split; [eexists|]; reflexivity.
  - cbn [for_range]. rewrite run_bind.
    destruct (run_prepared_update tx from count s) as (c & s' & tr & -> & Hj).
    cbv zeta. cbn [outcome final trace].
    destruct (IH (Datatypes.S from) c s') as ([c' Ho] & Hj').
    rewrite Ho, write_jobs_app, Hj, Hj'. split; [eauto | reflexivity].
Qed.

End Jobs.

Section JobsMain.

Import batch_operations.
Context {S : Type} (h : Handler S).

Local Arguments for_range : simpl never.
Local Arguments while_ret : simpl never.
Local Arguments read_batch : simpl never.
Local Arguments defer : simpl never.

Lemma multi_insert_job (p : PoolH) (r : result RowsH) :
  job_of (Ev (PoolQuery p (sql_multi_insert_head ++ strings_Join multi_values ","
                             ++ sql_multi_insert_tail) multi_args) r)
  = [(Inline, 100)].
Proof. vm_compute. reflexivity. Qed.

(** Methods 2 and 3 of batchInserts, from the pgx.Batch on. *)
Lemma jobs_batchInserts (fuel : nat) (pool : database.Pool) (s : S) :
  In (write_jobs (trace (run h (batchInserts fuel pool) s)))
     [[(Inline, 100)]; [(Inline, 100); (Pipelined, 100)]].
Proof.
  unfold batchInserts. cbn [run bind call].
  destruct (h _ (Println _) s) as [[] s1]. cbn [outcome final trace].
  destruct (h _ Now s1) as [start s2]. cbn [outcome final trace].
  destruct (h _ (PoolQuery _ _ _) s2) as [r s3]. cbn [outcome final trace].
  rewrite !write_jobs_cons, multi_insert_job. cbn [job_of app].
  destruct r as [rows | err]; cbn [run bind call].
  2:{ destruct (h _ (LogPrintf _ _) s3) as [[] s4]. left. reflexivity. }
  rewrite jobs_bind, jobs_count_rows. cbn [app].
  destruct (outcome (run h (while_ret fuel _ _ _) s3)) as [r | v | c |];
    try (left; reflexivity).
  set (s4 := final _). clearbody s4.
  cbn [run bind call].
  destruct (h _ (RowsClose rows) s4) as [[] s5]. cbn [outcome final trace].
  unfold Since at 1. cbn [run bind call].
  destruct (h _ Now s5) as [t1 s6]. cbn [outcome final trace].
  destruct (h _ (Printf _ _) s6) as [[] s7]. cbn [outcome final trace].
  destruct (h _ Now s7) as [start2 s8]. cbn [outcome final trace].
  rewrite !write_jobs_cons. cbn [job_of app].
  rewrite jobs_bind.
  destruct (run_queue_assets h 100 0 [] s8) as (batch & s9 & tr & -> & Hlen & Hq).
  cbn [outcome final trace app]. rewrite Hq. cbn [app run bind call].
  destruct (h _ (PoolSendBatch _ batch) s9) as [br s10]. cbn [outcome final trace].
  rewrite write_jobs_cons. cbn [job_of app]. rewrite Hlen.
  assert (Hrest : forall jobs, jobs = [] ->
            In ((Inline, 100) :: (Pipelined, 100) :: jobs)
               [[(Inline, 100)]; [(Inline, 100); (Pipelined, 100)]]).
  { intros jobs ->. right. left. reflexivity. }
  apply Hrest. clear Hrest.
  rewrite jobs_defer.
  2:{ intros s'. cbn [run bind call]. destruct (h _ (BrClose br) s') as [e s'']. reflexivity. }
  rewrite jobs_bind.
  destruct (jobs_read_batch h br 100 s10) as ([count ->] & ->).
  cbn [app]. set (s11 := final _). clearbody s11.
  unfold Since at 1. cbn [run bind call].
  destruct (h _ Now s11) as [t2 s12]. cbn [outcome final trace].
  destruct (h _ (Printf _ _) s12) as [[] s13]. cbn [outcome final trace].
  destruct (h _ Now s13) as [start3 s14]. cbn [outcome final trace].
  destruct (h _ (PoolBegin _) s14) as [[tx | err] s15]; cbn [outcome final trace run bind call].
  2:{ destruct (h _ (LogPrintf _ _) s15) as [[] s16]. reflexivity. }
  rewrite !write_jobs_cons. cbn [job_of app].
  rewrite jobs_defer.
  2:{ intros s'. cbn [run bind call]. destruct (h _ (TxRollback tx) s') as [e s'']. reflexivity. }
  cbn [run bind call].
  destruct (h _ (TxPrepare tx _ _) s15) as [[err|] s16]; cbn [outcome final trace run bind call].
  { destruct (h _ (LogPrintf _ _) s16) as [[] s17]. reflexivity. }
  rewrite write_jobs_cons. cbn [job_of app].
  rewrite jobs_bind.
  destruct (jobs_prepared_updates h tx 50 0 0%Z s16) as ([c ->] & ->).
  cbn [app]. set (s17 := final _). clearbody s17.
  cbn [run bind call].
  destruct (h _ (TxCommit tx) s17) as [ce s18]. cbn [outcome final trace].
  unfold Since at 1. cbn [run bind call].
  destruct (h _ Now s18) as [t3 s19]. cbn [outcome final trace].
  destruct (h _ (Printf _ _) s19) as [[] s20]. reflexivity.
Qed.

End JobsMain.

Section JobsCopy.

Import batch_operations.
Context {S : Type} (h : Handler S).

Local Arguments for_range : simpl never.

(** Generating the rows of copyFromDemo sends nothing, and makes one row
    per round. *)
Lemma run_gen_rows (siteID : string) (n : nat) :
  forall (from : nat) (acc : list (list any)) (s : S),
  exists rows s' tr,
    run h (for_range n from (gen_asset_row siteID) acc) s
    = mkRun (Returned (acc ++ rows)) s' tr
    /\ List.length rows = n
    /\ write_jobs tr = [].
Proof.
  induction n as [|n IH]; intros from acc s.
  - exists [], s, []. rewrite app_nil_r. repeat split.
  - unfold for_range; fold (@for_range (list (list any))).
    rewrite run_bind. unfold gen_asset_row at 1. cbn [run bind call].
    destruct (h _ Now s) as [now s1]. cbn [outcome final trace].
    match goal with |- context [for_range n _ _ (acc ++ [?q])] =>
      destruct (IH (Datatypes.S from) (acc ++ [q]) s1) as (rows & s' & tr & Hrun & Hlen & Hj);
      exists (q :: rows), s', (Ev Now now :: tr)
    end.
    rewrite Hrun. cbn [outcome final trace app]. rewrite <- app_assoc.
    split; [reflexivity|]. split; [simpl; congruence | exact Hj].
Qed.

Lemma jobs_copyFromDemo (pool : database.Pool) (s : S) :
  write_jobs (trace (run h (copyFromDemo pool) s)) = [(Streaming, Z.to_nat 10000)].
Proof.
  unfold copyFromDemo. cbn [run bind call].
  destruct (h _ (Println _) s) as [[] s1]. cbn [outcome final trace].
  destruct (h _ Now s1) as [start s2]. cbn [outcome final trace].
  destruct (h _ (PoolQueryRowString _ _) s2) as [r s3]. cbn [outcome final trace].
  rewrite !write_jobs_cons. cbn [job_of app].
  rewrite jobs_bind.
  match goal with |- context [gen_asset_row ?id] =>
    destruct (run_gen_rows id copy_rows 0 [] s3) as (rows & s4 & tr & -> & Hlen & Hq) end.
  cbn [outcome final trace app]. rewrite Hq. cbn [app run bind call].
  destruct (h _ (PoolCopyFrom _ _ _ rows) s4) as [cr s5]. cbn [outcome final trace].
  rewrite write_jobs_cons. cbn [job_of app]. rewrite Hlen. f_equal.
  destruct cr as [copyCount | err]; cbn [run bind call].
  - unfold Since. cbn [run bind call].
    destruct (h _ Now s5) as [t1 s6]. cbn [outcome final trace].
    destruct (h _ Now s6) as [t2 s7]. cbn [outcome final trace].
    destruct (h _ (Printf _ _) s7) as [[] s8]. cbn [outcome final trace].
    destruct (h _ (Println _) s8) as [[] s9]. cbn [outcome final trace].
    destruct (h _ (PoolExec _ _ _) s9) as [r' s10]. reflexivity.
  - destruct (h _ (LogPrintf _ _) s5) as [[] s6]. cbn [outcome final trace].
    destruct (h _ (Println _) s6) as [[] s7]. cbn [outcome final trace].
    destruct (h _ (PoolExec _ _ _) s7) as [r' s8]. reflexivity.
Qed.

End JobsCopy.

(** C6, as the code has it.  No code selects a strategy from a row count:
    each write path uses the strategy written at its call site, against
    any driver.  [batchInserts] sends one multi-row INSERT of 100 rows and,
    when it gets that far, one pgx.Batch of 100 statements; [copyFromDemo]
    sends one CopyFrom of 10,000 rows.  So an inline job has under 1,000
    rows and a streaming job has 10,000 rows or more. *)
Theorem strategy_is_fixed_at_the_call_site :
  forall (S : Type) (h : Handler S) (fuel : nat) (pool : database.Pool) (s : S),
    let inserts := write_jobs (trace (run h (batch_operations.batchInserts fuel pool) s)) in
    let copy := write_jobs (trace (run h (batch_operations.copyFromDemo pool) s)) in
    In inserts [[(Inline, 100)]; [(Inline, 100); (Pipelined, 100)]]
    /\ copy = [(Streaming, Z.to_nat 10000)]
    /\ forallb within_guidance (inserts ++ copy) = true.
Proof.
  intros S h fuel pool s inserts copy. subst inserts copy.
  pose proof (jobs_batchInserts h fuel pool s) as Hi.
  rewrite (jobs_copyFromDemo h pool s).
  split; [exact Hi|]. split; [reflexivity|].
  destruct Hi as [<- | [<- | []]]; reflexivity.
Qed.

(** C6, as the claim has it, fails on a run without failures:
    [batchInserts] writes a job of 100 rows, under 1,000, with a pgx.Batch
    and not with the inline multi-row INSERT. *)
Lemma strategy_is_not_selected_by_size :
  ~ Forall (fun job => follows_thresholds job = true)
      (write_jobs (trace (run Datastore.pg
                              (batch_operations.batchInserts 200 Sample.pool)
                              Datastore.empty))).
Proof.
  replace (write_jobs _) with [(Inline, 100); (Pipelined, 100)] by (vm_compute; reflexivity).
  intros H. apply Forall_inv_tail in H. apply Forall_inv in H. discriminate H.
Qed.

(* ===================================================================== *)
(** ** NotificationBus: the two goroutines of listenNotifyDemo *)
(* ===================================================================== *)

Section NotifySteps.

Import advanced_patterns Notify NotifyPoints.
Variables (conn : ConnH) (ch : ChanH).

(** The steps of the listening goroutine, point by point. *)
Lemma listener_step (l : Listener) (w : World) (p' : Prog unit) (w' : World) :
  thread_step shared (listener_prog conn ch l) w = Some (p', w') ->
  match l with
  | LWait 0 i =>
      p' = listener_prog conn ch (LDone true)
      /\ w' = mkWorld (capacity w) (buffer w) true (feed w) (printed w)
  | LWait (S k) i =>
      exists r rest,
        feed w = r :: rest
        /\ w' = mkWorld (capacity w) (buffer w) (closed w) rest (printed w)
        /\ p' = listener_prog conn ch
                  (match r with inl n => LSend k i n | inr _ => LDone false end)
  | LSend k i n =>
      closed w = false
      /\ List.length (buffer w) < capacity w
      /\ w' = mkWorld (capacity w) (buffer w ++ [n]) (closed w) (feed w) (printed w)
      /\ p' = listener_prog conn ch (LWait k (S i))
  | LDone _ => False
  end.
Proof.
  destruct l as [[|k] i | k i n | b]; cbn -[Nat.ltb].
  - intros Hs; injection Hs as Hp Hw; subst p' w'. split; reflexivity.
  - destruct (feed w) as [|r rest]; [discriminate|]. cbn.
    intros Hs; injection Hs as Hp Hw; subst p' w'. exists r, rest. repeat split. destruct r; reflexivity.
  - destruct (closed w); [discriminate|].
    destruct (Nat.ltb_spec (List.length (buffer w)) (capacity w)) as [Hlt|Hge]; [|discriminate]. cbn.
    intros Hs; injection Hs as Hp Hw; subst p' w'. repeat split; try assumption; reflexivity.
  - discriminate.
Qed.

(** The steps of the receiving goroutine, point by point. *)
Lemma receiver_step (r : Receiver) (w : World) (p' : Prog unit) (w' : World) :
  thread_step shared (receiver_prog ch r) w = Some (p', w') ->
  match r with
  | RRecv 0 => False
  | RRecv (S fuel) =>
      (exists n rest,
          buffer w = n :: rest
          /\ w' = mkWorld (capacity w) rest (closed w) (feed w) (printed w)
          /\ p' = receiver_prog ch (RPrint fuel n))
      \/ (buffer w = [] /\ closed w = true /\ w' = w /\ p' = receiver_prog ch RDone)
  | RPrint fuel n =>
      w' = mkWorld (capacity w) (buffer w) (closed w) (feed w) (printed w ++ [Payload n])
      /\ p' = receiver_prog ch (RRecv fuel)
  | RDone => False
  end.
Proof.
  destruct r as [[|fuel] | fuel n |]; cbn.
  - discriminate.
  - destruct (buffer w) as [|n rest].
    + destruct (closed w); [|discriminate]. cbn. intros Hs; injection Hs as Hp Hw; subst p' w'. right. repeat split.
    + cbn. intros Hs; injection Hs as Hp Hw; subst p' w'. left. exists n, rest. repeat split.
  - intros Hs; injection Hs as Hp Hw; subst p' w'. split; reflexivity.
  - discriminate.
Qed.

End NotifySteps.

Section NotifyInvariant.

Import advanced_patterns Notify NotifyPoints.
Variables (conn : ConnH) (ch : ChanH) (cap : nat) (feed0 : list (result Notification)).

Lemma run_schedule_reachable {W : Type} (sh : Shared W) (schedule : list nat) :
  forall init s s',
    reachable sh init s ->
    run_schedule sh schedule s = Some s' ->
    reachable sh init s'.
Proof.
  induction schedule as [|i schedule IH]; intros init s s' Hr; simpl.
  - intros [= <-]. exact Hr.
  - destruct s as [ts w]. simpl.
    destruct (nth_error ts i) as [p|] eqn:Hn; [|discriminate].
    destruct (thread_step sh p w) as [[p' w']|] eqn:Hs; [|discriminate].
    apply IH. eapply reach_step; [exact Hr|]. econstructor; eassumption.
Qed.

(** A step of the system is a step of the listener or of the receiver. *)
Lemma two_threads_step (l : Listener) (r : Receiver) (w : World) (s' : list (Prog unit) * World) :
  sys_step shared ([listener_prog conn ch l; receiver_prog ch r], w) s' ->
  (exists p' w', thread_step shared (listener_prog conn ch l) w = Some (p', w')
                 /\ s' = ([p'; receiver_prog ch r], w'))
  \/ (exists p' w', thread_step shared (receiver_prog ch r) w = Some (p', w')
                    /\ s' = ([listener_prog conn ch l; p'], w')).
Proof.
  intros H. inversion H as [ts w0 i p p' w' Hn Hs]; subst.
  destruct i as [|[|i]]; simpl in Hn.
  - injection Hn as <-. left. eauto.
  - injection Hn as <-. right. eauto.
  - destruct i; discriminate.
Qed.

Ltac live_start :=
  intros tail [(remaining & Hfw & Hlen) Hne Hfuel]; simpl in Hfw, Hlen, Hfuel;
  constructor; simpl.

Lemma notify_inv_step (l : Listener) (r : Receiver) (w : World) (s' : list (Prog unit) * World) :
  notify_inv cap feed0 l r w ->
  sys_step shared ([listener_prog conn ch l; receiver_prog ch r], w) s' ->
  exists l' r' w',
    s' = ([listener_prog conn ch l'; receiver_prog ch r'], w')
    /\ notify_inv cap feed0 l' r' w'
    /\ (forall tail, notify_live tail l r w -> notify_live tail l' r' w')
    /\ listener_steps l' + receiver_steps r' < listener_steps l + receiver_steps r.
Proof.
  intros [Hcap Hb (good & Hacc & Hfeed) Hcl Hret] Hstep.
  apply two_threads_step in Hstep as [(p' & w' & Hs & ->) | (p' & w' & Hs & ->)].
  - apply listener_step in Hs.
    destruct l as [[|k] i | k i n | b].
    + destruct Hs as [-> ->]. exists (LDone true), r, (mkWorld (capacity w) (buffer w) true (feed w) (printed w)).
      split; [reflexivity|]. split; [|split; [|simpl; lia]].
      * constructor; simpl; auto.
        -- exists good. split; [exact Hacc|]. destruct Hfeed as [Hf | (e & He & _)]; [left; exact Hf | discriminate].
        -- intros ->. destruct (Hret eq_refl) as [Hl _]. discriminate.
      * live_start; [eauto | discriminate | exact Hfuel].
    + destruct Hs as (a & rest & Hf & -> & ->).
      destruct Hfeed as [Hfeed | (e & He & _)]; [|discriminate].
      destruct a as [n | e].
      * exists (LSend k i n), r, (mkWorld (capacity w) (buffer w) (closed w) rest (printed w)).
        split; [reflexivity|]. split; [|split; [|simpl; lia]].
        -- constructor; simpl; auto.
           ++ exists (good ++ [n]). split.
              ** simpl in Hacc. rewrite app_nil_r in Hacc.
                 rewrite !map_app, !app_assoc. rewrite <- (app_assoc (printed w)).
                 rewrite <- map_app, Hacc. reflexivity.
              ** left. rewrite Hfeed, Hf, map_app, <- app_assoc. reflexivity.
           ++ intros ->. destruct (Hret eq_refl) as [Hl _]. discriminate.
        -- live_start.
           ++ destruct remaining as [|n' remaining]; [discriminate|].
              rewrite Hf in Hfw. simpl in Hfw. injection Hfw as _ Hrest.
              exists remaining. split; [exact Hrest | simpl in Hlen; lia].
           ++ discriminate.
           ++ destruct r; simpl in *; lia.
      * exists (LDone false), r, (mkWorld (capacity w) (buffer w) (closed w) rest (printed w)).
        split; [reflexivity|]. split; [|split; [|simpl; lia]].
        -- constructor; simpl; auto.
           ++ exists good. split; [exact Hacc|]. right. exists e. split; [reflexivity|].
              rewrite Hfeed, Hf. reflexivity.
           ++ intros ->. destruct (Hret eq_refl) as [Hl _]. discriminate.
        -- intros tail [(remaining & Hfw & Hlen) Hne Hfuel]. simpl in Hfw, Hlen.
           destruct remaining as [|n' remaining]; [discriminate|].
           rewrite Hf in Hfw. discriminate.
    + destruct Hs as (Hopen & Hlt & -> & ->).
      exists (LWait k (S i)), r, (mkWorld (capacity w) (buffer w ++ [n]) (closed w) (feed w) (printed w)).
      split; [reflexivity|]. split; [|split; [|simpl; lia]].
      * constructor; simpl; auto.
        -- rewrite length_app. simpl. lia.
        -- exists good. split.
           ++ simpl in Hacc. rewrite app_nil_r. exact Hacc.
           ++ destruct Hfeed as [Hf | (e & He & _)]; [left; exact Hf | discriminate].
        -- intros ->. destruct (Hret eq_refl) as [Hl _]. discriminate.
      * live_start; [eauto | discriminate |].
        rewrite length_app. destruct r; simpl in *; lia.
    + destruct Hs.
  - apply receiver_step in Hs.
    destruct r as [[|fuel] | fuel n |].
    + destruct Hs.
    + destruct Hs as [(n & rest & Hbuf & -> & ->) | (Hbuf & Hclosed & -> & ->)].
      * exists l, (RPrint fuel n), (mkWorld (capacity w) rest (closed w) (feed w) (printed w)).
        split; [reflexivity|]. split; [|split; [|simpl; lia]].
        -- constructor; simpl; auto.
           ++ rewrite Hbuf in Hb. simpl in Hb. lia.
           ++ exists good. split; [|exact Hfeed].
              rewrite Hbuf in Hacc. simpl in Hacc. exact Hacc.
           ++ discriminate.
        -- live_start; [eauto | exact Hne |].
           rewrite Hbuf in Hfuel. simpl in Hfuel. lia.
      * exists l, RDone, w.
        split; [reflexivity|]. split; [|split; [|simpl; lia]].
        -- constructor; simpl; auto.
           ++ exists good. split; [exact Hacc | exact Hfeed].
           ++ intros _. split; [|exact Hbuf].
              rewrite Hclosed in Hcl. destruct l as [| |[|]]; try discriminate. reflexivity.
        -- live_start; [eauto | exact Hne | exact I].
    + destruct Hs as [-> ->].
      exists l, (RRecv fuel), (mkWorld (capacity w) (buffer w) (closed w) (feed w) (printed w ++ [Payload n])).
      split; [reflexivity|]. split; [|split; [|simpl; lia]].
      * constructor; simpl; auto.
        -- exists good. split; [|exact Hfeed].
           simpl in Hacc. rewrite <- app_assoc. exact Hacc.
        -- discriminate.
      * live_start; [eauto | exact Hne | exact Hfuel].
    + destruct Hs.
Qed.

End NotifyInvariant.

Section NotifyTheorems.

Import advanced_patterns Notify NotifyPoints.
Variables (conn : ConnH) (ch : ChanH).

Lemma notify_reachable_inv (fuel rounds cap : nat) (feed0 : list (result Notification))
      (s : list (Prog unit) * World) :
  reachable shared (start fuel rounds cap conn ch feed0) s ->
  exists l r,
    fst s = [listener_prog conn ch l; receiver_prog ch r]
    /\ notify_inv cap feed0 l r (snd s).
Proof.
  induction 1 as [|s s' Hr IH Hstep].
  - exists (LWait rounds 0), (RRecv fuel). split; [reflexivity|].
    constructor; simpl; auto with arith.
    + exists []. split; [reflexivity | left; reflexivity].
    + discriminate.
  - destruct IH as (l & r & Hts & Hinv). destruct s as [ts w]. simpl in *. subst ts.
    destruct (notify_inv_step conn ch cap feed0 l r w s' Hinv Hstep)
      as (l' & r' & w' & -> & Hinv' & _ & _).
    exists l', r'. split; [reflexivity | exact Hinv'].
Qed.

Lemma emitted_app (good : list Notification) (rest : list (result Notification)) :
  emitted (map inl good ++ rest) = good ++ emitted rest.
Proof. induction good as [|n good IH]; simpl; [reflexivity | now rewrite IH]. Qed.

End NotifyTheorems.

Section NotifyLiveness.

Import advanced_patterns Notify NotifyPoints.
Variables (conn : ConnH) (ch : ChanH).
Variables (fuel rounds cap : nat) (notes : list Notification)
          (tail : list (result Notification)).
Hypothesis enough_notes : List.length notes = rounds.
Hypothesis enough_fuel : rounds < fuel.
Hypothesis some_room : 1 <= cap.

Let feed0 := map inl notes ++ tail.
Let init := start fuel rounds cap conn ch feed0.

Lemma notify_run_inv (n : nat) (s : list (Prog unit) * World) :
  run_of_length shared init n s ->
  exists l r,
    fst s = [listener_prog conn ch l; receiver_prog ch r]
    /\ notify_inv cap feed0 l r (snd s)
    /\ notify_live tail l r (snd s)
    /\ n + (listener_steps l + receiver_steps r) <= 2 * rounds + 1 + 2 * fuel.
Proof.
  induction 1 as [| n s' s'' Hrun IH Hstep].
  - exists (LWait rounds 0), (RRecv fuel). split; [reflexivity|].
    split; [|split].
    + constructor; simpl; auto with arith.
      * exists []. split; [reflexivity | left; reflexivity].
      * discriminate.
    + constructor; simpl.
      * exists notes. split; [reflexivity | exact enough_notes].
      * discriminate.
      * lia.
    + simpl. lia.
  - destruct IH as (l & r & Hts & Hinv & Hlive & Hn). destruct s' as [ts w].
    simpl in *. subst ts.
    destruct (notify_inv_step conn ch cap feed0 l r w s'' Hinv Hstep)
      as (l' & r' & w' & -> & Hinv' & Hlive' & Hdec).
    exists l', r'. split; [reflexivity|]. split; [exact Hinv'|].
    split; [apply Hlive'; exact Hlive | simpl; lia].
Qed.

(** No run of the two goroutines is longer than the steps they have. *)
Lemma notify_runs_are_bounded (n : nat) (s : list (Prog unit) * World) :
  run_of_length shared init n s -> n <= 2 * rounds + 1 + 2 * fuel.
Proof.
  intros Hrun. destruct (notify_run_inv n s Hrun) as (l & r & _ & _ & _ & Hn). lia.
Qed.

Lemma listener_can_step (l : Listener) (r : Receiver) (w : World) (p' : Prog unit) (w' : World) :
  thread_step shared (listener_prog conn ch l) w = Some (p', w') ->
  ~ quiescent shared ([listener_prog conn ch l; receiver_prog ch r], w).
Proof.
  intros Hs Hq. eapply Hq. apply (sys_step_at shared [listener_prog conn ch l; receiver_prog ch r] w 0
           (listener_prog conn ch l) p' w'); [reflexivity | exact Hs].
Qed.

Lemma receiver_can_step (l : Listener) (r : Receiver) (w : World) (p' : Prog unit) (w' : World) :
  thread_step shared (receiver_prog ch r) w = Some (p', w') ->
  ~ quiescent shared ([listener_prog conn ch l; receiver_prog ch r], w).
Proof.
  intros Hs Hq. eapply Hq. apply (sys_step_at shared [listener_prog conn ch l; receiver_prog ch r] w 1
           (receiver_prog ch r) p' w'); [reflexivity | exact Hs].
Qed.

(** When nothing can move any more, both goroutines have returned, the
    channel is closed and empty, and every notification of the rounds has
    been printed, in the order of emission: waiting on a full channel has
    lost nothing and has blocked nobody for good. *)
Lemma notifications_all_delivered (n : nat) (ts : list (Prog unit)) (w : World) :
  run_of_length shared init n (ts, w) ->
  quiescent shared (ts, w) ->
  ts = [Ret tt; Ret tt]
  /\ printed w = map Payload notes
  /\ buffer w = []
  /\ closed w = true.
Proof.
  intros Hrun Hq.
  destruct (notify_run_inv n _ Hrun) as (l & r & Hts & Hinv & Hlive & _).
  simpl in Hts, Hinv, Hlive. subst ts.
  destruct Hinv as [Hcap Hb (good & Hacc & Hfeed) Hcl Hret].
  destruct Hlive as [(remaining & Hfw & Hlen) Hne Hfuel].
  assert (Hrecv : buffer w <> [] \/ closed w = true ->
                  match r with RRecv _ | RPrint _ _ => False | RDone => True end).
  { intros Hcan. destruct r as [[|f] | f n' |]; simpl in Hfuel; try lia; try exact I.
    - exfalso. destruct (buffer w) as [|n' rest] eqn:Hbuf.
      + destruct Hcan as [Hcan | Hcan]; [congruence|].
        eapply (receiver_can_step l (RRecv (S f)) w); [|exact Hq].
        cbn. rewrite Hbuf, Hcan. reflexivity.
      + eapply (receiver_can_step l (RRecv (S f)) w); [|exact Hq].
        cbn. rewrite Hbuf. reflexivity.
    - exfalso. eapply (receiver_can_step l (RPrint f n') w); [|exact Hq].
      cbn. reflexivity. }
  destruct l as [[|k] i | k i n' | [|]].
  - exfalso. eapply (listener_can_step (LWait 0 i) r w); [|exact Hq]. cbn. reflexivity.
  - exfalso. destruct remaining as [|n' remaining]; [discriminate|].
    eapply (listener_can_step (LWait (S k) i) r w); [|exact Hq].
    cbn. rewrite Hfw. cbn. reflexivity.
  - exfalso. simpl in Hcl.
    destruct (Nat.ltb_spec (List.length (buffer w)) (capacity w)) as [Hlt | Hge].
    + eapply (listener_can_step (LSend k i n') r w); [|exact Hq].
      cbn -[Nat.ltb]. rewrite Hcl. apply Nat.ltb_lt in Hlt. rewrite Hlt. reflexivity.
    + assert (Hbuf : buffer w <> []).
      { intros Hnil. rewrite Hnil in Hge. simpl in Hge. lia. }
      specialize (Hrecv (or_introl Hbuf)). destruct r; try contradiction.
      destruct (Hret eq_refl) as [Hl _]. discriminate.
  - simpl in Hcl. specialize (Hrecv (or_intror Hcl)). destruct r; try contradiction.
    destruct (Hret eq_refl) as [_ Hbuf].
    split; [reflexivity|]. split; [|split; [exact Hbuf | exact Hcl]].
    simpl in Hacc, Hlen. rewrite Hbuf in Hacc. simpl in Hacc. rewrite app_nil_r in Hacc.
    destruct remaining; [|discriminate]. simpl in Hfw.
    destruct Hfeed as [Hf | (e & He & _)]; [|discriminate].
    subst feed0. rewrite Hfw in Hf. apply app_inv_tail in Hf.
    assert (Hgood : notes = good).
    { revert Hf. clear. revert good. induction notes as [|a l IH]; intros [|b good] Hf;
        try discriminate; [reflexivity|].
      simpl in Hf. injection Hf as -> Hf. f_equal. apply IH. exact Hf. }
    rewrite Hgood. exact Hacc.
  - exfalso. apply Hne. reflexivity.
Qed.

End NotifyLiveness.


(** A schedule that runs makes a run of its length. *)
Lemma run_schedule_length {W : Type} (sh : Shared W) (init : list (Prog unit) * W)
      (schedule : list nat) :
  forall (n : nat) (s s' : list (Prog unit) * W),
    run_of_length sh init n s ->
    run_schedule sh schedule s = Some s' ->
    run_of_length sh init (n + List.length schedule) s'.
Proof.
  induction schedule as [|i schedule IH]; intros n s s' Hr; simpl.
  - intros [= <-]. rewrite Nat.add_0_r. exact Hr.
  - destruct s as [ts w]. simpl.
    destruct (nth_error ts i) as [p|] eqn:Hn; [|discriminate].
    destruct (thread_step sh p w) as [[p' w']|] eqn:Hs; [|discriminate].
    intros Hrest. rewrite Nat.add_succ_r.
    apply (IH (S n) (replace_nth i p' ts, w') s'); [|exact Hrest].
    eapply run_snoc; [exact Hr|]. econstructor; eassumption.
Qed.



(** The state of that run: the first notification fills the channel, the
    listener holds the second and cannot send it, and the third still
    waits in the datastore. *)
Example narrow_full_state :
  map Payload (Notify.buffer (snd Sample.narrow_full)) = ["active"]
  /\ nth_error (fst Sample.narrow_full) 0
     = Some (NotifyPoints.listener_prog 1 2
               (NotifyPoints.LSend 1 1 (mkNotification "asset_updates" "maintenance")))
  /\ thread_step Notify.shared
       (NotifyPoints.listener_prog 1 2
          (NotifyPoints.LSend 1 1 (mkNotification "asset_updates" "maintenance")))
       (snd Sample.narrow_full) = None
  /\ Notify.feed (snd Sample.narrow_full)
     = [inl (mkNotification "asset_updates" "offline")].
Proof. vm_compute. repeat split. Qed.


(** The state reached there: one payload printed, one notification in
    the channel, the third round still ahead. *)
Example listening_later_state :
  Notify.printed (snd Sample.listening_later) = ["active"]
  /\ map Payload (Notify.buffer (snd Sample.listening_later)) = ["maintenance"]
  /\ map (fun r => match r with inl n => Payload n | inr _ => EmptyString end)
         (Notify.feed (snd Sample.listening_later)) = ["offline"].
Proof. vm_compute. repeat split. Qed.

(** With a channel of capacity 1 the listener does wait: after two rounds
    the channel is full, and a third step of the listener is refused. *)
Example listener_waits_on_full_channel :
  run_schedule Notify.shared [0; 0; 0; 0]
    (Notify.start 8 advanced_patterns.listen_rounds 1 1 2 Sample.feed) = None
  /\ (exists s, run_schedule Notify.shared [0; 0; 0; 1; 0]
                  (Notify.start 8 advanced_patterns.listen_rounds 1 1 2 Sample.feed)
                = Some s).
Proof. split; [vm_compute; reflexivity | eexists; vm_compute; reflexivity]. Qed.

(* ===================================================================== *)
(** ** DistributedLock: the workers of advisoryLocksDemo *)
(* ===================================================================== *)

(* ===================================================================== *)
(** ** DistributedLock: the workers of advisoryLocksDemo *)
(* ===================================================================== *)

Section LockTable.

Import Locks.

Lemma held_by_other_false (c : ConnH) (key : Z) (g : list (ConnH * Z)) :
  held_by_other c key g = false ->
  forall c', In (c', key) g -> c' = c.
Proof.
  unfold held_by_other. intros H c' Hin.
  destruct (Nat.eq_dec c' c) as [-> | Hne]; [reflexivity|].
  assert (existsb (fun e => (negb (Nat.eqb (fst e) c) && Z.eqb (snd e) key)%bool) g = true).
  { apply existsb_exists. exists (c', key). split; [exact Hin|]. simpl.
    apply Nat.eqb_neq in Hne. rewrite Hne, Z.eqb_refl. reflexivity. }
  congruence.
Qed.

Lemma held_by_other_true (c : ConnH) (key : Z) (g : list (ConnH * Z)) :
  held_by_other c key g = true ->
  exists c', c' <> c /\ In (c', key) g.
Proof.
  unfold held_by_other. intros H. apply existsb_exists in H as ([c' k] & Hin & Ht).
  simpl in Ht. apply andb_prop in Ht as [Hc Hk].
  apply negb_true_iff, Nat.eqb_neq in Hc. apply Z.eqb_eq in Hk. subst k. eauto.
Qed.

Lemma release_incl (c : ConnH) (key : Z) (g : list (ConnH * Z)) :
  incl (release c key g) g.
Proof.
  induction g as [|e g IH]; simpl; [apply incl_refl|].
  destruct (Nat.eqb (fst e) c && Z.eqb (snd e) key)%bool.
  - apply incl_tl, incl_refl.
  - intros x [-> | Hx]; [left; reflexivity | right; apply IH; exact Hx].
Qed.

Lemma release_keeps_others (c : ConnH) (key : Z) (g : list (ConnH * Z)) (e : ConnH * Z) :
  In e g -> fst e <> c -> In e (release c key g).
Proof.
  induction g as [|x g IH]; simpl; [tauto|].
  intros [-> | Hin] Hne.
  - apply Nat.eqb_neq in Hne. rewrite Hne. simpl. left. reflexivity.
  - destruct (Nat.eqb (fst x) c && Z.eqb (snd x) key)%bool; [exact Hin|].
    right. apply IH; assumption.
Qed.

(** Two callers on different connections try the same free key: the first
    is granted, the second refused; once the first has released, a try by
    either is granted. *)
Lemma try_claim_scenario (c1 c2 : ConnH) (key : Z) (g : list (ConnH * Z)) :
  c1 <> c2 ->
  (forall c, ~ In (c, key) g) ->
  let '(r1, g1) := try_claim c1 key g in
  let '(r2, g2) := try_claim c2 key g1 in
  let g3 := release c1 key g2 in
  r1 = true /\ r2 = false
  /\ fst (try_claim c1 key g3) = true
  /\ fst (try_claim c2 key g3) = true.
Proof.
  intros Hne Hfree.
  assert (Hnone : forall c, held_by_other c key g = false).
  { intros c. destruct (held_by_other c key g) eqn:H; [|reflexivity].
    apply held_by_other_true in H as (c' & _ & Hin). exfalso. eapply Hfree. exact Hin. }
  unfold try_claim at 1. rewrite Hnone.
  unfold try_claim at 1.
  assert (H2 : held_by_other c2 key ((c1, key) :: g) = true).
  { unfold held_by_other. simpl. apply Nat.eqb_neq in Hne. rewrite Hne, Z.eqb_refl. reflexivity. }
  rewrite H2. cbv zeta. simpl release. rewrite Nat.eqb_refl, Z.eqb_refl. simpl.
  unfold try_claim. rewrite !Hnone. auto.
Qed.

End LockTable.

Section LockInvariant.

Import advanced_patterns Locks LockPoints.

Lemma nth_error_replace_nth {A : Type} (l : list A) (i j : nat) (x : A) :
  nth_error (replace_nth i x l) j
  = if Nat.eqb j i then match nth_error l i with Some _ => Some x | None => None end
    else nth_error l j.
Proof.
  revert i j. induction l as [|y l IH]; intros [|i] [|j]; simpl; try reflexivity.
  - destruct (Nat.eqb j i); destruct j; reflexivity || destruct i; reflexivity.
  - apply IH.
Qed.

Lemma frame_refl (w : World) : frame w w.
Proof. repeat split. Qed.

(** A worker moves on without leasing, releasing, claiming or giving back. *)
Lemma lock_inv_move (ws : list Worker) (w w' : World) (i : nat) (p p'' : Worker) :
  lock_inv ws w ->
  frame w w' ->
  nth_error ws i = Some p ->
  conn_of p'' = conn_of p ->
  (forall c, in_critical p'' = Some c -> in_critical p = Some c) ->
  lock_inv (replace_nth i p'' ws) w'.
Proof.
  intros [Hd Hl Hp Hf Hc Hs Hcr] (Hi & Hle & Hn & Hm & Hg) Hnth Hconn Hcrit.
  constructor; rewrite ?Hi, ?Hle, ?Hn, ?Hm, ?Hg; auto.
  - intros a b pa pb c Ha Hb Hca Hcb.
    rewrite nth_error_replace_nth, Hnth in Ha, Hb.
    destruct (Nat.eqb_spec a i) as [-> | Hai]; destruct (Nat.eqb_spec b i) as [-> | Hbi];
      try reflexivity.
    + injection Ha as <-. rewrite Hconn in Hca. exact (Hd _ _ _ _ _ Hnth Hb Hca Hcb).
    + injection Hb as <-. rewrite Hconn in Hcb. exact (Hd _ _ _ _ _ Ha Hnth Hca Hcb).
    + exact (Hd _ _ _ _ _ Ha Hb Hca Hcb).
  - intros a pa c Ha Hca. rewrite nth_error_replace_nth, Hnth in Ha.
    destruct (Nat.eqb_spec a i) as [-> | Hai].
    + injection Ha as <-. rewrite Hconn in Hca. exact (Hl _ _ _ Hnth Hca).
    + exact (Hl _ _ _ Ha Hca).
  - intros a pa c Ha Hca. rewrite nth_error_replace_nth, Hnth in Ha.
    destruct (Nat.eqb_spec a i) as [-> | Hai].
    + injection Ha as <-. exact (Hcr _ _ _ Hnth (Hcrit _ Hca)).
    + exact (Hcr _ _ _ Ha Hca).
Qed.

Lemma lock_inv_frame (ws : list Worker) (w w' : World) :
  lock_inv ws w -> frame w w' -> lock_inv ws w'.
Proof.
  intros [Hd Hl Hp Hf Hc Hs Hcr] (Hi & Hle & Hn & Hm & Hg).
  constructor; rewrite ?Hi, ?Hle, ?Hn, ?Hm, ?Hg; auto.
Qed.

Lemma remove_permutation (c : ConnH) (l : list ConnH) :
  NoDup l -> In c l -> Permutation l (c :: remove Nat.eq_dec c l).
Proof.
  induction 1 as [|x l Hx Hnd IH]; intros Hin; [destruct Hin|].
  simpl. destruct (Nat.eq_dec c x) as [-> | Hne].
  - rewrite notin_remove; [reflexivity | exact Hx].
  - destruct Hin as [-> | Hin]; [congruence|].
    rewrite perm_swap. constructor. apply IH. exact Hin.
Qed.

(** A worker without a connection leases [c], which no worker holds. *)
Lemma lock_inv_lease (ws : list Worker) (w w' : World) (i : nat) (p : Worker) (c : ConnH) :
  lock_inv ws w ->
  nth_error ws i = Some p ->
  conn_of p = None ->
  ~ In c (leased w) ->
  leased w' = c :: leased w ->
  NoDup (leased w' ++ idle w') ->
  Forall (fun c => c < next_conn w') (leased w' ++ idle w') ->
  List.length (leased w' ++ idle w') <= max_conns w' ->
  grants w' = grants w ->
  lock_inv (replace_nth i (WTry c) ws) w'.
Proof.
  intros [Hd Hl Hp Hf Hc Hs Hcr] Hnth Hnone Hfree Hle Hnd Hfr Hce Hg.
  constructor; rewrite ?Hg; auto.
  - intros a b pa pb c' Ha Hb Hca Hcb.
    rewrite nth_error_replace_nth, Hnth in Ha, Hb.
    destruct (Nat.eqb_spec a i) as [-> | Hai]; destruct (Nat.eqb_spec b i) as [-> | Hbi];
      try reflexivity.
    + injection Ha as <-. simpl in Hca. injection Hca as <-.
      exfalso. apply Hfree. exact (Hl _ _ _ Hb Hcb).
    + injection Hb as <-. simpl in Hcb. injection Hcb as <-.
      exfalso. apply Hfree. exact (Hl _ _ _ Ha Hca).
    + exact (Hd _ _ _ _ _ Ha Hb Hca Hcb).
  - intros a pa c' Ha Hca. rewrite nth_error_replace_nth, Hnth in Ha. rewrite Hle.
    destruct (Nat.eqb_spec a i) as [-> | Hai].
    + injection Ha as <-. simpl in Hca. injection Hca as <-. left. reflexivity.
    + right. exact (Hl _ _ _ Ha Hca).
  - intros a pa c' Ha Hca. rewrite nth_error_replace_nth, Hnth in Ha.
    destruct (Nat.eqb_spec a i) as [-> | Hai].
    + injection Ha as <-. discriminate.
    + exact (Hcr _ _ _ Ha Hca).
Qed.

(** A worker gives its connection back to the pool. *)
Lemma lock_inv_give_back (ws : list Worker) (w : World) (i : nat) (c : ConnH) :
  lock_inv ws w ->
  nth_error ws i = Some (WRelease c) ->
  lock_inv (replace_nth i WWgDone ws)
           (with_pool (idle w ++ [c]) (remove Nat.eq_dec c (leased w)) (next_conn w) w).
Proof.
  intros [Hd Hl Hp Hf Hc Hs Hcr] Hnth.
  assert (Hin : In c (leased w)) by exact (Hl _ _ _ Hnth eq_refl).
  assert (Hperm : Permutation (leased w ++ idle w)
                    (remove Nat.eq_dec c (leased w) ++ idle w ++ [c])).
  { rewrite (remove_permutation c (leased w)) at 1.
    - simpl. rewrite app_assoc. apply Permutation_cons_append.
    - apply NoDup_app_remove_r in Hp. exact Hp.
    - exact Hin. }
  constructor; unfold with_pool; cbn [idle leased next_conn max_conns grants]; auto.
  - intros a b pa pb c' Ha Hb Hca Hcb.
    rewrite nth_error_replace_nth, Hnth in Ha, Hb.
    destruct (Nat.eqb_spec a i) as [-> | Hai]; destruct (Nat.eqb_spec b i) as [-> | Hbi];
      try reflexivity.
    + injection Ha as <-. discriminate.
    + injection Hb as <-. discriminate.
    + exact (Hd _ _ _ _ _ Ha Hb Hca Hcb).
  - intros a pa c' Ha Hca. rewrite nth_error_replace_nth, Hnth in Ha.
    destruct (Nat.eqb_spec a i) as [-> | Hai].
    + injection Ha as <-. discriminate.
    + apply in_in_remove; [|exact (Hl _ _ _ Ha Hca)].
      intros ->. apply Hai. exact (Hd _ _ _ _ _ Ha Hnth Hca eq_refl).
  - eapply Permutation_NoDup; [exact Hperm | exact Hp].
  - eapply Permutation_Forall; [exact Hperm | exact Hf].
  - pose proof (Permutation_length Hperm) as Hlen. unfold ConnH in *. lia.
  - intros a pa c' Ha Hca. rewrite nth_error_replace_nth, Hnth in Ha.
    destruct (Nat.eqb_spec a i) as [-> | Hai].
    + injection Ha as <-. discriminate.
    + exact (Hcr _ _ _ Ha Hca).
Qed.

(** The datastore grants the lock to a worker: no other connection held it. *)
Lemma lock_inv_grant (ws : list Worker) (w : World) (i : nat) (c : ConnH) :
  lock_inv ws w ->
  nth_error ws i = Some (WTry c) ->
  held_by_other c lockID (grants w) = false ->
  lock_inv (replace_nth i (WGot c) ws) (with_grants ((c, lockID) :: grants w) w).
Proof.
  intros [Hd Hl Hp Hf Hc Hs Hcr] Hnth Hfree.
  constructor; simpl; auto.
  - intros a b pa pb c' Ha Hb Hca Hcb.
    rewrite nth_error_replace_nth, Hnth in Ha, Hb.
    destruct (Nat.eqb_spec a i) as [-> | Hai]; destruct (Nat.eqb_spec b i) as [-> | Hbi];
      try reflexivity.
    + injection Ha as <-. exact (Hd _ _ _ _ _ Hnth Hb Hca Hcb).
    + injection Hb as <-. exact (Hd _ _ _ _ _ Ha Hnth Hca Hcb).
    + exact (Hd _ _ _ _ _ Ha Hb Hca Hcb).
  - intros a pa c' Ha Hca. rewrite nth_error_replace_nth, Hnth in Ha.
    destruct (Nat.eqb_spec a i) as [-> | Hai].
    + injection Ha as <-. exact (Hl _ _ _ Hnth Hca).
    + exact (Hl _ _ _ Ha Hca).
  - intros c1 c2 k [[= <- <-] | H1] [[= <-] | H2].
    + reflexivity.
    + symmetry. exact (held_by_other_false _ _ _ Hfree _ H2).
    + subst k. exact (held_by_other_false _ _ _ Hfree _ H1).
    + exact (Hs _ _ _ H1 H2).
  - intros a pa c' Ha Hca. rewrite nth_error_replace_nth, Hnth in Ha.
    destruct (Nat.eqb_spec a i) as [-> | Hai].
    + injection Ha as <-. simpl in Hca. injection Hca as <-. left. reflexivity.
    + right. exact (Hcr _ _ _ Ha Hca).
Qed.

(** A worker gives the lock back. *)
Lemma lock_inv_unlock (ws : list Worker) (w : World) (i : nat) (c : ConnH) :
  lock_inv ws w ->
  nth_error ws i = Some (WUnlock c) ->
  lock_inv (replace_nth i (WReleased c) ws)
           (with_grants (release c lockID (grants w)) w).
Proof.
  intros [Hd Hl Hp Hf Hc Hs Hcr] Hnth.
  constructor; simpl; auto.
  - intros a b pa pb c' Ha Hb Hca Hcb.
    rewrite nth_error_replace_nth, Hnth in Ha, Hb.
    destruct (Nat.eqb_spec a i) as [-> | Hai]; destruct (Nat.eqb_spec b i) as [-> | Hbi];
      try reflexivity.
    + injection Ha as <-. exact (Hd _ _ _ _ _ Hnth Hb Hca Hcb).
    + injection Hb as <-. exact (Hd _ _ _ _ _ Ha Hnth Hca Hcb).
    + exact (Hd _ _ _ _ _ Ha Hb Hca Hcb).
  - intros a pa c' Ha Hca. rewrite nth_error_replace_nth, Hnth in Ha.
    destruct (Nat.eqb_spec a i) as [-> | Hai].
    + injection Ha as <-. exact (Hl _ _ _ Hnth Hca).
    + exact (Hl _ _ _ Ha Hca).
  - intros c1 c2 k H1 H2. apply release_incl in H1, H2. exact (Hs _ _ _ H1 H2).
  - intros a pa c' Ha Hca. rewrite nth_error_replace_nth, Hnth in Ha.
    destruct (Nat.eqb_spec a i) as [-> | Hai].
    + injection Ha as <-. discriminate.
    + apply release_keeps_others; [exact (Hcr _ _ _ Ha Hca)|].
      simpl. intros ->. apply Hai.
      assert (Hpa : conn_of pa = Some c) by (destruct pa; try discriminate; simpl in *; congruence).
      exact (Hd _ _ _ _ _ Ha Hnth Hpa eq_refl).
Qed.

End LockInvariant.

Section LockSteps.

Import advanced_patterns Locks LockPoints.
Variables (pool : database.Pool) (results : ChanH).

Lemma lease_idle (ws : list Worker) (w : World) (i : nat) (c : ConnH) (rest : list ConnH) :
  lock_inv ws w ->
  nth_error ws i = Some WStart ->
  idle w = c :: rest ->
  lock_inv (replace_nth i (WTry c) ws) (with_pool rest (c :: leased w) (next_conn w) w).
Proof.
  intros Hinv Hnth Hidle. pose proof Hinv as [Hd Hl Hp Hf Hc Hs Hcr].
  rewrite Hidle in Hp, Hf, Hc.
  assert (Hperm : Permutation (leased w ++ c :: rest) ((c :: leased w) ++ rest)).
  { simpl. symmetry. apply Permutation_middle. }
  eapply lock_inv_lease with (p := WStart); try eassumption; try reflexivity;
    unfold with_pool; cbn [idle leased next_conn max_conns grants].
  - intros Hin. apply NoDup_remove_2 in Hp. apply Hp. apply in_or_app. left. exact Hin.
  - eapply Permutation_NoDup; [exact Hperm | exact Hp].
  - eapply Permutation_Forall; [exact Hperm | exact Hf].
  - pose proof (Permutation_length Hperm) as Hlen. unfold ConnH in *. lia.
Qed.

Lemma lease_fresh (ws : list Worker) (w : World) (i : nat) :
  lock_inv ws w ->
  nth_error ws i = Some WStart ->
  idle w = [] ->
  List.length (leased w) < max_conns w ->
  lock_inv (replace_nth i (WTry (next_conn w)) ws)
           (with_pool [] (next_conn w :: leased w) (S (next_conn w)) w).
Proof.
  intros Hinv Hnth Hidle Hroom. pose proof Hinv as [Hd Hl Hp Hf Hc Hs Hcr].
  rewrite Hidle, app_nil_r in Hp, Hf, Hc.
  assert (Hnew : ~ In (next_conn w) (leased w)).
  { intros Hin. rewrite Forall_forall in Hf. specialize (Hf _ Hin). lia. }
  eapply lock_inv_lease with (p := WStart); try eassumption; try reflexivity;
    unfold with_pool; cbn [idle leased next_conn max_conns grants]; rewrite app_nil_r.
  - constructor; assumption.
  - constructor; [lia|]. eapply Forall_impl; [|exact Hf]. simpl. intros; lia.
  - simpl. lia.
Qed.

Ltac moved p'' :=
  exists p''; split; [reflexivity|];
  eapply lock_inv_move; [eassumption | repeat split | eassumption | reflexivity |];
  simpl; intros; congruence.

Ltac on_world w1 Hinv :=
  let H := fresh "Hinv1" in
  assert (H : lock_inv _ w1) by (eapply lock_inv_frame; [exact Hinv | repeat split]).

Lemma worker_step_inv (id : Z) (ws : list Worker) (w : World) (i : nat) (p : Worker)
      (p' : Prog unit) (w' : World) :
  lock_inv ws w ->
  nth_error ws i = Some p ->
  thread_step shared (worker_prog pool results id p) w = Some (p', w') ->
  exists p'',
    p' = worker_prog pool results id p''
    /\ lock_inv (replace_nth i p'' ws) w'.
Proof.
  intros Hinv Hnth Hs.
  destruct p; cbn -[Nat.ltb] in Hs; unfold fault in Hs.
  - (* WStart *)
    destruct (faults w) as [|[|] fs] eqn:Hfaults; cbn -[Nat.ltb] in Hs.
    + destruct (idle w) as [|c rest] eqn:Hidle.
      * destruct (Nat.ltb_spec (List.length (leased w)) (max_conns w)) as [Hlt|]; [|discriminate].
        injection Hs as <- <-. exists (WTry (next_conn w)). split; [reflexivity|].
        apply lease_fresh; assumption.
      * injection Hs as <- <-. exists (WTry c). split; [reflexivity|].
        apply lease_idle; assumption.
    + injection Hs as <- <-. moved WAcquireFailed.
    + on_world (with_faults fs w) Hinv.
      destruct (idle w) as [|c rest] eqn:Hidle.
      * destruct (Nat.ltb_spec (List.length (leased w)) (max_conns w)) as [Hlt|]; [|discriminate].
        injection Hs as <- <-. exists (WTry (next_conn w)). split; [reflexivity|].
        apply (lease_fresh ws (with_faults fs w)); assumption.
      * injection Hs as <- <-. exists (WTry c). split; [reflexivity|].
        apply (lease_idle ws (with_faults fs w)); assumption.
  - (* WAcquireFailed *)
    destruct (results_closed w); [discriminate|].
    destruct (Nat.ltb (List.length (Locks.results w)) (Locks.results_capacity w)); [|discriminate].
    injection Hs as <- <-. moved WWgDone.
  - (* WTry *)
    destruct (faults w) as [|[|] fs] eqn:Hfaults; cbn -[Nat.ltb] in Hs.
    + unfold try_claim in Hs.
      destruct (held_by_other c lockID (grants w)) eqn:Hheld; injection Hs as <- <-.
      * moved (WRefused c).
      * exists (WGot c). split; [reflexivity|]. apply lock_inv_grant; assumption.
    + injection Hs as <- <-. moved (WRefused c).
    + on_world (with_faults fs w) Hinv. unfold try_claim in Hs.
      cbn [grants with_faults] in Hs.
      destruct (held_by_other c lockID (grants w)) eqn:Hheld; injection Hs as <- <-.
      * moved (WRefused c).
      * exists (WGot c). split; [reflexivity|].
        apply (lock_inv_grant ws (with_faults fs w)); assumption.
  - (* WRefused *)
    destruct (results_closed w); [discriminate|].
    destruct (Nat.ltb (List.length (Locks.results w)) (Locks.results_capacity w)); [|discriminate].
    injection Hs as <- <-. moved (WRelease c).
  - (* WGot *)
    destruct (results_closed w); [discriminate|].
    destruct (Nat.ltb (List.length (Locks.results w)) (Locks.results_capacity w)); [|discriminate].
    injection Hs as <- <-. moved (WSleep c).
  - (* WSleep *)
    injection Hs as <- <-. moved (WUnlock c).
  - (* WUnlock *)
    destruct (faults w) as [|[|] fs] eqn:Hfaults; cbn -[Nat.ltb] in Hs;
      injection Hs as <- <-.
    + exists (WReleased c). split; [reflexivity|]. apply lock_inv_unlock; assumption.
    + moved (WReleased c).
    + on_world (with_faults fs w) Hinv.
      exists (WReleased c). split; [reflexivity|].
      apply (lock_inv_unlock ws (with_faults fs w)); assumption.
  - (* WReleased *)
    destruct (results_closed w); [discriminate|].
    destruct (Nat.ltb (List.length (Locks.results w)) (Locks.results_capacity w)); [|discriminate].
    injection Hs as <- <-. moved (WRelease c).
  - (* WRelease *)
    injection Hs as <- <-. exists WWgDone. split; [reflexivity|].
    apply lock_inv_give_back; assumption.
  - (* WWgDone *)
    injection Hs as <- <-. moved WReturned.
  - (* WReturned *)
    discriminate.
Qed.

End LockSteps.

Section LockThreads.

Import advanced_patterns Locks LockPoints.
Variables (pool : database.Pool) (results : ChanH).

Lemma harmless_bind {A B : Type} (p : Prog A) (k : A -> Prog B) :
  harmless p -> (forall a, harmless (k a)) -> harmless (bind p k).
Proof.
  intros Hp Hk. induction p as [a | v | c | | R c k0 IH]; simpl; auto.
  destruct Hp as [Hq Hrest]. split; [exact Hq|]. intros r. apply IH. apply Hrest.
Qed.

Lemma harmless_print_results (fuel : nat) : harmless (print_results fuel results).
Proof.
  induction fuel as [|fuel IH]; simpl; [exact I|].
  split; [reflexivity|]. intros [result|]; simpl; [|exact I].
  split; [reflexivity|]. intros _. exact IH.
Qed.

Lemma harmless_closer : harmless (closer results).
Proof. simpl. repeat split. Qed.

Lemma harmless_main (fuel : nat) : harmless (advisoryLocksDemo_main fuel results).
Proof.
  unfold advisoryLocksDemo_main. simpl. split; [reflexivity|]. intros _.
  apply harmless_bind; [apply harmless_print_results|]. intros _.
  simpl. repeat split.
Qed.

(** A goroutine that touches neither the pool nor the locks leaves them as
    they are, and stays such a goroutine. *)
Lemma harmless_step (p p' : Prog unit) (w w' : World) :
  harmless p ->
  thread_step shared p w = Some (p', w') ->
  harmless p' /\ frame w w'.
Proof.
  intros Hp Hs. destruct p as [a | v | c | | R c k]; try discriminate.
  destruct Hp as [Hq Hk].
  destruct c; try discriminate Hq; cbn in Hs;
    try (destruct (Locks.results w) as [|s rest]; cbn in Hs);
    try (destruct (results_closed w); cbn in Hs);
    try (destruct (Nat.eqb (wg w) 0); cbn in Hs);
    try discriminate Hs;
    injection Hs as <- <-; (split; [apply Hk | repeat split]).
Qed.

Lemma nth_error_worker_threads (ws : list Worker) :
  forall (from i : nat) (t : Prog unit),
    nth_error (worker_threads pool results from ws) i = Some t ->
    exists p, nth_error ws i = Some p
              /\ t = worker_prog pool results (Z.of_nat (from + i)) p.
Proof.
  induction ws as [|p0 ws IH]; intros from [|i] t Hn; try discriminate.
  - injection Hn as <-. exists p0. rewrite Nat.add_0_r. split; reflexivity.
  - simpl in Hn. destruct (IH _ _ _ Hn) as (p & Hp & Ht).
    exists p. split; [exact Hp|]. rewrite Ht, Nat.add_succ_r. reflexivity.
Qed.

Lemma replace_nth_worker_threads (ws : list Worker) :
  forall (from i : nat) (p : Worker),
    replace_nth i (worker_prog pool results (Z.of_nat (from + i)) p)
                (worker_threads pool results from ws)
    = worker_threads pool results from (replace_nth i p ws).
Proof.
  induction ws as [|p0 ws IH]; intros from [|i] p; try reflexivity.
  - simpl. rewrite Nat.add_0_r. reflexivity.
  - simpl. rewrite <- IH, Nat.add_succ_r. reflexivity.
Qed.

Lemma length_worker_threads (ws : list Worker) :
  forall from, List.length (worker_threads pool results from ws) = List.length ws.
Proof. induction ws as [|p ws IH]; intros from; simpl; [|rewrite IH]; reflexivity. Qed.

Lemma length_replace_nth {A : Type} (l : list A) :
  forall (i : nat) (x : A), List.length (replace_nth i x l) = List.length l.
Proof. induction l as [|y l IH]; intros [|i] x; simpl; try rewrite IH; reflexivity. Qed.

Lemma replace_nth_app_l {A : Type} (l r : list A) :
  forall (i : nat) (x : A),
    i < List.length l -> replace_nth i x (l ++ r) = replace_nth i x l ++ r.
Proof.
  induction l as [|y l IH]; intros [|i] x Hi; simpl in *; try lia; try reflexivity.
  rewrite IH by lia. reflexivity.
Qed.

Lemma replace_nth_app_r {A : Type} (l r : list A) :
  forall (i : nat) (x : A),
    List.length l <= i ->
    replace_nth i x (l ++ r) = l ++ replace_nth (i - List.length l) x r.
Proof.
  induction l as [|y l IH]; intros i x Hi; simpl in *.
  - rewrite Nat.sub_0_r. reflexivity.
  - destruct i as [|i]; [lia|]. simpl. rewrite IH by lia. reflexivity.
Qed.

Lemma Forall_replace_nth {A : Type} (P : A -> Prop) (l : list A) :
  forall (i : nat) (x : A), Forall P l -> P x -> Forall P (replace_nth i x l).
Proof.
  induction l as [|y l IH]; intros [|i] x Hl Hx; simpl; auto;
    inversion Hl; subst; constructor; auto.
Qed.

Lemma worker_threads_start (n : nat) :
  forall from,
    map (fun i => worker pool results (Z.of_nat i)) (seq from n)
    = worker_threads pool results from (repeat WStart n).
Proof. induction n as [|n IH]; intros from; simpl; [|rewrite IH]; reflexivity. Qed.

Lemma nth_error_repeat_start (n i : nat) (p : Worker) :
  nth_error (repeat WStart n) i = Some p -> p = WStart.
Proof.
  intros Hn. apply nth_error_In, repeat_spec in Hn. exact Hn.
Qed.

Lemma lock_inv_start (n max : nat) (plan : list bool) :
  lock_inv (repeat WStart n)
           (mkWorld max [] [] 1 [] plan n advanced_patterns.results_capacity [] false []).
Proof.
  constructor; simpl.
  - intros i j pi pj c Hi _ Hc. apply nth_error_repeat_start in Hi. subst. discriminate.
  - intros i p c Hi Hc. apply nth_error_repeat_start in Hi. subst. discriminate.
  - constructor.
  - constructor.
  - lia.
  - intros c1 c2 k [].
  - intros i p c Hi Hc. apply nth_error_repeat_start in Hi. subst. discriminate.
Qed.

(** One step of the demo keeps its shape and its invariant. *)
Lemma lock_inv_step (ws : list Worker) (others ts' : list (Prog unit)) (w w' : World) :
  lock_inv ws w ->
  Forall harmless others ->
  sys_step shared (worker_threads pool results 0 ws ++ others, w) (ts', w') ->
  exists ws' others',
    ts' = worker_threads pool results 0 ws' ++ others'
    /\ List.length ws' = List.length ws
    /\ lock_inv ws' w'
    /\ Forall harmless others'.
Proof.
  intros Hinv Hothers Hstep.
  inversion Hstep as [ts w0 i p p' w1 Hnth Hs]; subst.
  destruct (Nat.lt_ge_cases i (List.length ws)) as [Hi | Hi].
  - rewrite nth_error_app1 in Hnth by (rewrite length_worker_threads; exact Hi).
    destruct (nth_error_worker_threads _ _ _ _ Hnth) as (pw & Hpw & ->).
    destruct (worker_step_inv pool results _ ws w i pw p' w' Hinv Hpw Hs)
      as (p'' & -> & Hinv').
    exists (replace_nth i p'' ws), others.
    rewrite replace_nth_app_l by (rewrite length_worker_threads; exact Hi).
    rewrite replace_nth_worker_threads, length_replace_nth.
    split; [reflexivity|]. split; [reflexivity|]. split; assumption.
  - rewrite nth_error_app2 in Hnth by (rewrite length_worker_threads; exact Hi).
    rewrite length_worker_threads in Hnth.
    assert (Hp : harmless p).
    { rewrite Forall_forall in Hothers. apply Hothers. eapply nth_error_In. exact Hnth. }
    destruct (harmless_step _ _ _ _ Hp Hs) as (Hp' & Hframe).
    exists ws, (replace_nth (i - List.length ws) p' others).
    rewrite replace_nth_app_r by (rewrite length_worker_threads; exact Hi).
    rewrite length_worker_threads.
    split; [reflexivity|]. split; [reflexivity|]. split.
    + eapply lock_inv_frame; eassumption.
    + apply Forall_replace_nth; assumption.
Qed.

Lemma lock_reachable_inv (fuel n max : nat) (plan : list bool) (s : list (Prog unit) * World) :
  reachable shared (start fuel n max plan pool results) s ->
  exists ws others,
    fst s = worker_threads pool results 0 ws ++ others
    /\ List.length ws = n
    /\ lock_inv ws (snd s)
    /\ Forall harmless others.
Proof.
  intros Hr. induction Hr as [| s s' Hr IH Hstep].
  - exists (repeat WStart n), [closer results; advisoryLocksDemo_main fuel results].
    simpl. unfold advisoryLocksDemo_threads. rewrite worker_threads_start, repeat_length.
    split; [reflexivity|]. split; [reflexivity|]. split.
    + apply lock_inv_start.
    + constructor; [apply harmless_closer|]. constructor; [apply harmless_main|]. constructor.
  - destruct IH as (ws & others & Hts & Hlen & Hinv & Hothers).
    destruct s as [ts w], s' as [ts' w']. simpl in *. subst ts.
    destruct (lock_inv_step _ _ _ _ _ Hinv Hothers Hstep) as (ws' & others' & -> & Hl & Hi & Ho).
    exists ws', others'.
    split; [reflexivity|]. split; [congruence|]. split; assumption.
Qed.

End LockThreads.

Section LockTheorems.

Import advanced_patterns Locks LockPoints.

Lemma single_holder_try_claim (c : ConnH) (key : Z) (g : list (ConnH * Z)) :
  single_holder g -> single_holder (snd (try_claim c key g)).
Proof.
  intros Hs. unfold try_claim.
  destruct (held_by_other c key g) eqn:Hfree; simpl; [exact Hs|].
  intros c1 c2 k [[= <- <-] | H1] [[= <-] | H2].
  - reflexivity.
  - symmetry. exact (held_by_other_false _ _ _ Hfree _ H2).
  - subst k. exact (held_by_other_false _ _ _ Hfree _ H1).
  - exact (Hs _ _ _ H1 H2).
Qed.

Lemma single_holder_release (c : ConnH) (key : Z) (g : list (ConnH * Z)) :
  single_holder g -> single_holder (release c key g).
Proof.
  intros Hs c1 c2 k H1 H2. apply release_incl in H1, H2. exact (Hs _ _ _ H1 H2).
Qed.

(** Whatever a goroutine calls, the datastore keeps one holder per key. *)
Lemma shared_keeps_single_holder {R : Type} (c : Cmd R) (w w' : World) (r : R) :
  shared R c w = Some (r, w') ->
  single_holder (grants w) ->
  single_holder (grants w').
Proof.
  intros H Hs.
  destruct c; try discriminate H; cbn -[Nat.ltb try_claim] in H; unfold fault in H;
    try (destruct (faults w) as [|[|] fs]; cbn -[Nat.ltb try_claim] in H);
    try (destruct (idle w) as [|c0 rest]; cbn -[Nat.ltb try_claim] in H);
    try (destruct (Locks.results w) as [|s0 rest0]; cbn -[Nat.ltb try_claim] in H);
    try (destruct (results_closed w); cbn -[Nat.ltb try_claim] in H);
    try (destruct (Nat.ltb _ _); cbn -[Nat.ltb try_claim] in H);
    try (destruct (Nat.eqb (wg w) 0); cbn -[Nat.ltb try_claim] in H);
    try discriminate H;
    try (injection H as <- <-; first [exact Hs | apply single_holder_release; exact Hs]).
  all: match type of H with
       | context [try_claim ?c ?k ?g] =>
           pose proof (single_holder_try_claim c k g Hs) as Hn;
           destruct (try_claim c k g) as [granted g']; injection H as <- <-; exact Hn
       end.
Qed.

Lemma single_holder_reachable (init s : list (Prog unit) * World) :
  single_holder (grants (snd init)) ->
  reachable shared init s ->
  single_holder (grants (snd s)).
Proof.
  intros H0 Hr. induction Hr as [| s s' Hr IH Hstep]; [exact H0|].
  inversion Hstep as [ts w i p p' w' Hnth Hs]; subst. simpl in *.
  destruct p as [a | v | c | | R c k]; try discriminate.
  simpl in Hs. destruct (shared R c w) as [[r w1]|] eqn:Hc; [|discriminate].
  injection Hs as <- <-. exact (shared_keeps_single_holder c w w1 r Hc IH).
Qed.

Lemma in_critical_conn (p : Worker) (c : ConnH) :
  in_critical p = Some c -> conn_of p = Some c.
Proof. destruct p; simpl; congruence. Qed.

(** C3.  Whatever goroutines run against the datastore and however they
    are scheduled, from a state with one holder per key at most: in every
    state they can reach, for every key, the claims on the key are claims
    of one connection.  In such a state, when two different connections
    try a free key one after the other, the first is granted and the
    second refused while the first holds the key, and once the first has
    released it a try by either is granted.  And when the goroutines are
    those of advisoryLocksDemo, with any number of workers, two workers
    that are both in their critical sections are the same worker. *)
Theorem advisory_lock_has_one_holder :
  forall (threads ts : list (Prog unit)) (w0 w : World),
    single_holder (grants w0) ->
    reachable shared (threads, w0) (ts, w) ->
    single_holder (grants w)
    /\ (forall (c1 c2 : ConnH) (key : Z),
           c1 <> c2 ->
           (forall c, ~ In (c, key) (grants w)) ->
           let '(r1, g1) := try_claim c1 key (grants w) in
           let '(r2, g2) := try_claim c2 key g1 in
           let g3 := release c1 key g2 in
           r1 = true /\ r2 = false
           /\ fst (try_claim c1 key g3) = true
           /\ fst (try_claim c2 key g3) = true)
    /\ (forall (pool : database.Pool) (ch : ChanH) (fuel n max : nat) (plan : list bool),
           (threads, w0) = start fuel n max plan pool ch ->
           exists ws others,
             ts = worker_threads pool ch 0 ws ++ others
             /\ List.length ws = n
             /\ forall i j, both_critical ws i j -> i = j).
Proof.
  intros threads ts w0 w H0 Hr. split; [|split].
  - exact (single_holder_reachable (threads, w0) (ts, w) H0 Hr).
  - intros c1 c2 key Hne Hfree. exact (try_claim_scenario c1 c2 key (grants w) Hne Hfree).
  - intros pool ch fuel n max plan Hstart. rewrite Hstart in Hr.
    destruct (lock_reachable_inv pool ch fuel n max plan _ Hr)
      as (ws & others & Hts & Hlen & Hinv & _).
    exists ws, others. split; [exact Hts|]. split; [exact Hlen|].
    intros i j (pi & pj & ci & cj & Hi & Hj & Hci & Hcj).
    destruct Hinv as [Hd _ _ _ _ Hs Hcr].
    assert (ci = cj) as <- by exact (Hs _ _ _ (Hcr _ _ _ Hi Hci) (Hcr _ _ _ Hj Hcj)).
    exact (Hd _ _ _ _ _ Hi Hj (in_critical_conn _ _ Hci) (in_critical_conn _ _ Hcj)).
Qed.

End LockTheorems.

Lemma advisory_lock_has_one_holder_witness :
  LockPoints.single_holder (Locks.grants (snd Sample.contending))
  /\ reachable Locks.shared Sample.contending
               (fst Sample.contending_later, snd Sample.contending_later)
  /\ LockPoints.single_holder (Locks.grants (snd Sample.contending_later))
  /\ exists ws others,
      fst Sample.contending_later
      = LockPoints.worker_threads Sample.pool 9 0 ws ++ others
      /\ List.length ws = advanced_patterns.workers
      /\ forall i j, LockPoints.both_critical ws i j -> i = j.
Proof.
  assert (H0 : LockPoints.single_holder (Locks.grants (snd Sample.contending))).
  { intros c1 c2 key []. }
  assert (Hr : reachable Locks.shared Sample.contending
                 (fst Sample.contending_later, snd Sample.contending_later)).
  { apply (run_schedule_reachable Locks.shared [0; 1; 0; 1; 0]
             Sample.contending Sample.contending).
    - apply reach_init.
    - vm_compute. reflexivity. }
  split; [exact H0|]. split; [exact Hr|].
  destruct (advisory_lock_has_one_holder
              (fst Sample.contending) (fst Sample.contending_later)
              (snd Sample.contending) (snd Sample.contending_later) H0 Hr)
    as (Hs & _ & Hdemo).
  split; [exact Hs|].
  exact (Hdemo Sample.pool 9 8 advanced_patterns.workers 25 [] eq_refl).
Defined.

(** The state reached there: worker 0 is in its critical section on
    connection 1, which holds the lock; worker 1, on connection 2, has
    been refused; the pool has leased two connections. *)
Example contending_later_state :
  Locks.grants (snd Sample.contending_later) = [(1, advanced_patterns.lockID)]
  /\ Locks.leased (snd Sample.contending_later) = [2; 1]
  /\ Locks.results (snd Sample.contending_later) = ["Worker 0: got lock, processing..."]
  /\ nth_error (fst Sample.contending_later) 0
     = Some (LockPoints.worker_prog Sample.pool 9 0 (LockPoints.WSleep 1))
  /\ nth_error (fst Sample.contending_later) 1
     = Some (LockPoints.worker_prog Sample.pool 9 1 (LockPoints.WRefused 2)).
Proof. vm_compute. repeat split. Qed.

(** Once worker 0 has released the lock, the try of a worker that comes
    after it is granted. *)
Example lock_is_granted_after_release :
  match run_schedule Locks.shared [0; 0; 0; 0; 0; 2; 2] Sample.contending with
  | Some s =>
      Locks.grants (snd s) = [(2, advanced_patterns.lockID)]
      /\ nth_error (fst s) 2
         = Some (LockPoints.worker_prog Sample.pool 9 2 (LockPoints.WGot 2))
  | None => False
  end.
Proof. vm_compute. repeat split. Qed.

(** A pool with a ceiling of two refuses a third lease: the third worker
    cannot take its first step until a connection comes back. *)
Example third_worker_waits_for_a_connection :
  run_schedule Locks.shared [0; 1; 2] (Locks.start 8 3 2 [] Sample.pool 9) = None
  /\ (exists s, run_schedule Locks.shared [0; 1; 0; 0; 0; 0; 0; 0; 2]
                  (Locks.start 8 3 2 [] Sample.pool 9) = Some s).
Proof. split; [vm_compute; reflexivity | eexists; vm_compute; reflexivity]. Qed.

(* ===================================================================== *)
(** ** ConnectionPool: the ceiling *)
(* ===================================================================== *)


(* ===================================================================== *)
(** ** ConnectionPool: [HealthCheck] *)
(* ===================================================================== *)

(** X1.  [HealthCheck] sends one query and nothing else, and reports
    health exactly when that query answered 1: it returns nil if and only
    if the answer is the row 1; an error of the driver comes back wrapped,
    so that [errors.Is] still finds it, under the text "health check
    failed: "; any other row comes back as an error that wraps nothing. *)
Theorem HealthCheck_nil_iff_one :
  forall (S : Type) (h : Handler S) (p : database.Pool) (s : S),
    let q := PoolQueryRowInt (database.Pool_ p) "SELECT 1" in
    let r := run h (connection.HealthCheck p) s in
    trace r = [Ev q (fst (h _ q s))]
    /\ final r = snd (h _ q s)
    /\ (outcome r = Returned None <-> fst (h _ q s) = inl 1%Z)
    /\ match fst (h _ q s) with
       | inr err =>
           exists e, outcome r = Returned (Some e)
                     /\ errors_Is e err = true
                     /\ Unwrap e = Some err
                     /\ Error e = ("health check failed: " ++ Error err)%string
       | inl n =>
           n <> 1%Z ->
           exists e, outcome r = Returned (Some e)
                     /\ Unwrap e = None
                     /\ Error e = ("unexpected result: " ++ fmt_d n)%string
       end.
Proof.
  intros S h p s q r. subst q r. unfold connection.HealthCheck.
  cbn [run bind call].
  destruct (h _ (PoolQueryRowInt (database.Pool_ p) "SELECT 1") s) as [[n | err] s1].
  - cbn [fst snd]. destruct (Z.eqb_spec n 1) as [-> | Hne]; cbn.
    + repeat split; auto. intros Hn. congruence.
    + repeat split; auto; try discriminate.
      * intros [= ->]. congruence.
      * intros _. eexists. repeat split.
  - cbn. repeat split; auto; try discriminate.
    eexists. repeat split. apply errors_Is_wrap.
Qed.

(** A query that fails: the check reports the driver's error, wrapped. *)
Example HealthCheck_on_a_failing_store :
  outcome (run Datastore.pg (connection.HealthCheck Sample.pool)
               (Datastore.with_faults [Some Sample.e2] Datastore.empty))
  = Returned (Some (wrapError "health check failed: conn closed" Sample.e2)).
Proof. reflexivity. Qed.

(* ===================================================================== *)
(** ** TransactionScope: what a result of [WithTx] tells its caller *)
(* ===================================================================== *)

Section WithTxResults.

Import database.
Context {S : Type} (h : Handler S).
Variables (pool : Pool) (fn : TxH -> Prog (option error)).

(** A failed [Begin]: [fn] is not run and nothing else is called. *)
Lemma WithTx_failed_begin (s s1 : S) (err : error) :
  h _ (PoolBegin (Pool_ pool)) s = (inr err, s1) ->
  run h (WithTx pool fn) s
  = mkRun (Returned (Some (Errorf_w "begin tx: " err))) s1
          [Ev (PoolBegin (Pool_ pool)) (inr err)].
Proof. intros Hb. unfold WithTx. simpl. rewrite Hb. reflexivity. Qed.

End WithTxResults.

(** X2.  [WithTx] returns nil only for a committed transaction: [Begin]
    handed out a transaction, [fn] ran on it and returned nil, and the
    last call of [WithTx] is a [Commit] of that transaction that
    succeeded; between [Begin] and [Commit] there are the calls of [fn]
    and no others. *)
Theorem WithTx_nil_means_committed :
  forall (S : Type) (h : Handler S) (pool : database.Pool)
         (fn : TxH -> Prog (option error)) (s : S),
    outcome (run h (database.WithTx pool fn) s) = Returned None ->
    exists tx s1,
      h _ (PoolBegin (database.Pool_ pool)) s = (inl tx, s1)
      /\ outcome (run h (fn tx) s1) = Returned None
      /\ trace (run h (database.WithTx pool fn) s)
         = Ev (PoolBegin (database.Pool_ pool)) (inl tx)
              :: trace (run h (fn tx) s1) ++ [Ev (TxCommit tx) None].
Proof.
  intros S h pool fn s Hnil.
  destruct (h _ (PoolBegin (database.Pool_ pool)) s) as [[tx | err] s1] eqn:Hb.
  - exists tx, s1. split; [reflexivity|].
    rewrite (WithTx_after_begin h pool fn s s1 tx Hb) in Hnil |- *. cbv zeta in *.
    destruct (outcome (run h (fn tx) s1)) as [[e|] | v | c |].
    + destruct (h _ (TxRollback tx) (final (run h (fn tx) s1))) as [rb s2].
      discriminate Hnil.
    + destruct (h _ (TxCommit tx) (final (run h (fn tx) s1))) as [[e|] s2].
      * discriminate Hnil.
      * split; reflexivity.
    + destruct (h _ (TxRollback tx) (final (run h (fn tx) s1))) as [rb s2].
      discriminate Hnil.
    + discriminate Hnil.
    + discriminate Hnil.
  - rewrite (WithTx_failed_begin h pool fn s s1 err Hb) in Hnil. discriminate Hnil.
Qed.

Lemma WithTx_nil_means_committed_witness :
  outcome (run Datastore.pg (database.WithTx Sample.pool Sample.fn) Datastore.empty)
  = Returned None
  /\ exists tx s1,
      Datastore.pg _ (PoolBegin (database.Pool_ Sample.pool)) Datastore.empty = (inl tx, s1)
      /\ outcome (run Datastore.pg (Sample.fn tx) s1) = Returned None
      /\ trace (run Datastore.pg (database.WithTx Sample.pool Sample.fn) Datastore.empty)
         = Ev (PoolBegin (database.Pool_ Sample.pool)) (inl tx)
              :: trace (run Datastore.pg (Sample.fn tx) s1) ++ [Ev (TxCommit tx) None].
Proof.
  assert (Hnil : outcome (run Datastore.pg (database.WithTx Sample.pool Sample.fn)
                              Datastore.empty) = Returned None)
    by (vm_compute; reflexivity).
  split; [exact Hnil|].
  exact (WithTx_nil_means_committed Datastore.Store Datastore.pg Sample.pool Sample.fn
           Datastore.empty Hnil).
Defined.

(** X3.  An error that [WithTx] returns has as its cause the error of the
    call that failed first.  When [Begin] failed, [fn] was not run and
    nothing else was called.  When [fn] failed, the last call is a
    [Rollback].  When [Commit] failed, [fn] had returned nil, the error
    unwraps to the error of [Commit], and no [Rollback] follows. *)
Theorem WithTx_error_names_the_failed_call :
  forall (S : Type) (h : Handler S) (pool : database.Pool)
         (fn : TxH -> Prog (option error)) (s : S) (r : error),
    outcome (run h (database.WithTx pool fn) s) = Returned (Some r) ->
    let begin := PoolBegin (database.Pool_ pool) in
    let whole := run h (database.WithTx pool fn) s in
    (exists err s1,
        h _ begin s = (inr err, s1)
        /\ trace whole = [Ev begin (inr err)]
        /\ Unwrap r = Some err
        /\ Error r = ("begin tx: " ++ Error err)%string)
    \/ (exists tx s1 e rb,
           h _ begin s = (inl tx, s1)
           /\ outcome (run h (fn tx) s1) = Returned (Some e)
           /\ trace whole = Ev begin (inl tx) :: trace (run h (fn tx) s1)
                               ++ [Ev (TxRollback tx) rb]
           /\ errors_Is r e = true)
    \/ (exists tx s1 err,
           h _ begin s = (inl tx, s1)
           /\ outcome (run h (fn tx) s1) = Returned None
           /\ trace whole = Ev begin (inl tx) :: trace (run h (fn tx) s1)
                               ++ [Ev (TxCommit tx) (Some err)]
           /\ Unwrap r = Some err
           /\ Error r = ("commit failed: " ++ Error err)%string).
Proof.
  intros S h pool fn s r Hr begin whole. subst begin whole.
  destruct (h _ (PoolBegin (database.Pool_ pool)) s) as [[tx | err] s1] eqn:Hb.
  - right.
    rewrite (WithTx_after_begin h pool fn s s1 tx Hb) in Hr |- *. cbv zeta in *.
    destruct (outcome (run h (fn tx) s1)) as [[e|] | v | c |] eqn:Hbody.
    + left.
      destruct (h _ (TxRollback tx) (final (run h (fn tx) s1))) as [[rbErr|] s2];
        cbn [outcome trace] in *; injection Hr as <-.
      * exists tx, s1, e, (Some rbErr). repeat split; try assumption. apply errors_Is_wrap.
      * exists tx, s1, e, None. repeat split; try assumption. apply errors_Is_refl.
    + right.
      destruct (h _ (TxCommit tx) (final (run h (fn tx) s1))) as [[err|] s2];
        cbn [outcome trace option_map] in *; [|discriminate Hr].
      injection Hr as <-. exists tx, s1, err. repeat split; assumption.
    + destruct (h _ (TxRollback tx) (final (run h (fn tx) s1))) as [rb s2].
      discriminate Hr.
    + discriminate Hr.
    + discriminate Hr.
  - left. rewrite (WithTx_failed_begin h pool fn s s1 err Hb) in Hr |- *.
    cbn [outcome trace] in *. injection Hr as <-. exists err, s1. repeat split.
Qed.

Lemma WithTx_error_names_the_failed_call_witness :
  outcome (run Datastore.pg (database.WithTx Sample.pool Sample.fn)
               (Datastore.with_faults [Some Sample.e2] Datastore.empty))
  = Returned (Some (wrapError "begin tx: conn closed" Sample.e2))
  /\ exists err s1,
      Datastore.pg _ (PoolBegin (database.Pool_ Sample.pool))
                   (Datastore.with_faults [Some Sample.e2] Datastore.empty) = (inr err, s1)
      /\ trace (run Datastore.pg (database.WithTx Sample.pool Sample.fn)
                    (Datastore.with_faults [Some Sample.e2] Datastore.empty))
         = [Ev (PoolBegin (database.Pool_ Sample.pool)) (inr err)].
Proof.
  assert (Hr : outcome (run Datastore.pg (database.WithTx Sample.pool Sample.fn)
                            (Datastore.with_faults [Some Sample.e2] Datastore.empty))
               = Returned (Some (wrapError "begin tx: conn closed" Sample.e2)))
    by (vm_compute; reflexivity).
  split; [exact Hr|].
  destruct (WithTx_error_names_the_failed_call Datastore.Store Datastore.pg Sample.pool
              Sample.fn _ _ Hr)
    as [(err & s1 & Hb & Htr & _) | [(tx & s1 & e & rb & Hb & _) | (tx & s1 & err & Hb & _)]].
  - exists err, s1. split; assumption.
  - exfalso. vm_compute in Hb. discriminate Hb.
  - exfalso. vm_compute in Hb. discriminate Hb.
Defined.

(** A commit that fails: the error of [WithTx] unwraps to the error of the
    commit, and the transaction is neither committed again nor rolled
    back by [WithTx]. *)
Example WithTx_failed_commit_run :
  let st := Datastore.with_faults [None; Some Sample.e2] Datastore.empty in
  let r := run Datastore.pg (database.WithTx Sample.pool (fun _ => Ret None)) st in
  outcome r = Returned (Some (wrapError "commit failed: conn closed" Sample.e2))
  /\ trace r = [Ev (PoolBegin 7) (inl 1); Ev (TxCommit 1) (Some Sample.e2)].
Proof. vm_compute. split; reflexivity. Qed.

(* ===================================================================== *)
(** ** Seeder: the batches of [seedSites] *)
(* ===================================================================== *)

Section SeedLoop.

Import seed.
Context {S : Type} (h : Handler S).
Variables (pool : database.Pool) (sql what : string) (draw : nat -> Cmd (list any)).
Hypothesis draw_is_a_row :
  forall i args tr, rows_drawn (Ev (draw i) args :: tr) = args :: rows_drawn tr.
Hypothesis draw_sends_nothing :
  forall i args tr, batches_sent (Ev (draw i) args :: tr) = batches_sent tr.

Local Arguments for_range_ret : simpl never.
Local Arguments Nat.leb : simpl never.

Lemma ends_in_failed_close_cons (e : Event) (tr : list Event) (cause : error) :
  ends_in_failed_close tr cause -> ends_in_failed_close (e :: tr) cause.
Proof. intros (pre & br & ->). exists (e :: pre), br. reflexivity. Qed.

(** The loop of a seeder, started with a batch that is not full: the
    batches it sends hold 100 statements each; what it had and what it
    drew is what it sent followed by what it still holds. *)
Lemma run_seed_rows (n : nat) :
  forall (from : nat) (batch : list QueuedQuery) (s : S),
    List.length batch < 100 ->
    exists out s' tr,
      run h (for_range_ret n from (seed_row pool sql what draw) batch) s = mkRun out s' tr
      /\ Forall (fun b => List.length b = 100) (batches_sent tr)
      /\ match out with
         | Returned (inl batch') =>
             List.length batch' < 100
             /\ batch ++ map (mkQueued sql) (rows_drawn tr) = concat (batches_sent tr) ++ batch'
             /\ List.length (rows_drawn tr) = n
         | Returned (inr (Some e)) =>
             batch ++ map (mkQueued sql) (rows_drawn tr) = concat (batches_sent tr)
             /\ exists cause,
                 ends_in_failed_close tr cause
                 /\ e = Errorf_w ("batch insert " ++ what ++ ": ") cause
         | _ => False
         end.
Proof.
  induction n as [|n IH]; intros from batch s Hlen.
  - exists (Returned (inl batch)), s, []. split; [reflexivity|]. split; [constructor|].
    simpl. rewrite app_nil_r. auto.
  - unfold for_range_ret; fold (@for_range_ret (list QueuedQuery) (option error)).
    rewrite run_bind. unfold seed_row at 1. cbn [run bind call].
    destruct (h _ (draw from) s) as [args s1]. cbn [outcome final trace].
    destruct (Nat.leb_spec 100 (List.length (batch ++ [mkQueued sql args]))) as [Hfull | Hroom].
    + assert (Hhundred : List.length (batch ++ [mkQueued sql args]) = 100).
      { rewrite length_app in *. simpl in *. lia. }
      unfold flush. cbn [run bind call].
      destruct (h _ (PoolSendBatch _ (batch ++ [mkQueued sql args])) s1) as [br s2].
      cbn [outcome final trace].
      destruct (h _ (BrClose br) s2) as [[err|] s3]; cbn [outcome final trace run app].
      * eexists _, _, _. split; [reflexivity|].
        rewrite draw_sends_nothing, draw_is_a_row. cbn [batches_sent rows_drawn concat map].
        split; [repeat constructor; exact Hhundred|].
        split; [rewrite app_nil_r; reflexivity|].
        exists err. split; [|reflexivity].
        exists [Ev (draw from) args;
                Ev (PoolSendBatch (database.Pool_ pool) (batch ++ [mkQueued sql args])) br], br.
        reflexivity.
      * destruct (IH (Datatypes.S from) [] s3) as (out & s' & tr & Hrun & Hsent & Hout);
          [simpl; lia|].
        rewrite Hrun. cbn [outcome final trace app].
        eexists _, _, _. split; [reflexivity|].
        rewrite draw_sends_nothing, draw_is_a_row. cbn [batches_sent rows_drawn concat map].
        split; [constructor; [exact Hhundred | exact Hsent]|].
        destruct out as [[batch' | [e|]] | | |]; try contradiction.
        -- destruct Hout as (Hb & Heq & Hn). split; [exact Hb|]. split.
           ++ simpl in Heq. rewrite <- app_assoc, <- Heq.
              rewrite <- app_assoc. reflexivity.
           ++ simpl. congruence.
        -- destruct Hout as (Heq & cause & Hend & He). split.
           ++ simpl in Heq. rewrite <- Heq, <- app_assoc. reflexivity.
           ++ exists cause. split; [|exact He].
              repeat apply ends_in_failed_close_cons. exact Hend.
    + cbn [run outcome final trace].
      destruct (IH (Datatypes.S from) (batch ++ [mkQueued sql args]) s1)
        as (out & s' & tr & Hrun & Hsent & Hout); [exact Hroom|].
      rewrite Hrun. cbn [outcome final trace app].
      eexists _, _, _. split; [reflexivity|].
      rewrite draw_sends_nothing, draw_is_a_row. split; [exact Hsent|].
      destruct out as [[batch' | [e|]] | | |]; try contradiction.
      * destruct Hout as (Hb & Heq & Hn). split; [exact Hb|]. split.
        -- rewrite <- Heq, <- app_assoc. reflexivity.
        -- simpl. congruence.
      * destruct Hout as (Heq & cause & Hend & He). split.
        -- rewrite <- Heq, <- app_assoc. reflexivity.
        -- exists cause. split; [|exact He]. apply ends_in_failed_close_cons. exact Hend.
Qed.

End SeedLoop.

Section SeedLoopWhole.

Import seed.
Context {S : Type} (h : Handler S).

Lemma batches_sent_app (a b : list Event) :
  batches_sent (a ++ b) = batches_sent a ++ batches_sent b.
Proof.
  induction a as [|[R c r] a IH]; [reflexivity|].
  simpl. destruct c; simpl; rewrite IH; reflexivity.
Qed.

Lemma rows_drawn_app (a b : list Event) :
  rows_drawn (a ++ b) = rows_drawn a ++ rows_drawn b.
Proof.
  induction a as [|[R c r] a IH]; [reflexivity|].
  simpl. destruct c; simpl; rewrite IH; reflexivity.
Qed.

Lemma ends_in_failed_close_app (a tr : list Event) (cause : error) :
  ends_in_failed_close tr cause -> ends_in_failed_close (a ++ tr) cause.
Proof. intros (pre & br & ->). exists (a ++ pre), br. rewrite app_assoc. reflexivity. Qed.

Variables (pool : database.Pool) (sql what : string) (draw : nat -> Cmd (list any)).
Hypothesis draw_is_a_row :
  forall i args tr, rows_drawn (Ev (draw i) args :: tr) = args :: rows_drawn tr.
Hypothesis draw_sends_nothing :
  forall i args tr, batches_sent (Ev (draw i) args :: tr) = batches_sent tr.

Local Arguments for_range_ret : simpl never.

(** The loop and the final batch of a seeder, from an empty batch. *)
Lemma run_seed_batches (n : nat) (after : Prog (option error)) (s : S) :
  let finish (r : list QueuedQuery + option error) :=
    match r with
    | inr e => Ret e
    | inl batch =>
        e <- match batch with
             | [] => Ret None
             | _ => flush pool batch
             end ;;
        match e with
        | Some err => Ret (Some (Errorf_w ("final batch insert " ++ what ++ ": ") err))
        | None => after
        end
    end in
  exists out s' tr,
    run h (r <- for_range_ret n 0 (seed_row pool sql what draw) [] ;; finish r) s
    = mkRun out s' tr
    /\ exists tr1 s1,
        (exists full last,
            batches_sent tr1 = full ++ last
            /\ Forall (fun b => List.length b = 100) full
            /\ match last with
               | [] => True
               | [b] => 1 <= List.length b < 100
               | _ => False
               end)
        /\ concat (batches_sent tr1) = map (mkQueued sql) (rows_drawn tr1)
        /\ ((List.length (rows_drawn tr1) = n
             /\ out = outcome (run h after s1)
             /\ s' = final (run h after s1)
             /\ tr = tr1 ++ trace (run h after s1))
            \/ (exists e cause,
                   out = Returned (Some e)
                   /\ tr = tr1
                   /\ ends_in_failed_close tr1 cause
                   /\ (e = Errorf_w ("batch insert " ++ what ++ ": ") cause
                       \/ e = Errorf_w ("final batch insert " ++ what ++ ": ") cause))).
Proof.
  intros finish. rewrite run_bind. cbv zeta.
  destruct (run_seed_rows h pool sql what draw draw_is_a_row draw_sends_nothing n 0 [] s)
    as (out1 & s1 & tr1 & Hrun & Hsent & Hout); [simpl; lia|].
  rewrite Hrun. cbn [outcome final trace].
  destruct out1 as [[batch' | [e|]] | | |]; try contradiction.
  - destruct Hout as (Hb & Heq & Hn). simpl in Heq. unfold finish.
    destruct batch' as [|q batch'].
    + cbn [run bind outcome final trace]. rewrite app_nil_r in Heq.
      eexists _, _, _. split; [reflexivity|].
      exists tr1, s1. split; [|split].
      * exists (batches_sent tr1), []. rewrite app_nil_r. auto.
      * symmetry. exact Heq.
      * left. auto.
    + unfold flush. cbn [run bind call].
      destruct (h _ (PoolSendBatch (database.Pool_ pool) (q :: batch')) s1) as [br s2].
      cbn [outcome final trace].
      destruct (h _ (BrClose br) s2) as [[err|] s3]; cbn [outcome final trace run].
      * eexists _, _, _. split; [reflexivity|].
        exists (tr1 ++ [Ev (PoolSendBatch (database.Pool_ pool) (q :: batch')) br;
                        Ev (BrClose br) (Some err)]), s3.
        split; [|split].
        -- exists (batches_sent tr1), [q :: batch'].
           rewrite batches_sent_app. cbn [batches_sent]. split; [reflexivity|].
           split; [exact Hsent|]. simpl in *. lia.
        -- rewrite batches_sent_app, rows_drawn_app. cbn [batches_sent rows_drawn].
           rewrite concat_app. cbn [concat]. rewrite !app_nil_r. symmetry. exact Heq.
        -- right. exists (Errorf_w ("final batch insert " ++ what ++ ": ") err), err.
           split; [reflexivity|]. split; [reflexivity|]. split; [|right; reflexivity].
           exists (tr1 ++ [Ev (PoolSendBatch (database.Pool_ pool) (q :: batch')) br]), br.
           rewrite <- app_assoc. reflexivity.
      * eexists _, _, _. split; [reflexivity|].
        exists (tr1 ++ [Ev (PoolSendBatch (database.Pool_ pool) (q :: batch')) br;
                        Ev (BrClose br) None]), s3.
        split; [|split].
        -- exists (batches_sent tr1), [q :: batch'].
           rewrite batches_sent_app. cbn [batches_sent]. split; [reflexivity|].
           split; [exact Hsent|]. simpl in *. lia.
        -- rewrite batches_sent_app, rows_drawn_app. cbn [batches_sent rows_drawn].
           rewrite concat_app. cbn [concat]. rewrite !app_nil_r. symmetry. exact Heq.
        -- left. rewrite rows_drawn_app. cbn [rows_drawn]. rewrite app_nil_r.
           split; [exact Hn|]. rewrite <- app_assoc. cbn [app].
           destruct (run h after s3) as [o f t]. cbn. auto.
  - destruct Hout as (Heq & cause & Hend & He). simpl in Heq.
    unfold finish. cbn [run outcome final trace]. rewrite app_nil_r.
    eexists _, _, _. split; [reflexivity|].
    exists tr1, s1. split; [|split].
    + exists (batches_sent tr1), []. rewrite app_nil_r. auto.
    + symmetry. exact Heq.
    + right. exists e, cause. auto.
Qed.

End SeedLoopWhole.

Section SeedSites.

Import seed.
Context {S : Type} (h : Handler S).

Lemma length_concat_full {A : Type} (full : list (list A)) (k : nat) :
  Forall (fun b => List.length b = k) full ->
  List.length (concat full) = k * List.length full.
Proof.
  induction 1 as [|b full Hb _ IH]; simpl; [lia|].
  rewrite length_app, IH, Hb. lia.
Qed.

(** What a run of [seedSites] looks like, whatever the driver answers. *)
Lemma run_seedSites (pool : database.Pool) (count : Z) (s : S) :
  let r := run h (seedSites pool count) s in
  (exists full last,
      batches_sent (trace r) = full ++ last
      /\ Forall (fun b => List.length b = 100) full
      /\ match last with
         | [] => True
         | [b] => 1 <= List.length b < 100
         | _ => False
         end)
  /\ concat (batches_sent (trace r)) = map (mkQueued sql_insert_site) (rows_drawn (trace r))
  /\ ((outcome r = Returned None
       /\ List.length (rows_drawn (trace r)) = Z.to_nat count
       /\ exists pre, trace r = pre ++ [Ev (LogPrintf "✓ Seeded %d sites" [AInt count]) tt])
      \/ (exists e cause,
             outcome r = Returned (Some e)
             /\ ends_in_failed_close (trace r) cause
             /\ (e = Errorf_w "batch insert sites: " cause
                 \/ e = Errorf_w "final batch insert sites: " cause))).
Proof.
  intros r. subst r. unfold seedSites, seed_loop.
  rewrite run_bind. cbv zeta. cbn [run call].
  destruct (h _ (LogPrintf _ [AInt count]) s) as [[] s0]. cbn [outcome final trace].
  destruct (run_seed_batches h pool sql_insert_site "sites" RandomSiteArgs
              (fun _ _ _ => eq_refl) (fun _ _ _ => eq_refl) (Z.to_nat count)
              (call (LogPrintf "✓ Seeded %d sites" [AInt count]) ;; Ret None) s0)
    as (out & s' & tr & Hrun & tr1 & s1 & Hshape & Hcat & Hout).
  cbv zeta in Hrun. cbn [append] in Hrun |- *. rewrite Hrun. cbn [outcome final trace app].
  cbn [batches_sent rows_drawn].
  destruct Hout as [(Hn & Ho & Hs & Ht) | (e & cause & Ho & Ht & Hend & He)].
  - cbn [run bind call] in Ho, Hs, Ht.
    destruct (h _ (LogPrintf "✓ Seeded %d sites" [AInt count]) s1) as [[] s2].
    cbn [outcome final trace] in Ho, Hs, Ht. subst out tr.
    rewrite batches_sent_app, rows_drawn_app. cbn [batches_sent rows_drawn].
    rewrite !app_nil_r. split; [exact Hshape|]. split; [exact Hcat|].
    left. split; [reflexivity|]. split; [exact Hn|].
    exists (Ev (LogPrintf "Seeding %d sites..." [AInt count]) tt :: tr1). reflexivity.
  - subst out tr. split; [exact Hshape|]. split; [exact Hcat|].
    right. exists e, cause. split; [reflexivity|].
    split; [apply ends_in_failed_close_cons; exact Hend | exact He].
Qed.

End SeedSites.

(** X4.  [seedSites], against any driver: it always returns; the rows it
    sends are the rows it drew, in the order of drawing, each in one batch
    and once; every batch holds 100 statements, except a last one that
    holds between 1 and 99.  When it returns nil it has drawn and sent
    [count] rows, in [count / 100] batches rounded up. *)
Theorem seedSites_sends_every_row_once :
  forall (S : Type) (h : Handler S) (pool : database.Pool) (count : Z) (s : S),
    let r := run h (seed.seedSites pool count) s in
    let sent := batches_sent (trace r) in
    (exists e, outcome r = Returned e)
    /\ concat sent = map (mkQueued seed.sql_insert_site) (rows_drawn (trace r))
    /\ (exists full last,
           sent = full ++ last
           /\ Forall (fun b => List.length b = 100) full
           /\ match last with
              | [] => True
              | [b] => 1 <= List.length b < 100
              | _ => False
              end)
    /\ (outcome r = Returned None ->
        List.length (rows_drawn (trace r)) = Z.to_nat count
        /\ List.length sent = (Z.to_nat count + 99) / 100).
Proof.
  intros S h pool count s r sent. subst r sent.
  destruct (run_seedSites h pool count s) as (Hshape & Hcat & Hout).
  split; [|split; [exact Hcat | split; [exact Hshape|]]].
  - destruct Hout as [(Ho & _) | (e & cause & Ho & _)]; eauto.
  - intros Hnil.
    destruct Hout as [(_ & Hn & _) | (e & cause & Ho & _)]; [|congruence].
    split; [exact Hn|].
    destruct Hshape as (full & last & Hsent & Hfull & Hlast).
    assert (Hlen : List.length (concat (batches_sent (trace (run h (seed.seedSites pool count) s))))
                   = Z.to_nat count).
    { rewrite Hcat, length_map. exact Hn. }
    rewrite Hsent in Hlen |- *. rewrite concat_app, !length_app in *.
    rewrite (length_concat_full full 100 Hfull) in Hlen.
    destruct last as [|b [|b' last]]; try contradiction;
      cbn [concat List.length app] in Hlen |- *.
    + apply (Nat.div_unique _ 100 _ 99); lia.
    + rewrite app_nil_r in Hlen.
      apply (Nat.div_unique _ 100 _ (List.length b - 1)); lia.
Qed.

(** X5.  [seedSites] stops at the first batch that fails: when it returns
    an error, its last call is the [br.Close()] that failed, nothing is
    drawn or sent after it, and the error unwraps to the error of that
    call, under "batch insert sites: " or "final batch insert sites: ". *)
Theorem seedSites_stops_at_the_failed_batch :
  forall (S : Type) (h : Handler S) (pool : database.Pool) (count : Z) (s : S) (e : error),
    outcome (run h (seed.seedSites pool count) s) = Returned (Some e) ->
    exists cause,
      ends_in_failed_close (trace (run h (seed.seedSites pool count) s)) cause
      /\ Unwrap e = Some cause
      /\ errors_Is e cause = true
      /\ (Error e = ("batch insert sites: " ++ Error cause)%string
          \/ Error e = ("final batch insert sites: " ++ Error cause)%string).
Proof.
  intros S h pool count s e He.
  destruct (run_seedSites h pool count s) as (_ & _ & [(Ho & _) | (e' & cause & Ho & Hend & Hw)]).
  - congruence.
  - assert (e' = e) by congruence. subst e'. exists cause. split; [exact Hend|].
    destruct Hw as [-> | ->]; (split; [reflexivity|]); (split; [apply errors_Is_wrap|]);
      [left | right]; reflexivity.
Qed.

Lemma seedSites_stops_at_the_failed_batch_witness :
  outcome (run Datastore.pg (seed.seedSites Sample.pool 3)
               (Datastore.with_faults [Some Sample.e2] Datastore.empty))
  = Returned (Some (wrapError "final batch insert sites: conn closed" Sample.e2))
  /\ exists cause,
      ends_in_failed_close
        (trace (run Datastore.pg (seed.seedSites Sample.pool 3)
                    (Datastore.with_faults [Some Sample.e2] Datastore.empty))) cause
      /\ Unwrap (wrapError "final batch insert sites: conn closed" Sample.e2) = Some cause.
Proof.
  assert (He : outcome (run Datastore.pg (seed.seedSites Sample.pool 3)
                            (Datastore.with_faults [Some Sample.e2] Datastore.empty))
               = Returned (Some (wrapError "final batch insert sites: conn closed" Sample.e2)))
    by (vm_compute; reflexivity).
  split; [exact He|].
  destruct (seedSites_stops_at_the_failed_batch Datastore.Store Datastore.pg Sample.pool 3
              _ _ He) as (cause & Hend & Hu & _).
  exists cause. split; assumption.
Defined.

(** 250 rows go out in three batches, of 100, 100 and 50. *)
Example seedSites_batches_of_250 :
  map (@List.length QueuedQuery)
      (batches_sent (trace (run Datastore.pg (seed.seedSites Sample.pool 250) Datastore.empty)))
  = [100; 100; 50].
Proof. vm_compute. reflexivity. Qed.

(* ===================================================================== *)
(** ** Seeder: [seedAssets] *)
(* ===================================================================== *)

Section SeedAssets.

Import seed.
Context {S : Type} (h : Handler S).

Local Arguments while_ret : simpl never.
Local Arguments for_range_ret : simpl never.

Lemma ids_scanned_app (a b : list Event) :
  ids_scanned (a ++ b) = ids_scanned a ++ ids_scanned b.
Proof.
  induction a as [|[R c r] a IH]; [reflexivity|].
  simpl. destruct c; simpl; try (rewrite IH; reflexivity).
  destruct r; simpl; rewrite IH; reflexivity.
Qed.

Lemma ids_offered_app (a b : list Event) :
  ids_offered (a ++ b) = ids_offered a ++ ids_offered b.
Proof.
  induction a as [|[R c r] a IH]; [reflexivity|].
  simpl. destruct c; simpl; rewrite IH; reflexivity.
Qed.

Lemma rows_closed_app (a b : list Event) :
  rows_closed (a ++ b) = rows_closed a ++ rows_closed b.
Proof.
  induction a as [|[R c r] a IH]; [reflexivity|].
  simpl. destruct c; simpl; rewrite IH; reflexivity.
Qed.

(** The loop that reads the site ids: it sends nothing, draws nothing and
    closes nothing; when it ends without an error it has collected the ids
    it scanned, in order. *)
Lemma run_read_ids (rows : RowsH) (fuel : nat) :
  forall (acc : list string) (s : S),
  exists out s' tr,
    run h (while_ret fuel (call (RowsNext rows))
             (fun siteIDs =>
                r <- call (RowsScanString rows) ;;
                match r with
                | inr err => Ret (inr err)
                | inl id => Ret (inl (app siteIDs [id]))
                end) acc) s
    = mkRun out s' tr
    /\ batches_sent tr = [] /\ rows_drawn tr = []
    /\ ids_offered tr = [] /\ rows_closed tr = []
    /\ match out with
       | Returned (inl ids) => ids = acc ++ ids_scanned tr
       | Returned (inr err) =>
           exists pre, tr = pre ++ [Ev (RowsScanString rows) (inr err)]
       | Diverged => True
       | _ => False
       end.
Proof.
  match goal with |- context [while_ret _ _ ?b _] => set (scan := b) end.
  assert (Hscan : forall acc s,
             run h (scan acc) s
             = let '(r, s2) := h _ (RowsScanString rows) s in
               mkRun (Returned match r with
                               | inl id => inl (acc ++ [id])
                               | inr err => inr err
                               end) s2 [Ev (RowsScanString rows) r]).
  { intros acc s. unfold scan. cbn [run bind call].
    destruct (h _ (RowsScanString rows) s) as [[id | err] s2]; reflexivity. }
  clearbody scan.
  induction fuel as [|fuel IH]; intros acc s.
  - exists Diverged, s, []. repeat split.
  - unfold while_ret; fold (@while_ret (list string) error).
    cbn [run bind call].
    destruct (h _ (RowsNext rows) s) as [[|] s1]; cbn [outcome final trace].
    + rewrite run_bind, Hscan.
      destruct (h _ (RowsScanString rows) s1) as [[id | err] s2];
        cbn [outcome final trace run].
      * destruct (IH (acc ++ [id]) s2) as (out & s' & tr & Hrun & Hb & Hd & Ho & Hc & Hout).
        rewrite Hrun. cbn [outcome final trace app].
        eexists _, _, _. split; [reflexivity|].
        cbn [batches_sent rows_drawn ids_offered rows_closed ids_scanned].
        repeat (split; [assumption|]).
        destruct out as [[ids | err] | | |]; try contradiction; auto.
        -- rewrite Hout, <- app_assoc. reflexivity.
        -- destruct Hout as (pre & ->).
           exists (Ev (RowsNext rows) true :: Ev (RowsScanString rows) (inl id) :: pre).
           reflexivity.
      * eexists _, _, _. split; [reflexivity|]. repeat (split; [reflexivity|]).
        exists [Ev (RowsNext rows) true]. reflexivity.
    + cbn [run]. eexists _, _, _. split; [reflexivity|]. repeat (split; [reflexivity|]).
      cbn. rewrite app_nil_r. reflexivity.
Qed.

End SeedAssets.

Section CallsOnly.

Context {S : Type} (h : Handler S).
Variable Q : forall R : Type, Cmd R -> Prop.

Lemma calls_only_run {A : Type} (p : Prog A) :
  calls_only Q p -> forall s, Forall (allowed Q) (trace (run h p s)).
Proof.
  induction p as [a | v | c | | R c k IH]; intros Hp s; simpl; try constructor.
  destruct Hp as [Hc Hk]. destruct (h R c s) as [r s']. simpl.
  constructor; [exact Hc | apply IH, Hk].
Qed.

Lemma calls_only_bind {A B : Type} (p : Prog A) (f : A -> Prog B) :
  calls_only Q p -> (forall a, calls_only Q (f a)) -> calls_only Q (bind p f).
Proof.
  intros Hp Hf. induction p as [a | v | c | | R c k IH]; simpl; auto.
  destruct Hp as [Hc Hk]. split; [exact Hc|]. intros r. apply IH, Hk.
Qed.

Lemma calls_only_call {R : Type} (c : Cmd R) : Q _ c -> calls_only Q (call c).
Proof. intros Hc. split; [exact Hc|]. intros r. exact I. Qed.

Lemma calls_only_defer_recover {A : Type} (p : Prog A) (g : any -> Prog A) :
  calls_only Q p -> (forall v, calls_only Q (g v)) -> calls_only Q (defer_recover p g).
Proof.
  intros Hp Hg. induction p as [a | v | c | | R c k IH]; simpl; auto.
  destruct Hp as [Hc Hk]. split; [exact Hc|]. intros r. apply IH, Hk.
Qed.

Lemma calls_only_defer {A : Type} (d : Prog unit) (p : Prog A) :
  calls_only Q d -> calls_only Q p -> calls_only Q (defer d p).
Proof.
  intros Hd Hp. unfold defer. apply calls_only_bind.
  - apply calls_only_defer_recover; [exact Hp|]. intros v.
    apply calls_only_bind; [exact Hd|]. intros _. exact I.
  - intros a. apply calls_only_bind; [exact Hd|]. intros _. exact I.
Qed.


Lemma calls_only_for_range_ret {A B : Type} (body : nat -> A -> Prog (A + B)) (n : nat) :
  (forall i a, calls_only Q (body i a)) ->
  forall from a, calls_only Q (for_range_ret n from body a).
Proof.
  intros Hb. induction n as [|n IH]; intros from a; simpl; [exact I|].
  apply calls_only_bind; [apply Hb|]. intros [a' | b]; [apply IH | exact I].
Qed.

Lemma calls_only_for_each {X A : Type} (body : X -> A -> Prog A) (l : list X) :
  (forall x a, calls_only Q (body x a)) ->
  forall a, calls_only Q (for_each l body a).
Proof.
  intros Hb. induction l as [|x l IH]; intros a; simpl; [exact I|].
  apply calls_only_bind; [apply Hb|]. intros a'. apply IH.
Qed.

Lemma calls_only_while_ret {A B : Type} (cond : Prog bool) (body : A -> Prog (A + B))
      (fuel : nat) :
  calls_only Q cond -> (forall a, calls_only Q (body a)) ->
  forall a, calls_only Q (while_ret fuel cond body a).
Proof.
  intros Hc Hb. induction fuel as [|fuel IH]; intros a; simpl; [exact I|].
  apply calls_only_bind; [exact Hc|]. intros [|]; [|exact I].
  apply calls_only_bind; [apply Hb|]. intros [a' | b]; [apply IH | exact I].
Qed.

End CallsOnly.
Section SeedAssetsRun.

Import seed.
Context {S : Type} (h : Handler S).
Variables (fuel : nat) (pool : database.Pool) (count : Z).

Local Arguments while_ret : simpl never.
Local Arguments for_range_ret : simpl never.
Local Arguments defer : simpl never.
Local Arguments Nat.leb : simpl never.

(** What the events of a seeding of assets with the ids [ids] read as. *)
Lemma asset_seeding_events (ids : list string) (tr : list Event) :
  Forall (allowed (asset_seeding_call ids)) tr ->
  Forall (fun offer => offer = ids) (ids_offered tr)
  /\ rows_closed tr = [] /\ ids_scanned tr = [].
Proof.
  induction 1 as [|[R c r] tr Hc _ (IHo & IHc & IHs)]; [repeat split; constructor|].
  destruct c; simpl in Hc |- *; try contradiction; auto.
Qed.

Lemma places_drawn_app (a b : list Event) :
  places_drawn (a ++ b) = places_drawn a ++ places_drawn b.
Proof.
  induction a as [|[R c r] a IH]; [reflexivity|].
  simpl. destruct c; simpl; rewrite IH; reflexivity.
Qed.

(** The drawing of one asset: it sends nothing; when it returns it has
    drawn one place, the place of the row it returns; it panics only with
    a run-time error of Go, and has then drawn one place at most. *)
Lemma run_asset_args (ids : list string) (s : S) :
  exists out s' tr,
    run h (asset_args ids) s = mkRun out s' tr
    /\ batches_sent tr = []
    /\ match out with
       | Returned args =>
           exists place,
             places_drawn tr = [place]
             /\ place_of (mkQueued sql_insert_asset args) = Some place
       | Panicked v =>
           is_runtime_error v /\ List.length (places_drawn tr) <= 1
       | _ => False
       end.
Proof.
  unfold asset_args, index_of, slice_to. cbn [run bind call].
  destruct (h _ (RandIntn _) s) as [t s1]. cbn [outcome final trace].
  destruct (if (0 <=? t)%Z then nth_error assetTypes (Z.to_nat t) else None)
    as [assetType|]; cbn [run bind call outcome final trace].
  2:{ eexists _, _, _. split; [reflexivity|]. split; [reflexivity|].
      split; [eexists; reflexivity | simpl; lia]. }
  destruct (h _ (RandIntn _) s1) as [m s2]. cbn [outcome final trace].
  destruct (if (0 <=? m)%Z then nth_error manufacturers (Z.to_nat m) else None)
    as [manufacturer|]; cbn [run bind call outcome final trace].
  2:{ eexists _, _, _. split; [reflexivity|]. split; [reflexivity|].
      split; [eexists; reflexivity | simpl; lia]. }
  destruct (h _ (RandomAssetPlace ids) s2) as [place s3]. cbn [outcome final trace].
  destruct (3 <=? String.length manufacturer)%nat; cbn [run bind call outcome final trace].
  2:{ eexists _, _, _. split; [reflexivity|]. split; [reflexivity|].
      split; [eexists; reflexivity | simpl; lia]. }
  destruct (h _ RandomAssetRest s3) as [rest s4]. cbn [outcome final trace].
  eexists _, _, _. split; [reflexivity|]. split; [reflexivity|].
  exists place. split; [reflexivity|]. destruct place; reflexivity.
Qed.

Lemma asset_args_calls (ids : list string) :
  calls_only (asset_seeding_call ids) (asset_args ids).
Proof.
  unfold asset_args.
  apply calls_only_bind; [apply calls_only_call; exact I|]. intros t.
  apply calls_only_bind; [unfold index_of; destruct (if (0 <=? _)%Z then _ else _); exact I|].
  intros assetType.
  apply calls_only_bind; [apply calls_only_call; exact I|]. intros m.
  apply calls_only_bind; [unfold index_of; destruct (if (0 <=? _)%Z then _ else _); exact I|].
  intros manufacturer.
  apply calls_only_bind; [apply calls_only_call; reflexivity|]. intros place.
  apply calls_only_bind; [unfold slice_to; destruct (_ <=? _)%nat; exact I|].
  intros prefix.
  apply calls_only_bind; [apply calls_only_call; exact I|]. intros rest. exact I.
Qed.

(** The loop of [seedAssets], started with a batch that is not full: the
    batches it sends hold 100 statements each; the places of what it held
    and of what it drew are the places of what it sent, followed by those
    of what it still holds, or, when it panics, of what it held then. *)
Lemma run_asset_rows (ids : list string) (n : nat) :
  forall (from : nat) (batch : list QueuedQuery) (s : S),
    List.length batch < 100 ->
    Forall asset_statement batch ->
    exists out s' tr,
      run h (for_range_ret n from (asset_row pool ids) batch) s = mkRun out s' tr
      /\ Forall (fun b => List.length b = 100) (batches_sent tr)
      /\ Forall asset_statement (concat (batches_sent tr))
      /\ exists unsent,
          map place_of batch ++ map Some (places_drawn tr)
          = map place_of (concat (batches_sent tr)) ++ unsent
          /\ match out with
             | Returned (inl batch') =>
                 List.length batch' < 100
                 /\ Forall asset_statement batch'
                 /\ unsent = map place_of batch'
                 /\ List.length (places_drawn tr) = n
             | Returned (inr (Some e)) =>
                 unsent = []
                 /\ exists cause,
                     ends_in_failed_close tr cause
                     /\ e = Errorf_w "batch insert assets: " cause
             | Panicked v => is_runtime_error v
             | _ => False
             end.
Proof.
  induction n as [|n IH]; intros from batch s Hlen Hbatch.
  - exists (Returned (inl batch)), s, []. split; [reflexivity|].
    split; [constructor|]. split; [constructor|].
    exists (map place_of batch). simpl. rewrite app_nil_r. auto.
  - unfold for_range_ret; fold (@for_range_ret (list QueuedQuery) (option error)).
    rewrite run_bind. unfold asset_row at 1. rewrite run_bind. cbv zeta.
    destruct (run_asset_args ids s) as (out0 & s1 & tr0 & Hrun0 & Hsent0 & Hout0).
    rewrite Hrun0. cbn [outcome final trace].
    destruct out0 as [args | v | |]; try contradiction.
    2:{ destruct Hout0 as (Htext & _). cbn [outcome final trace].
        eexists _, _, _. split; [reflexivity|]. rewrite Hsent0.
        split; [constructor|]. split; [constructor|].
        exists (map place_of batch ++ map Some (places_drawn tr0)).
        split; [reflexivity | exact Htext]. }
    destruct Hout0 as (place & Hplace & Hof).
    assert (Hbatch' : Forall asset_statement (batch ++ [mkQueued sql_insert_asset args])).
    { apply Forall_app. split; [exact Hbatch|]. repeat constructor. }
    destruct (Nat.leb_spec 100 (List.length (batch ++ [mkQueued sql_insert_asset args])))
      as [Hfull | Hroom].
    + assert (Hhundred : List.length (batch ++ [mkQueued sql_insert_asset args]) = 100).
      { rewrite length_app in *. simpl in *. lia. }
      unfold flush. cbn [run bind call].
      destruct (h _ (PoolSendBatch _ (batch ++ [mkQueued sql_insert_asset args])) s1)
        as [br s2].
      cbn [outcome final trace].
      destruct (h _ (BrClose br) s2) as [[err|] s3]; cbn [outcome final trace run app].
      * eexists _, _, _. split; [reflexivity|].
        rewrite !batches_sent_app, Hsent0. cbn [batches_sent concat app].
        rewrite !app_nil_r.
        split; [repeat constructor; exact Hhundred|]. split; [exact Hbatch'|].
        exists []. rewrite !places_drawn_app, Hplace. cbn [places_drawn app map].
        rewrite app_nil_r, map_app. cbn [map]. rewrite Hof.
        split; [reflexivity|]. split; [reflexivity|].
        exists err. split; [|reflexivity].
        exists (tr0 ++ [Ev (PoolSendBatch (database.Pool_ pool)
                              (batch ++ [mkQueued sql_insert_asset args])) br]), br.
        rewrite <- app_assoc. reflexivity.
      * destruct (IH (Datatypes.S from) [] s3)
          as (out & s' & tr & Hrun & Hsent & Hstmts & unsent & Heq & Hout);
          [simpl; lia | constructor |].
        rewrite Hrun. cbn [outcome final trace app].
        eexists _, _, _. split; [reflexivity|].
        rewrite !batches_sent_app, Hsent0. cbn [batches_sent concat app].
        split; [constructor; [exact Hhundred | exact Hsent]|].
        split; [apply Forall_app; split; assumption|].
        exists unsent. split.
        -- rewrite !places_drawn_app, Hplace. cbn [places_drawn app map].
           rewrite !map_app. cbn [map]. rewrite Hof.
           simpl in Heq. rewrite Heq, <- !app_assoc. reflexivity.
        -- destruct out as [[batch' | [e|]] | | |]; try contradiction.
           ++ destruct Hout as (Hb & Hs & Hu & Hn). repeat (split; [assumption|]).
              rewrite !places_drawn_app, Hplace. cbn [places_drawn app List.length].
              congruence.
           ++ destruct Hout as (Hu & cause & Hend & He). split; [exact Hu|].
              exists cause. split; [|exact He].
              apply ends_in_failed_close_app.
              repeat apply ends_in_failed_close_cons. exact Hend.
           ++ exact Hout.
    + cbn [run outcome final trace].
      destruct (IH (Datatypes.S from) (batch ++ [mkQueued sql_insert_asset args]) s1)
        as (out & s' & tr & Hrun & Hsent & Hstmts & unsent & Heq & Hout);
        [exact Hroom | exact Hbatch' |].
      rewrite Hrun. cbn [outcome final trace app]. rewrite app_nil_r.
      eexists _, _, _. split; [reflexivity|].
      rewrite !batches_sent_app, Hsent0. cbn [app].
      split; [exact Hsent|]. split; [exact Hstmts|].
      exists unsent. split.
      * rewrite !places_drawn_app, Hplace. cbn [places_drawn app map].
        rewrite <- Heq, map_app. cbn [map]. rewrite Hof, <- !app_assoc. reflexivity.
      * destruct out as [[batch' | [e|]] | | |]; try contradiction.
        -- destruct Hout as (Hb & Hs & Hu & Hn). repeat (split; [assumption|]).
           rewrite !places_drawn_app, Hplace. cbn [places_drawn app List.length].
           congruence.
        -- destruct Hout as (Hu & cause & Hend & He). split; [exact Hu|].
           exists cause. split; [|exact He].
           apply ends_in_failed_close_app. exact Hend.
        -- exact Hout.
Qed.

(** The seeding proper, once the site ids are known. *)
Let seeding (siteIDs : list string) : Prog (option error) :=
  r <- for_range_ret (Z.to_nat count) 0 (asset_row pool siteIDs) [] ;;
  match r with
  | inr e => Ret e
  | inl batch =>
      e <- match batch with
           | [] => Ret None
           | _ => flush pool batch
           end ;;
      match e with
      | Some err => Ret (Some (Errorf_w "final batch insert assets: " err))
      | None =>
          call (LogPrintf "✓ Seeded %d assets" [AInt count]) ;;
          Ret None
      end
  end.

(** What [seedAssets] does between the query and the closing of the rows. *)
Let reading (rows : RowsH) : Prog (option error) :=
  r <- while_ret fuel (call (RowsNext rows))
         (fun siteIDs =>
            r <- call (RowsScanString rows) ;;
            match r with
            | inr err => Ret (inr err)
            | inl id => Ret (inl (app siteIDs [id]))
            end) [] ;;
  match r with
  | inr err => Ret (Some err)
  | inl [] => Ret (Some (errorString "no sites found"))
  | inl siteIDs => seeding siteIDs
  end.

Lemma seeding_calls (ids : list string) : calls_only (asset_seeding_call ids) (seeding ids).
Proof.
  unfold seeding. apply calls_only_bind.
  - apply calls_only_for_range_ret. intros i batch. unfold asset_row.
    apply calls_only_bind; [apply asset_args_calls|]. intros args. cbv zeta.
    destruct (100 <=? _)%nat; [|exact I].
    apply calls_only_bind; [|intros [e|]; exact I].
    unfold flush. apply calls_only_bind; [apply calls_only_call; exact I|].
    intros br. apply calls_only_call. exact I.
  - intros [batch | e]; [|exact I].
    apply calls_only_bind.
    + destruct batch; [exact I|]. unfold flush.
      apply calls_only_bind; [apply calls_only_call; exact I|].
      intros br. apply calls_only_call. exact I.
    + intros [err|]; [exact I|].
      apply calls_only_bind; [apply calls_only_call; exact I | intros; exact I].
Qed.

Lemma run_seeding (ids : list string) (s : S) :
  exists out s' tr,
    run h (seeding ids) s = mkRun out s' tr
    /\ Forall (fun offer => offer = ids) (ids_offered tr)
    /\ rows_closed tr = [] /\ ids_scanned tr = []
    /\ Forall asset_statement (concat (batches_sent tr))
    /\ exists unsent,
        map Some (places_drawn tr) = map place_of (concat (batches_sent tr)) ++ unsent
        /\ seeding_result count out tr unsent.
Proof.
  pose proof (calls_only_run h _ _ (seeding_calls ids) s) as Hcalls.
  apply asset_seeding_events in Hcalls. destruct Hcalls as (Hoff & Hcl & Hsc).
  revert Hoff Hcl Hsc. unfold seeding. rewrite run_bind. cbv zeta.
  destruct (run_asset_rows ids (Z.to_nat count) 0 [] s)
    as (out1 & s1 & tr1 & Hrun & Hsent & Hstmts & unsent & Heq & Hout);
    [simpl; lia | constructor |].
  rewrite Hrun. cbn [outcome final trace]. simpl in Heq.
  destruct out1 as [[batch' | [e|]] | v | |]; try contradiction.
  - destruct Hout as (Hb & Hs & Hu & Hn). destruct batch' as [|q batch'].
    + cbn [run bind call outcome final trace].
      destruct (h _ (LogPrintf _ _) s1) as [[] s2]. cbn [outcome final trace].
      intros Hoff Hcl Hsc. eexists _, _, _. split; [reflexivity|].
      repeat (split; [assumption|]). unfold seeding_result.
      rewrite batches_sent_app, places_drawn_app. cbn [batches_sent places_drawn].
      rewrite !app_nil_r. split; [exact Hstmts|].
      exists []. split; [rewrite Heq, Hu; reflexivity|]. split; [reflexivity | exact Hn].
    + unfold flush. cbn [run bind call].
      destruct (h _ (PoolSendBatch (database.Pool_ pool) (q :: batch')) s1) as [br s2].
      cbn [outcome final trace].
      destruct (h _ (BrClose br) s2) as [[err|] s3]; cbn [outcome final trace run].
      * intros Hoff Hcl Hsc. eexists _, _, _. split; [reflexivity|].
        repeat (split; [assumption|]). unfold seeding_result.
        rewrite batches_sent_app, places_drawn_app. cbn [batches_sent places_drawn].
        rewrite concat_app. cbn [concat]. rewrite !app_nil_r.
        split; [apply Forall_app; split; assumption|].
        exists []. split; [rewrite Heq, Hu, map_app, app_nil_r; reflexivity|].
        split; [reflexivity|]. exists err. split; [|right; reflexivity].
        exists (tr1 ++ [Ev (PoolSendBatch (database.Pool_ pool) (q :: batch')) br]), br.
        rewrite <- !app_assoc. reflexivity.
      * destruct (h _ (LogPrintf _ _) s3) as [[] s4]. cbn [outcome final trace].
        intros Hoff Hcl Hsc. eexists _, _, _. split; [reflexivity|].
        repeat (split; [assumption|]). unfold seeding_result.
        rewrite batches_sent_app, places_drawn_app. cbn [batches_sent places_drawn].
        rewrite concat_app. cbn [concat]. rewrite !app_nil_r.
        split; [apply Forall_app; split; assumption|].
        exists []. split; [rewrite Heq, Hu, map_app, app_nil_r; reflexivity|].
        split; [reflexivity | exact Hn].
  - destruct Hout as (Hu & cause & Hend & He).
    cbn [run outcome final trace]. rewrite app_nil_r.
    intros Hoff Hcl Hsc. eexists _, _, _. split; [reflexivity|].
    repeat (split; [assumption|]). unfold seeding_result.
    exists unsent. split; [exact Heq|]. split; [exact Hu|]. exists cause. auto.
  - intros Hoff Hcl Hsc. eexists _, _, _. split; [reflexivity|].
    repeat (split; [assumption|]). unfold seeding_result.
    exists unsent. split; [exact Heq | exact Hout].
Qed.

(** What a run of [seedAssets] looks like after a query that succeeded, up
    to the closing of the rows: the reading of the ids, then the seeding. *)
Lemma run_reading (rows : RowsH) (s : S) :
  exists out s' reads rest unsent,
    run h (reading rows) s = mkRun out s' (reads ++ rest)
    /\ (batches_sent reads = [] /\ places_drawn reads = []
        /\ ids_offered reads = [] /\ rows_closed reads = [])
    /\ (Forall (fun offer => offer = ids_scanned reads) (ids_offered rest)
        /\ rows_closed rest = [] /\ ids_scanned rest = []
        /\ Forall asset_statement (concat (batches_sent rest))
        /\ map Some (places_drawn rest) = map place_of (concat (batches_sent rest)) ++ unsent)
    /\ ((out = Diverged /\ rest = [] /\ unsent = [])
        \/ (exists err pre,
               out = Returned (Some err) /\ rest = [] /\ unsent = []
               /\ reads = pre ++ [Ev (RowsScanString rows) (inr err)])
        \/ (out = Returned (Some (errorString "no sites found"))
            /\ rest = [] /\ unsent = [] /\ ids_scanned reads = [])
        \/ (ids_scanned reads <> [] /\ seeding_result count out rest unsent)).
Proof.
  unfold reading. rewrite run_bind. cbv zeta.
  destruct (run_read_ids h rows fuel [] s) as (out1 & s1 & reads & Hrun & Hb & Hd & Ho & Hc & Hout).
  assert (Hp : places_drawn reads = []).
  { assert (Hall : Forall (allowed (fun R c => match c with
                                               | RandomAssetPlace _ => False
                                               | _ => True
                                               end)) reads).
    { change reads with (trace (mkRun out1 s1 reads)). rewrite <- Hrun.
      apply calls_only_run.
      apply calls_only_while_ret; [apply calls_only_call; exact I|].
      intros a. apply calls_only_bind; [apply calls_only_call; exact I|].
      intros [id | err]; exact I. }
    clear -Hall. induction Hall as [|[R c r] tr Hc _ IH]; [reflexivity|].
    destruct c; simpl in Hc |- *; try contradiction; exact IH. }
  rewrite Hrun. cbn [outcome final trace].
  destruct out1 as [[ids | err] | | |]; try contradiction.
  - simpl in Hout. subst ids. destruct (ids_scanned reads) as [|id ids] eqn:Hids.
    + cbn [run outcome final trace].
      eexists _, _, reads, [], []. split; [reflexivity|].
      split; [auto|]. split; [repeat split; constructor|].
      right. right. left. auto.
    + destruct (run_seeding (id :: ids) s1)
        as (out & s' & tr & Hseed & Hoff & Hcl & Hsc & Hstmts & unsent & Heq & Hres).
      rewrite Hseed. cbn [outcome final trace].
      eexists _, _, reads, tr, unsent. split; [reflexivity|]. rewrite Hids.
      split; [auto|]. split; [auto|].
      right. right. right. split; [discriminate | exact Hres].
  - cbn [run outcome final trace].
    eexists _, _, reads, [], []. split; [reflexivity|].
    split; [auto|]. split; [repeat split; constructor|].
    right. left. destruct Hout as (pre & ->). exists err, pre. auto.
  - eexists _, _, reads, [], []. split; [rewrite app_nil_r; reflexivity|].
    split; [auto|]. split; [repeat split; constructor|].
    left. auto.
Qed.

(** [seedAssets] is the log line and the query, then, around the reading
    and the seeding, the deferred closing of the rows. *)
Lemma seedAssets_unfold :
  seedAssets fuel pool count
  = (call (LogPrintf "Seeding %d assets..." [AInt count]) ;;
     r <- call (PoolQuery (database.Pool_ pool) "SELECT id FROM sites" []) ;;
     match r with
     | inr err => Ret (Some (Errorf_w "query sites: " err))
     | inl rows => defer (call (RowsClose rows)) (reading rows)
     end).
Proof. reflexivity. Qed.

Lemma run_seedAssets (s : S) :
  let r := run h (seedAssets fuel pool count) s in
  let log := Ev (LogPrintf "Seeding %d assets..." [AInt count]) tt in
  let q := PoolQuery (database.Pool_ pool) "SELECT id FROM sites" [] in
  (exists err,
      trace r = [log; Ev q (inr err)]
      /\ outcome r = Returned (Some (Errorf_w "query sites: " err)))
  \/ (exists rows reads rest closing unsent,
         trace r = log :: Ev q (inl rows) :: reads ++ rest ++ closing
         /\ (batches_sent reads = [] /\ places_drawn reads = []
             /\ ids_offered reads = [] /\ rows_closed reads = [])
         /\ (Forall (fun offer => offer = ids_scanned reads) (ids_offered rest)
             /\ rows_closed rest = [] /\ ids_scanned rest = []
             /\ Forall asset_statement (concat (batches_sent rest))
             /\ map Some (places_drawn rest)
                = map place_of (concat (batches_sent rest)) ++ unsent)
         /\ ((outcome r = Diverged /\ rest = [] /\ unsent = [] /\ closing = [])
             \/ (closing = [Ev (RowsClose rows) tt]
                 /\ ((exists err pre,
                         outcome r = Returned (Some err) /\ rest = [] /\ unsent = []
                         /\ reads = pre ++ [Ev (RowsScanString rows) (inr err)])
                     \/ (outcome r = Returned (Some (errorString "no sites found"))
                         /\ rest = [] /\ unsent = [] /\ ids_scanned reads = [])
                     \/ (ids_scanned reads <> []
                         /\ seeding_result count (outcome r) rest unsent))))).
Proof.
  intros r log q. subst r log q. rewrite seedAssets_unfold. cbn [run bind call].
  destruct (h _ (LogPrintf "Seeding %d assets..." [AInt count]) s) as [[] s1].
  cbn [outcome final trace].
  destruct (h _ (PoolQuery (database.Pool_ pool) "SELECT id FROM sites" []) s1)
    as [[rows | err] s2]; cbn [outcome final trace run].
  2:{ left. exists err. split; reflexivity. }
  right. rewrite run_defer. cbv zeta.
  destruct (run_reading rows s2)
    as (out & s' & reads & rest & unsent & Hrun & Hreads & Hrest & Hout).
  rewrite Hrun. cbn [outcome final trace run call].
  destruct (h _ (RowsClose rows) s') as [[] s''] eqn:Hclose. cbn [outcome final trace].
  exists rows, reads, rest.
  destruct out as [res | v | code |].
  - exists [Ev (RowsClose rows) tt], unsent. cbn [outcome trace app].
    rewrite <- app_assoc. split; [reflexivity|]. split; [exact Hreads|].
    split; [exact Hrest|]. right. split; [reflexivity|].
    destruct Hout as [(Hd & _) | [(err & pre & Ho & Hr & Hu & Hp) | [(Ho & Hr & Hu & Hn) | Hres]]].
    + discriminate Hd.
    + left. exists err, pre. auto.
    + right. left. auto.
    + right. right. exact Hres.
  - exists [Ev (RowsClose rows) tt], unsent. cbn [outcome trace app].
    rewrite <- app_assoc. split; [reflexivity|]. split; [exact Hreads|].
    split; [exact Hrest|]. right. split; [reflexivity|].
    destruct Hout as [(Hd & _) | [(err & pre & Ho & _) | [(Ho & _) | Hres]]];
      try discriminate.
    right. right. exact Hres.
  - exfalso.
    destruct Hout as [(Hd & _) | [(err & pre & Ho & _) | [(Ho & _) | (_ & Hres)]]];
      try discriminate. exact Hres.
  - exists [], unsent. cbn [outcome trace app]. rewrite !app_nil_r.
    split; [reflexivity|]. split; [exact Hreads|]. split; [exact Hrest|].
    destruct Hout as [(_ & Hr & Hu) | [(err & pre & Ho & _) | [(Ho & _) | (_ & Hres)]]];
      try discriminate; [|contradiction].
    left. auto.
Qed.

End SeedAssetsRun.
(** X6.  [seedAssets] closes the rows of its query on every path that
    ends, the panic included: when the query answered [rows] and the run
    comes to an end, the run has returned or has panicked with a run-time
    error of Go (it never exits), its last call is [rows.Close()], and it
    has closed no rows before. *)
Theorem seedAssets_closes_the_rows :
  forall (S : Type) (h : Handler S) (fuel : nat) (pool : database.Pool) (count : Z)
         (s : S) (rows : RowsH),
    let r := run h (seed.seedAssets fuel pool count) s in
    hd_error (rows_opened (trace r)) = Some rows ->
    outcome r <> Diverged ->
    ((exists res, outcome r = Returned res)
     \/ (exists v, outcome r = Panicked v /\ is_runtime_error v))
    /\ exists body,
        trace r = Ev (LogPrintf "Seeding %d assets..." [AInt count]) tt
                  :: Ev (PoolQuery (database.Pool_ pool) "SELECT id FROM sites" []) (inl rows)
                  :: body ++ [Ev (RowsClose rows) tt]
        /\ rows_closed body = [].
Proof.
  intros S h fuel pool count s rows r Hopen Hend. subst r.
  destruct (run_seedAssets h fuel pool count s)
    as [(err & Htr & Ho)
       | (rows0 & reads & rest & closing & unsent & Htr & Hreads & Hrest & Hout)].
  - rewrite Htr in Hopen. discriminate Hopen.
  - rewrite Htr in Hopen |- *. cbn [rows_opened hd_error] in Hopen. injection Hopen as ->.
    destruct Hreads as (_ & _ & _ & Hcr). destruct Hrest as (_ & Hcl & _ & _).
    destruct Hout as [(Ho & _) | (-> & Hcases)]; [contradiction|].
    split.
    + destruct Hcases as [(err & pre & Ho & _) | [(Ho & _) | (_ & Hres)]];
        [left; eauto | left; eauto |].
      unfold seeding_result in Hres.
      destruct (outcome (run h (seed.seedAssets fuel pool count) s)) as [res | v | |];
        try contradiction; [left | right]; eauto.
    + exists (reads ++ rest). rewrite <- app_assoc. split; [reflexivity|].
      rewrite rows_closed_app, Hcr, Hcl. reflexivity.
Qed.

Lemma seedAssets_closes_the_rows_witness :
  let r := run draws_third (seed.seedAssets 5 Sample.pool 3) Sample.seeded in
  hd_error (rows_opened (trace r)) = Some 1
  /\ outcome r <> Diverged
  /\ exists body,
      trace r = Ev (LogPrintf "Seeding %d assets..." [AInt 3]) tt
                :: Ev (PoolQuery (database.Pool_ Sample.pool) "SELECT id FROM sites" []) (inl 1)
                :: body ++ [Ev (RowsClose 1) tt]
      /\ rows_closed body = [].
Proof.
  assert (Hopen : hd_error (rows_opened
                    (trace (run draws_third (seed.seedAssets 5 Sample.pool 3) Sample.seeded)))
                  = Some 1) by (vm_compute; reflexivity).
  assert (Hend : outcome (run draws_third (seed.seedAssets 5 Sample.pool 3) Sample.seeded)
                 <> Diverged) by (vm_compute; discriminate).
  split; [exact Hopen|]. split; [exact Hend|].
  exact (proj2 (seedAssets_closes_the_rows Datastore.Store draws_third 5 Sample.pool 3
                  Sample.seeded 1 Hopen Hend)).
Defined.

(** X7.  [seedAssets] offers to every draw of a site exactly the site ids
    that its query returned, in the order of scanning.  Every statement
    it sends is the INSERT of an asset, and the statements sent carry, in
    order and each once, the places drawn: all of them, unless the run
    panicked, when the places of the batch that was being filled are
    drawn and not sent.  Without a site id it draws and sends nothing and
    does not return nil; when it returns nil it has sent [count] rows;
    and it panics only with a run-time error of Go, raised in the drawing
    of an asset. *)
Theorem seedAssets_offers_the_scanned_sites :
  forall (S : Type) (h : Handler S) (fuel : nat) (pool : database.Pool) (count : Z) (s : S),
    let r := run h (seed.seedAssets fuel pool count) s in
    let ids := ids_scanned (trace r) in
    let sent := concat (batches_sent (trace r)) in
    Forall (fun offer => offer = ids) (ids_offered (trace r))
    /\ Forall asset_statement sent
    /\ (exists unsent,
           map Some (places_drawn (trace r)) = map place_of sent ++ unsent
           /\ match outcome r with
              | Panicked v => is_runtime_error v /\ ids <> []
              | _ => unsent = []
              end)
    /\ (ids = [] ->
        batches_sent (trace r) = [] /\ places_drawn (trace r) = []
        /\ outcome r <> Returned None)
    /\ (outcome r = Returned None ->
        ids <> [] /\ List.length sent = Z.to_nat count).
Proof.
  intros S h fuel pool count s r ids sent. subst r ids sent.
  destruct (run_seedAssets h fuel pool count s)
    as [(err & Htr & Ho)
       | (rows0 & reads & rest & closing & unsent & Htr & Hreads & Hrest & Hout)].
  - rewrite Htr, Ho. cbn.
    split; [constructor|]. split; [constructor|].
    split; [exists []; split; reflexivity|].
    split; [intros _; repeat split; discriminate | discriminate].
  - destruct Hreads as (Hb & Hd & Hof & Hcr).
    destruct Hrest as (Hoff & Hcl & Hsc & Hstmts & Heq).
    assert (Hclosing : closing = [] \/ closing = [Ev (RowsClose rows0) tt]).
    { destruct Hout as [(_ & _ & _ & ->) | (-> & _)]; auto. }
    assert (Hids : ids_scanned (trace (run h (seed.seedAssets fuel pool count) s))
                   = ids_scanned reads).
    { rewrite Htr. cbn [ids_scanned]. rewrite !ids_scanned_app, Hsc.
      destruct Hclosing as [-> | ->]; cbn [ids_scanned]; rewrite !app_nil_r; reflexivity. }
    assert (Hoffers : ids_offered (trace (run h (seed.seedAssets fuel pool count) s))
                      = ids_offered rest).
    { rewrite Htr. cbn [ids_offered]. rewrite !ids_offered_app, Hof.
      destruct Hclosing as [-> | ->]; cbn [ids_offered app]; rewrite !app_nil_r; reflexivity. }
    assert (Hsent : batches_sent (trace (run h (seed.seedAssets fuel pool count) s))
                    = batches_sent rest).
    { rewrite Htr. cbn [batches_sent]. rewrite !batches_sent_app, Hb.
      destruct Hclosing as [-> | ->]; cbn [batches_sent app]; rewrite !app_nil_r; reflexivity. }
    assert (Hdrawn : places_drawn (trace (run h (seed.seedAssets fuel pool count) s))
                     = places_drawn rest).
    { rewrite Htr. cbn [places_drawn]. rewrite !places_drawn_app, Hd.
      destruct Hclosing as [-> | ->]; cbn [places_drawn app]; rewrite !app_nil_r; reflexivity. }
    rewrite Hids, Hoffers, Hsent, Hdrawn.
    split; [exact Hoff|]. split; [exact Hstmts|].
    destruct Hout as [(Ho & -> & -> & _)
                     | (_ & [(err & pre & Ho & -> & -> & _) | [(Ho & -> & -> & _) | (Hne & Hres)]])];
      rewrite ?Ho.
    + split; [exists []; split; [exact Heq | reflexivity]|].
      repeat split; discriminate.
    + split; [exists []; split; [exact Heq | reflexivity]|].
      repeat split; discriminate.
    + split; [exists []; split; [exact Heq | reflexivity]|].
      repeat split; discriminate.
    + unfold seeding_result in Hres.
      destruct (outcome (run h (seed.seedAssets fuel pool count) s)) as [[e|] | v | |];
        try contradiction.
      * destruct Hres as (-> & _).
        split; [exists []; split; [exact Heq | reflexivity]|].
        split; [intros Hnil; contradiction | discriminate].
      * destruct Hres as (-> & Hn).
        split; [exists []; split; [exact Heq | reflexivity]|].
        split; [intros Hnil; contradiction|]. intros _. split; [exact Hne|].
        rewrite app_nil_r in Heq.
        rewrite <- (length_map place_of), <- Heq, length_map. exact Hn.
      * split; [exists unsent; split; [exact Heq | split; assumption]|].
        split; [intros Hnil; contradiction | discriminate].
Qed.

(** A database without a site: "no sites found", and nothing is sent. *)
Example seedAssets_without_sites :
  let r := run Datastore.pg (seed.seedAssets 5 Sample.pool 3) Datastore.empty in
  outcome r = Returned (Some (errorString "no sites found"))
  /\ batches_sent (trace r) = []
  /\ rows_closed (trace r) = [1].
Proof. vm_compute. repeat split. Qed.

(** A draw of "HP": the slice [manufacturer[:3]] panics at the first
    asset, after its place was drawn; nothing is sent, and the rows are
    closed on the way out. *)
Example seedAssets_panics_on_a_short_manufacturer :
  let r := run draws_third (seed.seedAssets 5 Sample.pool 3) Sample.seeded in
  nth_error seed.manufacturers 2 = Some "HP"
  /\ outcome r
     = Panicked (seed.runtime_error "slice bounds out of range [:3] with length 2")
  /\ batches_sent (trace r) = []
  /\ List.length (places_drawn (trace r)) = 1
  /\ last_call (trace r) = Some (Ev (RowsClose 1) tt).
Proof. vm_compute. repeat split. Qed.

(** With a manufacturer of three letters or more every asset is sent. *)
Example seedAssets_sends_the_assets_drawn :
  let r := run draws_last (seed.seedAssets 5 Sample.pool 3) Sample.seeded in
  outcome r = Returned None
  /\ map (@List.length QueuedQuery) (batches_sent (trace r)) = [3]
  /\ map place_of (concat (batches_sent (trace r))) = map Some (places_drawn (trace r)).
Proof. vm_compute. repeat split. Qed.

(* ===================================================================== *)
(** ** DistributedLock: one worker of advisoryLocksDemo, call by call *)
(* ===================================================================== *)

(** X8.  A worker of advisoryLocksDemo, against any driver: it always
    returns, and its last call is [wg.Done()].  Without a connection it
    reports the failure and does nothing else.  With a connection it
    tries the lock once; it calls the unlock exactly when the try
    answered true, after its work, and whatever the unlock answers it
    goes on; and it releases its connection once, just before
    [wg.Done()]. *)
Theorem worker_releases_what_it_took :
  forall (S : Type) (h : Handler S) (pool : database.Pool) (results : ChanH)
         (workerID : Z) (s : S),
    let r := run h (advanced_patterns.worker pool results workerID) s in
    let says := fun what => Ev (ChanSendS results (advanced_patterns.worker_says workerID what)) tt in
    outcome r = Returned tt
    /\ ((exists err,
            trace r = [Ev (PoolAcquire (database.Pool_ pool)) (inr err);
                       says "failed to acquire connection";
                       Ev WgDone tt])
        \/ (exists conn answer,
               let try := Ev (ConnQueryRowBool conn advanced_patterns.try_lock_sql
                                               [AInt advanced_patterns.lockID]) answer in
               match answer with
               | inl true =>
                   exists unlocked,
                     trace r = [Ev (PoolAcquire (database.Pool_ pool)) (inl conn);
                                try;
                                says "got lock, processing...";
                                Ev (Sleep (200 * advanced_patterns.Millisecond)%Z) tt;
                                Ev (ConnExec conn advanced_patterns.unlock_sql
                                             [AInt advanced_patterns.lockID]) unlocked;
                                says "released lock";
                                Ev (ConnRelease conn) tt;
                                Ev WgDone tt]
               | _ =>
                   trace r = [Ev (PoolAcquire (database.Pool_ pool)) (inl conn);
                              try;
                              says "couldn't acquire lock";
                              Ev (ConnRelease conn) tt;
                              Ev WgDone tt]
               end)).
Proof.
  intros S h pool results workerID s r says. subst r says.
  unfold advanced_patterns.worker. rewrite run_defer. cbv zeta. cbn [run bind call].
  destruct (h _ (PoolAcquire (database.Pool_ pool)) s) as [[conn | err] s1];
    cbn [outcome final trace run bind call].
  - rewrite run_defer. cbv zeta. unfold advanced_patterns.with_conn. cbn [run bind call].
    destruct (h _ (ConnQueryRowBool conn _ _) s1) as [[[|] | err] s2];
      cbn [outcome final trace run bind call].
    + unfold advanced_patterns.locked_work. cbn [run bind call].
      destruct (h _ (ChanSendS results _) s2) as [[] s3]. cbn [outcome final trace].
      destruct (h _ (Sleep _) s3) as [[] s4]. cbn [outcome final trace].
      destruct (h _ (ConnExec conn _ _) s4) as [unlocked s5]. cbn [outcome final trace].
      destruct (h _ (ChanSendS results _) s5) as [[] s6]. cbn [outcome final trace].
      destruct (h _ (ConnRelease conn) s6) as [[] s7]. cbn [outcome final trace].
      destruct (h _ WgDone s7) as [[] s8]. cbn [outcome final trace app].
      split; [reflexivity|]. right. exists conn, (inl true). exists unlocked. reflexivity.
    + destruct (h _ (ChanSendS results _) s2) as [[] s3]. cbn [outcome final trace].
      destruct (h _ (ConnRelease conn) s3) as [[] s4]. cbn [outcome final trace].
      destruct (h _ WgDone s4) as [[] s5]. cbn [outcome final trace app].
      split; [reflexivity|]. right. exists conn, (inl false). reflexivity.
    + destruct (h _ (ChanSendS results _) s2) as [[] s3]. cbn [outcome final trace].
      destruct (h _ (ConnRelease conn) s3) as [[] s4]. cbn [outcome final trace].
      destruct (h _ WgDone s4) as [[] s5]. cbn [outcome final trace app].
      split; [reflexivity|]. right. exists conn, (inr err). reflexivity.
  - destruct (h _ (ChanSendS results _) s1) as [[] s2]. cbn [outcome final trace].
    destruct (h _ WgDone s2) as [[] s3]. cbn [outcome final trace app].
    split; [reflexivity|]. left. exists err. reflexivity.
Qed.

(* ===================================================================== *)
(** ** NotificationBus: the demo runs to its end *)
(* ===================================================================== *)


Lemma returned_threads_are_quiescent {W : Type} (sh : Shared W) (w : W) :
  quiescent sh ([Ret tt; Ret tt], w).
Proof.
  intros s' Hstep. inversion Hstep as [ts w0 i p p' w' Hn Hs]; subst.
  destruct i as [|[|i]]; simpl in Hn.
  - injection Hn as <-. discriminate Hs.
  - injection Hn as <-. discriminate Hs.
  - destruct i; discriminate Hn.
Qed.

(** X9.  listenNotifyDemo comes to an end and loses nothing.  When the
    datastore emits at least as many notifications as the listener has
    rounds, the receiver has fuel for them and the channel has room for
    one: no run of the two goroutines is longer than
    [2 * rounds + 1 + 2 * fuel] steps, under any scheduling; and in a state
    where neither can move, both have returned, the channel is closed and
    empty, and the payloads printed are those of the first [rounds]
    notifications, in the order of emission. *)
Theorem listen_notify_prints_every_notification :
  forall (conn : ConnH) (ch : ChanH) (fuel rounds cap : nat)
         (notes : list Notification) (tail : list (result Notification))
         (n : nat) (ts : list (Prog unit)) (w : Notify.World),
    List.length notes = rounds ->
    rounds < fuel ->
    1 <= cap ->
    run_of_length Notify.shared
      (Notify.start fuel rounds cap conn ch (map inl notes ++ tail)) n (ts, w) ->
    n <= 2 * rounds + 1 + 2 * fuel
    /\ (quiescent Notify.shared (ts, w) ->
        ts = [Ret tt; Ret tt]
        /\ Notify.printed w = map Payload notes
        /\ Notify.buffer w = []
        /\ Notify.closed w = true).
Proof.
  intros conn ch fuel rounds cap notes tail n ts w Hnotes Hfuel Hcap Hrun. split.
  - exact (notify_runs_are_bounded conn ch fuel rounds cap notes tail
             Hnotes Hfuel Hcap n (ts, w) Hrun).
  - intros Hq.
    exact (notifications_all_delivered conn ch fuel rounds cap notes tail
             Hnotes Hfuel Hcap n ts w Hrun Hq).
Qed.

Lemma listen_notify_prints_every_notification_witness :
  List.length Cases.notes = advanced_patterns.listen_rounds
  /\ advanced_patterns.listen_rounds < 8
  /\ 1 <= advanced_patterns.queue_capacity
  /\ run_of_length Notify.shared Sample.listening 14
       (fst Cases.listening_done, snd Cases.listening_done)
  /\ quiescent Notify.shared (fst Cases.listening_done, snd Cases.listening_done)
  /\ Notify.printed (snd Cases.listening_done) = ["active"; "maintenance"; "offline"]
  /\ Notify.closed (snd Cases.listening_done) = true.
Proof.
  assert (Hnotes : List.length Cases.notes = advanced_patterns.listen_rounds) by reflexivity.
  assert (Hfuel : advanced_patterns.listen_rounds < 8) by (vm_compute; lia).
  assert (Hcap : 1 <= advanced_patterns.queue_capacity) by (vm_compute; lia).
  assert (Hrun : run_of_length Notify.shared
                   (Notify.start 8 advanced_patterns.listen_rounds
                                 advanced_patterns.queue_capacity 1 2
                                 (map inl Cases.notes ++ []))
                   14 (fst Cases.listening_done, snd Cases.listening_done)).
  { apply (run_schedule_length Notify.shared Sample.listening Cases.listener_first
             0 Sample.listening).
    - apply run_nil.
    - vm_compute. reflexivity. }
  assert (Hq : quiescent Notify.shared (fst Cases.listening_done, snd Cases.listening_done)).
  { change (fst Cases.listening_done) with [@Ret unit tt; @Ret unit tt].
    apply returned_threads_are_quiescent. }
  split; [exact Hnotes|]. split; [exact Hfuel|]. split; [exact Hcap|].
  split; [exact Hrun|]. split; [exact Hq|].
  destruct (listen_notify_prints_every_notification 1 2 8 advanced_patterns.listen_rounds
              advanced_patterns.queue_capacity Cases.notes [] 14
              (fst Cases.listening_done) (snd Cases.listening_done)
              Hnotes Hfuel Hcap Hrun) as (_ & Hdone).
  destruct (Hdone Hq) as (_ & Hprinted & _ & Hclosed).
  split; [exact Hprinted | exact Hclosed].
Defined.

(* ===================================================================== *)
(** ** BatchWriter: the rows of [copyFromDemo] *)
(* ===================================================================== *)

Section HexPairs.

Lemma append_same_prefix (p a b : string) : (p ++ a = p ++ b)%string -> a = b.
Proof. induction p as [|c p IH]; simpl; [auto|]. intros [= H]. apply IH, H. Qed.

Lemma append_same_length (a a' b b' : string) :
  String.length a = String.length a' ->
  (a ++ b = a' ++ b')%string -> a = a' /\ b = b'.
Proof.
  revert a'. induction a as [|c a IH]; intros [|c' a'] Hlen Heq; try discriminate.
  - split; [reflexivity | exact Heq].
  - simpl in Hlen, Heq. injection Hlen as Hlen. injection Heq as -> Heq.
    destruct (IH a' Hlen Heq) as [-> ->]. split; reflexivity.
Qed.

(** [%02X] writes a byte on two characters, and different bytes
    differently. *)
Lemma fmt_02X_length (z : Z) :
  (0 <= z < 256)%Z -> String.length (fmt_02X z) = 2.
Proof.
  intros Hz.
  assert (Hall : forallb (fun n => Nat.eqb (String.length (fmt_02X (Z.of_nat n))) 2)
                         (seq 0 256) = true) by (vm_compute; reflexivity).
  rewrite forallb_forall in Hall.
  specialize (Hall (Z.to_nat z)). rewrite Z2Nat.id in Hall by lia.
  apply Nat.eqb_eq, Hall, in_seq. lia.
Qed.

Lemma fmt_02X_inj (a b : Z) :
  (0 <= a < 256)%Z -> (0 <= b < 256)%Z -> fmt_02X a = fmt_02X b -> a = b.
Proof.
  intros Ha Hb Heq.
  assert (Hall : forallb (fun n =>
                   forallb (fun m =>
                     implb (String.eqb (fmt_02X (Z.of_nat n)) (fmt_02X (Z.of_nat m)))
                           (Nat.eqb n m)) (seq 0 256)) (seq 0 256) = true)
    by (vm_compute; reflexivity).
  rewrite forallb_forall in Hall.
  specialize (Hall (Z.to_nat a)). rewrite forallb_forall in Hall.
  assert (Hin : forall z, (0 <= z < 256)%Z -> In (Z.to_nat z) (seq 0 256))
    by (intros z Hz; apply in_seq; lia).
  specialize (Hall (Hin a Ha) (Z.to_nat b) (Hin b Hb)).
  rewrite !Z2Nat.id in Hall by lia. rewrite Heq, String.eqb_refl in Hall.
  simpl in Hall. apply Nat.eqb_eq in Hall. lia.
Qed.

End HexPairs.

Section CopyRows.

Import batch_operations.
Context {S : Type} (h : Handler S).

Local Arguments for_range : simpl never.

(** The MAC address that [copyFromDemo] writes for row [i]. *)
Let mac (i : Z) : string :=
  ("AA:BB:CC:" ++ fmt_02X (i / 65536) ++ ":" ++ fmt_02X ((i / 256) mod 256)
     ++ ":" ++ fmt_02X (i mod 256))%string.

Lemma mac_inj (i j : Z) :
  (0 <= i < 16777216)%Z -> (0 <= j < 16777216)%Z -> mac i = mac j -> i = j.
Proof.
  intros Hi Hj Heq. unfold mac in Heq.
  apply append_same_prefix in Heq.
  assert (Hb : forall z, (0 <= z < 16777216)%Z ->
               (0 <= z / 65536 < 256)%Z /\ (0 <= (z / 256) mod 256 < 256)%Z
               /\ (0 <= z mod 256 < 256)%Z).
  { intros z Hz. split; [|split].
    - split; [apply Z.div_pos; lia | apply Z.div_lt_upper_bound; lia].
    - apply Z.mod_pos_bound. lia.
    - apply Z.mod_pos_bound. lia. }
  destruct (Hb i Hi) as (Hi1 & Hi2 & Hi3). destruct (Hb j Hj) as (Hj1 & Hj2 & Hj3).
  apply append_same_length in Heq;
    [|rewrite !fmt_02X_length by assumption; reflexivity].
  destruct Heq as [H1 Heq]. apply (append_same_prefix ":") in Heq.
  apply append_same_length in Heq;
    [|rewrite !fmt_02X_length by assumption; reflexivity].
  destruct Heq as [H2 Heq]. apply (append_same_prefix ":") in Heq.
  apply fmt_02X_inj in H1; [|assumption..].
  apply fmt_02X_inj in H2; [|assumption..].
  apply fmt_02X_inj in Heq; [|assumption..].
  assert (Hdd : forall z, (z / 65536 = z / 256 / 256)%Z).
  { intros z. rewrite Z.div_div by lia. reflexivity. }
  rewrite !Hdd in H1.
  pose proof (Z.div_mod i 256 ltac:(lia)) as Ei.
  pose proof (Z.div_mod j 256 ltac:(lia)) as Ej.
  pose proof (Z.div_mod (i / 256) 256 ltac:(lia)) as Ei'.
  pose proof (Z.div_mod (j / 256) 256 ltac:(lia)) as Ej'.
  lia.
Qed.

(** The rows that the loop of [copyFromDemo] generates: one per round,
    with nine values, the site id first and the MAC address of the round
    second. *)
Lemma run_gen_rows_shape (siteID : string) (n : nat) :
  forall (from : nat) (acc : list (list any)) (s : S),
  exists rows s' tr,
    run h (for_range n from (gen_asset_row siteID) acc) s
    = mkRun (Returned (acc ++ rows)) s' tr
    /\ rows_copied tr = [] /\ columns_copied tr = []
    /\ Forall (fun row => List.length row = 9 /\ column 0 row = AStr siteID) rows
    /\ map (column 1) rows = map (fun i => AStr (mac (Z.of_nat i))) (seq from n).
Proof.
  induction n as [|n IH]; intros from acc s.
  - exists [], s, []. rewrite app_nil_r. repeat split. constructor.
  - unfold for_range; fold (@for_range (list (list any))).
    rewrite run_bind. unfold gen_asset_row at 1. cbn [run bind call].
    destruct (h _ Now s) as [now s1]. cbn [outcome final trace].
    match goal with |- context [for_range n _ _ (acc ++ [?q])] =>
      destruct (IH (Datatypes.S from) (acc ++ [q]) s1)
        as (rows & s' & tr & Hrun & Hc & Hcol & Hshape & Hmac);
      exists (q :: rows), s', (Ev Now now :: tr)
    end.
    rewrite Hrun. cbn [outcome final trace app]. rewrite <- app_assoc.
    split; [reflexivity|]. split; [exact Hc|]. split; [exact Hcol|]. split.
    + constructor; [split; reflexivity | exact Hshape].
    + cbn [map seq]. rewrite Hmac. reflexivity.
Qed.

Lemma macs_differ (n : nat) :
  (Z.of_nat n <= 16777216)%Z ->
  NoDup (map (fun i => AStr (mac (Z.of_nat i))) (seq 0 n)).
Proof.
  intros Hn. apply NoDup_map_NoDup_ForallPairs; [|apply seq_NoDup].
  intros i j Hi Hj Heq. apply in_seq in Hi, Hj.
  apply (f_equal (fun a => match a with AStr s => s | _ => EmptyString end)) in Heq.
  cbv beta iota in Heq. apply mac_inj in Heq; lia.
Qed.

(** What a run of [copyFromDemo] hands to CopyFrom. *)
Lemma run_copyFromDemo (pool : database.Pool) (s : S) :
  let r := run h (copyFromDemo pool) s in
  columns_copied (trace r) = [copy_columns]
  /\ List.length (rows_copied (trace r)) = copy_rows
  /\ (exists siteID,
         Forall (fun row => List.length row = 9 /\ column 0 row = AStr siteID)
                (rows_copied (trace r)))
  /\ NoDup (map (column 1) (rows_copied (trace r))).
Proof.
  unfold copyFromDemo. cbn [run bind call].
  destruct (h _ (Println _) s) as [[] s1]. cbn [outcome final trace].
  destruct (h _ Now s1) as [start s2]. cbn [outcome final trace].
  destruct (h _ (PoolQueryRowString _ _) s2) as [r s3]. cbn [outcome final trace].
  rewrite run_bind. cbv zeta.
  match goal with |- context [gen_asset_row ?id] =>
    destruct (run_gen_rows_shape id copy_rows 0 [] s3)
      as (rows & s4 & tr & -> & Hc & Hcol & Hshape & Hmac);
    set (siteID := id) in *
  end.
  cbn [outcome final trace app run bind call].
  destruct (h _ (PoolCopyFrom _ _ _ rows) s4) as [cr s5]. cbn [outcome final trace].
  assert (Hrest : forall tl, rows_copied tl = [] -> columns_copied tl = [] ->
            let whole := Ev (Println (nl ++ "=== COPY FROM (Fastest Bulk Insert) ===")) tt
                         :: Ev Now start
                         :: Ev (PoolQueryRowString (database.Pool_ pool)
                                                   "SELECT id FROM sites LIMIT 1") r
                         :: tr ++ Ev (PoolCopyFrom (database.Pool_ pool) "assets"
                                                   copy_columns rows) cr :: tl in
            columns_copied whole = [copy_columns]
            /\ List.length (rows_copied whole) = copy_rows
            /\ (exists siteID,
                   Forall (fun row => List.length row = 9 /\ column 0 row = AStr siteID)
                          (rows_copied whole))
            /\ NoDup (map (column 1) (rows_copied whole))).
  { intros tl Htl Hctl whole. subst whole. cbn [rows_copied columns_copied].
    assert (Hr : rows_copied (tr ++ Ev (PoolCopyFrom (database.Pool_ pool) "assets"
                                                    copy_columns rows) cr :: tl) = rows).
    { clear - Hc Htl. induction tr as [|[R c a] tr IH]; cbn [app rows_copied].
      - rewrite Htl, app_nil_r. reflexivity.
      - destruct c; cbn [rows_copied] in Hc |- *; try (apply IH; exact Hc).
        apply app_eq_nil in Hc. destruct Hc as [-> Hc]. apply IH, Hc. }
    assert (Hk : columns_copied (tr ++ Ev (PoolCopyFrom (database.Pool_ pool) "assets"
                                                       copy_columns rows) cr :: tl)
                 = [copy_columns]).
    { clear - Hcol Hctl. induction tr as [|[R c a] tr IH]; cbn [app columns_copied].
      - rewrite Hctl. reflexivity.
      - destruct c; cbn [columns_copied] in Hcol |- *; try (apply IH; exact Hcol).
        discriminate Hcol. }
    rewrite Hr, Hk. split; [reflexivity|]. split.
    - rewrite <- (length_map (column 1)), Hmac, length_map, length_seq. reflexivity.
    - split; [exists siteID; exact Hshape|].
      rewrite Hmac. apply macs_differ. unfold copy_rows. rewrite Z2Nat.id; lia. }
  destruct cr as [copyCount | err]; cbn [run bind call].
  - unfold Since. cbn [run bind call].
    destruct (h _ Now s5) as [t1 s6]. cbn [outcome final trace].
    destruct (h _ Now s6) as [t2 s7]. cbn [outcome final trace].
    destruct (h _ (Printf _ _) s7) as [[] s8]. cbn [outcome final trace].
    destruct (h _ (Println _) s8) as [[] s9]. cbn [outcome final trace].
    destruct (h _ (PoolExec _ _ _) s9) as [r' s10]. cbn [outcome final trace].
    apply Hrest; reflexivity.
  - destruct (h _ (LogPrintf _ _) s5) as [[] s6]. cbn [outcome final trace].
    destruct (h _ (Println _) s6) as [[] s7]. cbn [outcome final trace].
    destruct (h _ (PoolExec _ _ _) s7) as [r' s8]. cbn [outcome final trace].
    apply Hrest; reflexivity.
Qed.

End CopyRows.

(** X10.  [copyFromDemo], against any driver, calls CopyFrom once, with
    the nine columns of the source and 10,000 rows.  Every row has one
    value per column; all rows carry the same site id; and no two rows
    carry the same MAC address. *)
Theorem copyFromDemo_rows_match_the_columns :
  forall (S : Type) (h : Handler S) (pool : database.Pool) (s : S),
    let r := run h (batch_operations.copyFromDemo pool) s in
    let rows := rows_copied (trace r) in
    columns_copied (trace r) = [batch_operations.copy_columns]
    /\ List.length rows = Z.to_nat 10000
    /\ Forall (fun row => List.length row = List.length batch_operations.copy_columns) rows
    /\ (exists siteID, Forall (fun row => column 0 row = AStr siteID) rows)
    /\ NoDup (map (column 1) rows).
Proof.
  intros S h pool s r rows. subst r rows.
  destruct (run_copyFromDemo h pool s) as (Hcols & Hlen & (siteID & Hshape) & Hmac).
  split; [exact Hcols|]. split; [exact Hlen|]. split; [|split; [|exact Hmac]].
  - eapply Forall_impl; [|exact Hshape]. simpl. intros row [Hrow _]. exact Hrow.
  - exists siteID. eapply Forall_impl; [|exact Hshape]. simpl. intros row [_ Hid]. exact Hid.
Qed.

(* ===================================================================== *)
(** ** Seeder: how [main] ends *)
(* ===================================================================== *)

Section Tidy.

Context {S : Type} (h : Handler S).
Variable P : any -> Prop.

Lemma ends_in_log_print_cons (e : Event) (tr : list Event) :
  ends_in_log_print tr -> ends_in_log_print (e :: tr).
Proof. intros (pre & args & ->). exists (e :: pre), args. reflexivity. Qed.

Lemma ends_in_log_print_app (a tr : list Event) :
  ends_in_log_print tr -> ends_in_log_print (a ++ tr).
Proof. intros (pre & args & ->). exists (a ++ pre), args. rewrite app_assoc. reflexivity. Qed.

(** A tidy program returns, runs out of fuel, panics with a value that
    [P] allows, or exits with status 1 right after a [log.Print]. *)
Lemma tidy_run {A : Type} (p : Prog A) :
  tidy P p ->
  forall s,
    match outcome (run h p s) with
    | Returned _ | Diverged => True
    | Exited code => code = 1%Z /\ ends_in_log_print (trace (run h p s))
    | Panicked v => P v
    end.
Proof.
  induction p as [a | v | c | | R c k IH]; intros Hp s; simpl in *; try exact I;
    try contradiction; try exact Hp.
  destruct (h R c s) as [r s']. simpl. specialize (Hp r). specialize (IH r).
  destruct (k r) as [a | v | code | | R' c' k'] eqn:Hk.
  - exact I.
  - exact Hp.
  - simpl. destruct Hp as [-> Hlog]. split; [reflexivity|].
    destruct c; try contradiction. destruct r. exists [], args. reflexivity.
  - exact I.
  - specialize (IH Hp s').
    destruct (outcome (run h (Call c' k') s')); auto.
    destruct IH as [-> Hend]. split; [reflexivity|].
    apply ends_in_log_print_cons. exact Hend.
Qed.

Lemma tidy_step {A : Type} {R : Type} (c : Cmd R) (q : Prog A) :
  tidy P q ->
  match q with
  | Exit code => code = 1%Z /\ is_log_print c
  | _ => tidy P q
  end.
Proof. destruct q; simpl; auto; contradiction. Qed.

Lemma tidy_bind {A B : Type} (p : Prog A) (f : A -> Prog B) :
  tidy P p -> (forall a, tidy P (f a)) -> tidy P (bind p f).
Proof.
  intros Hp Hf. induction p as [a | v | c | | R c k IH]; simpl in *; auto.
  intros r. specialize (Hp r). specialize (IH r).
  destruct (k r) as [a | v | code | | R' c' k'] eqn:Hk; simpl.
  - apply tidy_step, Hf.
  - exact Hp.
  - exact Hp.
  - exact I.
  - apply (IH Hp).
Qed.

Lemma tidy_call {R : Type} (c : Cmd R) : tidy P (call c).
Proof. intros r. exact I. Qed.

Lemma tidy_log_Fatal {A : Type} (args : list any) : tidy P (@log_Fatal A args).
Proof. intros r. split; [reflexivity | exact I]. Qed.

Lemma tidy_defer_recover {A : Type} (p : Prog A) (g : any -> Prog A) :
  tidy P p -> (forall v, P v -> tidy P (g v)) -> tidy P (defer_recover p g).
Proof.
  intros Hp Hg. induction p as [a | v | c | | R c k IH]; simpl in *; auto.
  intros r. specialize (Hp r). specialize (IH r).
  destruct (k r) as [a | v | code | | R' c' k'] eqn:Hk; simpl in Hp |- *; auto.
  - apply tidy_step, Hg, Hp.
  - apply (IH Hp).
Qed.

(** A deferred call keeps a program tidy: it runs on the return and on
    the panic, and the panic goes on with its value. *)
Lemma tidy_defer {A : Type} {R : Type} (c : Cmd R) (d : R -> Prog unit) (p : Prog A) :
  (forall r, tidy P (d r)) -> tidy P p -> tidy P (defer (Call c d) p).
Proof.
  intros Hd Hp. unfold defer. apply tidy_bind.
  - apply tidy_defer_recover; [exact Hp|]. intros v Hv.
    apply (tidy_bind (Call c d)).
    + intros r. apply tidy_step, Hd.
    + intros _. exact Hv.
  - intros a. apply (tidy_bind (Call c d)).
    + intros r. apply tidy_step, Hd.
    + intros; exact I.
Qed.

Lemma tidy_for_range_ret {A B : Type} (body : nat -> A -> Prog (A + B)) (n : nat) :
  (forall i a, tidy P (body i a)) ->
  forall from a, tidy P (for_range_ret n from body a).
Proof.
  intros Hb. induction n as [|n IH]; intros from a; simpl; [exact I|].
  apply tidy_bind; [apply Hb|]. intros [a' | b]; [apply IH | exact I].
Qed.

Lemma tidy_while_ret {A B : Type} (cond : Prog bool) (body : A -> Prog (A + B))
      (fuel : nat) :
  tidy P cond -> (forall a, tidy P (body a)) ->
  forall a, tidy P (while_ret fuel cond body a).
Proof.
  intros Hc Hb. induction fuel as [|fuel IH]; intros a; simpl; [exact I|].
  apply tidy_bind; [exact Hc|]. intros [|]; [|exact I].
  apply tidy_bind; [apply Hb|]. intros [a' | b]; [apply IH | exact I].
Qed.

End Tidy.

Section SeedMain.

Import seed.
Context {S : Type} (h : Handler S).

Local Arguments defer : simpl never.
Local Arguments for_range_ret : simpl never.
Local Arguments while_ret : simpl never.

Ltac tidy_tac :=
  repeat match goal with
         | |- forall _, _ => intro
         | |- tidy _ (Ret _) => exact I
         | |- tidy _ (Panic _) => eexists; reflexivity
         | |- tidy _ (call _) => apply tidy_call
         | |- tidy _ (log_Fatal _) => apply tidy_log_Fatal
         | |- tidy _ (defer _ _) => apply tidy_defer
         | |- tidy _ (for_range_ret _ _ _ _) => apply tidy_for_range_ret
         | |- tidy _ (while_ret _ _ _ _) => apply tidy_while_ret
         | |- tidy _ (bind _ _) => apply tidy_bind
         | |- tidy _ (match ?x with _ => _ end) => destruct x
         | |- tidy _ (if ?x then _ else _) => destruct x
         end.

Ltac quiet_tac :=
  repeat match goal with
         | |- forall _, _ => intro
         | |- calls_only _ (Ret _) => exact I
         | |- calls_only _ (Panic _) => exact I
         | |- calls_only _ (Exit _) => exact I
         | |- calls_only _ (call _) => apply calls_only_call; exact I
         | |- calls_only _ (Call _ _) => split; [exact I|]
         | |- calls_only _ (defer _ _) => apply calls_only_defer
         | |- calls_only _ (for_range_ret _ _ _ _) => apply calls_only_for_range_ret
         | |- calls_only _ (while_ret _ _ _ _) => apply calls_only_while_ret
         | |- calls_only _ (bind _ _) => apply calls_only_bind
         | |- calls_only _ (match ?x with _ => _ end) => destruct x
         | |- calls_only _ (if ?x then _ else _) => destruct x
         end.

(** What [main] does with the pool it has opened, up to the deferred
    [pool.Close()]. *)
Let seeding (fuel : nat) (pool : database.Pool) : Prog unit :=
  r <- call (PoolQueryRowInt (database.Pool_ pool) "SELECT COUNT(*) FROM sites") ;;
  match r with
  | inr err => log_Fatal [AStr "Failed to check existing data:"; AErr err]
  | inl count =>
      if (0 <? count)%Z then
        call (LogPrintf
                "Database already contains %d sites. Clear data first if you want to reseed."
                [AInt count])
      else
        e <- seedSites pool 1000 ;;
        match e with
        | Some err => log_Fatal [AStr "Failed to seed sites:"; AErr err]
        | None =>
            e <- seedAssets fuel pool 100000 ;;
            match e with
            | Some err => log_Fatal [AStr "Failed to seed assets:"; AErr err]
            | None =>
                siteCount <- count_or_zero pool "SELECT COUNT(*) FROM sites" ;;
                assetCount <- count_or_zero pool "SELECT COUNT(*) FROM assets" ;;
                call (LogPrintf (batch_operations.nl ++ "✅ Seeding complete!") []) ;;
                call (LogPrintf "   Sites:  %d" [AInt siteCount]) ;;
                call (LogPrintf "   Assets: %d" [AInt assetCount]) ;;
                call (LogPrintf "   Avg assets per site: %.1f"
                                [ARatio assetCount siteCount])
            end
        end
  end.

Lemma seeding_tidy (fuel : nat) (pool : database.Pool) :
  tidy is_runtime_error (seeding fuel pool).
Proof.
  unfold seeding, seedSites, seed_loop, seedAssets, seed_row, asset_row, asset_args,
    index_of, slice_to, flush, count_or_zero.
  tidy_tac.
Qed.

Lemma seeding_keeps_pools (fuel : nat) (pool : database.Pool) :
  calls_only keeps_pools (seeding fuel pool).
Proof.
  unfold seeding, seedSites, seed_loop, seedAssets, seed_row, asset_row, asset_args,
    index_of, slice_to, flush, count_or_zero, log_Fatal.
  quiet_tac.
Qed.

Lemma live_pools_app (a b : list Event) :
  forall live, live_pools (a ++ b) live = live_pools b (live_pools a live).
Proof. induction a as [|[R c r] a IH]; intros live; simpl; [reflexivity | apply IH]. Qed.

Lemma live_pools_kept (tr : list Event) :
  Forall (allowed keeps_pools) tr -> forall live, live_pools tr live = live.
Proof.
  induction 1 as [|[R c r] tr Hc _ IH]; intros live; [reflexivity|].
  simpl. rewrite IH. destruct c; simpl in Hc; try contradiction; reflexivity.
Qed.

Lemma main_unfold (fuel : nat) :
  main fuel
  = (r <- database.NewPool database.DefaultConfig ;;
     match r with
     | (_, Some err) => log_Fatal [AStr "Failed to create pool:"; AErr err]
     | (None, None) =>
         Panic (AErr (errorString "invalid memory address or nil pointer dereference"))
     | (Some pool, None) =>
         defer (call (PoolClose (database.Pool_ pool))) (seeding fuel pool)
     end).
Proof. reflexivity. Qed.

(** X11.  The seeder's [main], against any driver.  When it returns,
    its last call is the [Close] of the pool that it created, that pool is
    the only one it ever created or closed, and no pool is left open.
    When it panics, the value is a run-time error of Go (an index or a
    slice out of range in the drawing of an asset), and the deferred
    [Close] of the pool has run all the same: it is the last call, and no
    pool is left open.  Every failure that is reported ends the process
    with status 1 by a [log.Fatal]: the log line is the last call, so that
    nothing, the deferred [Close] included, runs after it. *)
Theorem seeder_main_ends_in_good_order (fuel : nat) (s : S) :
  let r := run h (main fuel) s in
  let closed_in_order :=
    live_pools (trace r) [] = []
    /\ exists p pre,
        pool_created (trace r) = Some p
        /\ trace r = pre ++ [Ev (PoolClose p) tt]
        /\ Forall (allowed keeps_pools) (skipn 3 pre) in
  match outcome r with
  | Returned _ => closed_in_order
  | Panicked v => is_runtime_error v /\ closed_in_order
  | Exited code => code = 1%Z /\ ends_in_log_print (trace r)
  | Diverged => True
  end.
Proof.
  intros r closed_in_order. subst closed_in_order r. rewrite main_unfold, run_bind. cbv zeta.
  unfold database.NewPool. cbn [run].
  destruct (h _ (ParseConfig _) s) as [[pc | err] s1]; cbn [outcome final trace run].
  2:{ unfold log_Fatal. cbn [run]. destruct (h _ (LogPrint _) s1) as [[] s2].
      cbn [outcome trace app]. split; [reflexivity|].
      exists [Ev (ParseConfig (database.dsn_of database.DefaultConfig)) (inr err)].
      eexists. reflexivity. }
  match goal with |- context [h _ (NewWithConfig ?c) s1] =>
    set (cfg := c) in *; destruct (h _ (NewWithConfig cfg) s1) as [[p | err] s2] end;
    cbn [outcome final trace run].
  2:{ unfold log_Fatal. cbn [run]. destruct (h _ (LogPrint _) s2) as [[] s3].
      cbn [outcome trace app]. split; [reflexivity|].
      exists [Ev (ParseConfig (database.dsn_of database.DefaultConfig)) (inl pc);
              Ev (NewWithConfig cfg) (inr err)].
      eexists. reflexivity. }
  destruct (h _ (Ping p) s2) as [[perr|] s3]; cbn [outcome final trace run].
  - destruct (h _ (PoolClose p) s3) as [[] s4]. cbn [outcome final trace run].
    unfold log_Fatal. cbn [run]. destruct (h _ (LogPrint _) s4) as [[] s5].
    cbn [outcome trace app]. split; [reflexivity|].
    exists [Ev (ParseConfig (database.dsn_of database.DefaultConfig)) (inl pc);
            Ev (NewWithConfig cfg) (inl p); Ev (Ping p) (Some perr); Ev (PoolClose p) tt].
    eexists. reflexivity.
  - cbn [database.Pool_]. rewrite run_defer. cbv zeta.
    pose proof (tidy_run h _ _ (seeding_tidy fuel {| database.Pool_ := p;
                                                   database.config := database.DefaultConfig |}) s3)
      as Hend.
    pose proof (calls_only_run h keeps_pools _
                  (seeding_keeps_pools fuel {| database.Pool_ := p;
                                               database.config := database.DefaultConfig |}) s3)
      as Hquiet.
    destruct (run h (seeding fuel _) s3) as [out s4 tr]. cbn [outcome final trace] in *.
    destruct out as [[] | v | code |]; cbn [outcome final trace run call app].
    + destruct (h _ (PoolClose p) s4) as [[] s5]. cbn [outcome final trace app].
      split.
      * change (live_pools
                  ([Ev (ParseConfig (database.dsn_of database.DefaultConfig)) (inl pc);
                    Ev (NewWithConfig cfg) (inl p); Ev (Ping p) None]
                     ++ tr ++ [Ev (PoolClose p) tt]) [] = []).
        rewrite !live_pools_app, (live_pools_kept tr Hquiet). cbn.
        destruct (Nat.eq_dec p p); [reflexivity | congruence].
      * exists p, ([Ev (ParseConfig (database.dsn_of database.DefaultConfig)) (inl pc);
                    Ev (NewWithConfig cfg) (inl p); Ev (Ping p) None] ++ tr).
        split; [reflexivity|]. split; [rewrite <- app_assoc; reflexivity | exact Hquiet].
    + destruct (h _ (PoolClose p) s4) as [[] s5]. cbn [outcome final trace app].
      split; [exact Hend|]. split.
      * change (live_pools
                  ([Ev (ParseConfig (database.dsn_of database.DefaultConfig)) (inl pc);
                    Ev (NewWithConfig cfg) (inl p); Ev (Ping p) None]
                     ++ tr ++ [Ev (PoolClose p) tt]) [] = []).
        rewrite !live_pools_app, (live_pools_kept tr Hquiet). cbn.
        destruct (Nat.eq_dec p p); [reflexivity | congruence].
      * exists p, ([Ev (ParseConfig (database.dsn_of database.DefaultConfig)) (inl pc);
                    Ev (NewWithConfig cfg) (inl p); Ev (Ping p) None] ++ tr).
        split; [reflexivity|]. split; [rewrite <- app_assoc; reflexivity | exact Hquiet].
    + destruct Hend as [-> Hend]. split; [reflexivity|].
      repeat apply ends_in_log_print_cons. exact Hend.
    + exact I.
Qed.

End SeedMain.

(** A draw of "HP" on an empty database: [main] seeds the sites, panics
    at the first asset, and the deferred calls run on the way out, the
    [Close] of the rows and then the [Close] of the pool. *)
Example seeder_main_closes_the_pool_on_a_panic :
  let r := run draws_third (seed.main 1100) Datastore.empty in
  outcome r
  = Panicked (seed.runtime_error "slice bounds out of range [:3] with length 2")
  /\ pool_created (trace r) = Some 1
  /\ live_pools (trace r) [] = []
  /\ skipn (List.length (trace r) - 2) (trace r)
     = [Ev (RowsClose 12) tt; Ev (PoolClose 1) tt].
Proof. vm_compute. repeat split. Qed.

(* ===================================================================== *)
(** ** NotificationBus: the main goroutine of listenNotifyDemo *)
(* ===================================================================== *)

Section ListenNotifyMain.

Context {S : Type} (h : Handler S).

(** The updates and the cleaning up, once the demo listens. *)
Lemma run_after_listen (pool : database.Pool) (s : S) :
  exists u1 u2 u3 d1 d2 s',
    let p := database.Pool_ pool in
    let update status answer :=
      Ev (PoolExec p listen_notify.sql_update_status [AStr status]) answer in
    let pause ms := Ev (Sleep (ms * advanced_patterns.Millisecond)%Z) tt in
    run h (listen_notify.after_listen pool) s
    = mkRun (Returned tt) s'
            [pause 100%Z;
             update "active" u1; pause 200%Z;
             update "maintenance" u2; pause 200%Z;
             update "offline" u3; pause 200%Z;
             pause 500%Z;
             Ev (PoolExec p listen_notify.sql_drop_trigger []) d1;
             Ev (PoolExec p listen_notify.sql_drop_function []) d2].
Proof.
  unfold listen_notify.after_listen.
  rewrite run_call_then. destruct (h _ (Sleep _) s) as [[] s1]. cbn [fst snd].
  rewrite run_bind. cbv zeta.
  assert (Hloop : exists u1 u2 u3 s4,
             run h (for_range 3 0 (listen_notify.trigger_update pool) tt) s1
             = mkRun (Returned tt) s4
                 [Ev (PoolExec (database.Pool_ pool) listen_notify.sql_update_status
                               [AStr "active"]) u1;
                  Ev (Sleep (200 * advanced_patterns.Millisecond)%Z) tt;
                  Ev (PoolExec (database.Pool_ pool) listen_notify.sql_update_status
                               [AStr "maintenance"]) u2;
                  Ev (Sleep (200 * advanced_patterns.Millisecond)%Z) tt;
                  Ev (PoolExec (database.Pool_ pool) listen_notify.sql_update_status
                               [AStr "offline"]) u3;
                  Ev (Sleep (200 * advanced_patterns.Millisecond)%Z) tt]).
  { assert (Hround : forall i s0,
               exists u s0',
                 run h (listen_notify.trigger_update pool i tt) s0
                 = mkRun (Returned tt) s0'
                     [Ev (PoolExec (database.Pool_ pool) listen_notify.sql_update_status
                                   [AStr (nth (i mod 3) listen_notify.statuses EmptyString)]) u;
                      Ev (Sleep (200 * advanced_patterns.Millisecond)%Z) tt]).
    { intros i s0. unfold listen_notify.trigger_update. cbn [run bind call].
      destruct (h _ (PoolExec _ _ _) s0) as [u s0']. cbn [outcome final trace].
      destruct (h _ (Sleep _) s0') as [[] s0'']. cbn [outcome final trace].
      exists u, s0''. reflexivity. }
    cbn [for_range].
    rewrite run_bind. destruct (Hround 0 s1) as (u1 & s2 & ->).
    cbv zeta. cbn [outcome final trace].
    rewrite run_bind. destruct (Hround 1 s2) as (u2 & s3 & ->).
    cbv zeta. cbn [outcome final trace].
    rewrite run_bind. destruct (Hround 2 s3) as (u3 & s4 & ->).
    cbv zeta. cbn [outcome final trace run app].
    exists u1, u2, u3, s4. reflexivity. }
  destruct Hloop as (u1 & u2 & u3 & s4 & ->). cbn [outcome final trace].
  rewrite run_call_then. destruct (h _ (Sleep _) s4) as [[] s5]. cbn [fst snd].
  rewrite run_call_then.
  destruct (h _ (PoolExec _ listen_notify.sql_drop_trigger _) s5) as [d1 s6]. cbn [fst snd].
  rewrite run_call_then.
  destruct (h _ (PoolExec _ listen_notify.sql_drop_function _) s6) as [d2 s7]. cbn [fst snd].
  cbn [run outcome final trace app].
  exists u1, u2, u3, d1, d2, s7. reflexivity.
Qed.

End ListenNotifyMain.

(** The main goroutine of listenNotifyDemo against a driver that answers
    every call: it returns, and its calls are those of one path of the
    text. *)
Lemma run_listenNotifyDemo (S : Type) (h : Handler S) (pool : database.Pool) (s : S) :
  outcome (run h (listen_notify.listenNotifyDemo pool) s) = Returned tt
  /\ listen_story pool (trace (run h (listen_notify.listenNotifyDemo pool) s)).
Proof.
  unfold listen_story, listen_notify.listenNotifyDemo. cbv zeta. cbn [run bind call].
  destruct (h _ (Println _) s) as [[] s1]. cbn [outcome final trace].
  destruct (h _ (PoolExec _ listen_notify.sql_create_function _) s1) as [[n | err] s2];
    cbn [outcome final trace run bind call].
  2:{ destruct (h _ (LogPrintf _ _) s2) as [[] s3]. cbn [outcome final trace].
      split; [reflexivity|]. left. exists err. reflexivity. }
  destruct (h _ (PoolExec _ listen_notify.sql_attach_trigger _) s2) as [attached s3].
  cbn [outcome final trace].
  destruct (h _ (PoolAcquire _) s3) as [[conn | err] s4];
    cbn [outcome final trace run bind call].
  2:{ destruct (h _ (LogPrintf _ _) s4) as [[] s5]. cbn [outcome final trace].
      split; [reflexivity|]. right. exists n, attached.
      left. exists err. reflexivity. }
  rewrite run_defer. cbv zeta. cbn [run bind call].
  destruct (h _ (ConnExec conn _ _) s4) as [[m | err] s5];
    cbn [outcome final trace run bind call].
  2:{ destruct (h _ (LogPrintf _ _) s5) as [[] s6]. cbn [outcome final trace].
      destruct (h _ (ConnRelease conn) s6) as [[] s7]. cbn [outcome final trace app].
      split; [reflexivity|]. right. exists n, attached.
      right. exists conn. left. exists err. reflexivity. }
  destruct (h _ (Println _) s5) as [[] s6]. cbn [outcome final trace].
  destruct (run_after_listen h pool s6) as (u1 & u2 & u3 & d1 & d2 & s16 & Hrest).
  cbv zeta in Hrest. rewrite Hrest. cbn [outcome final trace].
  destruct (h _ (ConnRelease conn) s16) as [[] s17]. cbn [outcome final trace app].
  split; [reflexivity|]. right. exists n, attached.
  right. exists conn. right. exists m, u1, u2, u3, d1, d2. reflexivity.
Qed.

Lemma conns_released_app (a b : list Event) :
  conns_released (a ++ b) = conns_released a ++ conns_released b.
Proof.
  induction a as [|[R c r] a IH]; [reflexivity|].
  simpl. destruct c; simpl; rewrite IH; reflexivity.
Qed.

(** A reader of the calls that finds nothing in a list without its last
    call finds nothing in what comes before any of its calls. *)
Lemma nothing_before_the_last {X : Type} (f : list Event -> list X)
      (whole a later : list Event) (e : Event) :
  (forall x y, f (x ++ y) = f x ++ f y) ->
  f (removelast whole) = [] ->
  whole = a ++ e :: later ->
  f a = [].
Proof.
  intros Happ Hnone ->. rewrite removelast_app in Hnone by discriminate.
  rewrite Happ in Hnone. apply app_eq_nil in Hnone. exact (proj1 Hnone).
Qed.

(** On every path the release is the last call, and there is one release
    for the one acquisition. *)
Lemma listen_story_release (pool : database.Pool) (tr : list Event) :
  listen_story pool tr ->
  conns_released (removelast tr) = []
  /\ conns_released tr = conns_acquired tr.
Proof.
  unfold listen_story. cbv zeta.
  intros [(err & ->) | (n & attached & [(err & ->) | (conn & [(err & ->) | H])])];
    try (split; reflexivity).
  destruct H as (m & u1 & u2 & u3 & d1 & d2 & ->). split; reflexivity.
Qed.

(** X12.  The main goroutine of listenNotifyDemo, against any driver,
    also one that leaves a call waiting (a pool at its ceiling does, under
    [context.Background()]).  Its calls are those of one path of the text:
    it stops at the first failure of the function creation, of the
    acquisition or of LISTEN, and logs it; the three updates carry
    "active", "maintenance" and "offline" in this order and their results
    are not looked at; the trigger and the function are dropped only at
    the end of a run that listened.  A run that comes to its end has
    returned, and has released the connection it acquired, once and as its
    last call, also when LISTEN failed.  A run that waits in a call has
    released nothing: the connection it acquired stays on lease for as
    long as it waits. *)
Theorem listenNotifyDemo_runs_call_by_call :
  forall (W : Type) (sh : Shared W) (pool : database.Pool) (w : W),
    let r := run_alone sh (listen_notify.listenNotifyDemo pool) w in
    exists whole,
      listen_story pool whole
      /\ match ending r with
         | Ended o =>
             o = Returned tt /\ calls r = whole
             /\ conns_released (calls r) = conns_acquired (calls r)
         | Waits c =>
             (exists answer later, whole = calls r ++ Ev c answer :: later)
             /\ conns_released (calls r) = []
         end.
Proof.
  intros W sh pool w r. subst r.
  destruct (run_listenNotifyDemo W (total_of sh) pool w) as (Hout & Hstory).
  exists (trace (run (total_of sh) (listen_notify.listenNotifyDemo pool) w)).
  split; [exact Hstory|].
  destruct (listen_story_release pool _ Hstory) as (Hlast & Hbalance).
  destruct (ending (run_alone sh (listen_notify.listenNotifyDemo pool) w))
    as [o | R c] eqn:Hend.
  - destruct (run_alone_ended sh _ w o Hend) as (Hcalls & Ho).
    rewrite Hcalls. split; [congruence|]. split; [reflexivity | exact Hbalance].
  - destruct (run_alone_waits sh _ w c Hend) as (answer & later & Htr).
    split; [exists answer, later; exact Htr|].
    exact (nothing_before_the_last conns_released _ _ later (Ev c answer)
             conns_released_app Hlast Htr).
Qed.

(* ===================================================================== *)
(** ** DistributedLock: the channel of results is closed last *)
(* ===================================================================== *)

Section LockCloseSteps.

Import advanced_patterns Locks LockPoints LockClose.
Variables (pool : database.Pool) (results : ChanH).

Ltac finish_with p'' :=
  exists p''; split; [reflexivity|]; split; [reflexivity|];
  first [ right; repeat split; reflexivity | left; repeat split; reflexivity ].

Ltac finish :=
  first
    [ finish_with WAcquireFailed | finish_with WWgDone | finish_with WReturned
    | match goal with
      | c : ConnH |- _ =>
          first [ finish_with (WTry c) | finish_with (WRefused c) | finish_with (WGot c)
                | finish_with (WSleep c) | finish_with (WUnlock c)
                | finish_with (WReleased c) | finish_with (WRelease c) ]
      | w : World |- _ => finish_with (WTry (next_conn w))
      end ].

(** One step of a worker, as the WaitGroup and the channel see it: only
    [wg.Done()] moves the counter, and it is the last step. *)
Lemma worker_step_wg (id : Z) (p : Worker) (w : World) (p' : Prog unit) (w' : World) :
  thread_step shared (worker_prog pool results id p) w = Some (p', w') ->
  exists p'',
    p' = worker_prog pool results id p''
    /\ results_closed w' = results_closed w
    /\ ((p = WWgDone /\ p'' = WReturned /\ wg w' = Nat.pred (wg w))
        \/ (active p = 1 /\ active p'' = 1 /\ wg w' = wg w)).
Proof.
  intros Hs.
  destruct p as [| | c | c | c | c | c | c | c | |];
    cbn -[Nat.ltb try_claim] in Hs; unfold fault in Hs;
    try (destruct (faults w) as [|[|] fs]; cbn -[Nat.ltb try_claim] in Hs);
    try (destruct (idle w) as [|c0 rest]; cbn -[Nat.ltb try_claim] in Hs);
    try (destruct (results_closed w) eqn:Hclosed; cbn -[Nat.ltb try_claim] in Hs);
    try (destruct (Nat.ltb _ _); cbn -[Nat.ltb try_claim] in Hs);
    try (destruct (try_claim _ _ _) as [[|] g']; cbn -[Nat.ltb try_claim] in Hs);
    try discriminate Hs;
    injection Hs as <- <-; cbn [results_closed wg with_results with_pool with_grants
                                  with_faults with_wg];
    rewrite ?Hclosed; finish.
Qed.

Lemma closer_step (c : Closer) (w : World) (p' : Prog unit) (w' : World) :
  thread_step shared (closer_prog results c) w = Some (p', w') ->
  exists c',
    p' = closer_prog results c'
    /\ wg w' = wg w
    /\ ((c = CWait /\ c' = CClose /\ wg w = 0 /\ results_closed w' = results_closed w)
        \/ (c = CClose /\ c' = CDone /\ results_closed w' = true)).
Proof.
  intros Hs. destruct c; cbn in Hs.
  - destruct (Nat.eqb_spec (wg w) 0) as [Hz|]; [|discriminate].
    injection Hs as <- <-. exists CClose. split; [reflexivity|]. split; [reflexivity|].
    left. auto.
  - injection Hs as <- <-. exists CDone. split; [reflexivity|]. split; [reflexivity|].
    right. auto.
  - discriminate.
Qed.

(** The main goroutine receives and prints: it moves neither the counter
    nor the closing of the channel. *)
Lemma printer_step (p p' : Prog unit) (w w' : World) :
  calls_only receives_and_prints p ->
  thread_step shared p w = Some (p', w') ->
  calls_only receives_and_prints p'
  /\ wg w' = wg w /\ results_closed w' = results_closed w.
Proof.
  intros Hp Hs. destruct p as [a | v | c | | R c k]; try discriminate.
  destruct Hp as [Hq Hk].
  destruct c; try contradiction; cbn in Hs;
    try (destruct (Locks.results w) as [|s rest]; cbn in Hs);
    try (destruct (results_closed w) eqn:Hclosed; cbn in Hs);
    try discriminate Hs;
    injection Hs as <- <-; (split; [apply Hk|]); cbn; rewrite ?Hclosed; split; reflexivity.
Qed.

Lemma main_receives_and_prints (fuel : nat) :
  calls_only receives_and_prints (advisoryLocksDemo_main fuel results).
Proof.
  unfold advisoryLocksDemo_main.
  apply calls_only_bind; [apply calls_only_call; exact I|]. intros _.
  apply calls_only_bind.
  - induction fuel as [|fuel IH]; simpl; [exact I|].
    split; [exact I|]. intros [result|]; simpl; [|exact I].
    split; [exact I|]. intros _. exact IH.
  - intros _. apply calls_only_bind; [apply calls_only_call; exact I|]. intros _.
    apply calls_only_call. exact I.
Qed.

Lemma count_active_replace (ws : list Worker) :
  forall (i : nat) (p p'' : Worker),
    nth_error ws i = Some p ->
    count_active (replace_nth i p'' ws) + active p = count_active ws + active p''.
Proof.
  unfold count_active.
  induction ws as [|q ws IH]; intros [|i] p p'' Hn; try discriminate; simpl in *.
  - injection Hn as ->. lia.
  - specialize (IH i p p'' Hn). lia.
Qed.

Lemma count_active_zero (ws : list Worker) :
  count_active ws = 0 -> Forall (fun p => p = WReturned) ws.
Proof.
  unfold count_active. induction ws as [|q ws IH]; simpl; intros H; constructor.
  - destruct q; simpl in H; try discriminate. reflexivity.
  - apply IH. lia.
Qed.

Lemma count_active_start (n : nat) : count_active (repeat WStart n) = n.
Proof. unfold count_active. induction n as [|n IH]; simpl; [reflexivity | rewrite IH; reflexivity]. Qed.

(** One step of the demo keeps the invariant of the WaitGroup. *)
Lemma close_inv_step (ws : list Worker) (c : Closer) (mainp : Prog unit)
      (ts' : list (Prog unit)) (w w' : World) :
  close_inv ws c w ->
  calls_only receives_and_prints mainp ->
  sys_step shared (worker_threads pool results 0 ws ++ [closer_prog results c; mainp], w)
           (ts', w') ->
  exists ws' c' mainp',
    ts' = worker_threads pool results 0 ws' ++ [closer_prog results c'; mainp']
    /\ List.length ws' = List.length ws
    /\ close_inv ws' c' w'
    /\ calls_only receives_and_prints mainp'.
Proof.
  intros [Hcount Hwaited Hclosed] Hmain Hstep.
  inversion Hstep as [ts w0 i p p' w1 Hnth Hs Hfrom Hto]. subst ts w0 ts' w1.
  destruct (Nat.lt_ge_cases i (List.length ws)) as [Hi | Hi].
  - rewrite nth_error_app1 in Hnth by (rewrite length_worker_threads; exact Hi).
    destruct (nth_error_worker_threads pool results _ _ _ _ Hnth) as (pw & Hpw & ->).
    destruct (worker_step_wg _ pw w p' w' Hs) as (p'' & -> & Hcl & Hwg).
    exists (replace_nth i p'' ws), c, mainp.
    rewrite replace_nth_app_l by (rewrite length_worker_threads; exact Hi).
    rewrite replace_nth_worker_threads, length_replace_nth.
    split; [reflexivity|]. split; [reflexivity|]. split; [|exact Hmain].
    pose proof (count_active_replace ws i pw p'' Hpw) as Hrep.
    destruct Hwg as [(-> & -> & Hw) | (Ha & Ha' & Hw)]; simpl in Hrep.
    + constructor.
      * rewrite Hw, Hcount. lia.
      * intros Hc. rewrite Hw, (Hwaited Hc). reflexivity.
      * rewrite Hcl. exact Hclosed.
    + constructor.
      * rewrite Hw, Hcount. lia.
      * intros Hc. rewrite Hw. exact (Hwaited Hc).
      * rewrite Hcl. exact Hclosed.
  - rewrite nth_error_app2 in Hnth by (rewrite length_worker_threads; exact Hi).
    rewrite replace_nth_app_r by (rewrite length_worker_threads; exact Hi).
    rewrite length_worker_threads in *.
    destruct (i - List.length ws) as [|[|j]] eqn:Hj; simpl in Hnth.
    + injection Hnth as <-.
      destruct (closer_step c w p' w' Hs) as (c' & -> & Hw & Hcases).
      exists ws, c', mainp. split; [reflexivity|]. split; [reflexivity|].
      split; [|exact Hmain].
      destruct Hcases as [(-> & -> & Hz & Hcl) | (-> & -> & Hcl)].
      * constructor; [congruence | intros _; congruence | rewrite Hcl; exact Hclosed].
      * constructor; [congruence | intros _; rewrite Hw; apply Hwaited; discriminate
                     | exact Hcl].
    + injection Hnth as <-.
      destruct (printer_step mainp p' w w' Hmain Hs) as (Hmain' & Hw & Hcl).
      exists ws, c, p'. split; [reflexivity|]. split; [reflexivity|].
      split; [|exact Hmain'].
      constructor; [congruence | intros Hc; rewrite Hw; exact (Hwaited Hc)
                   | rewrite Hcl; exact Hclosed].
    + destruct j; discriminate Hnth.
Qed.

Lemma close_reachable_inv (fuel n max : nat) (plan : list bool)
      (s : list (Prog unit) * World) :
  reachable shared (start fuel n max plan pool results) s ->
  exists ws c mainp,
    fst s = worker_threads pool results 0 ws ++ [closer_prog results c; mainp]
    /\ List.length ws = n
    /\ close_inv ws c (snd s)
    /\ calls_only receives_and_prints mainp.
Proof.
  intros Hr. induction Hr as [| s s' Hr IH Hstep].
  - exists (repeat WStart n), CWait, (advisoryLocksDemo_main fuel results).
    simpl. unfold advisoryLocksDemo_threads. rewrite worker_threads_start, repeat_length.
    split; [reflexivity|]. split; [reflexivity|]. split; [|apply main_receives_and_prints].
    constructor; simpl.
    + symmetry. apply count_active_start.
    + intros Hc. contradiction.
    + reflexivity.
  - destruct IH as (ws & c & mainp & Hts & Hlen & Hinv & Hmain).
    destruct s as [ts w], s' as [ts' w']. simpl in Hts, Hinv |- *. subst ts.
    destruct (close_inv_step _ _ _ _ _ _ Hinv Hmain Hstep)
      as (ws' & c' & mainp' & -> & Hl & Hi & Hm).
    exists ws', c', mainp'. split; [reflexivity|]. split; [congruence|]. split; assumption.
Qed.

End LockCloseSteps.

(** X13.  advisoryLocksDemo closes the channel of results last.  In every
    state that the demo can reach, with any number of workers, under any
    scheduling and any failures of the datastore: the counter of the
    WaitGroup is the number of workers that have not yet called
    [wg.Done()]; a worker that has not returned finds the channel open,
    so that no worker ever sends on a closed channel; and once the channel
    is closed every worker has returned. *)
Theorem results_channel_is_closed_last :
  forall (pool : database.Pool) (ch : ChanH) (fuel n max : nat) (plan : list bool)
         (ts : list (Prog unit)) (w : Locks.World),
    reachable Locks.shared (Locks.start fuel n max plan pool ch) (ts, w) ->
    exists ws c mainp,
      ts = LockPoints.worker_threads pool ch 0 ws ++ [LockClose.closer_prog ch c; mainp]
      /\ List.length ws = n
      /\ Locks.wg w = LockClose.count_active ws
      /\ (forall i p, nth_error ws i = Some p -> p <> LockPoints.WReturned ->
                      Locks.results_closed w = false)
      /\ (Locks.results_closed w = true ->
          Forall (fun p => p = LockPoints.WReturned) ws).
Proof.
  intros pool ch fuel n max plan ts w Hr.
  destruct (close_reachable_inv pool ch fuel n max plan _ Hr)
    as (ws & c & mainp & Hts & Hlen & [Hcount Hwaited Hclosed] & _).
  simpl in Hts, Hcount, Hwaited, Hclosed.
  exists ws, c, mainp. split; [exact Hts|]. split; [exact Hlen|]. split; [exact Hcount|].
  assert (Hall : Locks.results_closed w = true ->
                 Forall (fun p => p = LockPoints.WReturned) ws).
  { intros Hc. apply count_active_zero. rewrite <- Hcount. apply Hwaited.
    intros ->. rewrite Hclosed in Hc. discriminate Hc. }
  split; [|exact Hall].
  intros i p Hp Hne. destruct (Locks.results_closed w) eqn:Hc; [|reflexivity].
  exfalso. apply Hne. specialize (Hall eq_refl). rewrite Forall_forall in Hall.
  apply Hall. eapply nth_error_In. exact Hp.
Qed.

Lemma results_channel_is_closed_last_witness :
  reachable Locks.shared LockCases.one_worker
            (fst LockCases.one_worker_done, snd LockCases.one_worker_done)
  /\ Locks.results_closed (snd LockCases.one_worker_done) = true
  /\ exists ws c mainp,
      fst LockCases.one_worker_done
      = LockPoints.worker_threads Sample.pool 9 0 ws ++ [LockClose.closer_prog 9 c; mainp]
      /\ List.length ws = 1
      /\ Locks.wg (snd LockCases.one_worker_done) = LockClose.count_active ws
      /\ Forall (fun p => p = LockPoints.WReturned) ws.
Proof.
  assert (Hr : reachable Locks.shared LockCases.one_worker
                 (fst LockCases.one_worker_done, snd LockCases.one_worker_done)).
  { apply (run_schedule_reachable Locks.shared LockCases.one_worker_schedule
             LockCases.one_worker LockCases.one_worker).
    - apply reach_init.
    - vm_compute. reflexivity. }
  assert (Hc : Locks.results_closed (snd LockCases.one_worker_done) = true)
    by (vm_compute; reflexivity).
  split; [exact Hr|]. split; [exact Hc|].
  destruct (results_channel_is_closed_last Sample.pool 9 8 1 25 []
              (fst LockCases.one_worker_done) (snd LockCases.one_worker_done) Hr)
    as (ws & c & mainp & Hts & Hlen & Hwg & _ & Hall).
  exists ws, c, mainp. split; [exact Hts|]. split; [exact Hlen|]. split; [exact Hwg|].
  exact (Hall Hc).
Defined.

(* ===================================================================== *)
(** ** BatchWriter: what [batchInserts] opens, it closes *)
(* ===================================================================== *)

Section Returns.

Context {S : Type} (h : Handler S).












End Returns.

Section BatchInsertsLife.

Import batch_operations.
Context {S : Type} (h : Handler S).

Local Arguments for_range : simpl never.
Local Arguments while_ret : simpl never.
Local Arguments read_batch : simpl never.
Local Arguments defer : simpl never.
















End BatchInsertsLife.


(* ===================================================================== *)
(** ** DistributedLock: the main goroutine of advisoryLocksDemo *)
(* ===================================================================== *)

Section PrintResults.

Import advanced_patterns.
Context {S : Type} (h : Handler S).

Lemma run_print_results (results : ChanH) (fuel : nat) :
  forall s : S,
  exists msgs s',
    (run h (print_results fuel results) s
     = mkRun (Returned tt) s'
             (flat_map (receive_and_print results) msgs ++ [Ev (ChanRecvS results) None])
     /\ List.length msgs < fuel)
    \/ (run h (print_results fuel results) s
        = mkRun Diverged s' (flat_map (receive_and_print results) msgs)
        /\ List.length msgs = fuel).
Proof.
  induction fuel as [|fuel IH]; intros s.
  - exists [], s. right. split; reflexivity.
  - cbn [print_results run bind call].
    destruct (h _ (ChanRecvS results) s) as [[m|] s1]; cbn [outcome final trace run bind call].
    + destruct (h _ (Printf _ _) s1) as [[] s2]. cbn [outcome final trace].
      destruct (IH s2) as (msgs & s' & [(-> & Hlen) | (-> & Hlen)]);
        exists (m :: msgs), s'; cbn [outcome final trace flat_map receive_and_print app].
      * left. split; [reflexivity | simpl; lia].
      * right. split; [reflexivity | simpl; lia].
    + exists [], s1. left. split; [reflexivity | simpl; lia].
Qed.

(** X15.  The main goroutine of advisoryLocksDemo prints what it
    receives: after its heading it receives and prints, result by result
    and in the order of reception; it stops at the first reception that
    reports the channel closed and drained, prints its two closing lines
    and returns; it prints no result that it did not receive. *)
Theorem advisoryLocksDemo_prints_what_it_receives
        (fuel : nat) (results : ChanH) (s : S) :
  let r := run h (advisoryLocksDemo_main fuel results) s in
  exists msgs,
    (outcome r = Returned tt
     /\ List.length msgs < fuel
     /\ trace r
        = Ev (Println "✓ Advisory lock results:") tt
             :: flat_map (receive_and_print results) msgs
             ++ [Ev (ChanRecvS results) None;
                 Ev (Println (batch_operations.nl ++ "✓ Query to monitor advisory locks:")) tt;
                 Ev (Println lock_monitor_query) tt])
    \/ (outcome r = Diverged
        /\ List.length msgs = fuel
        /\ trace r
           = Ev (Println "✓ Advisory lock results:") tt
                :: flat_map (receive_and_print results) msgs).
Proof.
  intros r. subst r. unfold advisoryLocksDemo_main. cbn [run bind call].
  destruct (h _ (Println "✓ Advisory lock results:") s) as [[] s1].
  cbn [outcome final trace]. rewrite run_bind. cbv zeta.
  destruct (run_print_results results fuel s1) as (msgs & s2 & [(-> & Hlen) | (-> & Hlen)]);
    exists msgs; cbn [outcome final trace run bind call].
  - left.
    destruct (h _ (Println (batch_operations.nl ++ _)) s2) as [[] s3].
    cbn [outcome final trace].
    destruct (h _ (Println lock_monitor_query) s3) as [[] s4]. cbn [outcome final trace].
    split; [reflexivity|]. split; [exact Hlen|].
    rewrite <- app_assoc. reflexivity.
  - right. split; [reflexivity|]. split; [exact Hlen | reflexivity].
Qed.

End PrintResults.
(* ===================================================================== *)
(** ** StagingTable: the temp-table path of batchUpdates, call by call *)
(* ===================================================================== *)

Section StagingPath.

Import database batch_operations.
Context {S : Type} (h : Handler S).

(** What the function handed to [WithTx] does on a transaction. *)
Lemma run_batchUpdates_fn (start : Z) (tx : TxH) (s : S) :
  let create := TxExec tx sql_create_temp [] in
  let update := TxExec tx sql_update_join [] in
  let r := run h (batchUpdates_fn start tx) s in
  (exists err, outcome r = Returned (Some err)
               /\ trace r = [Ev create (inr err)])
  \/ exists m br closed,
      let staged := [Ev create (inl m);
                     Ev (TxSendBatch tx (map staging_row (seq 0 30))) br;
                     Ev (BrClose br) closed] in
      (exists err, outcome r = Returned (Some err)
                   /\ trace r = staged ++ [Ev update (inr err)])
      \/ (exists n t1,
             outcome r = Returned None
             /\ trace r = staged
                          ++ [Ev update (inl n);
                              Ev Now t1;
                              Ev (Printf ("✓ Temp-table updated %d sites in %v" ++ nl)
                                         [AInt n; AInt (t1 - start)]) tt]).
Proof.
  cbv zeta. unfold batchUpdates_fn.
  rewrite run_call_then.
  destruct (h _ (TxExec tx sql_create_temp []) s) as [[m|err] s1]; cbn [fst snd].
  2:{ left. exists err. cbn [run outcome trace]. split; reflexivity. }
  right. cbv zeta.
  rewrite run_call_then.
  destruct (h _ (TxSendBatch tx (map staging_row (seq 0 30))) s1) as [br s2]; cbn [fst snd].
  rewrite run_call_then.
  destruct (h _ (BrClose br) s2) as [closed s3]; cbn [fst snd].
  rewrite run_call_then.
  destruct (h _ (TxExec tx sql_update_join []) s3) as [[n|err] s4]; cbn [fst snd].
  - exists m, br, closed. right.
    unfold Since. cbn [run bind call].
    destruct (h _ Now s4) as [t1 s5]. cbn [outcome final trace].
    destruct (h _ (Printf _ _) s5) as [[] s6]. cbn [outcome final trace app].
    exists n, t1. split; reflexivity.
  - exists m, br, closed. left. exists err.
    cbn [run outcome final trace app]. split; reflexivity.
Qed.

End StagingPath.

(** X16.  The temp-table path of batchUpdates, against any driver.  It
    always returns.  It stops at the first of CREATE and UPDATE that
    fails and rolls the transaction back.  What [br.Close()] answers is
    ignored: the UPDATE follows it in any case.  The [Commit] comes only
    after the UPDATE succeeded and its report was printed, and no
    [Rollback] is sent in that run.  An error, wherever it arose, is
    logged once and as the last call, and the cause it wraps is the error
    of the call that failed. *)
Theorem batchUpdates_commits_after_the_update :
  forall (S : Type) (h : Handler S) (pool : database.Pool) (s : S),
    let r := run h (batch_operations.batchUpdates_method3 pool) s in
    let begin := PoolBegin (database.Pool_ pool) in
    let logged e := Ev (LogPrintf "Temp table update error: %v" [AErr e]) tt in
    outcome r = Returned tt
    /\ exists t0,
        (exists err e,
            trace r = [Ev Now t0; Ev begin (inr err); logged e]
            /\ Unwrap e = Some err)
        \/ exists tx,
            let create := TxExec tx batch_operations.sql_create_temp [] in
            let update := TxExec tx batch_operations.sql_update_join [] in
            (exists err rb e,
                trace r = [Ev Now t0; Ev begin (inl tx); Ev create (inr err);
                           Ev (TxRollback tx) rb; logged e]
                /\ errors_Is e err = true)
            \/ exists m br closed,
                let staged :=
                  [Ev Now t0; Ev begin (inl tx); Ev create (inl m);
                   Ev (TxSendBatch tx (map batch_operations.staging_row (seq 0 30))) br;
                   Ev (BrClose br) closed] in
                (exists err rb e,
                    trace r = staged ++ [Ev update (inr err); Ev (TxRollback tx) rb; logged e]
                    /\ errors_Is e err = true)
                \/ exists n t1 rc,
                    let report :=
                      [Ev update (inl n);
                       Ev Now t1;
                       Ev (Printf ("✓ Temp-table updated %d sites in %v" ++ batch_operations.nl)
                                  [AInt n; AInt (t1 - t0)]) tt;
                       Ev (TxCommit tx) rc] in
                    match rc with
                    | None => trace r = staged ++ report
                    | Some err =>
                        exists e, trace r = staged ++ report ++ [logged e]
                                  /\ Unwrap e = Some err
                    end.
Proof.
  intros S h pool s. cbv zeta. unfold batch_operations.batchUpdates_method3.
  rewrite run_call_then. destruct (h _ Now s) as [t0 s0]. cbn [fst snd].
  rewrite run_bind.
  destruct (h _ (PoolBegin (database.Pool_ pool)) s0) as [[tx|err] s1] eqn:Hbegin.
  2:{ rewrite (WithTx_failed_begin h pool _ s0 s1 err Hbegin). cbv zeta.
      cbn [outcome final trace run call].
      destruct (h _ (LogPrintf _ _) s1) as [[] s2]. cbn [outcome final trace app].
      split; [reflexivity|]. exists t0. left.
      exists err, (Errorf_w "begin tx: " err). split; reflexivity. }
  rewrite (WithTx_after_begin h pool _ s0 s1 tx Hbegin). cbv zeta.
  destruct (run_batchUpdates_fn h t0 tx s1)
    as [(err & Hout & Htr) | (m & br & closed & [(err & Hout & Htr) | (n & t1 & Hout & Htr)])];
    cbv zeta in Hout, Htr; rewrite Hout, Htr.
  - destruct (h _ (TxRollback tx) _) as [rb s2]. cbn [outcome final trace run call].
    destruct (h _ (LogPrintf _ _) s2) as [[] s3]. cbn [outcome final trace app].
    split; [reflexivity|]. exists t0. right. exists tx. left.
    eexists err, rb, _. split; [reflexivity|].
    destruct rb as [rbErr|]; [apply errors_Is_wrap | apply errors_Is_refl].
  - destruct (h _ (TxRollback tx) _) as [rb s2]. cbn [outcome final trace run call].
    destruct (h _ (LogPrintf _ _) s2) as [[] s3]. cbn [outcome final trace app].
    split; [reflexivity|]. exists t0. right. exists tx. right.
    exists m, br, closed. left.
    eexists err, rb, _. split; [reflexivity|].
    destruct rb as [rbErr|]; [apply errors_Is_wrap | apply errors_Is_refl].
  - destruct (h _ (TxCommit tx) _) as [[err|] s2]; cbn [option_map outcome final trace run call].
    + destruct (h _ (LogPrintf _ _) s2) as [[] s3]. cbn [outcome final trace app].
      split; [reflexivity|]. exists t0. right. exists tx. right.
      exists m, br, closed. right. exists n, t1, (Some err).
      exists (Errorf_w "commit failed: " err). split; reflexivity.
    + cbn [outcome final trace app].
      split; [reflexivity|]. exists t0. right. exists tx. right.
      exists m, br, closed. right. exists n, t1, None. reflexivity.
Qed.

(** A store on which closing the batch fails and the rest succeeds: the
    path goes on to the UPDATE, commits, and logs nothing. *)
Example batchUpdates_commits_over_a_failed_batch :
  let st := Datastore.with_faults [None; None; Some Sample.e2; None; None] Datastore.empty in
  let tr := trace (run Datastore.pg (batch_operations.batchUpdates_method3 Sample.pool) st) in
  nth_error tr 4 = Some (Ev (BrClose 2) (Some Sample.e2))
  /\ skipn 8 tr = [Ev (TxCommit 1) None].
Proof. vm_compute. split; reflexivity. Qed.
(* ===================================================================== *)
(** ** DistributedLock: advisoryLocksDemo runs to its end *)
(* ===================================================================== *)

Lemma list_sum_map_replace {A : Type} (f : A -> nat) (l : list A) :
  forall (i : nat) (x y : A),
    nth_error l i = Some x ->
    list_sum (map f (replace_nth i y l)) + f x = list_sum (map f l) + f y.
Proof.
  induction l as [|z l IH]; intros [|i] x y Hn; try discriminate; simpl in *.
  - injection Hn as ->. lia.
  - specialize (IH i x y Hn). lia.
Qed.

Lemma list_sum_map_repeat {A : Type} (f : A -> nat) (x : A) (n : nat) :
  list_sum (map f (repeat x n)) = n * f x.
Proof. induction n as [|n IH]; simpl; [reflexivity | rewrite IH; reflexivity]. Qed.

(** Goroutines that have all returned cannot move. *)
Lemma returned_goroutines_are_quiescent {W : Type} (sh : Shared W) (n : nat) (w : W) :
  quiescent sh (repeat (Ret tt) n, w).
Proof.
  intros s' Hstep. inversion Hstep as [ts w0 i p p' w' Hn Hs]; subst.
  apply nth_error_In, repeat_spec in Hn. subst p. discriminate Hs.
Qed.

Section LockLiveSteps.

Import advanced_patterns Locks LockPoints LockClose LockLive.
Variables (pool : database.Pool) (results : ChanH).

Ltac effect_with p'' :=
  exists p''; split; [reflexivity|];
  cbn [active conn_of sends_left worker_steps
       wg results_closed results_capacity max_conns leased Locks.results
       with_results with_pool with_grants with_faults with_wg];
  rewrite ?length_app; cbn [List.length];
  repeat match goal with
         | |- _ /\ _ => split
         end;
  first [ reflexivity | lia | (intros; congruence) | (split; reflexivity) ].

Ltac effect :=
  first
    [ effect_with WAcquireFailed | effect_with WWgDone | effect_with WReturned
    | match goal with
      | c : ConnH |- _ =>
          first [ effect_with (WTry c) | effect_with (WRefused c) | effect_with (WGot c)
                | effect_with (WSleep c) | effect_with (WUnlock c)
                | effect_with (WReleased c) | effect_with (WRelease c) ]
      | w : World |- _ => effect_with (WTry (next_conn w))
      end ].

(** One step of a worker, with all that it does to the world. *)
Lemma worker_step_effect (id : Z) (p : Worker) (w : World) (p' : Prog unit) (w' : World) :
  thread_step shared (worker_prog pool results id p) w = Some (p', w') ->
  exists p'',
    p' = worker_prog pool results id p''
    /\ wg w' = wg w - (active p - active p'')
    /\ active p'' <= active p
    /\ results_closed w' = results_closed w
    /\ results_capacity w' = results_capacity w
    /\ max_conns w' = max_conns w
    /\ match conn_of p, conn_of p'' with
       | None, Some c => leased w' = c :: leased w
       | Some c, None => leased w' = remove Nat.eq_dec c (leased w)
       | Some c, Some c' => c = c' /\ leased w' = leased w
       | None, None => leased w' = leased w
       end
    /\ sends_left p'' + List.length (Locks.results w')
       <= sends_left p + List.length (Locks.results w)
    /\ (results_closed w = true -> Locks.results w' = Locks.results w)
    /\ worker_steps p'' < worker_steps p.
Proof.
  intros Hs.
  destruct p as [| | c | c | c | c | c | c | c | |];
    cbn -[Nat.ltb try_claim] in Hs; unfold fault in Hs;
    try (destruct (faults w) as [|[|] fs]; cbn -[Nat.ltb try_claim] in Hs);
    try (destruct (idle w) as [|c0 rest]; cbn -[Nat.ltb try_claim] in Hs);
    try (destruct (results_closed w) eqn:Hclosed; cbn -[Nat.ltb try_claim] in Hs);
    try (destruct (Nat.ltb _ _); cbn -[Nat.ltb try_claim] in Hs);
    try (destruct (try_claim _ _ _) as [[|] g']; cbn -[Nat.ltb try_claim] in Hs);
    try discriminate Hs;
    injection Hs as <- <-; effect.
Qed.

(** When a worker cannot move: it waits for a connection at the ceiling
    of the pool, or it waits to send on a channel that is full (or
    closed), or it has returned. *)
Lemma worker_stuck (id : Z) (p : Worker) (w : World) :
  thread_step shared (worker_prog pool results id p) w = None ->
  match p with
  | WStart => max_conns w <= List.length (leased w)
  | WReturned => True
  | _ =>
      sending p = true
      /\ (results_closed w = true
          \/ results_capacity w <= List.length (Locks.results w))
  end.
Proof.
  intros Hs.
  destruct p as [| | c | c | c | c | c | c | c | |];
    cbn -[Nat.ltb try_claim] in Hs; unfold fault in Hs;
    try (destruct (faults w) as [|[|] fs]; cbn -[Nat.ltb try_claim] in Hs);
    try (destruct (idle w) as [|c0 rest]; cbn -[Nat.ltb try_claim] in Hs);
    try (destruct (results_closed w) eqn:Hclosed; cbn -[Nat.ltb try_claim] in Hs);
    try (destruct (Nat.ltb_spec (List.length (leased w)) (max_conns w)));
    try (destruct (Nat.ltb_spec (List.length (Locks.results w)) (results_capacity w)));
    try (destruct (try_claim _ _ _) as [[|] g']; cbn -[Nat.ltb try_claim] in Hs);
    try discriminate Hs;
    cbn [sending with_faults max_conns leased];
    first [ exact I | assumption | (split; [reflexivity|]; auto) ].
Qed.

Lemma closer_step_effect (c : Closer) (w : World) (p' : Prog unit) (w' : World) :
  thread_step shared (closer_prog results c) w = Some (p', w') ->
  exists c',
    p' = closer_prog results c'
    /\ closer_steps c' < closer_steps c
    /\ wg w' = wg w
    /\ leased w' = leased w
    /\ Locks.results w' = Locks.results w
    /\ results_capacity w' = results_capacity w
    /\ max_conns w' = max_conns w
    /\ ((c = CWait /\ c' = CClose /\ wg w = 0 /\ results_closed w' = results_closed w)
        \/ (c = CClose /\ c' = CDone /\ results_closed w' = true)).
Proof.
  intros Hs. destruct c; cbn in Hs.
  - destruct (Nat.eqb_spec (wg w) 0) as [Hz|]; [|discriminate].
    injection Hs as <- <-. exists CClose. simpl. repeat split; auto.
  - injection Hs as <- <-. exists CDone. simpl. repeat split; auto.
  - discriminate.
Qed.

Lemma closer_stuck (c : Closer) (w : World) :
  thread_step shared (closer_prog results c) w = None ->
  match c with
  | CWait => wg w <> 0
  | CClose => False
  | CDone => True
  end.
Proof.
  intros Hs. destruct c; cbn in Hs.
  - destruct (Nat.eqb_spec (wg w) 0); [discriminate | assumption].
  - discriminate.
  - exact I.
Qed.

(** One step of the main goroutine. *)
Lemma printer_step_effect (m : Printer) (w : World) (p' : Prog unit) (w' : World) :
  thread_step shared (printer_prog results m) w = Some (p', w') ->
  exists m',
    p' = printer_prog results m'
    /\ printer_steps m' < printer_steps m
    /\ wg w' = wg w
    /\ leased w' = leased w
    /\ results_closed w' = results_closed w
    /\ results_capacity w' = results_capacity w
    /\ max_conns w' = max_conns w
    /\ match m with
       | MRecv fuel =>
           exists fuel',
             fuel = S fuel'
             /\ ((exists s, m' = MPrint fuel' s /\ Locks.results w = s :: Locks.results w')
                 \/ (m' = MTail /\ Locks.results w = [] /\ results_closed w = true
                     /\ Locks.results w' = []))
       | MHead fuel | MPrint fuel _ => m' = MRecv fuel /\ Locks.results w' = Locks.results w
       | MTail => m' = MLast /\ Locks.results w' = Locks.results w
       | MLast => m' = MDone /\ Locks.results w' = Locks.results w
       | MDone => False
       end.
Proof.
  intros Hs. destruct m as [fuel | [|fuel] | fuel s | | |]; cbn in Hs; try discriminate Hs.
  - injection Hs as <- <-. exists (MRecv fuel). simpl. repeat split; auto; lia.
  - destruct (Locks.results w) as [|s rest] eqn:Hres.
    + destruct (results_closed w) eqn:Hclosed; [|discriminate].
      injection Hs as <- <-. exists MTail. simpl.
      split; [reflexivity|]. split; [lia|]. repeat (split; [reflexivity || exact Hclosed|]).
      exists fuel. split; [reflexivity|]. right. rewrite ?Hres. repeat split; reflexivity.
    + injection Hs as <- <-. exists (MPrint fuel s). simpl.
      split; [reflexivity|]. split; [lia|]. repeat (split; [reflexivity|]).
      exists fuel. split; [reflexivity|]. left. exists s. split; reflexivity.
  - injection Hs as <- <-. exists (MRecv fuel). simpl. repeat split; auto; lia.
  - injection Hs as <- <-. exists MLast. simpl. repeat split; auto.
  - injection Hs as <- <-. exists MDone. simpl. repeat split; auto.
Qed.

Lemma printer_stuck (m : Printer) (w : World) :
  thread_step shared (printer_prog results m) w = None ->
  match m with
  | MRecv 0 => True
  | MRecv (S _) => Locks.results w = [] /\ results_closed w = false
  | MDone => True
  | _ => False
  end.
Proof.
  intros Hs. destruct m as [fuel | [|fuel] | fuel s | | |]; cbn in Hs;
    try discriminate Hs; try exact I.
  destruct (Locks.results w) as [|s rest]; [|discriminate].
  destruct (results_closed w); [discriminate|]. split; reflexivity.
Qed.

(** The connections on lease stay in the hands of the workers. *)
Lemma leases_step (ws : list Worker) (w w' : World) (i : nat) (p p'' : Worker) :
  (forall conn, In conn (leased w) ->
                exists j q, nth_error ws j = Some q /\ conn_of q = Some conn) ->
  nth_error ws i = Some p ->
  match conn_of p, conn_of p'' with
  | None, Some c => leased w' = c :: leased w
  | Some c, None => leased w' = remove Nat.eq_dec c (leased w)
  | Some c, Some c' => c = c' /\ leased w' = leased w
  | None, None => leased w' = leased w
  end ->
  forall conn, In conn (leased w') ->
               exists j q, nth_error (replace_nth i p'' ws) j = Some q
                           /\ conn_of q = Some conn.
Proof.
  intros Hinv Hnth Heff conn Hin.
  assert (Hhere : conn_of p'' = Some conn ->
                  exists j q, nth_error (replace_nth i p'' ws) j = Some q
                              /\ conn_of q = Some conn).
  { intros Hc. exists i, p''. rewrite nth_error_replace_nth, Nat.eqb_refl, Hnth.
    split; [reflexivity | exact Hc]. }
  assert (Hold : In conn (leased w) ->
                 (conn_of p = Some conn -> conn_of p'' = Some conn) ->
                 exists j q, nth_error (replace_nth i p'' ws) j = Some q
                             /\ conn_of q = Some conn).
  { intros Hl Hsame. destruct (Hinv conn Hl) as (j & q & Hj & Hq).
    destruct (Nat.eqb_spec j i) as [-> | Hne].
    - apply Hhere. apply Hsame. congruence.
    - exists j, q. rewrite nth_error_replace_nth.
      destruct (Nat.eqb_spec j i); [contradiction|]. split; assumption. }
  destruct (conn_of p) as [c|] eqn:Hp; destruct (conn_of p'') as [c'|] eqn:Hp''.
  - destruct Heff as [-> Hl]. rewrite Hl in Hin. apply Hold; [exact Hin | auto].
  - rewrite Heff in Hin. apply in_remove in Hin. destruct Hin as [Hin Hne].
    apply Hold; [exact Hin | congruence].
  - rewrite Heff in Hin. destruct Hin as [-> | Hin]; [apply Hhere; reflexivity|].
    apply Hold; [exact Hin | congruence].
  - rewrite Heff in Hin. apply Hold; [exact Hin | congruence].
Qed.

(** One step of the demo keeps the invariant and uses up a step. *)
Lemma live_inv_step (ws : list Worker) (c : Closer) (m : Printer)
      (ts' : list (Prog unit)) (w w' : World) :
  live_inv ws c m w ->
  sys_step shared
    (worker_threads pool results 0 ws ++ [closer_prog results c; printer_prog results m], w)
    (ts', w') ->
  exists ws' c' m',
    ts' = worker_threads pool results 0 ws' ++ [closer_prog results c'; printer_prog results m']
    /\ List.length ws' = List.length ws
    /\ live_inv ws' c' m' w'
    /\ steps_left ws' c' m' < steps_left ws c m.
Proof.
  intros [Hcount Hwaited Hclosed Hleases Hfuel Hroom Hceil] Hstep.
  inversion Hstep as [ts w0 i p p' w1 Hnth Hs Hfrom Hto]. subst ts w0 ts' w1.
  destruct (Nat.lt_ge_cases i (List.length ws)) as [Hi | Hi].
  - rewrite nth_error_app1 in Hnth by (rewrite length_worker_threads; exact Hi).
    destruct (nth_error_worker_threads pool results _ _ _ _ Hnth) as (pw & Hpw & ->).
    destruct (worker_step_effect _ pw w p' w' Hs)
      as (p'' & -> & Hwg & Hact & Hcl & Hcap & Hmax & Hlease & Hsend & Hkeep & Hdec).
    exists (replace_nth i p'' ws), c, m.
    rewrite replace_nth_app_l by (rewrite length_worker_threads; exact Hi).
    rewrite replace_nth_worker_threads, length_replace_nth.
    split; [reflexivity|]. split; [reflexivity|].
    pose proof (list_sum_map_replace active ws i pw p'' Hpw) as Hrep.
    pose proof (list_sum_map_replace sends_left ws i pw p'' Hpw) as Hrep_s.
    pose proof (list_sum_map_replace worker_steps ws i pw p'' Hpw) as Hrep_w.
    fold (count_active (replace_nth i p'' ws)) in Hrep. fold (count_active ws) in Hrep.
    fold (to_send (replace_nth i p'' ws)) in Hrep_s. fold (to_send ws) in Hrep_s.
    split; [|unfold steps_left; lia].
    constructor.
    + lia.
    + intros Hc. specialize (Hwaited Hc). lia.
    + rewrite Hcl. exact Hclosed.
    + exact (leases_step ws w w' i pw p'' Hleases Hpw Hlease).
    + destruct m; try lia.
      * destruct Hfuel as [Hc Hr]. rewrite Hcl, (Hkeep Hc). split; assumption.
      * destruct Hfuel as [Hc Hr]. rewrite Hcl, (Hkeep Hc). split; assumption.
      * destruct Hfuel as [Hc Hr]. rewrite Hcl, (Hkeep Hc). split; assumption.
    + lia.
    + lia.
  - rewrite nth_error_app2 in Hnth by (rewrite length_worker_threads; exact Hi).
    rewrite replace_nth_app_r by (rewrite length_worker_threads; exact Hi).
    rewrite length_worker_threads in *.
    destruct (i - List.length ws) as [|[|j]] eqn:Hj; simpl in Hnth.
    + injection Hnth as <-.
      destruct (closer_step_effect c w p' w' Hs)
        as (c' & -> & Hdec & Hwg & Hl & Hres & Hcap & Hmax & Hcases).
      exists ws, c', m. split; [reflexivity|]. split; [reflexivity|].
      split; [|unfold steps_left; lia].
      constructor.
      * congruence.
      * intros _. destruct Hcases as [(_ & _ & Hz & _) | (-> & _ & _)];
          [congruence | rewrite Hwg; apply Hwaited; discriminate].
      * destruct Hcases as [(-> & -> & _ & Hcl) | (-> & -> & Hcl)];
          [rewrite Hcl; exact Hclosed | exact Hcl].
      * rewrite Hl. exact Hleases.
      * rewrite Hres.
        destruct m; try exact Hfuel;
          (destruct Hfuel as [Hc Hr]; split; [|exact Hr];
           destruct Hcases as [(_ & _ & _ & Hcl) | (_ & _ & Hcl)]; congruence).
      * lia.
      * lia.
    + injection Hnth as <-.
      destruct (printer_step_effect m w p' w' Hs)
        as (m' & -> & Hdec & Hwg & Hl & Hcl & Hcap & Hmax & Hcases).
      exists ws, c, m'. split; [reflexivity|]. split; [reflexivity|].
      split; [|unfold steps_left; lia].
      constructor.
      * congruence.
      * intros Hc. rewrite Hwg. exact (Hwaited Hc).
      * rewrite Hcl. exact Hclosed.
      * rewrite Hl. exact Hleases.
      * destruct m as [fuel | fuel | fuel s | | |].
        -- destruct Hcases as [-> Hres]. rewrite Hres. exact Hfuel.
        -- destruct Hcases as (fuel' & -> & [(s & -> & Hres) | (-> & Hres & Hc & Hres')]).
           ++ rewrite Hres in Hfuel. simpl in Hfuel. lia.
           ++ rewrite Hcl. split; assumption.
        -- destruct Hcases as [-> Hres]. rewrite Hres. exact Hfuel.
        -- destruct Hcases as [-> Hres]. rewrite Hres, Hcl. exact Hfuel.
        -- destruct Hcases as [-> Hres]. rewrite Hres, Hcl. exact Hfuel.
        -- contradiction.
      * lia.
      * lia.
    + destruct j; discriminate Hnth.
Qed.

Section Runs.

Variables (fuel n max : nat) (plan : list bool).
Hypothesis some_connection : 1 <= max.
Hypothesis enough_fuel : 2 * n < fuel.

Lemma live_run_inv (k : nat) (s : list (Prog unit) * World) :
  run_of_length shared (start fuel n max plan pool results) k s ->
  exists ws c m,
    fst s = worker_threads pool results 0 ws
            ++ [closer_prog results c; printer_prog results m]
    /\ List.length ws = n
    /\ live_inv ws c m (snd s)
    /\ k + steps_left ws c m <= 8 * n + 2 * fuel + 4.
Proof.
  induction 1 as [| k s s' Hrun IH Hstep].
  - exists (repeat WStart n), CWait, (MHead fuel).
    simpl. unfold advisoryLocksDemo_threads. rewrite worker_threads_start, repeat_length.
    split; [reflexivity|]. split; [reflexivity|]. split.
    + constructor; simpl.
      * symmetry. apply count_active_start.
      * intros Hc. contradiction.
      * reflexivity.
      * intros conn [].
      * unfold to_send. rewrite list_sum_map_repeat. simpl. lia.
      * unfold advanced_patterns.results_capacity. lia.
      * exact some_connection.
    + unfold steps_left. rewrite list_sum_map_repeat. simpl. lia.
  - destruct IH as (ws & c & m & Hts & Hlen & Hinv & Hk).
    destruct s as [ts w], s' as [ts' w']. simpl in Hts, Hinv |- *. subst ts.
    destruct (live_inv_step _ _ _ _ _ _ Hinv Hstep)
      as (ws' & c' & m' & -> & Hl & Hi & Hdec).
    exists ws', c', m'. split; [reflexivity|]. split; [congruence|].
    split; [exact Hi | lia].
Qed.

End Runs.

Lemma nth_error_worker_thread (ws : list Worker) :
  forall (from i : nat) (p : Worker),
    nth_error ws i = Some p ->
    nth_error (worker_threads pool results from ws) i
    = Some (worker_prog pool results (Z.of_nat (from + i)) p).
Proof.
  induction ws as [|p0 ws IH]; intros from [|i] p Hn; try discriminate; simpl in *.
  - injection Hn as ->. rewrite Nat.add_0_r. reflexivity.
  - rewrite (IH (S from) i p Hn), Nat.add_succ_r. reflexivity.
Qed.

Lemma worker_threads_returned (ws : list Worker) :
  forall from,
    Forall (fun p => p = WReturned) ws ->
    worker_threads pool results from ws = repeat (Ret tt) (List.length ws).
Proof.
  induction ws as [|p ws IH]; intros from Hall; [reflexivity|].
  inversion Hall as [|? ? -> Hrest]. simpl. rewrite (IH _ Hrest). reflexivity.
Qed.

(** In a state of the invariant where nothing can move, everything is
    done. *)
Lemma live_inv_quiescent (ws : list Worker) (c : Closer) (m : Printer) (w : World) :
  live_inv ws c m w ->
  quiescent shared
    (worker_threads pool results 0 ws ++ [closer_prog results c; printer_prog results m], w) ->
  Forall (fun p => p = WReturned) ws /\ c = CDone /\ m = MDone
  /\ Locks.results w = [] /\ results_closed w = true /\ leased w = [] /\ wg w = 0.
Proof.
  intros [Hcount Hwaited Hclosed Hleases Hfuel Hroom Hceil] Hq.
  set (ts := worker_threads pool results 0 ws
             ++ [closer_prog results c; printer_prog results m]) in *.
  assert (Hstuck : forall i p, nth_error ts i = Some p -> thread_step shared p w = None).
  { intros i p Hn. destruct (thread_step shared p w) as [[p' w']|] eqn:Hs; [|reflexivity].
    exfalso. apply (Hq (replace_nth i p' ts, w')). econstructor; eassumption. }
  assert (Hworker : forall i p, nth_error ws i = Some p ->
             thread_step shared (worker_prog pool results (Z.of_nat i) p) w = None).
  { intros i p Hn. apply (Hstuck i). unfold ts.
    rewrite nth_error_app1
      by (rewrite length_worker_threads; apply nth_error_Some; congruence).
    apply (nth_error_worker_thread ws 0 i p Hn). }
  assert (Hcloser : thread_step shared (closer_prog results c) w = None).
  { apply (Hstuck (List.length ws)). unfold ts.
    rewrite nth_error_app2 by (rewrite length_worker_threads; lia).
    rewrite length_worker_threads, Nat.sub_diag. reflexivity. }
  assert (Hmain : thread_step shared (printer_prog results m) w = None).
  { apply (Hstuck (S (List.length ws))). unfold ts.
    rewrite nth_error_app2 by (rewrite length_worker_threads; lia).
    rewrite length_worker_threads.
    replace (S (List.length ws) - List.length ws) with 1 by lia. reflexivity. }
  clear Hstuck Hq. clearbody ts. clear ts.
  apply closer_stuck in Hcloser. apply printer_stuck in Hmain.
  (* a worker that has not returned finds the channel open *)
  assert (Hopen : forall i p, nth_error ws i = Some p -> p <> WReturned ->
                              results_closed w = false /\ c = CWait).
  { intros i p Hn Hp.
    assert (Hpos : count_active ws <> 0).
    { intros Hz. apply count_active_zero in Hz. rewrite Forall_forall in Hz.
      apply Hp, Hz. eapply nth_error_In; exact Hn. }
    destruct c; [|exfalso; apply Hpos; rewrite <- Hcount; apply Hwaited; discriminate ..].
    split; [exact Hclosed | reflexivity]. }
  (* no worker is waiting to send *)
  assert (Hnosend : forall i p, nth_error ws i = Some p -> sending p = true -> False).
  { intros i p Hn Hsend.
    assert (Hp : p <> WReturned) by (intros ->; discriminate Hsend).
    destruct (Hopen i p Hn Hp) as [Hop _].
    pose proof (worker_stuck _ p w (Hworker i p Hn)) as Hst.
    assert (Hfull : results_capacity w <= List.length (Locks.results w)).
    { destruct p; try discriminate Hsend;
        destruct Hst as [_ [Hc | Hf]]; congruence || exact Hf. }
    destruct m as [k | [|k] | k s | | |]; try contradiction.
    - lia.
    - destruct Hmain as [Hres _]. rewrite Hres in Hfull. simpl in Hfull. lia.
    - destruct Hfuel as [Hc _]. congruence. }
  (* no worker holds a connection *)
  assert (Hnoconn : forall i p conn, nth_error ws i = Some p -> conn_of p = Some conn -> False).
  { intros i p conn Hn Hc.
    pose proof (worker_stuck _ p w (Hworker i p Hn)) as Hst.
    destruct p; try discriminate Hc; destruct Hst as [Hsend _];
      exact (Hnosend i _ Hn Hsend). }
  assert (Hleased : leased w = []).
  { destruct (leased w) as [|conn rest] eqn:Hl; [reflexivity|].
    destruct (Hleases conn (or_introl eq_refl)) as (i & p & Hn & Hc).
    exfalso. exact (Hnoconn i p conn Hn Hc). }
  assert (Hall : Forall (fun p => p = WReturned) ws).
  { apply Forall_forall. intros p Hin.
    destruct (In_nth_error _ _ Hin) as (i & Hn).
    pose proof (worker_stuck _ p w (Hworker i p Hn)) as Hst.
    destruct p; try reflexivity; exfalso;
      try (destruct Hst as [Hsend _]; exact (Hnosend i _ Hn Hsend)).
    rewrite Hleased in Hst. simpl in Hst. lia. }
  assert (Hzero : wg w = 0).
  { rewrite Hcount. unfold count_active.
    clear - Hall. induction Hall as [|p ws -> _ IH]; simpl; [reflexivity | exact IH]. }
  assert (Hc : c = CDone) by (destruct c; [contradiction | contradiction | reflexivity]).
  subst c.
  assert (Hm : m = MDone).
  { destruct m as [k | [|k] | k s | | |]; try contradiction; try reflexivity.
    - lia.
    - destruct Hmain as [_ Hop]. congruence. }
  subst m. destruct Hfuel as [Hcl Hres].
  repeat split; assumption.
Qed.

End LockLiveSteps.

(** X17.  advisoryLocksDemo runs to its end without a deadlock.  With any
    number [n] of workers, a pool of at least one connection, any
    failures of the datastore and fuel for the [2 * n] results that the
    workers can send, under any scheduling: no run of the goroutines is
    longer than [8 * n + 2 * fuel + 4] steps; and in a state where no
    goroutine can move, every goroutine has returned, the channel is
    closed and drained, the WaitGroup is at zero, and no connection is
    left on lease. *)
Theorem advisoryLocksDemo_runs_to_its_end :
  forall (pool : database.Pool) (ch : ChanH) (fuel n max : nat) (plan : list bool)
         (k : nat) (ts : list (Prog unit)) (w : Locks.World),
    1 <= max ->
    2 * n < fuel ->
    run_of_length Locks.shared (Locks.start fuel n max plan pool ch) k (ts, w) ->
    k <= 8 * n + 2 * fuel + 4
    /\ (quiescent Locks.shared (ts, w) ->
        ts = repeat (Ret tt) (n + 2)
        /\ Locks.results w = []
        /\ Locks.results_closed w = true
        /\ Locks.wg w = 0
        /\ Locks.leased w = []).
Proof.
  intros pool ch fuel n max plan k ts w Hmax Hfuel Hrun.
  destruct (live_run_inv pool ch fuel n max plan Hmax Hfuel k (ts, w) Hrun)
    as (ws & c & m & Hts & Hlen & Hinv & Hk).
  simpl in Hts, Hinv. split; [lia|]. intros Hq. subst ts.
  destruct (live_inv_quiescent pool ch ws c m w Hinv Hq)
    as (Hall & -> & -> & Hres & Hcl & Hl & Hwg).
  rewrite (worker_threads_returned pool ch ws 0 Hall), Hlen, repeat_app.
  repeat split; assumption.
Qed.

Lemma advisoryLocksDemo_runs_to_its_end_witness :
  1 <= 25
  /\ 2 * 1 < 8
  /\ run_of_length Locks.shared LockCases.one_worker 18
       (fst LockRuns.all_done, snd LockRuns.all_done)
  /\ quiescent Locks.shared (fst LockRuns.all_done, snd LockRuns.all_done)
  /\ Locks.results (snd LockRuns.all_done) = []
  /\ Locks.leased (snd LockRuns.all_done) = [].
Proof.
  assert (Hmax : 1 <= 25) by lia.
  assert (Hfuel : 2 * 1 < 8) by lia.
  assert (Hrun : run_of_length Locks.shared (Locks.start 8 1 25 [] Sample.pool 9) 18
                   (fst LockRuns.all_done, snd LockRuns.all_done)).
  { apply (run_schedule_length Locks.shared LockCases.one_worker LockRuns.to_the_end
             0 LockCases.one_worker).
    - apply run_nil.
    - vm_compute. reflexivity. }
  assert (Hq : quiescent Locks.shared (fst LockRuns.all_done, snd LockRuns.all_done)).
  { change (fst LockRuns.all_done) with (repeat (@Ret unit tt) 3).
    apply returned_goroutines_are_quiescent. }
  split; [exact Hmax|]. split; [exact Hfuel|]. split; [exact Hrun|]. split; [exact Hq|].
  destruct (advisoryLocksDemo_runs_to_its_end Sample.pool 9 8 1 25 [] 18
              (fst LockRuns.all_done) (snd LockRuns.all_done) Hmax Hfuel Hrun)
    as (_ & Hdone).
  destruct (Hdone Hq) as (_ & Hres & _ & _ & Hl).
  split; [exact Hres | exact Hl].
Defined.
(* ===================================================================== *)
(** ** ConnectionPool: an acquisition at the ceiling *)
(* ===================================================================== *)


Section Ceiling.

Import advanced_patterns Locks LockPoints.
Variables (pool : database.Pool) (results : ChanH).










End Ceiling.




(** Five workers on a pool of two connections: two acquisitions are
    answered at once, the three others wait, and each of them is answered
    after a release; the run goes on to its end. *)
Example five_workers_two_connections :
  let init := Locks.start 12 5 2 [] Sample.pool 9 in
  (exists s, run_schedule Locks.shared [0; 1] init = Some s
             /\ Locks.leased (snd s) = [2; 1])
  /\ run_schedule Locks.shared [0; 1; 2] init = None
  /\ run_schedule Locks.shared [0; 1; 3] init = None
  /\ run_schedule Locks.shared [0; 1; 4] init = None
  /\ (exists s, run_schedule Locks.shared [0; 1; 0; 0; 0; 0; 0; 0; 2] init = Some s
                /\ Locks.leased (snd s) = [1; 2]).
Proof.
  vm_compute. split; [eexists; split; reflexivity|].
  repeat (split; [reflexivity|]). eexists. split; reflexivity.
Qed.

(** With a second connection the first update of listenNotifyDemo is
    answered and the demo runs to its end. *)
Example listenNotifyDemo_returns_with_two_connections :
  let r := run_alone PoolCalls.shared (listen_notify.listenNotifyDemo Sample.pool)
             (PoolCalls.start 2) in
  ending r = Ended (Returned tt)
  /\ List.length (calls r) = 17
  /\ Locks.leased (world r) = [].
Proof. vm_compute. repeat split. Qed.

(** [batchInserts] on a pool of one connection: the results of the batch
    hold the connection that [pool.Begin] waits for. *)
Example batchInserts_waits_with_one_connection :
  let r := run_alone PoolCalls.shared (batch_operations.batchInserts 8 Sample.pool)
             (PoolCalls.start 1) in
  ending r = Waits (PoolBegin (database.Pool_ Sample.pool))
  /\ lives (calls r) = [RowsOpened 1; RowsClosed 1; BatchSent 1]
  /\ Locks.leased (world r) = [1].
Proof. vm_compute. repeat split. Qed.

Example batchInserts_returns_with_two_connections :
  let r := run_alone PoolCalls.shared (batch_operations.batchInserts 8 Sample.pool)
             (PoolCalls.start 2) in
  ending r = Ended (Returned tt)
  /\ lives (calls r) = [RowsOpened 1; RowsClosed 1; BatchSent 1; TxBegun 2;
                        TxCommitted 2; TxRolledBack 2; BatchClosed 1]
  /\ Locks.leased (world r) = [].
Proof. vm_compute. repeat split. Qed.
(* ===================================================================== *)
(** ** BatchWriter: the results of the pgx.Batch of [batchInserts] *)
(* ===================================================================== *)

Section BatchReading.

Import batch_operations.
Context {S : Type} (h : Handler S).

Local Arguments for_range : simpl never.
Local Arguments while_ret : simpl never.
Local Arguments read_batch : simpl never.
Local Arguments defer : simpl never.










End BatchReading.



(** All the results are read, also behind a statement that failed, and
    also when every statement behind it fails too. *)
Example batch_is_read_to_the_end :
  let st := Datastore.with_faults (repeat None 50 ++ repeat (Some Sample.e2) 51)
              Datastore.empty in
  let r := run Datastore.pg (batch_operations.batchInserts 200 Sample.pool) st in
  List.length (reads (trace r)) = 100
  /\ map fst (failures 0 (reads (trace r))) = seq 49 51
  /\ nth_error (reports (trace r)) 2
     = Some (Ev (Printf ("✓ Inserted %d assets in %v (pgx.Batch)" ++ batch_operations.nl)
                        [AInt 49; AInt 1]) tt).
Proof. vm_compute. repeat split. Qed.
